(** * asdfghjkl: structured curvature matrices and K-BFGS secant kernels

    A shallow embedding of [asdfghjkl/symmatrix.py] and of the secant kernels
    of [asdfghjkl/precondition/kbfgs.py].

    Numbers are real numbers ([R]): the floating-point tensors of the source
    are read as exact reals, so every statement below is about the arithmetic
    the code performs, not about rounding.  Tensors are nested lists tagged
    with their rank; Python objects whose identity matters (tensors mutated
    in place, [Kron], [Diag], [UnitWise] and [SymMatrix] instances) live in a
    store addressed by locations. *)

From Stdlib Require Import ZArith Reals Lra Lia List Arith Bool Psatz.
Import ListNotations.

Set Implicit Arguments.
Open Scope R_scope.

(* ================================================================== *)
(** * Exceptions and the result monad *)
(* ================================================================== *)

(** The Python exceptions the modelled code can raise.  [ShapeError] is the
    [RuntimeError] torch raises on mismatched shapes or ranks,
    [NumericalError] the [LinAlgError] of a failed factorisation,
    [AttributeError] an attribute access on [None]. *)
Inductive error : Type :=
| AssertionError
| ShapeError
| AttributeError
| TypeError
| IndexError
| NumericalError.

Inductive result (A : Type) : Type :=
| Ok (a : A)
| Err (e : error).
Arguments Ok {A} a.
Arguments Err {A} e.

Definition bind {A B : Type} (c : result A) (k : A -> result B) : result B :=
  match c with
  | Ok a => k a
  | Err e => Err e
  end.

Notation "x <- c ;; k" := (bind c (fun x => k))
  (at level 61, c at next level, right associativity).
Notation "' p <- c ;; k" := (bind c (fun x => let p := x in k))
  (at level 61, p pattern, c at next level, right associativity).

Definition assert_ (b : bool) : result unit :=
  if b then Ok tt else Err AssertionError.

Definition is_ok {A : Type} (c : result A) : bool :=
  match c with Ok _ => true | Err _ => false end.

Lemma bind_ok_inv {A B : Type} (c : result A) (k : A -> result B) (b : B) :
  bind c k = Ok b -> exists a, c = Ok a /\ k a = Ok b.
Proof. destruct c as [a|e]; simpl; intros H; [eauto | discriminate]. Qed.

Lemma assert_ok_inv (b : bool) (u : unit) : assert_ b = Ok u -> b = true.
Proof. destruct b; simpl; [reflexivity | discriminate]. Qed.

(* ================================================================== *)
(** * Real-number comparisons as booleans *)
(* ================================================================== *)

Definition Rltb (x y : R) : bool := if Rlt_dec x y then true else false.
Definition Reqb (x y : R) : bool := if Req_dec_T x y then true else false.

Lemma Rltb_true (x y : R) : Rltb x y = true <-> x < y.
Proof. unfold Rltb; destruct (Rlt_dec x y); split; intros; try easy. Qed.

Lemma Rltb_false (x y : R) : Rltb x y = false <-> ~ x < y.
Proof. unfold Rltb; destruct (Rlt_dec x y); split; intros; try easy. Qed.

Lemma Reqb_true (x y : R) : Reqb x y = true <-> x = y.
Proof. unfold Reqb; destruct (Req_dec_T x y); split; intros; try easy. Qed.

Lemma Reqb_refl (x : R) : Reqb x x = true.
Proof. apply Reqb_true; reflexivity. Qed.

(** Python's [max(a, b)]: [a] unless [b] is strictly greater. *)
Definition py_max (a b : R) : R := if Rltb a b then b else a.

(* ================================================================== *)
(** * Vectors and matrices as lists *)
(* ================================================================== *)

Definition vec := list R.
Definition mat := list (list R).

Fixpoint dot (u v : vec) : R :=
  match u, v with
  | x :: u', y :: v' => x * y + dot u' v'
  | _, _ => 0
  end.

Fixpoint zipw {A B C : Type} (f : A -> B -> C) (l1 : list A) (l2 : list B) : list C :=
  match l1, l2 with
  | x :: l1', y :: l2' => f x y :: zipw f l1' l2'
  | _, _ => []
  end.

Definition vadd (u v : vec) : vec := zipw Rplus u v.

Definition vscale (c : R) (u : vec) : vec := map (fun x => x * c) u.

Definition mv (M : mat) (v : vec) : vec := map (fun row => dot row v) M.

Definition outer (u v : vec) : mat := map (fun x => map (fun y => x * y) v) u.

Definition madd (A B : mat) : mat := zipw vadd A B.

Definition mscale (c : R) (A : mat) : mat := map (vscale c) A.

Definition mget (M : mat) (i j : nat) : R := nth j (nth i M []) 0.

(** [mk_mat r c f] is the [r] x [c] matrix with entry [f i j] at [(i, j)]. *)
Definition mk_mat (r c : nat) (f : nat -> nat -> R) : mat :=
  map (fun i => map (fun j => f i j) (seq 0 c)) (seq 0 r).

Definition ncols (M : mat) : nat := length (hd [] M).

Definition transpose (M : mat) : mat :=
  mk_mat (ncols M) (length M) (fun i j => mget M j i).

Definition mm (A B : mat) : mat :=
  map (fun row => map (fun col => dot row col) (transpose B)) A.

Definition identity (n : nat) : mat :=
  mk_mat n n (fun i j => if Nat.eqb i j then 1 else 0).

(** Every row of [M] has length [c]. *)
Definition rowsb (c : nat) (M : mat) : bool :=
  forallb (fun row => Nat.eqb (length row) c) M.

Definition is_rect (r c : nat) (M : mat) : Prop :=
  length M = r /\ Forall (fun row => length row = c) M.

Definition is_symmetric (n : nat) (M : mat) : Prop :=
  is_rect n n M /\ forall i j, (i < n)%nat -> (j < n)%nat -> mget M i j = mget M j i.

Fixpoint veqb (u v : vec) : bool :=
  match u, v with
  | [], [] => true
  | x :: u', y :: v' => Reqb x y && veqb u' v'
  | _, _ => false
  end.

Fixpoint meqb (A B : mat) : bool :=
  match A, B with
  | [], [] => true
  | r :: A', s :: B' => veqb r s && meqb A' B'
  | _, _ => false
  end.

(* ================================================================== *)
(** * Tensors *)
(* ================================================================== *)

(** A torch tensor of rank 0 to 3, as nested lists in row-major order. *)
Inductive tensor : Type :=
| T0 (x : R)
| T1 (v : vec)
| T2 (m : mat)
| T3 (b : list mat).

Definition ndim (t : tensor) : nat :=
  match t with T0 _ => 0 | T1 _ => 1 | T2 _ => 2 | T3 _ => 3 end.

Definition shape (t : tensor) : list nat :=
  match t with
  | T0 _ => []
  | T1 v => [length v]
  | T2 m => [length m; ncols m]
  | T3 b => [length b; length (hd [] b); ncols (hd [] b)]
  end.

(** The rank of a tensor together with the length of every innermost row:
    two tensors have the same skeleton exactly when they have the same
    shape. *)
Definition skel (t : tensor) : nat * list (list nat) :=
  match t with
  | T0 _ => (0%nat, [])
  | T1 v => (1%nat, [[length v]])
  | T2 m => (2%nat, [map (@length R) m])
  | T3 b => (3%nat, map (map (@length R)) b)
  end.

Definition skel_eq_dec (a b : nat * list (list nat)) : {a = b} + {a <> b}.
Proof. repeat decide equality. Defined.

Definition same_shapeb (a b : tensor) : bool :=
  if skel_eq_dec (skel a) (skel b) then true else false.

Definition tmap (f : R -> R) (t : tensor) : tensor :=
  match t with
  | T0 x => T0 (f x)
  | T1 v => T1 (map f v)
  | T2 m => T2 (map (map f) m)
  | T3 b => T3 (map (map (map f)) b)
  end.

Definition tzip (f : R -> R -> R) (a b : tensor) : tensor :=
  match a, b with
  | T0 x, T0 y => T0 (f x y)
  | T1 u, T1 v => T1 (zipw f u v)
  | T2 m, T2 n => T2 (zipw (zipw f) m n)
  | T3 p, T3 q => T3 (zipw (zipw (zipw f)) p q)
  | _, _ => a
  end.

(** Elementwise binary operations of torch on two tensors of one shape.
    torch also broadcasts dimensions of size one; the modelled code never
    relies on it, and a mismatch is reported as [ShapeError]. *)
Definition tensor_zip (f : R -> R -> R) (a b : tensor) : result tensor :=
  if same_shapeb a b then Ok (tzip f a b) else Err ShapeError.

(** [a.add(b)] and the value [a.add_(b)] stores in [a]. *)
Definition tensor_add (a b : tensor) : result tensor := tensor_zip Rplus a b.

(** [a.mul(c)] and the value [a.mul_(c)] stores in [a], for a number [c]. *)
Definition tensor_mul (a : tensor) (c : R) : tensor := tmap (fun x => x * c) a.

(** The value [a.add_(b, alpha=alpha)] stores in [a]. *)
Definition tensor_add_alpha (a b : tensor) (alpha : R) : result tensor :=
  tensor_zip (fun x y => x + alpha * y) a b.

(** The value [a.sub_(b, alpha=alpha)] stores in [a]. *)
Definition tensor_sub_alpha (a b : tensor) (alpha : R) : result tensor :=
  tensor_zip (fun x y => x - alpha * y) a b.

(** [torch.dot]: both arguments of rank 1 and of one length. *)
Definition torch_dot (a b : tensor) : result R :=
  match a, b with
  | T1 u, T1 v =>
      if Nat.eqb (length u) (length v) then Ok (dot u v) else Err ShapeError
  | _, _ => Err ShapeError
  end.

(** [torch.mv]: a matrix and a vector whose length is the column count. *)
Definition torch_mv (a b : tensor) : result tensor :=
  match a, b with
  | T2 m, T1 v =>
      if rowsb (length v) m then Ok (T1 (mv m v)) else Err ShapeError
  | _, _ => Err ShapeError
  end.

(** [torch.outer] (and its old name [torch.ger]). *)
Definition torch_outer (a b : tensor) : result tensor :=
  match a, b with
  | T1 u, T1 v => Ok (T2 (outer u v))
  | _, _ => Err ShapeError
  end.

Definition mm_okb (A B : mat) : bool :=
  rowsb (length B) A && rowsb (ncols B) B.

(** [v @ M] for a vector [v]: the row vector times the matrix. *)
Definition vm (v : vec) (M : mat) : vec := map (fun col => dot v col) (transpose M).

(** [torch.matmul] (the [@] operator).  A rank-0 operand is refused:
    "both arguments to matmul need to be at least 1D". *)
Definition torch_matmul (a b : tensor) : result tensor :=
  match a, b with
  | T0 _, _ | _, T0 _ => Err ShapeError
  | T1 u, T1 v =>
      if Nat.eqb (length u) (length v) then Ok (T0 (dot u v)) else Err ShapeError
  | T2 m, T1 v =>
      if rowsb (length v) m then Ok (T1 (mv m v)) else Err ShapeError
  | T1 v, T2 m =>
      if mm_okb [v] m then Ok (T1 (vm v m)) else Err ShapeError
  | T2 m, T2 n =>
      if mm_okb m n then Ok (T2 (mm m n)) else Err ShapeError
  | T3 p, T1 v =>
      if forallb (rowsb (length v)) p
      then Ok (T2 (map (fun m => mv m v) p)) else Err ShapeError
  | T1 v, T3 q =>
      if forallb (mm_okb [v]) q
      then Ok (T2 (map (vm v) q)) else Err ShapeError
  | T3 p, T2 n =>
      if forallb (fun m => mm_okb m n) p
      then Ok (T3 (map (fun m => mm m n) p)) else Err ShapeError
  | T2 m, T3 q =>
      if forallb (mm_okb m) q
      then Ok (T3 (map (mm m) q)) else Err ShapeError
  | T3 p, T3 q =>
      if Nat.eqb (length p) (length q)
         && forallb (fun mn => mm_okb (fst mn) (snd mn)) (combine p q)
      then Ok (T3 (zipw mm p q)) else Err ShapeError
  end.

(** [torch.mm]: two matrices. *)
Definition torch_mm (a b : tensor) : result tensor :=
  match a, b with
  | T2 m, T2 n => if mm_okb m n then Ok (T2 (mm m n)) else Err ShapeError
  | _, _ => Err ShapeError
  end.

(** [H.shape] unpacked into two names: a [ValueError] unless the rank is 2. *)
Definition shape2 (t : tensor) : result (nat * nat) :=
  match t with
  | T2 m => Ok (length m, ncols m)
  | _ => Err TypeError
  end.

(** [torch.all(H.T == H)] for a rank-2 [H].  On a square matrix this is the
    symmetry test.  Otherwise the elementwise comparison raises, except when
    one dimension is 1 and broadcasting applies; whatever truth value comes
    out then, the assertion [d1 == d2] that follows fails, so [false] is
    returned. *)
Definition torch_all_eq_T (t : tensor) : result bool :=
  match t with
  | T2 m =>
      if Nat.eqb (length m) (ncols m) && rowsb (ncols m) m
      then Ok (meqb (transpose m) m)
      else if Nat.eqb (length m) 1 || Nat.eqb (ncols m) 1
           then Ok false
           else Err ShapeError
  | _ => Err ShapeError
  end.

(* ================================================================== *)
(** * Secant update kernels ([precondition/kbfgs.py]) *)
(* ================================================================== *)

(** [powell_lm_damping_(H, s, y, mu1, mu2)].  The function mutates [s] and
    [y] in place; the model returns the values they hold afterwards. *)
Definition powell_lm_damping_ (H s y : tensor) (mu1 mu2 : R)
  : result (tensor * tensor) :=
  _ <- assert_ (Rltb 0 mu1 && Rltb mu1 1) ;;
  _ <- assert_ (Rltb 0 mu2) ;;
  Hy <- torch_mv H y ;;
  ytHy <- torch_dot y Hy ;;
  sty <- torch_dot s y ;;
  let theta :=
    if Rltb sty (mu1 * ytHy)
    then (1 - mu1) * ytHy / (ytHy - sty)
    else 1 in
  s' <- tensor_sub_alpha (tensor_mul s theta) Hy (1 - theta) ;;
  y' <- tensor_add_alpha y s' mu2 ;;
  Ok (s', y').

(** [bfgs_inv_update_(H, s, y)].  The function mutates [H] in place; the
    model returns the value [H] holds afterwards.  [sty + ytHy] is a rank-0
    tensor, and the source applies [@] (matmul) to it. *)
Definition bfgs_inv_update_ (H s y : tensor) : result tensor :=
  _ <- assert_ (Nat.eqb (ndim H) 2) ;;
  sym <- torch_all_eq_T H ;;
  _ <- assert_ sym ;;
  '(d1, d2) <- shape2 H ;;
  _ <- assert_ (Nat.eqb d1 d2) ;;
  _ <- assert_ (Nat.eqb (ndim s) 1 && Nat.eqb (hd 0%nat (shape s)) d1) ;;
  _ <- assert_ (Nat.eqb (ndim y) 1 && Nat.eqb (hd 0%nat (shape y)) d1) ;;
  sty <- torch_dot s y ;;
  Hy <- torch_mv H y ;;
  Hyst <- torch_outer Hy s ;;
  ytHy <- torch_dot y Hy ;;
  sst <- torch_outer s s ;;
  num <- torch_matmul (T0 (sty + ytHy)) sst ;;
  H1 <- tensor_add H (tmap (fun x => x / (sty * sty)) num) ;;
  HystT <- (match Hyst with T2 m => Ok (T2 (transpose m)) | _ => Err ShapeError end) ;;
  sum <- tensor_add Hyst HystT ;;
  tensor_sub_alpha H1 (tmap (fun x => x / sty) sum) 1.

(* ================================================================== *)
(** * Facts about vectors *)
(* ================================================================== *)

(** Decide the comparisons of concrete reals that appear in a goal. *)
Ltac rltb :=
  repeat match goal with
  | |- context [Rltb ?a ?b] =>
      let H := fresh "Hlt" in
      first [ assert (H : Rltb a b = true) by (apply Rltb_true; simpl; lra)
            | assert (H : Rltb a b = false) by (apply Rltb_false; simpl; lra) ];
      rewrite H; clear H
  end.

(** Split an equation between structured values down to equations between
    reals and solve those in the field of reals. *)
Ltac struct_eq :=
  repeat (lazymatch goal with
          | |- @eq R _ _ => fail
          | |- _ => progress f_equal
          end);
  try (lazymatch goal with
       | |- @eq R _ _ => first [ lra | field; lra | field ]
       end).

Lemma zipw_length {A B C : Type} (f : A -> B -> C) (l1 : list A) (l2 : list B) :
  length l1 = length l2 -> length (zipw f l1 l2) = length l1.
Proof.
  revert l2; induction l1 as [|x l1 IH]; intros [|y l2] H; simpl in *;
    try discriminate; auto.
Qed.

Lemma dot_nil_r (u : vec) : dot u [] = 0.
Proof. destruct u; reflexivity. Qed.

Lemma dot_comm (u v : vec) : dot u v = dot v u.
Proof.
  revert v; induction u as [|x u IH]; intros [|y v]; simpl; auto.
  rewrite IH; ring.
Qed.

Lemma dot_map_scale (c : R) (u w : vec) :
  dot (map (fun x => x * c) u) w = c * dot u w.
Proof.
  revert w; induction u as [|x u IH]; intros [|z w]; simpl; try ring.
  rewrite IH; ring.
Qed.

(** [dot] is linear in a pointwise combination of two vectors of one
    length. *)
Lemma dot_zipw_lin (p q : R) (u v w : vec) :
  length u = length v ->
  dot (zipw (fun x y => p * x + q * y) u v) w = p * dot u w + q * dot v w.
Proof.
  revert v w; induction u as [|x u IH]; intros [|y v] w H; simpl in *;
    try discriminate; try ring.
  destruct w as [|z w]; simpl; [ring|].
  rewrite IH by lia. ring.
Qed.

Lemma zipw_ext {A B C : Type} (f g : A -> B -> C) (l1 : list A) (l2 : list B) :
  (forall x y, f x y = g x y) -> zipw f l1 l2 = zipw g l1 l2.
Proof.
  intros E; revert l2; induction l1 as [|x l1 IH]; intros [|y l2]; simpl; auto.
  rewrite E, IH; reflexivity.
Qed.

Lemma rowsb_true (c : nat) (M : mat) :
  rowsb c M = true <-> Forall (fun row => length row = c) M.
Proof.
  unfold rowsb; rewrite forallb_forall, Forall_forall.
  split; intros H x Hx; specialize (H x Hx); apply Nat.eqb_eq; exact H.
Qed.

Lemma mv_length (M : mat) (v : vec) : length (mv M v) = length M.
Proof. unfold mv; apply length_map. Qed.

Lemma same_shapeb_T1 (u v : vec) :
  same_shapeb (T1 u) (T1 v) = Nat.eqb (length u) (length v).
Proof.
  unfold same_shapeb.
  destruct (skel_eq_dec (skel (T1 u)) (skel (T1 v))) as [E|E];
    simpl in E; symmetry.
  - apply Nat.eqb_eq; congruence.
  - apply Nat.eqb_neq; intros L; apply E; rewrite L; reflexivity.
Qed.

(* ================================================================== *)
(** * Powell / Levenberg-Marquardt damping *)
(* ================================================================== *)

(** What [powell_lm_damping_] computes on inputs of matching dimension:
    [s] becomes [theta * s - (1 - theta) * Hy] and [y] becomes
    [y + mu2 * s] for that new [s]. *)
Lemma powell_lm_damping__spec (n : nat) (H : mat) (s y : vec) (mu1 mu2 : R) :
  Forall (fun row => length row = n) H -> length H = n ->
  length s = n -> length y = n ->
  0 < mu1 < 1 -> 0 < mu2 ->
  let Hy := mv H y in
  let ytHy := dot y Hy in
  let sty := dot s y in
  let theta := if Rltb sty (mu1 * ytHy)
               then (1 - mu1) * ytHy / (ytHy - sty) else 1 in
  let s' := zipw (fun x z => x - (1 - theta) * z) (map (fun x => x * theta) s) Hy in
  powell_lm_damping_ (T2 H) (T1 s) (T1 y) mu1 mu2
  = Ok (T1 s', T1 (zipw (fun x z => x + mu2 * z) y s')).
Proof.
  intros Hrows HlenH Hs Hy0 [Hmu1a Hmu1b] Hmu2; cbv zeta.
  unfold powell_lm_damping_.
  replace (Rltb 0 mu1) with true by (symmetry; apply Rltb_true; lra).
  replace (Rltb mu1 1) with true by (symmetry; apply Rltb_true; lra).
  replace (Rltb 0 mu2) with true by (symmetry; apply Rltb_true; lra).
  simpl.
  apply rowsb_true in Hrows. rewrite <- Hy0 in Hrows. rewrite Hrows. simpl.
  rewrite mv_length, Hy0, HlenH, Nat.eqb_refl. simpl.
  rewrite Hs, Nat.eqb_refl. simpl.
  unfold tensor_sub_alpha, tensor_add_alpha, tensor_zip.
  rewrite !same_shapeb_T1.
  rewrite length_map, mv_length, Hs, HlenH, Nat.eqb_refl. simpl.
  rewrite same_shapeb_T1, zipw_length
    by (rewrite length_map, mv_length; congruence).
  rewrite length_map, Hs, Hy0, Nat.eqb_refl. simpl.
  reflexivity.
Qed.

(** The inner product of the replaced [s] with [y]:
    [theta * (sty + ytHy) - ytHy]. *)
Lemma powell_new_sty (theta : R) (s Hy y : vec) :
  length s = length Hy ->
  dot (zipw (fun x z => x - (1 - theta) * z) (map (fun x => x * theta) s) Hy) y
  = theta * (dot s y + dot Hy y) - dot Hy y.
Proof.
  intros L.
  rewrite (zipw_ext _ (fun x z => 1 * x + (- (1 - theta)) * z))
    by (intros; ring).
  rewrite dot_zipw_lin by (rewrite length_map; exact L).
  rewrite dot_map_scale. ring.
Qed.

(** Whenever the damping branch is taken on a pair with positive [ytHy],
    the replaced [s] misses the curvature bound: [s'.y < mu1 * ytHy]. *)
Lemma powell_lm_damping__misses_bound (n : nat) (H : mat) (s y : vec) (mu1 mu2 : R) :
  Forall (fun row => length row = n) H -> length H = n ->
  length s = n -> length y = n ->
  0 < mu1 < 1 -> 0 < mu2 ->
  0 < dot y (mv H y) ->
  dot s y < mu1 * dot y (mv H y) ->
  exists s' y',
    powell_lm_damping_ (T2 H) (T1 s) (T1 y) mu1 mu2 = Ok (T1 s', T1 y')
    /\ dot s' y < mu1 * dot y (mv H y).
Proof.
  intros Hrows HlenH Hs Hy0 Hmu1 Hmu2 Hpos Hlt.
  eexists; eexists; split.
  - apply (powell_lm_damping__spec (n := n)); assumption.
  - replace (Rltb (dot s y) (mu1 * dot y (mv H y))) with true
      by (symmetry; apply Rltb_true; exact Hlt).
    rewrite powell_new_sty by (rewrite mv_length; congruence).
    rewrite (dot_comm (mv H y) y).
    set (a := dot y (mv H y)) in *. set (b := dot s y) in *.
    assert (Hab : 0 < a - b) by nra.
    assert (E : (1 - mu1) * a / (a - b) * (b + a) - a
                = ((1 - mu1) * a * (b + a) - a * (a - b)) / (a - b))
      by (field; lra).
    rewrite E.
    apply (Rmult_lt_reg_r (a - b)); [exact Hab|].
    unfold Rdiv. rewrite Rmult_assoc, Rinv_l by lra.
    nra.
Qed.

(** C1 (the code departs from the claim).  At [H = [[1]]], [s = [0]],
    [y = [1]], [mu1 = 1/5], [mu2 = 1] the damping branch is taken
    ([sty = 0 < mu1 * ytHy = 1/5]) and [powell_lm_damping_] leaves
    [s = [-1/5]] and [y = [4/5]]: the inner product of the replaced [s] with
    the original [y] is [-1/5], below [mu1 * ytHy = 1/5] and not positive,
    and so is its inner product with the replaced [y]. *)
Theorem powell_lm_damping__loses_curvature :
  powell_lm_damping_ (T2 [[1]]) (T1 [0]) (T1 [1]) (1/5) 1
  = Ok (T1 [-1/5], T1 [4/5])
  /\ dot [-1/5] [1] = -1/5
  /\ dot [-1/5] [1] < (1/5) * dot [1] (mv [[1]] [1])
  /\ dot [-1/5] [4/5] < 0.
Proof.
  split.
  - rewrite (powell_lm_damping__spec (n := 1)); simpl;
      try lra; try (repeat constructor); try reflexivity.
    rltb. struct_eq.
  - simpl. repeat split; lra.
Qed.

(** For comparison: Powell's replacement as the literature states it,
    [theta * s + (1 - theta) * Hy], with the [theta] of the code, does meet
    the bound.  The code subtracts where this formula adds. *)
Lemma powell_plus_meets_bound (mu1 : R) (s Hy y : vec) :
  length s = length Hy ->
  0 < mu1 < 1 ->
  0 < dot Hy y ->
  let theta := if Rltb (dot s y) (mu1 * dot Hy y)
               then (1 - mu1) * dot Hy y / (dot Hy y - dot s y) else 1 in
  mu1 * dot Hy y
  <= dot (zipw (fun x z => 1 * x + (1 - theta) * z) (map (fun x => x * theta) s) Hy) y.
Proof.
  intros L Hmu Hpos; cbv zeta.
  rewrite dot_zipw_lin by (rewrite length_map; exact L).
  rewrite dot_map_scale.
  set (a := dot Hy y) in *. set (b := dot s y) in *.
  unfold Rltb; destruct (Rlt_dec b (mu1 * a)) as [Hlt|Hge].
  - assert (Hab : 0 < a - b) by nra.
    right. field. lra.
  - lra.
Qed.

(* ================================================================== *)
(** * BFGS inverse update *)
(* ================================================================== *)

(** C5 (the code departs from the claim).  [bfgs_inv_update_] never returns:
    on every input that passes its assertions and shape checks it reaches
    [(sty + ytHy) @ sst], a matmul whose left operand has rank 0, and torch
    refuses it.  No updated matrix is produced, for [H] the identity or any
    other. *)
Theorem bfgs_inv_update__always_raises (H s y : tensor) :
  exists e, bfgs_inv_update_ H s y = Err e.
Proof.
  unfold bfgs_inv_update_.
  repeat lazymatch goal with
  | |- exists e, bind ?c _ = Err e =>
      destruct c as [?|?]; simpl; [| eexists; reflexivity]
  | |- exists e, (let (_, _) := ?p in _) = Err e => destruct p; simpl
  end.
  eexists; reflexivity.
Qed.

(** The same at a concrete secant pair with [H] the 2 x 2 identity and
    [s.y = 11]: the call stops at the matmul with a shape error. *)
Example bfgs_inv_update__identity_raises :
  bfgs_inv_update_ (T2 (identity 2)) (T1 [1; 2]) (T1 [3; 4]) = Err ShapeError.
Proof.
  unfold bfgs_inv_update_. simpl. rewrite !Reqb_refl. simpl. reflexivity.
Qed.

(* ================================================================== *)
(** * Entrywise reasoning on vectors and matrices *)
(* ================================================================== *)

Lemma nth_zipw {A B C : Type} (f : A -> B -> C) (l1 : list A) (l2 : list B)
      (i : nat) (da : A) (db : B) (dc : C) :
  (i < length l1)%nat -> (i < length l2)%nat ->
  nth i (zipw f l1 l2) dc = f (nth i l1 da) (nth i l2 db).
Proof.
  revert l2 i; induction l1 as [|x l1 IH]; intros [|y l2] [|i] H1 H2;
    simpl in *; try lia; auto.
  apply IH; lia.
Qed.

Lemma nth_map' {A B : Type} (f : A -> B) (l : list A) (i : nat) (da : A) (db : B) :
  (i < length l)%nat -> nth i (map f l) db = f (nth i l da).
Proof.
  intros H. rewrite (nth_indep _ db (f da)) by (rewrite length_map; exact H).
  apply map_nth.
Qed.

Lemma nth_map_seq {B : Type} (f : nat -> B) (a n i : nat) (d : B) :
  (i < n)%nat -> nth i (map f (seq a n)) d = f (a + i)%nat.
Proof.
  intros H. rewrite (nth_map' f (seq a n) 0%nat d) by (rewrite length_seq; exact H).
  rewrite seq_nth by exact H. reflexivity.
Qed.

Lemma vec_ext (u v : vec) :
  length u = length v ->
  (forall i, (i < length u)%nat -> nth i u 0 = nth i v 0) -> u = v.
Proof. intros L E. apply (nth_ext u v 0 0 L E). Qed.

Lemma is_rect_row (r c : nat) (M : mat) (i : nat) :
  is_rect r c M -> (i < r)%nat -> length (nth i M []) = c.
Proof.
  intros [L F] Hi. rewrite Forall_forall in F. apply F.
  apply nth_In. lia.
Qed.

Lemma mat_ext (r c : nat) (A B : mat) :
  is_rect r c A -> is_rect r c B ->
  (forall i j, (i < r)%nat -> (j < c)%nat -> mget A i j = mget B i j) ->
  A = B.
Proof.
  intros HA HB E.
  apply (nth_ext A B [] []).
  - destruct HA, HB; congruence.
  - intros i Hi. assert (Hi' : (i < r)%nat) by (destruct HA; lia).
    apply vec_ext.
    + rewrite (is_rect_row HA Hi'), (is_rect_row HB Hi'); reflexivity.
    + intros j Hj. rewrite (is_rect_row HA Hi') in Hj. apply (E i j Hi' Hj).
Qed.

Lemma mk_mat_rect (r c : nat) (f : nat -> nat -> R) : is_rect r c (mk_mat r c f).
Proof.
  unfold mk_mat; split.
  - rewrite length_map, length_seq; reflexivity.
  - apply Forall_forall; intros row Hrow.
    apply in_map_iff in Hrow as [i [<- _]].
    rewrite length_map, length_seq; reflexivity.
Qed.

Lemma mget_mk_mat (r c : nat) (f : nat -> nat -> R) (i j : nat) :
  (i < r)%nat -> (j < c)%nat -> mget (mk_mat r c f) i j = f i j.
Proof.
  intros Hi Hj. unfold mget, mk_mat.
  rewrite (nth_map_seq _ 0 (n := r) [] Hi). simpl.
  rewrite (nth_map_seq _ 0 (n := c) 0 Hj). reflexivity.
Qed.

Lemma is_rect_ncols (r c : nat) (M : mat) :
  is_rect r c M -> (0 < r)%nat -> ncols M = c.
Proof.
  intros [L F] Hr. unfold ncols. destruct M as [|row M]; simpl in *; [lia|].
  inversion F; assumption.
Qed.

Lemma is_rect_rowsb (r c : nat) (M : mat) : is_rect r c M -> rowsb c M = true.
Proof. intros [_ F]. apply rowsb_true; exact F. Qed.

(** Finite sums [f a + f (a+1) + ... + f (a+n-1)]. *)
Fixpoint rsum (a n : nat) (f : nat -> R) : R :=
  match n with
  | O => 0
  | S k => f a + rsum (S a) k f
  end.

Lemma rsum_ext (a n : nat) (f g : nat -> R) :
  (forall k, (a <= k < a + n)%nat -> f k = g k) -> rsum a n f = rsum a n g.
Proof.
  revert a; induction n as [|n IH]; intros a E; simpl; [reflexivity|].
  rewrite (E a) by lia. rewrite (IH (S a)); [reflexivity|].
  intros k Hk; apply E; lia.
Qed.

Lemma rsum_shift (a n : nat) (f : nat -> R) :
  rsum (S a) n f = rsum a n (fun k => f (S k)).
Proof.
  revert a; induction n as [|n IH]; intros a; simpl; [reflexivity|].
  rewrite IH; reflexivity.
Qed.

Lemma rsum_plus (a n : nat) (f g : nat -> R) :
  rsum a n (fun k => f k + g k) = rsum a n f + rsum a n g.
Proof.
  revert a; induction n as [|n IH]; intros a; simpl; [ring|].
  rewrite IH; ring.
Qed.

Lemma rsum_scale (a n : nat) (c : R) (f : nat -> R) :
  rsum a n (fun k => c * f k) = c * rsum a n f.
Proof.
  revert a; induction n as [|n IH]; intros a; simpl; [ring|].
  rewrite IH; ring.
Qed.

Lemma rsum_zero (a n : nat) : rsum a n (fun _ => 0) = 0.
Proof. revert a; induction n as [|n IH]; intros a; simpl; [|rewrite IH]; ring. Qed.

(** Exchange of two finite sums. *)
Lemma rsum_swap (a b m n : nat) (f : nat -> nat -> R) :
  rsum a m (fun i => rsum b n (fun j => f i j))
  = rsum b n (fun j => rsum a m (fun i => f i j)).
Proof.
  revert a; induction m as [|m IH]; intros a; simpl.
  - rewrite rsum_zero; reflexivity.
  - rewrite IH, <- rsum_plus. reflexivity.
Qed.

(** A sum with one non-zero term. *)
Lemma rsum_delta (a n i : nat) (f : nat -> R) :
  (a <= i < a + n)%nat ->
  rsum a n (fun k => if Nat.eqb i k then f k else 0) = f i.
Proof.
  revert a; induction n as [|n IH]; intros a H; simpl; [lia|].
  destruct (Nat.eqb_spec i a) as [->|Hne].
  - rewrite (@rsum_ext _ _ _ (fun _ => 0)), rsum_zero; [ring|].
    intros k Hk. destruct (Nat.eqb_spec a k); [lia | reflexivity].
  - rewrite IH by lia. ring.
Qed.

Lemma dot_rsum (u v : vec) :
  length u = length v ->
  dot u v = rsum 0 (length u) (fun k => nth k u 0 * nth k v 0).
Proof.
  revert v; induction u as [|x u IH]; intros [|y v] L; simpl in *;
    try discriminate; [reflexivity|].
  rewrite rsum_shift. simpl. rewrite IH by lia. reflexivity.
Qed.

Lemma mget_mm (r k c : nat) (A B : mat) (i j : nat) :
  is_rect r k A -> is_rect k c B -> (0 < k)%nat ->
  (i < r)%nat -> (j < c)%nat ->
  mget (mm A B) i j = rsum 0 k (fun l => mget A i l * mget B l j).
Proof.
  intros HA HB Hk Hi Hj. unfold mget at 1, mm.
  rewrite (nth_map' _ A [] []) by (destruct HA; lia).
  unfold transpose. rewrite (is_rect_ncols HB Hk).
  destruct HB as [LB FB]. rewrite LB. unfold mk_mat.
  rewrite map_map.
  rewrite (nth_map_seq _ 0 (n := c) 0 Hj). simpl.
  rewrite dot_rsum
    by (rewrite length_map, length_seq; apply (is_rect_row HA Hi)).
  rewrite (is_rect_row HA Hi).
  apply rsum_ext; intros l Hl. unfold mget.
  rewrite (nth_map_seq _ 0 (n := k) 0) by lia. reflexivity.
Qed.

Lemma mm_rect (r k c : nat) (A B : mat) :
  is_rect r k A -> is_rect k c B -> (0 < k)%nat -> is_rect r c (mm A B).
Proof.
  intros [LA FA] HB Hk. unfold mm; split.
  - rewrite length_map; exact LA.
  - apply Forall_forall; intros row Hrow.
    apply in_map_iff in Hrow as [a [<- _]].
    rewrite length_map. unfold transpose.
    rewrite (is_rect_ncols HB Hk).
    destruct (mk_mat_rect c (length B) (fun i j => mget B j i)) as [L _]; exact L.
Qed.

Lemma mv_nth (M : mat) (v : vec) (i : nat) :
  (i < length M)%nat -> length (nth i M []) = length v ->
  nth i (mv M v) 0 = rsum 0 (length v) (fun k => mget M i k * nth k v 0).
Proof.
  intros Hi L. unfold mv. rewrite (nth_map' _ M [] 0 Hi).
  rewrite dot_rsum by exact L. rewrite L. reflexivity.
Qed.

Lemma length_zipw {A B C : Type} (f : A -> B -> C) (l1 : list A) (l2 : list B) :
  length (zipw f l1 l2) = Nat.min (length l1) (length l2).
Proof.
  revert l2; induction l1 as [|x l1 IH]; intros [|y l2]; simpl; auto.
Qed.

(** Solve side conditions about lengths of mapped and zipped lists. *)
Ltac len :=
  repeat (rewrite ?length_zipw, ?length_map, ?length_seq, ?mv_length in * );
  try lia.

Lemma mv_zipw_lin (c : nat) (p q : R) (A B : mat) (y : vec) :
  Forall (fun row => length row = c) A ->
  Forall (fun row => length row = c) B ->
  mv (zipw (zipw (fun x z => p * x + q * z)) A B) y
  = zipw (fun x z => p * x + q * z) (mv A y) (mv B y).
Proof.
  intros FA; revert B; induction FA as [|ra A Hra FA IH];
    intros [|rb B] FB; simpl; try reflexivity.
  inversion FB as [|? ? Hrb FB']; subst.
  rewrite dot_zipw_lin by congruence.
  f_equal. apply IH; assumption.
Qed.

Lemma mv_map_scale (c : R) (A : mat) (y : vec) :
  mv (map (map (fun x => x * c)) A) y = map (fun x => x * c) (mv A y).
Proof.
  unfold mv. rewrite !map_map. apply map_ext; intros row.
  rewrite dot_map_scale; ring.
Qed.

Lemma mv_outer (u v y : vec) :
  mv (outer u v) y = map (fun x => x * dot v y) u.
Proof.
  unfold mv, outer. rewrite map_map. apply map_ext; intros x.
  revert y; induction v as [|z v IH]; intros [|w y]; simpl; try ring.
  rewrite IH; ring.
Qed.

Lemma outer_rect (u v : vec) : is_rect (length u) (length v) (outer u v).
Proof.
  unfold outer; split; [apply length_map|].
  apply Forall_forall; intros row Hrow.
  apply in_map_iff in Hrow as [x [<- _]]. apply length_map.
Qed.

Lemma mget_outer (u v : vec) (i j : nat) :
  (i < length u)%nat -> (j < length v)%nat ->
  mget (outer u v) i j = nth i u 0 * nth j v 0.
Proof.
  intros Hi Hj. unfold mget, outer.
  rewrite (nth_map' _ u 0 [] Hi), (nth_map' _ v 0 0 Hj). reflexivity.
Qed.

Lemma transpose_rect (r c : nat) (M : mat) :
  is_rect r c M -> (0 < r)%nat -> is_rect c r (transpose M).
Proof.
  intros HM Hr. unfold transpose.
  rewrite (is_rect_ncols HM Hr). destruct HM as [-> _]. apply mk_mat_rect.
Qed.

Lemma mget_transpose (r c : nat) (M : mat) (i j : nat) :
  is_rect r c M -> (i < c)%nat -> (j < r)%nat ->
  mget (transpose M) i j = mget M j i.
Proof.
  intros HM Hi Hj. unfold transpose.
  rewrite (is_rect_ncols HM) by lia. destruct HM as [L _].
  rewrite L.
  exact (@mget_mk_mat c r (fun i j => mget M j i) i j Hi Hj).
Qed.

Lemma transpose_nil : transpose [] = [].
Proof. reflexivity. Qed.

Lemma transpose_outer (u v : vec) :
  length u = length v -> transpose (outer u v) = outer v u.
Proof.
  intros L. destruct u as [|x u].
  - destruct v; [reflexivity | discriminate].
  - apply (@mat_ext (length v) (length (x :: u))).
    + apply transpose_rect; [apply outer_rect | simpl; lia].
    + apply outer_rect.
    + intros i j Hi Hj.
      rewrite (mget_transpose (outer_rect (x :: u) v)) by assumption.
      rewrite !mget_outer by assumption. ring.
Qed.

Lemma mv_identity (n : nat) (y : vec) : length y = n -> mv (identity n) y = y.
Proof.
  intros L. apply vec_ext.
  - rewrite mv_length. destruct (mk_mat_rect n n (fun i j => if Nat.eqb i j then 1 else 0)) as [E _].
    unfold identity; congruence.
  - intros i Hi. rewrite mv_length in Hi.
    pose proof (mk_mat_rect n n (fun i j => if Nat.eqb i j then 1 else 0)) as HI.
    fold (identity n) in HI.
    assert (Hin : (i < n)%nat) by (destruct HI; lia).
    rewrite mv_nth; [| destruct HI; lia | rewrite (is_rect_row HI Hin); congruence].
    rewrite L.
    rewrite (@rsum_ext _ _ _ (fun k => if Nat.eqb i k then nth k y 0 else 0)).
    + apply rsum_delta; lia.
    + intros k Hk. unfold identity. rewrite mget_mk_mat by lia.
      destruct (Nat.eqb i k); ring.
Qed.

(** The update the docstring of [bfgs_inv_update_] names, the
    Sherman-Morrison form of the BFGS update of an inverse, with a scalar
    product where the source has [@]:
    [H + (sty + ytHy) * sst / sty^2 - (Hyst + Hyst^T) / sty]. *)
Definition sherman_morrison (H : mat) (s y : vec) : mat :=
  let sty := dot s y in
  let Hy := mv H y in
  let Hyst := outer Hy s in
  let ytHy := dot y Hy in
  let sst := outer s s in
  let H1 := madd H (map (map (fun x => x * ((sty + ytHy) / (sty * sty)))) sst) in
  zipw (zipw (fun a b => 1 * a + (-1) * b)) H1
       (map (map (fun x => x * (/ sty))) (madd Hyst (transpose Hyst))).

(** That update does satisfy the secant equation on [H] the identity: the
    property the claim states is the one the formula of the docstring has,
    and the one the code would have with [*] in place of [@]. *)
Lemma sherman_morrison_secant (n : nat) (s y : vec) :
  length s = n -> length y = n -> dot s y <> 0 ->
  mv (sherman_morrison (identity n) s y) y = s.
Proof.
  intros Ls Ly Hsty. unfold sherman_morrison.
  rewrite (@mv_identity n y Ly).
  rewrite transpose_outer by congruence.
  pose proof (mk_mat_rect n n (fun i j => if Nat.eqb i j then 1 else 0)) as [LI FI].
  fold (identity n) in LI, FI.
  pose proof (outer_rect s s) as [Lss Fss]. rewrite Ls in Lss, Fss.
  pose proof (outer_rect y s) as [Lys Fys]. rewrite Ls, Ly in *.
  pose proof (outer_rect s y) as [Lsy Fsy]. rewrite Ls, Ly in *.
  assert (Fadd : forall A B : mat,
             Forall (fun row => length row = n) A ->
             Forall (fun row => length row = n) B ->
             Forall (fun row => length row = n) (madd A B)).
  { intros A B FA; revert B; induction FA as [|ra A Hra FA IH];
      intros [|rb B] FB; simpl; constructor.
    - inversion FB; subst. unfold vadd. len.
    - inversion FB; subst. apply IH; assumption. }
  assert (Fmap : forall (g : R -> R) (A : mat),
             Forall (fun row => length row = n) A ->
             Forall (fun row => length row = n) (map (map g) A)).
  { intros g A FA. induction FA; simpl; constructor; auto. len. }
  rewrite (@mv_zipw_lin n) by auto.
  rewrite mv_map_scale.
  unfold madd, vadd.
  rewrite !(zipw_ext (zipw Rplus) (zipw (fun x z => 1 * x + 1 * z)))
    by (intros; apply zipw_ext; intros; ring).
  rewrite !(@mv_zipw_lin n) by auto.
  rewrite (@mv_identity n y Ly), mv_map_scale, !mv_outer.
  apply vec_ext; [len|].
  intros i Hi. len.
  rewrite (nth_zipw _ _ _ 0 0), (nth_zipw _ _ _ 0 0), (nth_map' _ _ 0),
    (nth_map' _ _ 0), (nth_map' _ _ 0), (nth_zipw _ _ _ 0 0),
    (nth_map' _ _ 0), (nth_map' _ _ 0) by len.
  field. exact Hsty.
Qed.

(* ================================================================== *)
(** * Packing and unpacking the lower triangle ([symmatrix.py]) *)
(* ================================================================== *)

(** [torch.tril_indices(row, col)]: the positions on or below the diagonal,
    row by row. *)
Definition tril_indices (row col : nat) : list (nat * nat) :=
  flat_map (fun i => map (fun j => (i, j)) (seq 0 (Nat.min (S i) col)))
           (seq 0 row).

Definition numel (t : tensor) : nat :=
  match t with
  | T0 _ => 1
  | T1 v => length v
  | T2 m => length (concat m)
  | T3 b => length (concat (concat b))
  end.

(** Python's [int(x)] on a float: truncation towards zero. *)
Definition py_int (x : R) : Z :=
  if Rltb x 0 then (- Int_part (- x))%Z else Int_part x.

(** [matrix_to_tril(mat)]: gather the entries at [tril_indices]. *)
Definition matrix_to_tril (t : tensor) : result tensor :=
  _ <- assert_ (Nat.eqb (ndim t) 2) ;;
  match t with
  | T2 m =>
      Ok (T1 (map (fun ij => mget m (fst ij) (snd ij))
                  (tril_indices (length m) (ncols m))))
  | _ => Err TypeError
  end.

(** [get_n_cols_by_tril(tril)]:
    [int(np.sqrt(2 * numel + 0.25) - 0.5)]. *)
Definition get_n_cols_by_tril (tril : tensor) : result nat :=
  _ <- assert_ (Nat.eqb (ndim tril) 1) ;;
  Ok (Z.to_nat (py_int (sqrt (2 * INR (numel tril) + 0.25) - 0.5))).

Fixpoint set_nth {A : Type} (l : list A) (i : nat) (x : A) : list A :=
  match l, i with
  | [], _ => []
  | _ :: l', O => x :: l'
  | y :: l', S i' => y :: set_nth l' i' x
  end.

Definition mset (m : mat) (i j : nat) (v : R) : mat :=
  set_nth m i (set_nth (nth i m []) j v).

Definition in_rangeb (m : mat) (ij : nat * nat) : bool :=
  Nat.ltb (fst ij) (length m) && Nat.ltb (snd ij) (length (nth (fst ij) m [])).

(** [rst[idx0, idx1] = vals] (torch's [index_put_]): the values are written
    at the listed positions in order.  [vals] must have one value per
    position, or a single value that is broadcast to all of them; any other
    length is torch's "shape mismatch: value tensor ... cannot be broadcast
    to indexing result".  A position outside the matrix is refused. *)
Definition index_put (rst : mat) (idx : list (nat * nat)) (vals : vec) : result mat :=
  let put := fun (m : mat) (pv : (nat * nat) * R) =>
               mset m (fst (fst pv)) (snd (fst pv)) (snd pv) in
  if Nat.eqb (length vals) (length idx)
  then if forallb (in_rangeb rst) idx
       then Ok (fold_left put (combine idx vals) rst)
       else Err IndexError
  else if Nat.eqb (length vals) 1
       then if forallb (in_rangeb rst) idx
            then Ok (fold_left put (map (fun ij => (ij, hd 0 vals)) idx) rst)
            else Err IndexError
       else Err ShapeError.

Definition zeros (r c : nat) : mat := mk_mat r c (fun _ _ => 0).

(** [torch.diag] of a matrix (its diagonal) and of a vector (the diagonal
    matrix). *)
Definition diag_of_mat (m : mat) : vec :=
  map (fun i => mget m i i) (seq 0 (Nat.min (length m) (ncols m))).

Definition diag_of_vec (v : vec) : mat :=
  mk_mat (length v) (length v) (fun i j => if Nat.eqb i j then nth i v 0 else 0).

(** [tril_to_matrix(tril)]. *)
Definition tril_to_matrix (tril : tensor) : result tensor :=
  _ <- assert_ (Nat.eqb (ndim tril) 1) ;;
  n_cols <- get_n_cols_by_tril tril ;;
  match tril with
  | T1 v =>
      rst <- index_put (zeros n_cols n_cols) (tril_indices n_cols n_cols) v ;;
      sum <- tensor_add (T2 rst) (T2 (transpose rst)) ;;
      tensor_sub_alpha sum (T2 (diag_of_vec (diag_of_mat rst))) 1
  | _ => Err TypeError
  end.

(** The [n]-th triangular number [n (n + 1) / 2]. *)
Definition tri (n : nat) : nat := (n * (n + 1) / 2)%nat.

Lemma tri_S (n : nat) : tri (S n) = (tri n + S n)%nat.
Proof.
  unfold tri.
  replace (S n * (S n + 1))%nat with (n * (n + 1) + S n * 2)%nat by lia.
  rewrite Nat.div_add by lia. reflexivity.
Qed.

Lemma tri_double (n : nat) : (2 * tri n = n * (n + 1))%nat.
Proof.
  induction n as [|n IH]; [reflexivity|].
  rewrite tri_S. lia.
Qed.

Lemma length_tril_indices_gen (n k : nat) :
  (k <= n)%nat ->
  length (flat_map (fun i => map (fun j => (i, j)) (seq 0 (Nat.min (S i) n)))
                   (seq 0 k)) = tri k.
Proof.
  induction k as [|k IH]; intros Hk; [reflexivity|].
  rewrite seq_S, flat_map_app, length_app, IH by lia.
  cbn [flat_map seq]. rewrite app_nil_r, tri_S, length_map, length_seq.
  rewrite Nat.min_l by lia. reflexivity.
Qed.

Lemma length_tril_indices (n : nat) : length (tril_indices n n) = tri n.
Proof. apply length_tril_indices_gen; lia. Qed.

Lemma in_tril_indices (n i j : nat) :
  In (i, j) (tril_indices n n) <-> (i < n /\ j <= i)%nat.
Proof.
  unfold tril_indices. rewrite in_flat_map. split.
  - intros [k [Hk Hin]]. apply in_seq in Hk.
    apply in_map_iff in Hin as [l [E Hl]]. apply in_seq in Hl.
    inversion E; subst. lia.
  - intros [Hi Hj]. exists i. split; [apply in_seq; lia|].
    apply in_map_iff. exists j. split; [reflexivity | apply in_seq; lia].
Qed.

(** On [n (n + 1) / 2] the square root is exact: the radicand is
    [(n + 1/2)^2]. *)
Lemma py_int_sqrt_tri (n : nat) :
  py_int (sqrt (2 * INR (tri n) + 0.25) - 0.5) = Z.of_nat n.
Proof.
  assert (E : 2 * INR (tri n) + 0.25 = (INR n + 1/2) * (INR n + 1/2)).
  { replace 2 with (INR 2) by (simpl; lra).
    rewrite <- mult_INR, tri_double, mult_INR, plus_INR. simpl. lra. }
  rewrite E, sqrt_square by (pose proof (pos_INR n); lra).
  replace (INR n + 1 / 2 - 0.5) with (INR n) by lra.
  unfold py_int.
  replace (Rltb (INR n) 0) with false
    by (symmetry; apply Rltb_false; pose proof (pos_INR n); lra).
  apply Int_part_INR.
Qed.

Lemma get_n_cols_by_tril_tri (v : vec) (n : nat) :
  length v = tri n -> get_n_cols_by_tril (T1 v) = Ok n.
Proof.
  intros L. unfold get_n_cols_by_tril. simpl. rewrite L.
  rewrite py_int_sqrt_tri, Nat2Z.id. reflexivity.
Qed.

Lemma length_set_nth {A : Type} (l : list A) (i : nat) (x : A) :
  length (set_nth l i x) = length l.
Proof.
  revert i; induction l as [|y l IH]; intros [|i]; simpl; auto.
Qed.

Lemma nth_set_nth_eq {A : Type} (l : list A) (i : nat) (x d : A) :
  (i < length l)%nat -> nth i (set_nth l i x) d = x.
Proof.
  revert i; induction l as [|y l IH]; intros [|i] H; simpl in *; try lia; auto.
  apply IH; lia.
Qed.

Lemma nth_set_nth_neq {A : Type} (l : list A) (i k : nat) (x d : A) :
  i <> k -> nth k (set_nth l i x) d = nth k l d.
Proof.
  revert i k; induction l as [|y l IH]; intros [|i] [|k] H; simpl; auto; try lia.
Qed.

Lemma mset_rect (r c : nat) (m : mat) (i j : nat) (v : R) :
  is_rect r c m -> is_rect r c (mset m i j v).
Proof.
  intros [L F]. unfold mset. split; [rewrite length_set_nth; exact L|].
  rewrite Forall_forall in *. intros row Hrow.
  destruct (In_nth _ _ [] Hrow) as [k [Hk <-]].
  rewrite length_set_nth in Hk.
  destruct (Nat.eq_dec i k) as [->|Hne].
  - rewrite nth_set_nth_eq by exact Hk. rewrite length_set_nth.
    apply F, nth_In, Hk.
  - rewrite nth_set_nth_neq by exact Hne. apply F, nth_In, Hk.
Qed.

Lemma mget_mset (r c : nat) (m : mat) (i j i' j' : nat) (v : R) :
  is_rect r c m -> (i < r)%nat -> (j < c)%nat ->
  mget (mset m i j v) i' j'
  = if Nat.eqb i i' && Nat.eqb j j' then v else mget m i' j'.
Proof.
  intros Hm Hi Hj. unfold mget, mset.
  destruct (Nat.eqb_spec i i') as [<-|Hne]; simpl.
  - rewrite nth_set_nth_eq by (destruct Hm; lia).
    destruct (Nat.eqb_spec j j') as [<-|Hne].
    + apply nth_set_nth_eq. rewrite (is_rect_row Hm Hi). exact Hj.
    + apply nth_set_nth_neq; exact Hne.
  - rewrite nth_set_nth_neq by exact Hne. reflexivity.
Qed.

Lemma combine_map_self {A B : Type} (f : A -> B) (l : list A) :
  combine l (map f l) = map (fun p => (p, f p)) l.
Proof. induction l as [|x l IH]; simpl; [|rewrite IH]; reflexivity. Qed.

(** Writing [f (i, j)] at every listed position [(i, j)] of a matrix. *)
Lemma scatter_spec (n : nat) (f : nat * nat -> R) (idx : list (nat * nat)) (Z0 : mat) :
  is_rect n n Z0 ->
  (forall i j, In (i, j) idx -> (i < n /\ j < n)%nat) ->
  let out := fold_left
               (fun (m : mat) (pv : (nat * nat) * R) =>
                  mset m (fst (fst pv)) (snd (fst pv)) (snd pv))
               (map (fun p => (p, f p)) idx) Z0 in
  is_rect n n out
  /\ (forall i j, In (i, j) idx -> mget out i j = f (i, j))
  /\ (forall i j, ~ In (i, j) idx -> mget out i j = mget Z0 i j).
Proof.
  revert Z0; induction idx as [|[i0 j0] idx IH]; intros Z0 HZ Hin; cbv zeta.
  - simpl. split; [exact HZ|]. split; [intros i j [] | reflexivity].
  - cbn [map fold_left fst snd].
    destruct (Hin i0 j0 (or_introl eq_refl)) as [Hi0 Hj0].
    specialize (IH (mset Z0 i0 j0 (f (i0, j0))) (mset_rect i0 j0 _ HZ)
                   (fun i j H => Hin i j (or_intror H))).
    cbv zeta in IH. destruct IH as [Hrect [Hyes Hno]].
    split; [exact Hrect|]. split.
    + intros i j [E|Hin'].
      * inversion E; subst.
        destruct (in_dec (fun a b : nat * nat =>
                            ltac:(repeat decide equality) : {a = b} + {a <> b})
                         (i, j) idx) as [Y|N].
        -- apply Hyes, Y.
        -- rewrite (Hno i j N), (mget_mset _ _ _ HZ Hi0 Hj0), !Nat.eqb_refl.
           reflexivity.
      * apply Hyes, Hin'.
    + intros i j Hnot.
      rewrite Hno by (intros H; apply Hnot; right; exact H).
      rewrite (mget_mset _ _ _ HZ Hi0 Hj0).
      destruct (Nat.eqb_spec i0 i) as [->|]; simpl; [|reflexivity].
      destruct (Nat.eqb_spec j0 j) as [->|]; simpl; [|reflexivity].
      exfalso; apply Hnot; left; reflexivity.
Qed.

Lemma is_rect_map_length (r c : nat) (M : mat) :
  is_rect r c M -> map (@length R) M = repeat c r.
Proof.
  intros [L F]. subst r. induction F as [|row M Hrow F IH]; simpl; [reflexivity|].
  rewrite Hrow, IH; reflexivity.
Qed.

Lemma same_shapeb_T2 (r c : nat) (A B : mat) :
  is_rect r c A -> is_rect r c B -> same_shapeb (T2 A) (T2 B) = true.
Proof.
  intros HA HB. unfold same_shapeb.
  destruct (skel_eq_dec (skel (T2 A)) (skel (T2 B))) as [E|E]; [reflexivity|].
  exfalso; apply E. simpl.
  rewrite (is_rect_map_length HA), (is_rect_map_length HB). reflexivity.
Qed.

Lemma zipw2_rect (r c : nat) (f : R -> R -> R) (A B : mat) :
  is_rect r c A -> is_rect r c B -> is_rect r c (zipw (zipw f) A B).
Proof.
  intros HA HB. split.
  - rewrite length_zipw. destruct HA, HB; lia.
  - apply Forall_forall; intros row Hrow.
    destruct (In_nth _ _ [] Hrow) as [k [Hk <-]].
    rewrite length_zipw in Hk.
    assert (Hkr : (k < r)%nat) by (destruct HA, HB; lia).
    rewrite (nth_zipw _ _ _ [] []) by (destruct HA, HB; lia).
    rewrite length_zipw, (is_rect_row HA Hkr), (is_rect_row HB Hkr). lia.
Qed.

Lemma mget_zipw2 (r c : nat) (f : R -> R -> R) (A B : mat) (i j : nat) :
  is_rect r c A -> is_rect r c B -> (i < r)%nat -> (j < c)%nat ->
  mget (zipw (zipw f) A B) i j = f (mget A i j) (mget B i j).
Proof.
  intros HA HB Hi Hj. unfold mget.
  rewrite (nth_zipw _ _ _ [] []) by (destruct HA, HB; lia).
  apply nth_zipw; [rewrite (is_rect_row HA Hi) | rewrite (is_rect_row HB Hi)];
    exact Hj.
Qed.

Lemma transpose_rect_sq (n : nat) (M : mat) :
  is_rect n n M -> is_rect n n (transpose M).
Proof.
  intros HM. destruct n as [|n].
  - destruct HM as [L _]. destruct M; [|discriminate].
    rewrite transpose_nil. split; [reflexivity | constructor].
  - apply transpose_rect; [exact HM | lia].
Qed.

Lemma is_rect_ncols_sq (n : nat) (M : mat) : is_rect n n M -> ncols M = n.
Proof.
  intros HM. destruct n as [|n].
  - destruct HM as [L _]. destruct M; [reflexivity | discriminate].
  - apply (is_rect_ncols HM); lia.
Qed.

Lemma tril_indices_in_range (n : nat) (Z0 : mat) :
  is_rect n n Z0 -> forallb (in_rangeb Z0) (tril_indices n n) = true.
Proof.
  intros HZ. apply forallb_forall. intros [i j] Hin.
  apply in_tril_indices in Hin as [Hi Hj].
  unfold in_rangeb; simpl. apply andb_true_iff; split; apply Nat.ltb_lt.
  - destruct HZ; lia.
  - rewrite (is_rect_row HZ Hi). lia.
Qed.

Lemma diag_of_vec_mat_rect (n : nat) (M : mat) :
  is_rect n n M -> is_rect n n (diag_of_vec (diag_of_mat M)).
Proof.
  intros HM. unfold diag_of_vec.
  assert (L : length (diag_of_mat M) = n).
  { unfold diag_of_mat. rewrite length_map, length_seq, (is_rect_ncols_sq HM).
    destruct HM; lia. }
  rewrite L. apply mk_mat_rect.
Qed.

Lemma mget_diag_of_vec_mat (n : nat) (M : mat) (i j : nat) :
  is_rect n n M -> (i < n)%nat -> (j < n)%nat ->
  mget (diag_of_vec (diag_of_mat M)) i j = if Nat.eqb i j then mget M i i else 0.
Proof.
  intros HM Hi Hj. unfold diag_of_vec.
  assert (L : length (diag_of_mat M) = n).
  { unfold diag_of_mat. rewrite length_map, length_seq, (is_rect_ncols_sq HM).
    destruct HM; lia. }
  rewrite L, mget_mk_mat by assumption.
  destruct (Nat.eqb i j); [|reflexivity].
  unfold diag_of_mat. rewrite (is_rect_ncols_sq HM).
  destruct HM as [LM _]. rewrite LM, Nat.min_id.
  rewrite (nth_map_seq _ 0 (n := n) 0 Hi). reflexivity.
Qed.

(** C7.  Packing the lower triangle of a symmetric [n] x [n] matrix and
    unpacking it again gives the matrix back: [tril_to_matrix] returns, and
    its result is [M]. *)
Theorem tril_round_trip (n : nat) (M : mat) :
  is_symmetric n M ->
  (tril <- matrix_to_tril (T2 M) ;; tril_to_matrix tril) = Ok (T2 M).
Proof.
  intros [HM Hsym].
  unfold matrix_to_tril. simpl.
  rewrite (is_rect_ncols_sq HM). destruct HM as [LM FM]. rewrite LM.
  assert (HM : is_rect n n M) by (split; assumption).
  set (g := fun ij : nat * nat => mget M (fst ij) (snd ij)).
  unfold tril_to_matrix. cbn [ndim Nat.eqb assert_ bind].
  rewrite (@get_n_cols_by_tril_tri _ n)
    by (rewrite length_map; apply length_tril_indices).
  cbn [bind]. unfold index_put.
  rewrite length_map, Nat.eqb_refl.
  assert (HZ : is_rect n n (zeros n n)) by apply mk_mat_rect.
  rewrite (tril_indices_in_range HZ).
  rewrite combine_map_self.
  destruct (@scatter_spec n g (tril_indices n n) (zeros n n) HZ)
    as [Hrect [Hyes Hno]].
  { intros i j Hin. apply in_tril_indices in Hin. lia. }
  set (rst := fold_left _ _ _) in *.
  simpl.
  pose proof (transpose_rect_sq Hrect) as HT.
  pose proof (diag_of_vec_mat_rect Hrect) as HD.
  unfold tensor_add, tensor_sub_alpha, tensor_zip.
  rewrite (same_shapeb_T2 Hrect HT). simpl.
  rewrite (same_shapeb_T2 (zipw2_rect Rplus Hrect HT) HD).
  do 2 f_equal.
  apply (@mat_ext n n); [apply zipw2_rect; [apply zipw2_rect|]; assumption | exact HM |].
  intros i j Hi Hj.
  rewrite (mget_zipw2 _ (zipw2_rect Rplus Hrect HT) HD Hi Hj).
  rewrite (mget_zipw2 _ Hrect HT Hi Hj).
  rewrite (mget_transpose Hrect Hi Hj).
  rewrite (mget_diag_of_vec_mat Hrect Hi Hj).
  assert (Hlow : forall a b, (a < n)%nat -> (b <= a)%nat -> mget rst a b = mget M a b).
  { intros a b Ha Hb. rewrite Hyes; [reflexivity|]. apply in_tril_indices; lia. }
  assert (Hup : forall a b, (a < b)%nat -> mget rst a b = 0).
  { intros a b Hab. rewrite Hno.
    - unfold zeros. destruct (Nat.lt_ge_cases a n) as [Ha|Ha];
        [destruct (Nat.lt_ge_cases b n) as [Hb|Hb]|].
      + apply mget_mk_mat; assumption.
      + unfold mget. apply nth_overflow.
        rewrite (is_rect_row (mk_mat_rect n n (fun _ _ => 0)) Ha). exact Hb.
      + unfold mget. rewrite (nth_overflow (mk_mat n n (fun _ _ => 0)) []).
        * destruct b; reflexivity.
        * destruct HZ as [L _]. unfold zeros in L. rewrite L. exact Ha.
    - intros Hin. apply in_tril_indices in Hin. lia. }
  destruct (Nat.eqb_spec i j) as [->|Hne].
  - rewrite Hlow by lia. ring.
  - destruct (Nat.lt_ge_cases i j) as [Hlt|Hge].
    + rewrite (Hup i j Hlt), Hlow by lia. rewrite (Hsym i j Hi Hj). ring.
    + rewrite (Hup j i) by lia. rewrite Hlow by lia. ring.
Qed.

Lemma tril_round_trip_witness :
  (tril <- matrix_to_tril (T2 [[1; 2]; [2; 3]]) ;; tril_to_matrix tril)
  = Ok (T2 [[1; 2]; [2; 3]]).
Proof.
  apply (@tril_round_trip 2).
  split.
  - split; [reflexivity | repeat constructor].
  - intros [|[|i]] [|[|j]] Hi Hj; try lia; reflexivity.
Defined.

(** C3.  A packed vector whose length is no triangular number is refused by
    [tril_to_matrix] with a shape error; on a length [n (n + 1) / 2] the
    column count [get_n_cols_by_tril] computes, the integer part of
    [sqrt (2 * len + 0.25) - 0.5], is [n]. *)
Theorem tril_to_matrix_packed_length (v : vec) :
  ((forall n, length v <> tri n) -> tril_to_matrix (T1 v) = Err ShapeError)
  /\ (forall n, length v = tri n ->
        get_n_cols_by_tril (T1 v) = Ok n
        /\ Z.of_nat n = py_int (sqrt (2 * INR (length v) + 0.25) - 0.5)).
Proof.
  split.
  - intros Hnot. unfold tril_to_matrix. simpl. unfold index_put.
    rewrite length_tril_indices.
    destruct (Nat.eqb_spec (length v)
                (tri (Z.to_nat (py_int (sqrt (2 * INR (length v) + 0.25) - 0.5)))))
      as [E|_]; [exfalso; exact (Hnot _ E)|].
    destruct (Nat.eqb_spec (length v) 1) as [E|_]; [|reflexivity].
    exfalso; exact (Hnot 1%nat E).
  - intros n L. split; [apply get_n_cols_by_tril_tri; exact L|].
    rewrite L, py_int_sqrt_tri. reflexivity.
Qed.

Lemma tri_ge_3 (n : nat) : (3 <= tri (S (S n)))%nat.
Proof. induction n as [|n IH]; [cbv; lia | rewrite tri_S; lia]. Qed.

Lemma tril_to_matrix_packed_length_witness :
  tril_to_matrix (T1 [1; 2]) = Err ShapeError
  /\ get_n_cols_by_tril (T1 [1; 2; 3]) = Ok 2%nat.
Proof.
  split.
  - apply (proj1 (tril_to_matrix_packed_length [1; 2])).
    intros [|[|n]]; simpl; [discriminate | discriminate |].
    pose proof (tri_ge_3 n). lia.
  - apply (proj2 (tril_to_matrix_packed_length [1; 2; 3]) 2%nat). reflexivity.
Defined.

(* ================================================================== *)
(** * The store of Python objects *)
(* ================================================================== *)

(** Objects are referred to by location.  An attribute holds [None] or the
    location of an object. *)
Definition loc := nat.

Record Kron : Type := mkKron {
  Kron_A : option loc;
  Kron_B : option loc;
  Kron_A_inv : option loc;
  Kron_B_inv : option loc;
  Kron__A_dim : option nat;
  Kron__B_dim : option nat
}.

Record Diag : Type := mkDiag {
  Diag_weight : option loc;
  Diag_bias : option loc;
  Diag_weight_inv : option loc;
  Diag_bias_inv : option loc
}.

Record UnitWise : Type := mkUnitWise {
  UnitWise_data : option loc;
  UnitWise_inv : option loc
}.

Record SymMatrix : Type := mkSymMatrix {
  SymMatrix_data : option loc;
  SymMatrix_kron : option loc;
  SymMatrix_diag : option loc;
  SymMatrix_unit : option loc;
  SymMatrix_inv : option loc
}.

Inductive obj : Type :=
| OTensor (t : tensor)
| OKron (k : Kron)
| ODiag (d : Diag)
| OUnit (u : UnitWise)
| OSym (s : SymMatrix).

Definition heap := list obj.

(** A new object is placed at the first unused location. *)
Definition alloc (h : heap) (o : obj) : heap * loc := (h ++ [o], length h).

Definition store (h : heap) (l : loc) (o : obj) : heap := set_nth h l o.

(** Reading an object of an expected class.  The attributes of the modelled
    classes hold objects of the class the source intends; anything else is
    reported as [TypeError]. *)
Definition get_tensor (h : heap) (l : loc) : result tensor :=
  match nth_error h l with Some (OTensor t) => Ok t | _ => Err TypeError end.

Definition get_kron (h : heap) (l : loc) : result Kron :=
  match nth_error h l with Some (OKron k) => Ok k | _ => Err TypeError end.

Definition get_diag (h : heap) (l : loc) : result Diag :=
  match nth_error h l with Some (ODiag d) => Ok d | _ => Err TypeError end.

Definition get_unit (h : heap) (l : loc) : result UnitWise :=
  match nth_error h l with Some (OUnit u) => Ok u | _ => Err TypeError end.

Definition get_sym (h : heap) (l : loc) : result SymMatrix :=
  match nth_error h l with Some (OSym s) => Ok s | _ => Err TypeError end.

(** Calling a method on an attribute: [None] has no methods. *)
Definition deref (o : option loc) : result loc :=
  match o with Some l => Ok l | None => Err AttributeError end.

Definition is_some {A : Type} (o : option A) : bool :=
  match o with Some _ => true | None => false end.

(** [a.add(b)] on stored tensors: a new tensor. *)
Definition tensor_add_new (h : heap) (a b : loc) : result (heap * loc) :=
  ta <- get_tensor h a ;;
  tb <- get_tensor h b ;;
  t <- tensor_add ta tb ;;
  Ok (alloc h (OTensor t)).

(** [a.add_(b)] on stored tensors: [a] is overwritten. *)
Definition tensor_add_ (h : heap) (a b : loc) : result heap :=
  ta <- get_tensor h a ;;
  tb <- get_tensor h b ;;
  t <- tensor_add ta tb ;;
  Ok (store h a (OTensor t)).

(** [a.mul_(value)] on a stored tensor. *)
Definition tensor_mul_ (h : heap) (a : loc) (value : R) : result heap :=
  ta <- get_tensor h a ;;
  Ok (store h a (OTensor (tensor_mul ta value))).

(* ------------------------------------------------------------------ *)
(** ** class Kron *)

Definition Kron_init (h : heap) (A B : option loc) : heap * loc :=
  alloc h (OKron (mkKron A B None None None None)).

Definition Kron_has_data (k : Kron) : bool :=
  is_some (Kron_A k) && is_some (Kron_B k).

(** [Kron.__add__(self, other)]. *)
Definition Kron_add (h : heap) (self other : loc) : result (heap * loc) :=
  ko <- get_kron h other ;;
  if negb (Kron_has_data ko) then Ok (h, self)
  else
    ks <- get_kron h self ;;
    hAB <- (if Kron_has_data ks
            then sa <- deref (Kron_A ks) ;; oa <- deref (Kron_A ko) ;;
                 '(h1, a) <- tensor_add_new h sa oa ;;
                 sb <- deref (Kron_B ks) ;; ob <- deref (Kron_B ko) ;;
                 '(h2, b) <- tensor_add_new h1 sb ob ;;
                 Ok (h2, Some a, Some b)
            else Ok (h, Kron_A ko, Kron_B ko)) ;;
    let '(h', A, B) := hAB in
    Ok (Kron_init h' A B).

(** [Kron.__iadd__(self, other)]; the object returned is [self]. *)
Definition Kron_iadd (h : heap) (self other : loc) : result heap :=
  ko <- get_kron h other ;;
  if negb (Kron_has_data ko) then Ok h
  else
    ks <- get_kron h self ;;
    if Kron_has_data ks
    then sa <- deref (Kron_A ks) ;; oa <- deref (Kron_A ko) ;;
         h1 <- tensor_add_ h sa oa ;;
         sb <- deref (Kron_B ks) ;; ob <- deref (Kron_B ko) ;;
         tensor_add_ h1 sb ob
    else
      Ok (store h self
            (OKron (mkKron (Kron_A ko) (Kron_B ko) (Kron_A_inv ks) (Kron_B_inv ks)
                           (Kron__A_dim ks) (Kron__B_dim ks)))).

(** [Kron.mul_(self, value)]. *)
Definition Kron_mul_ (h : heap) (self : loc) (value : R) : result heap :=
  ks <- get_kron h self ;;
  a <- deref (Kron_A ks) ;;
  h1 <- tensor_mul_ h a value ;;
  b <- deref (Kron_B ks) ;;
  tensor_mul_ h1 b value.

(* ------------------------------------------------------------------ *)
(** ** class Diag *)

Definition Diag_init (h : heap) (weight bias : option loc) : heap * loc :=
  alloc h (ODiag (mkDiag weight bias None None)).

(** The pattern shared by the sums of optional parts: the other operand's
    part is added to the receiver's when both exist, taken as it is when the
    receiver has none, and the receiver's is kept otherwise. *)
Definition opt_combine (add : heap -> loc -> loc -> result (heap * loc))
           (h : heap) (self other : option loc) : result (heap * option loc) :=
  match other with
  | Some o =>
      match self with
      | Some s => '(h1, r) <- add h s o ;; Ok (h1, Some r)
      | None => Ok (h, Some o)
      end
  | None => Ok (h, self)
  end.

Definition opt_add_new := opt_combine tensor_add_new.

(** [Diag.__add__(self, other)]. *)
Definition Diag_add (h : heap) (self other : loc) : result (heap * loc) :=
  dt <- get_diag h other ;;
  ds <- get_diag h self ;;
  '(h1, weight) <- opt_add_new h (Diag_weight ds) (Diag_weight dt) ;;
  '(h2, bias) <- opt_add_new h1 (Diag_bias ds) (Diag_bias dt) ;;
  Ok (Diag_init h2 weight bias).

(** [Diag.__iadd__(self, other)]. *)
Definition Diag_iadd (h : heap) (self other : loc) : result heap :=
  dt <- get_diag h other ;;
  h1 <- match Diag_weight dt with
        | Some ow =>
            ds <- get_diag h self ;;
            match Diag_weight ds with
            | Some sw => tensor_add_ h sw ow
            | None => Ok (store h self
                            (ODiag (mkDiag (Some ow) (Diag_bias ds)
                                           (Diag_weight_inv ds) (Diag_bias_inv ds))))
            end
        | None => Ok h
        end ;;
  dt1 <- get_diag h1 other ;;
  match Diag_bias dt1 with
  | Some ob =>
      ds <- get_diag h1 self ;;
      match Diag_bias ds with
      | Some sb => tensor_add_ h1 sb ob
      | None => Ok (store h1 self
                      (ODiag (mkDiag (Diag_weight ds) (Some ob)
                                     (Diag_weight_inv ds) (Diag_bias_inv ds))))
      end
  | None => Ok h1
  end.

(** [Diag.mul_(self, value)]. *)
Definition Diag_mul_ (h : heap) (self : loc) (value : R) : result heap :=
  ds <- get_diag h self ;;
  h1 <- match Diag_weight ds with
        | Some w => tensor_mul_ h w value
        | None => Ok h
        end ;;
  ds1 <- get_diag h1 self ;;
  match Diag_bias ds1 with
  | Some b => tensor_mul_ h1 b value
  | None => Ok h1
  end.

(* ------------------------------------------------------------------ *)
(** ** class UnitWise *)

Definition UnitWise_init (h : heap) (data : option loc) : heap * loc :=
  alloc h (OUnit (mkUnitWise data None)).

Definition UnitWise_has_data (u : UnitWise) : bool := is_some (UnitWise_data u).

(** [UnitWise.__add__(self, other)]. *)
Definition UnitWise_add (h : heap) (self other : loc) : result (heap * loc) :=
  uo <- get_unit h other ;;
  match UnitWise_data uo with
  | None => Ok (h, self)
  | Some od =>
      us <- get_unit h self ;;
      match UnitWise_data us with
      | Some sd =>
          '(h1, d) <- tensor_add_new h sd od ;;
          Ok (UnitWise_init h1 (Some d))
      | None => Ok (UnitWise_init h (Some od))
      end
  end.

(** [UnitWise.__iadd__(self, other)]. *)
Definition UnitWise_iadd (h : heap) (self other : loc) : result heap :=
  uo <- get_unit h other ;;
  match UnitWise_data uo with
  | None => Ok h
  | Some od =>
      us <- get_unit h self ;;
      match UnitWise_data us with
      | Some sd => tensor_add_ h sd od
      | None => Ok (store h self (OUnit (mkUnitWise (Some od) (UnitWise_inv us))))
      end
  end.

(** [UnitWise.mul_(self, value)]. *)
Definition UnitWise_mul_ (h : heap) (self : loc) (value : R) : result heap :=
  us <- get_unit h self ;;
  match UnitWise_data us with
  | Some d => tensor_mul_ h d value
  | None => Ok h
  end.

(* ------------------------------------------------------------------ *)
(** ** class SymMatrix *)

(** [SymMatrix.__init__]. *)
Definition SymMatrix_init (h : heap)
           (data kron diag unit kron_A kron_B diag_weight diag_bias unit_data : option loc)
  : heap * loc :=
  let '(h1, kron') :=
    if is_some kron_A || is_some kron_B
    then let '(h', k) := Kron_init h kron_A kron_B in (h', Some k)
    else (h, kron) in
  let '(h2, diag') :=
    if is_some diag_weight || is_some diag_bias
    then let '(h', d) := Diag_init h1 diag_weight diag_bias in (h', Some d)
    else (h1, diag) in
  let '(h3, unit') :=
    if is_some unit_data
    then let '(h', u) := UnitWise_init h2 unit_data in (h', Some u)
    else (h2, unit) in
  alloc h3 (OSym (mkSymMatrix data kron' diag' unit' None)).

(** [SymMatrix.__add__(self, other)]: the loop over
    ['data', 'kron', 'diag', 'unit'], then [SymMatrix( **values)]. *)
Definition SymMatrix_add (h : heap) (self other : loc) : result (heap * loc) :=
  ss <- get_sym h self ;;
  so <- get_sym h other ;;
  '(h1, data) <- opt_combine tensor_add_new h (SymMatrix_data ss) (SymMatrix_data so) ;;
  '(h2, kron) <- opt_combine Kron_add h1 (SymMatrix_kron ss) (SymMatrix_kron so) ;;
  '(h3, diag) <- opt_combine Diag_add h2 (SymMatrix_diag ss) (SymMatrix_diag so) ;;
  '(h4, unit) <- opt_combine UnitWise_add h3 (SymMatrix_unit ss) (SymMatrix_unit so) ;;
  Ok (SymMatrix_init h4 data kron diag unit None None None None None).

(** One round of the loop of [SymMatrix.__iadd__], for one attribute:
    [iadd(self_value, other_value)] when both exist, [setattr] when only the
    other operand's does. *)
Definition sym_iadd_attr (get : SymMatrix -> option loc)
           (set : SymMatrix -> loc -> SymMatrix)
           (iadd : heap -> loc -> loc -> result heap)
           (h : heap) (self other : loc) : result heap :=
  ss <- get_sym h self ;;
  so <- get_sym h other ;;
  match get so with
  | Some ov =>
      match get ss with
      | Some sv => iadd h sv ov
      | None => Ok (store h self (OSym (set ss ov)))
      end
  | None => Ok h
  end.

(** [SymMatrix.__iadd__(self, other)]; the object returned is [self]. *)
Definition SymMatrix_iadd (h : heap) (self other : loc) : result heap :=
  h1 <- sym_iadd_attr SymMatrix_data
          (fun s v => mkSymMatrix (Some v) (SymMatrix_kron s) (SymMatrix_diag s)
                                  (SymMatrix_unit s) (SymMatrix_inv s))
          tensor_add_ h self other ;;
  h2 <- sym_iadd_attr SymMatrix_kron
          (fun s v => mkSymMatrix (SymMatrix_data s) (Some v) (SymMatrix_diag s)
                                  (SymMatrix_unit s) (SymMatrix_inv s))
          Kron_iadd h1 self other ;;
  h3 <- sym_iadd_attr SymMatrix_diag
          (fun s v => mkSymMatrix (SymMatrix_data s) (SymMatrix_kron s) (Some v)
                                  (SymMatrix_unit s) (SymMatrix_inv s))
          Diag_iadd h2 self other ;;
  sym_iadd_attr SymMatrix_unit
          (fun s v => mkSymMatrix (SymMatrix_data s) (SymMatrix_kron s)
                                  (SymMatrix_diag s) (Some v) (SymMatrix_inv s))
          UnitWise_iadd h3 self other.

(** One conditional of [SymMatrix.mul_]: [if self.has_x: self.x.mul_(value)]. *)
Definition sym_mul_attr (get : SymMatrix -> option loc)
           (mul : heap -> loc -> R -> result heap)
           (h : heap) (self : loc) (value : R) : result heap :=
  ss <- get_sym h self ;;
  match get ss with
  | Some v => mul h v value
  | None => Ok h
  end.

(** [SymMatrix.mul_(self, value)]; the object returned is [self]. *)
Definition SymMatrix_mul_ (h : heap) (self : loc) (value : R) : result heap :=
  h1 <- sym_mul_attr SymMatrix_data tensor_mul_ h self value ;;
  h2 <- sym_mul_attr SymMatrix_kron Kron_mul_ h1 self value ;;
  h3 <- sym_mul_attr SymMatrix_diag Diag_mul_ h2 self value ;;
  sym_mul_attr SymMatrix_unit UnitWise_mul_ h3 self value.

(* ================================================================== *)
(** * Facts about the store *)
(* ================================================================== *)

Unset Implicit Arguments.

Lemma nth_error_ext (h e : heap) (l : loc) (o : obj) :
  nth_error h l = Some o -> nth_error (h ++ e) l = Some o.
Proof.
  intros H. rewrite nth_error_app1; [exact H|].
  apply nth_error_Some. congruence.
Qed.

Lemma nth_error_alloc (h : heap) (o : obj) :
  nth_error (h ++ [o]) (length h) = Some o.
Proof. rewrite nth_error_app2, Nat.sub_diag by lia. reflexivity. Qed.

Lemma get_tensor_ext (h e : heap) (l : loc) (t : tensor) :
  get_tensor h l = Ok t -> get_tensor (h ++ e) l = Ok t.
Proof.
  unfold get_tensor. destruct (nth_error h l) as [o|] eqn:E; [|discriminate].
  rewrite (nth_error_ext _ e _ _ E). auto.
Qed.

Lemma get_kron_ext (h e : heap) (l : loc) (k : Kron) :
  get_kron h l = Ok k -> get_kron (h ++ e) l = Ok k.
Proof.
  unfold get_kron. destruct (nth_error h l) as [o|] eqn:E; [|discriminate].
  rewrite (nth_error_ext _ e _ _ E). auto.
Qed.

Lemma get_diag_ext (h e : heap) (l : loc) (d : Diag) :
  get_diag h l = Ok d -> get_diag (h ++ e) l = Ok d.
Proof.
  unfold get_diag. destruct (nth_error h l) as [o|] eqn:E; [|discriminate].
  rewrite (nth_error_ext _ e _ _ E). auto.
Qed.

Lemma get_unit_ext (h e : heap) (l : loc) (u : UnitWise) :
  get_unit h l = Ok u -> get_unit (h ++ e) l = Ok u.
Proof.
  unfold get_unit. destruct (nth_error h l) as [o|] eqn:E; [|discriminate].
  rewrite (nth_error_ext _ e _ _ E). auto.
Qed.

Lemma get_sym_ext (h e : heap) (l : loc) (s : SymMatrix) :
  get_sym h l = Ok s -> get_sym (h ++ e) l = Ok s.
Proof.
  unfold get_sym. destruct (nth_error h l) as [o|] eqn:E; [|discriminate].
  rewrite (nth_error_ext _ e _ _ E). auto.
Qed.

Lemma get_kron_valid (h : heap) (l : loc) (k : Kron) :
  get_kron h l = Ok k -> (l < length h)%nat.
Proof.
  unfold get_kron. destruct (nth_error h l) as [o|] eqn:E; [|discriminate].
  intros _. apply nth_error_Some. congruence.
Qed.

Lemma tensor_add_new_inv (h h' : heap) (a b r : loc) :
  tensor_add_new h a b = Ok (h', r) ->
  exists ta tb, get_tensor h a = Ok ta /\ get_tensor h b = Ok tb
                /\ same_shapeb ta tb = true
                /\ h' = h ++ [OTensor (tzip Rplus ta tb)] /\ r = length h.
Proof.
  unfold tensor_add_new, tensor_add, tensor_zip, alloc. intros H.
  apply bind_ok_inv in H as [ta [Ea H]].
  apply bind_ok_inv in H as [tb [Eb H]].
  destruct (same_shapeb ta tb) eqn:Es; simpl in H; [|discriminate].
  inversion H; subst. exists ta, tb. auto.
Qed.

Lemma tensor_add_new_ok (h : heap) (a b : loc) (ta tb : tensor) :
  get_tensor h a = Ok ta -> get_tensor h b = Ok tb ->
  same_shapeb ta tb = true ->
  tensor_add_new h a b = Ok (h ++ [OTensor (tzip Rplus ta tb)], length h).
Proof.
  intros Ea Eb Es. unfold tensor_add_new, tensor_add, tensor_zip.
  rewrite Ea, Eb. simpl. rewrite Es. reflexivity.
Qed.

(** The two ways [Kron.__add__] returns: the receiver itself, the store
    untouched; or a [Kron] allocated after everything else, with no cached
    inverse. *)
Lemma Kron_add_inv (h h' : heap) (self other r : loc) :
  Kron_add h self other = Ok (h', r) ->
  (exists ko, get_kron h other = Ok ko /\ Kron_has_data ko = false
              /\ h' = h /\ r = self)
  \/ (exists ko ks e A B,
        get_kron h other = Ok ko /\ Kron_has_data ko = true
        /\ get_kron h self = Ok ks
        /\ h' = (h ++ e) ++ [OKron (mkKron A B None None None None)]
        /\ r = length (h ++ e)).
Proof.
  unfold Kron_add. intros H.
  apply bind_ok_inv in H as [ko [Eo H]].
  destruct (Kron_has_data ko) eqn:Hd; simpl in H.
  - right.
    apply bind_ok_inv in H as [ks [Es H]].
    apply bind_ok_inv in H as [[[h1 A] B] [E H]].
    unfold Kron_init, alloc in H. inversion H; subst; clear H.
    destruct (Kron_has_data ks).
    + apply bind_ok_inv in E as [sa [_ E]].
      apply bind_ok_inv in E as [oa [_ E]].
      apply bind_ok_inv in E as [[h2 a] [Ea E]]. simpl in E.
      apply bind_ok_inv in E as [sb [_ E]].
      apply bind_ok_inv in E as [ob [_ E]].
      apply bind_ok_inv in E as [[h3 b] [Eb E]]. simpl in E.
      inversion E; subst; clear E.
      apply tensor_add_new_inv in Ea as (ta & tb & _ & _ & _ & -> & _).
      apply tensor_add_new_inv in Eb as (ta' & tb' & _ & _ & _ & -> & _).
      exists ko, ks, ([OTensor (tzip Rplus ta tb)] ++ [OTensor (tzip Rplus ta' tb')]),
        (Some a), (Some b).
      rewrite !app_assoc. auto.
    + inversion E; subst. exists ko, ks, [], (Kron_A ko), (Kron_B ko).
      rewrite app_nil_r. auto.
  - left. inversion H; subst. exists ko. auto.
Qed.

(** C10.  When the right-hand operand holds no factor data, [Kron.__add__]
    returns the receiver itself and leaves the store as it is, so the
    receiver's cached inverses are those of the result.  When it holds
    data, whatever is returned is a new object (at a location unused
    before, different from both operands) whose [A_inv] and [B_inv] are
    [None], and no existing object is changed; a result is returned when
    the receiver has no data, and when the factors of the two operands have
    the same shapes. *)
Theorem Kron_add_identity (h : heap) (self other : loc) (ko : Kron) :
  get_kron h other = Ok ko ->
  (Kron_has_data ko = false -> Kron_add h self other = Ok (h, self))
  /\ (Kron_has_data ko = true ->
      (forall h' r, Kron_add h self other = Ok (h', r) ->
         nth_error h r = None /\ r <> self /\ r <> other
         /\ (exists A B, get_kron h' r = Ok (mkKron A B None None None None))
         /\ (forall l o, nth_error h l = Some o -> nth_error h' l = Some o))
      /\ (forall ks, get_kron h self = Ok ks ->
            (Kron_has_data ks = false
             \/ exists sa sb oa ob ta tb ua ub,
                 Kron_A ks = Some sa /\ Kron_B ks = Some sb
                 /\ Kron_A ko = Some oa /\ Kron_B ko = Some ob
                 /\ get_tensor h sa = Ok ta /\ get_tensor h sb = Ok tb
                 /\ get_tensor h oa = Ok ua /\ get_tensor h ob = Ok ub
                 /\ same_shapeb ta ua = true /\ same_shapeb tb ub = true) ->
            exists h' r, Kron_add h self other = Ok (h', r))).
Proof.
  intros Eo. split; [|intros Hd; split].
  - intros Hd. unfold Kron_add. rewrite Eo. simpl. rewrite Hd. reflexivity.
  - intros h' r H.
    apply Kron_add_inv in H as [(ko' & Eo' & Hd' & _) | (ko' & ks & e & A & B & Eo' & _ & Es & -> & ->)].
    { rewrite Eo in Eo'. inversion Eo'; subst. congruence. }
    apply get_kron_valid in Eo, Es.
    rewrite length_app.
    split; [apply nth_error_None; lia|].
    split; [lia|]. split; [lia|]. split.
    + exists A, B. unfold get_kron.
      rewrite <- (length_app h e), nth_error_alloc. reflexivity.
    + intros l o Hl. rewrite <- app_assoc. apply nth_error_ext. exact Hl.
  - intros ks Es Hcase. unfold Kron_add. rewrite Eo. simpl. rewrite Hd. simpl.
    rewrite Es. simpl.
    destruct Hcase as [Hnd | (sa & sb & oa & ob & ta & tb & ua & ub & EA & EB & EoA & EoB
                              & Ea & Eb & Eua & Eub & Sa & Sb)].
    + rewrite Hnd. simpl. unfold Kron_init, alloc. eauto.
    + unfold Kron_has_data. rewrite EA, EB, EoA, EoB. simpl.
      rewrite (tensor_add_new_ok _ _ _ _ _ Ea Eua Sa). simpl.
      rewrite (tensor_add_new_ok _ _ _ _ _ (get_tensor_ext _ _ _ _ Eb)
                 (get_tensor_ext _ _ _ _ Eub) Sb).
      simpl. unfold Kron_init, alloc. eauto.
Qed.

Definition heap_ex : heap :=
  [ OTensor (T2 [[1]]); OTensor (T2 [[2]]); OTensor (T2 [[4]]);
    OKron (mkKron (Some 0%nat) (Some 1%nat) (Some 2%nat) (Some 2%nat) None None);
    OKron (mkKron None None None None None None);
    OKron (mkKron (Some 1%nat) (Some 0%nat) None None None None) ].

Lemma Kron_add_identity_witness :
  Kron_add heap_ex 3%nat 4%nat = Ok (heap_ex, 3%nat)
  /\ exists h' r, Kron_add heap_ex 3%nat 5%nat = Ok (h', r).
Proof.
  split.
  - apply (proj1 (Kron_add_identity heap_ex 3%nat 4%nat _ eq_refl)). reflexivity.
  - apply (proj2 (proj2 (Kron_add_identity heap_ex 3%nat 5%nat _ eq_refl) eq_refl)
             _ eq_refl).
    right. exists 0%nat, 1%nat, 1%nat, 0%nat.
    exists (T2 [[1]]), (T2 [[2]]), (T2 [[2]]), (T2 [[1]]).
    repeat split; reflexivity.
Defined.

(* ================================================================== *)
(** * Spectral queries *)
(* ================================================================== *)

Fixpoint insert_desc (x : R) (l : vec) : vec :=
  match l with
  | [] => [x]
  | y :: l' => if Rltb x y then y :: insert_desc x l' else x :: l
  end.

(** [torch.sort(eig, descending=True)[0]] on a vector. *)
Definition sort_desc (l : vec) : vec := fold_right insert_desc [] l.

(** [t.max().item()]: refused on an empty tensor. *)
Definition vmax (l : vec) : result R :=
  match l with
  | [] => Err ShapeError
  | x :: l' => Ok (fold_left Rmax l' x)
  end.

Definition vsum (l : vec) : R := fold_right Rplus 0 l.

(** [torch.diag(t).sum().item()]: the sum of the diagonal of a matrix (of a
    vector, the sum of its entries). *)
Definition diag_sum (t : tensor) : result R :=
  match t with
  | T1 v => Ok (vsum v)
  | T2 m => Ok (vsum (diag_of_mat m))
  | _ => Err ShapeError
  end.

Definition as_vec (t : tensor) : result vec :=
  match t with T1 v => Ok v | _ => Err ShapeError end.

Section Spectral.

(** [symeig] is [torch.linalg.eigvalsh], the eigenvalues of a symmetric
    matrix as a vector.  The solver is outside the modelled code. *)
Variable symeig : tensor -> result tensor.

(** [SymMatrix.eigenvalues(self)]. *)
Definition SymMatrix_eigenvalues (h : heap) (self : loc) : result vec :=
  ss <- get_sym h self ;;
  _ <- assert_ (is_some (SymMatrix_data ss)) ;;
  d <- deref (SymMatrix_data ss) ;;
  data <- get_tensor h d ;;
  eig <- symeig data ;;
  e <- as_vec eig ;;
  Ok (sort_desc e).

(** [SymMatrix.top_eigenvalue(self)]. *)
Definition SymMatrix_top_eigenvalue (h : heap) (self : loc) : result R :=
  ss <- get_sym h self ;;
  _ <- assert_ (is_some (SymMatrix_data ss)) ;;
  d <- deref (SymMatrix_data ss) ;;
  data <- get_tensor h d ;;
  eig <- symeig data ;;
  e <- as_vec eig ;;
  vmax e.

(** [SymMatrix.trace(self)]. *)
Definition SymMatrix_trace (h : heap) (self : loc) : result R :=
  ss <- get_sym h self ;;
  _ <- assert_ (is_some (SymMatrix_data ss)) ;;
  d <- deref (SymMatrix_data ss) ;;
  data <- get_tensor h d ;;
  diag_sum data.

(** [Kron.eigenvalues(self)]: [torch.ger(eig_A, eig_B).flatten()],
    sorted. *)
Definition Kron_eigenvalues (h : heap) (self : loc) : result vec :=
  ks <- get_kron h self ;;
  a <- deref (Kron_A ks) ;;
  A <- get_tensor h a ;;
  eig_A <- symeig A ;;
  b <- deref (Kron_B ks) ;;
  B <- get_tensor h b ;;
  eig_B <- symeig B ;;
  eA <- as_vec eig_A ;;
  eB <- as_vec eig_B ;;
  Ok (sort_desc (concat (outer eA eB))).

(** [Kron.top_eigenvalue(self)]. *)
Definition Kron_top_eigenvalue (h : heap) (self : loc) : result R :=
  ks <- get_kron h self ;;
  a <- deref (Kron_A ks) ;;
  A <- get_tensor h a ;;
  eig_A <- symeig A ;;
  b <- deref (Kron_B ks) ;;
  B <- get_tensor h b ;;
  eig_B <- symeig B ;;
  eA <- as_vec eig_A ;;
  eB <- as_vec eig_B ;;
  ma <- vmax eA ;;
  mb <- vmax eB ;;
  Ok (ma * mb).

(** [Kron.trace(self)]. *)
Definition Kron_trace (h : heap) (self : loc) : result R :=
  ks <- get_kron h self ;;
  a <- deref (Kron_A ks) ;;
  A <- get_tensor h a ;;
  trace_A <- diag_sum A ;;
  b <- deref (Kron_B ks) ;;
  B <- get_tensor h b ;;
  trace_B <- diag_sum B ;;
  Ok (trace_A * trace_B).

(** C4, as the code has it.  The three spectral queries of a [SymMatrix]
    look at the dense [data] only.  Without [data] each of them stops at
    its assertion, whatever other representations are populated; with
    [data] a matrix, they are computed from it alone: [trace] returns the
    sum of its diagonal, [eigenvalues] and [top_eigenvalue] the sorted
    eigenvalues and their maximum whenever the solver returns a vector.
    The sorted outer product of the eigenvalues of [A] and [B] is what
    [eigenvalues] of the [Kron] object itself returns. *)
Theorem SymMatrix_spectral_queries (h : heap) (self : loc) (ss : SymMatrix) :
  get_sym h self = Ok ss ->
  (SymMatrix_data ss = None ->
     SymMatrix_eigenvalues h self = Err AssertionError
     /\ SymMatrix_top_eigenvalue h self = Err AssertionError
     /\ SymMatrix_trace h self = Err AssertionError)
  /\ (forall d m, SymMatrix_data ss = Some d -> get_tensor h d = Ok (T2 m) ->
        SymMatrix_trace h self = Ok (vsum (diag_of_mat m))
        /\ (forall e, symeig (T2 m) = Ok (T1 e) ->
              SymMatrix_eigenvalues h self = Ok (sort_desc e)
              /\ SymMatrix_top_eigenvalue h self = vmax e))
  /\ (forall k ks a b A B eA eB,
        SymMatrix_kron ss = Some k -> get_kron h k = Ok ks ->
        Kron_A ks = Some a -> Kron_B ks = Some b ->
        get_tensor h a = Ok A -> get_tensor h b = Ok B ->
        symeig A = Ok (T1 eA) -> symeig B = Ok (T1 eB) ->
        Kron_eigenvalues h k = Ok (sort_desc (concat (outer eA eB)))).
Proof.
  intros Es. split; [|split].
  - intros Hd.
    unfold SymMatrix_eigenvalues, SymMatrix_top_eigenvalue, SymMatrix_trace.
    rewrite Es. simpl. rewrite Hd. simpl. auto.
  - intros d m Hd Ed.
    unfold SymMatrix_eigenvalues, SymMatrix_top_eigenvalue, SymMatrix_trace.
    rewrite Es. simpl. rewrite Hd. simpl. rewrite Ed. simpl.
    split; [reflexivity|]. intros e Ee. rewrite Ee. simpl. auto.
  - intros k ks a b A B eA eB _ Ek EA EB Ea Eb EeA EeB.
    unfold Kron_eigenvalues.
    rewrite Ek. simpl. rewrite EA. simpl. rewrite Ea. simpl. rewrite EeA. simpl.
    rewrite EB. simpl. rewrite Eb. simpl. rewrite EeB. simpl. reflexivity.
Qed.

End Spectral.

(** A [SymMatrix] that holds a Kronecker representation
    ([A = [[2]]], [B = [[3]]]) and nothing else. *)
Definition heap_kron_only : heap :=
  [ OTensor (T2 [[2]]); OTensor (T2 [[3]]);
    OKron (mkKron (Some 0%nat) (Some 1%nat) None None None None);
    OSym (mkSymMatrix None (Some 2%nat) None None None) ].

(** The eigenvalues of a 1 x 1 matrix; enough of a solver to run the
    queries on [heap_kron_only]. *)
Definition symeig_1x1 (t : tensor) : result tensor :=
  match t with
  | T2 [[x]] => Ok (T1 [x])
  | _ => Err NumericalError
  end.

(** C4, as the claim states it, fails: on a [SymMatrix] whose only populated
    representation is [kron], all three queries raise, while the [Kron]
    object itself answers [eigenvalues] with [[6]]. *)
Lemma SymMatrix_spectral_kron_only_fails :
  SymMatrix_trace heap_kron_only 3%nat = Err AssertionError
  /\ SymMatrix_eigenvalues symeig_1x1 heap_kron_only 3%nat = Err AssertionError
  /\ SymMatrix_top_eigenvalue symeig_1x1 heap_kron_only 3%nat = Err AssertionError
  /\ Kron_eigenvalues symeig_1x1 heap_kron_only 2%nat = Ok [2 * 3].
Proof. repeat split; reflexivity. Qed.

Lemma SymMatrix_spectral_queries_witness :
  SymMatrix_eigenvalues symeig_1x1 heap_kron_only 3%nat = Err AssertionError
  /\ Kron_eigenvalues symeig_1x1 heap_kron_only 2%nat = Ok (sort_desc [2 * 3]).
Proof.
  pose proof (SymMatrix_spectral_queries symeig_1x1 heap_kron_only 3%nat _ eq_refl)
    as [H1 [_ H3]].
  split.
  - apply (H1 eq_refl).
  - apply (H3 2%nat _ 0%nat 1%nat _ _ [2] [3] eq_refl eq_refl eq_refl eq_refl
              eq_refl eq_refl eq_refl eq_refl).
Defined.

(* ================================================================== *)
(** * Accumulating a matrix into itself *)
(* ================================================================== *)

Lemma same_shapeb_refl (t : tensor) : same_shapeb t t = true.
Proof.
  unfold same_shapeb. destruct (skel_eq_dec (skel t) (skel t)); congruence.
Qed.

Lemma zipw_self_double (v : vec) : zipw Rplus v v = map (fun x => x * 2) v.
Proof. induction v as [|x v IH]; simpl; [reflexivity|]. rewrite IH. f_equal. ring. Qed.

Lemma zipw_self_map {A B : Type} (f : A -> A -> B) (g : A -> B) (l : list A) :
  (forall x, f x x = g x) -> zipw f l l = map g l.
Proof.
  intros E. induction l as [|x l IH]; simpl; [reflexivity|].
  rewrite E, IH. reflexivity.
Qed.

Lemma tzip_self_double (t : tensor) : tzip Rplus t t = tensor_mul t 2.
Proof.
  destruct t as [x|v|m|b]; simpl; f_equal.
  - ring.
  - apply zipw_self_double.
  - apply zipw_self_map, zipw_self_double.
  - apply zipw_self_map. intros m. apply zipw_self_map, zipw_self_double.
Qed.

(** [t.add_(t)] stores what [t.mul_(2)] stores. *)
Lemma tensor_add__self (h : heap) (l : loc) :
  tensor_add_ h l l = tensor_mul_ h l 2.
Proof.
  unfold tensor_add_, tensor_mul_, tensor_add, tensor_zip.
  destruct (get_tensor h l) as [t|e]; simpl; [|reflexivity].
  rewrite same_shapeb_refl. simpl. rewrite tzip_self_double. reflexivity.
Qed.

Lemma Diag_iadd_self (h : heap) (d : loc) : Diag_iadd h d d = Diag_mul_ h d 2.
Proof.
  assert (Hbias : forall h1, 
             (dt1 <- get_diag h1 d ;;
              match Diag_bias dt1 with
              | Some ob =>
                  ds <- get_diag h1 d ;;
                  match Diag_bias ds with
                  | Some sb => tensor_add_ h1 sb ob
                  | None => Ok (store h1 d
                                  (ODiag (mkDiag (Diag_weight ds) (Some ob)
                                                 (Diag_weight_inv ds) (Diag_bias_inv ds))))
                  end
              | None => Ok h1
              end)
             = (ds1 <- get_diag h1 d ;;
                match Diag_bias ds1 with
                | Some b => tensor_mul_ h1 b 2
                | None => Ok h1
                end)).
  { intros h1. destruct (get_diag h1 d) as [ds1|e] eqn:Ed1; simpl; [|reflexivity].
    destruct (Diag_bias ds1) as [b|] eqn:Eb; [|reflexivity].
    rewrite ?Ed1. simpl. rewrite ?Eb. apply tensor_add__self. }
  unfold Diag_iadd, Diag_mul_.
  destruct (get_diag h d) as [ds|e] eqn:Ed; simpl; [|reflexivity].
  destruct (Diag_weight ds) as [w|] eqn:Ew.
  - rewrite ?Ed. simpl. rewrite ?Ew, tensor_add__self.
    destruct (tensor_mul_ h w 2) as [h1|e]; simpl; [|reflexivity].
    apply Hbias.
  - simpl. apply Hbias.
Qed.

Lemma UnitWise_iadd_self (h : heap) (u : loc) :
  UnitWise_iadd h u u = UnitWise_mul_ h u 2.
Proof.
  unfold UnitWise_iadd, UnitWise_mul_.
  destruct (get_unit h u) as [us|e] eqn:Eu; simpl; [|reflexivity].
  destruct (UnitWise_data us) as [d|] eqn:Ed; simpl; [|reflexivity].
  rewrite ?Eu; simpl; rewrite ?Ed. apply tensor_add__self.
Qed.

(** On a [Kron] that holds both factors, [k += k] is [k.mul_(2)].  (On one
    that does not, [__iadd__] returns at once and [mul_] raises.) *)
Lemma Kron_iadd_self (h : heap) (k : loc) :
  (forall kr, get_kron h k = Ok kr -> Kron_has_data kr = true) ->
  Kron_iadd h k k = Kron_mul_ h k 2.
Proof.
  intros Hpop. unfold Kron_iadd, Kron_mul_.
  destruct (get_kron h k) as [kr|e] eqn:Ek; simpl; [|reflexivity].
  specialize (Hpop kr eq_refl). rewrite Hpop. simpl.
  unfold Kron_has_data in Hpop.
  destruct (Kron_A kr) as [a|], (Kron_B kr) as [b|]; simpl in *; try discriminate.
  rewrite tensor_add__self.
  destruct (tensor_mul_ h a 2) as [h1|e]; simpl; [|reflexivity].
  apply tensor_add__self.
Qed.

Lemma nth_error_set_nth_neq {A : Type} (l : list A) (i k : nat) (x : A) :
  i <> k -> nth_error (set_nth l i x) k = nth_error l k.
Proof.
  revert i k; induction l as [|y l IH]; intros [|i] [|k] H; simpl; auto; try lia.
Qed.

Lemma nth_error_set_nth_eq {A : Type} (l : list A) (i : nat) (x : A) :
  nth_error (set_nth l i x) i = match nth_error l i with Some _ => Some x | None => None end.
Proof.
  revert i; induction l as [|y l IH]; intros [|i]; simpl; auto.
Qed.

(** Overwriting a tensor does not create or change objects of other
    classes. *)
Lemma get_sym_store_tensor (h : heap) (d x : loc) (t : tensor) (s : SymMatrix) :
  get_sym (store h d (OTensor t)) x = Ok s -> get_sym h x = Ok s.
Proof.
  unfold get_sym, store. destruct (Nat.eq_dec d x) as [->|Hne].
  - rewrite nth_error_set_nth_eq. destruct (nth_error h x); discriminate.
  - rewrite nth_error_set_nth_neq by exact Hne. auto.
Qed.

Lemma get_kron_store_tensor (h : heap) (d x : loc) (t : tensor) (k : Kron) :
  get_kron (store h d (OTensor t)) x = Ok k -> get_kron h x = Ok k.
Proof.
  unfold get_kron, store. destruct (Nat.eq_dec d x) as [->|Hne].
  - rewrite nth_error_set_nth_eq. destruct (nth_error h x); discriminate.
  - rewrite nth_error_set_nth_neq by exact Hne. auto.
Qed.

(** The Kronecker representation of [x], when [x] has one, holds both
    factors. *)
Definition kron_populated (h : heap) (x : loc) : Prop :=
  forall s k kr, get_sym h x = Ok s -> SymMatrix_kron s = Some k ->
                 get_kron h k = Ok kr -> Kron_has_data kr = true.

Lemma kron_populated_mul_data (h h1 : heap) (x : loc) (value : R) :
  sym_mul_attr SymMatrix_data tensor_mul_ h x value = Ok h1 ->
  kron_populated h x -> kron_populated h1 x.
Proof.
  unfold sym_mul_attr. intros H Hpop.
  apply bind_ok_inv in H as [ss [Es H]].
  destruct (SymMatrix_data ss) as [d|]; [|inversion H; subst; exact Hpop].
  unfold tensor_mul_ in H. apply bind_ok_inv in H as [t [Et H]].
  inversion H; subst; clear H.
  intros s k kr Hs Hk Hkr.
  apply get_sym_store_tensor in Hs. apply get_kron_store_tensor in Hkr.
  exact (Hpop s k kr Hs Hk Hkr).
Qed.

(** [X += X] leaves the store exactly as [X.mul_(2)] does, whatever tensors
    the representations of [X] share. *)
Lemma SymMatrix_iadd_self (h : heap) (x : loc) :
  kron_populated h x ->
  SymMatrix_iadd h x x = SymMatrix_mul_ h x 2.
Proof.
  intros Hpop. unfold SymMatrix_iadd, SymMatrix_mul_.
  assert (S1 : forall set,
             sym_iadd_attr SymMatrix_data set tensor_add_ h x x
             = sym_mul_attr SymMatrix_data tensor_mul_ h x 2).
  { intros set. unfold sym_iadd_attr, sym_mul_attr.
    destruct (get_sym h x) as [s|e]; simpl; [|reflexivity].
    destruct (SymMatrix_data s); [apply tensor_add__self | reflexivity]. }
  rewrite S1.
  destruct (sym_mul_attr SymMatrix_data tensor_mul_ h x 2) as [h1|e] eqn:E1;
    simpl; [|reflexivity].
  pose proof (kron_populated_mul_data _ _ _ _ E1 Hpop) as Hpop1.
  assert (S2 : forall set,
             sym_iadd_attr SymMatrix_kron set Kron_iadd h1 x x
             = sym_mul_attr SymMatrix_kron Kron_mul_ h1 x 2).
  { intros set. unfold sym_iadd_attr, sym_mul_attr.
    destruct (get_sym h1 x) as [s|e] eqn:Es; simpl; [|reflexivity].
    destruct (SymMatrix_kron s) as [k|] eqn:Ek; [|reflexivity].
    apply Kron_iadd_self. intros kr Hkr. exact (Hpop1 s k kr Es Ek Hkr). }
  rewrite S2.
  destruct (sym_mul_attr SymMatrix_kron Kron_mul_ h1 x 2) as [h2|e]; simpl;
    [|reflexivity].
  assert (S3 : forall set,
             sym_iadd_attr SymMatrix_diag set Diag_iadd h2 x x
             = sym_mul_attr SymMatrix_diag Diag_mul_ h2 x 2).
  { intros set. unfold sym_iadd_attr, sym_mul_attr.
    destruct (get_sym h2 x) as [s|e]; simpl; [|reflexivity].
    destruct (SymMatrix_diag s); [apply Diag_iadd_self | reflexivity]. }
  rewrite S3.
  destruct (sym_mul_attr SymMatrix_diag Diag_mul_ h2 x 2) as [h3|e]; simpl;
    [|reflexivity].
  unfold sym_iadd_attr, sym_mul_attr.
  destruct (get_sym h3 x) as [s|e]; simpl; [|reflexivity].
  destruct (SymMatrix_unit s); [apply UnitWise_iadd_self | reflexivity].
Qed.

(* ================================================================== *)
(** * The values a matrix stores, and their representation-wise sum *)
(* ================================================================== *)

(** Reading an optional part of an object: [None], or the value of the
    object the attribute refers to. *)
Definition opt_val {V : Type} (get : heap -> loc -> result V)
           (h : heap) (o : option loc) : result (option V) :=
  match o with
  | None => Ok None
  | Some l => v <- get h l ;; Ok (Some v)
  end.

Definition tensor_val := opt_val get_tensor.

(** The two tensors of a [Kron] ([A], [B]) or of a [Diag] ([weight],
    [bias]). *)
Definition pair_val : Type := (option tensor * option tensor)%type.

Definition kron_obj_val (h : heap) (l : loc) : result pair_val :=
  k <- get_kron h l ;;
  a <- tensor_val h (Kron_A k) ;;
  b <- tensor_val h (Kron_B k) ;;
  Ok (a, b).

Definition diag_obj_val (h : heap) (l : loc) : result pair_val :=
  d <- get_diag h l ;;
  w <- tensor_val h (Diag_weight d) ;;
  b <- tensor_val h (Diag_bias d) ;;
  Ok (w, b).

Definition unit_obj_val (h : heap) (l : loc) : result (option tensor) :=
  u <- get_unit h l ;;
  tensor_val h (UnitWise_data u).

Record sym_value : Type := mkSymValue {
  v_data : option tensor;
  v_kron : option pair_val;
  v_diag : option pair_val;
  v_unit : option (option tensor)
}.

(** The values stored in the four representations of a [SymMatrix]. *)
Definition sym_val (h : heap) (x : loc) : result sym_value :=
  s <- get_sym h x ;;
  d <- tensor_val h (SymMatrix_data s) ;;
  k <- opt_val kron_obj_val h (SymMatrix_kron s) ;;
  g <- opt_val diag_obj_val h (SymMatrix_diag s) ;;
  u <- opt_val unit_obj_val h (SymMatrix_unit s) ;;
  Ok (mkSymValue d k g u).

(** The sum of two optional values. *)
Definition lift_add {V : Type} (add : V -> V -> result V) (s o : option V)
  : result (option V) :=
  match o with
  | Some vo =>
      match s with
      | Some vs => v <- add vs vo ;; Ok (Some v)
      | None => Ok (Some vo)
      end
  | None => Ok s
  end.

Definition topt_add := lift_add tensor_add.

Definition pair_full (p : pair_val) : bool := is_some (fst p) && is_some (snd p).

(** The stored values of [self + other] for two [Kron]s. *)
Definition kron_add_val (s o : pair_val) : result pair_val :=
  if negb (pair_full o) then Ok s
  else if pair_full s
       then a <- topt_add (fst s) (fst o) ;;
            b <- topt_add (snd s) (snd o) ;;
            Ok (a, b)
       else Ok o.

(** The stored values of [self + other] for two [Diag]s. *)
Definition diag_add_val (s o : pair_val) : result pair_val :=
  w <- topt_add (fst s) (fst o) ;;
  b <- topt_add (snd s) (snd o) ;;
  Ok (w, b).

(** The stored values of [self + other] for two [SymMatrix]es. *)
Definition sym_add_val (x y : sym_value) : result sym_value :=
  d <- topt_add (v_data x) (v_data y) ;;
  k <- lift_add kron_add_val (v_kron x) (v_kron y) ;;
  g <- lift_add diag_add_val (v_diag x) (v_diag y) ;;
  u <- lift_add topt_add (v_unit x) (v_unit y) ;;
  Ok (mkSymValue d k g u).

(** Values read from a store are read unchanged from any extension of it. *)
Lemma opt_val_ext {V : Type} (get : heap -> loc -> result V) :
  (forall h e l v, get h l = Ok v -> get (h ++ e) l = Ok v) ->
  forall h e o v, opt_val get h o = Ok v -> opt_val get (h ++ e) o = Ok v.
Proof.
  intros Hget h e [l|] v H; simpl in *; [|exact H].
  apply bind_ok_inv in H as [x [E H]].
  rewrite (Hget _ e _ _ E). exact H.
Qed.

Lemma tensor_val_ext (h e : heap) (o : option loc) (v : option tensor) :
  tensor_val h o = Ok v -> tensor_val (h ++ e) o = Ok v.
Proof. apply opt_val_ext. exact get_tensor_ext. Qed.

Lemma kron_obj_val_ext (h e : heap) (l : loc) (v : pair_val) :
  kron_obj_val h l = Ok v -> kron_obj_val (h ++ e) l = Ok v.
Proof.
  unfold kron_obj_val. intros H.
  apply bind_ok_inv in H as [k [Ek H]].
  apply bind_ok_inv in H as [a [Ea H]].
  apply bind_ok_inv in H as [b [Eb H]].
  rewrite (get_kron_ext _ e _ _ Ek). simpl.
  rewrite (tensor_val_ext _ e _ _ Ea). simpl.
  rewrite (tensor_val_ext _ e _ _ Eb). exact H.
Qed.

Lemma diag_obj_val_ext (h e : heap) (l : loc) (v : pair_val) :
  diag_obj_val h l = Ok v -> diag_obj_val (h ++ e) l = Ok v.
Proof.
  unfold diag_obj_val. intros H.
  apply bind_ok_inv in H as [k [Ek H]].
  apply bind_ok_inv in H as [a [Ea H]].
  apply bind_ok_inv in H as [b [Eb H]].
  rewrite (get_diag_ext _ e _ _ Ek). simpl.
  rewrite (tensor_val_ext _ e _ _ Ea). simpl.
  rewrite (tensor_val_ext _ e _ _ Eb). exact H.
Qed.

Lemma unit_obj_val_ext (h e : heap) (l : loc) (v : option tensor) :
  unit_obj_val h l = Ok v -> unit_obj_val (h ++ e) l = Ok v.
Proof.
  unfold unit_obj_val. intros H.
  apply bind_ok_inv in H as [k [Ek H]].
  rewrite (get_unit_ext _ e _ _ Ek). simpl.
  apply tensor_val_ext. exact H.
Qed.

(** An operation [add] on objects computes the sum [vadd] of their values
    in an extension of the store. *)
Definition refines {V : Type} (get : heap -> loc -> result V)
           (add : heap -> loc -> loc -> result (heap * loc))
           (vadd : V -> V -> result V) : Prop :=
  forall h s o vs vo v,
    get h s = Ok vs -> get h o = Ok vo -> vadd vs vo = Ok v ->
    exists e r, add h s o = Ok (h ++ e, r) /\ get (h ++ e) r = Ok v.

Lemma opt_combine_refines {V : Type} (get : heap -> loc -> result V)
      (add : heap -> loc -> loc -> result (heap * loc))
      (vadd : V -> V -> result V) :
  refines get add vadd ->
  forall h s o vs vo v,
    opt_val get h s = Ok vs -> opt_val get h o = Ok vo ->
    lift_add vadd vs vo = Ok v ->
    exists e r, opt_combine add h s o = Ok (h ++ e, r)
                /\ opt_val get (h ++ e) r = Ok v.
Proof.
  intros Href h s o vs vo v Hs Ho Hv.
  destruct o as [lo|]; simpl in Ho.
  - apply bind_ok_inv in Ho as [xo [Eo Ho]]. inversion Ho; subst; clear Ho.
    destruct s as [ls|]; simpl in Hs.
    + apply bind_ok_inv in Hs as [xs [Es Hs]]. inversion Hs; subst; clear Hs.
      simpl in Hv. apply bind_ok_inv in Hv as [w [Ew Hv]].
      inversion Hv; subst; clear Hv.
      destruct (Href h ls lo xs xo w Es Eo Ew) as (e & r & Hadd & Hget).
      exists e, (Some r). simpl. rewrite Hadd. simpl. rewrite Hget. auto.
    + inversion Hs; subst; clear Hs. simpl in Hv. inversion Hv; subst; clear Hv.
      exists [], (Some lo). rewrite app_nil_r. simpl. rewrite Eo. auto.
  - inversion Ho; subst; clear Ho. simpl in Hv. inversion Hv; subst; clear Hv.
    exists [], s. rewrite app_nil_r. simpl. auto.
Qed.

Lemma tensor_add_ok_inv (a b t : tensor) :
  tensor_add a b = Ok t -> same_shapeb a b = true /\ t = tzip Rplus a b.
Proof.
  unfold tensor_add, tensor_zip. destruct (same_shapeb a b); [|discriminate].
  intros H; inversion H; auto.
Qed.

Lemma tensor_add_new_refines : refines get_tensor tensor_add_new tensor_add.
Proof.
  intros h s o vs vo v Hs Ho Hv.
  apply tensor_add_ok_inv in Hv as [Hsh ->].
  exists [OTensor (tzip Rplus vs vo)], (length h). split.
  - apply tensor_add_new_ok; assumption.
  - unfold get_tensor. rewrite nth_error_alloc. reflexivity.
Qed.

Lemma tensor_val_is_some (h : heap) (o : option loc) (v : option tensor) :
  tensor_val h o = Ok v -> is_some v = is_some o.
Proof.
  destruct o as [l|]; simpl; intros H.
  - apply bind_ok_inv in H as [x [_ H]]. inversion H; reflexivity.
  - inversion H; reflexivity.
Qed.

Lemma tensor_val_some_inv (h : heap) (o : option loc) (t : tensor) :
  tensor_val h o = Ok (Some t) -> exists l, o = Some l /\ get_tensor h l = Ok t.
Proof.
  destruct o as [l|]; simpl; intros H; [|discriminate].
  apply bind_ok_inv in H as [x [E H]]. inversion H; subst. eauto.
Qed.

Lemma Kron_add_refines : refines kron_obj_val Kron_add kron_add_val.
Proof.
  intros h s o [sa sb] [oa ob] v Hs Ho Hv.
  unfold kron_obj_val in Hs, Ho.
  apply bind_ok_inv in Hs as [ks [Eks Hs]].
  apply bind_ok_inv in Hs as [sa' [Esa Hs]].
  apply bind_ok_inv in Hs as [sb' [Esb Hs]]. inversion Hs; subst; clear Hs.
  apply bind_ok_inv in Ho as [ko [Eko Ho]].
  apply bind_ok_inv in Ho as [oa' [Eoa Ho]].
  apply bind_ok_inv in Ho as [ob' [Eob Ho]]. inversion Ho; subst; clear Ho.
  assert (Fo : Kron_has_data ko = pair_full (oa, ob)).
  { unfold Kron_has_data, pair_full. simpl.
    rewrite (tensor_val_is_some _ _ _ Eoa), (tensor_val_is_some _ _ _ Eob).
    reflexivity. }
  assert (Fs : Kron_has_data ks = pair_full (sa, sb)).
  { unfold Kron_has_data, pair_full. simpl.
    rewrite (tensor_val_is_some _ _ _ Esa), (tensor_val_is_some _ _ _ Esb).
    reflexivity. }
  unfold kron_add_val in Hv. unfold Kron_add.
  rewrite Eko. simpl. rewrite Fo.
  destruct (pair_full (oa, ob)) eqn:Po; simpl in Hv |- *.
  - rewrite Eks. simpl. rewrite Fs.
    destruct (pair_full (sa, sb)) eqn:Ps; simpl in Hv |- *.
    + unfold pair_full in Po, Ps. simpl in Po, Ps.
      destruct sa as [ta|], sb as [tb|], oa as [ua|], ob as [ub|];
        simpl in Po, Ps; try discriminate.
      apply tensor_val_some_inv in Esa as (lsa & -> & Gsa).
      apply tensor_val_some_inv in Esb as (lsb & -> & Gsb).
      apply tensor_val_some_inv in Eoa as (loa & -> & Goa).
      apply tensor_val_some_inv in Eob as (lob & -> & Gob).
      simpl in Hv.
      apply bind_ok_inv in Hv as [a [Ea Hv]].
      apply bind_ok_inv in Ea as [ta' [Ea Ea']]. inversion Ea'; subst; clear Ea'.
      apply bind_ok_inv in Hv as [b [Eb Hv]].
      apply bind_ok_inv in Eb as [tb' [Eb Eb']]. inversion Eb'; subst; clear Eb'.
      inversion Hv; subst; clear Hv.
      apply tensor_add_ok_inv in Ea as [Sa ->].
      apply tensor_add_ok_inv in Eb as [Sb ->].
      simpl.
      rewrite (tensor_add_new_ok _ _ _ _ _ Gsa Goa Sa). simpl.
      rewrite (tensor_add_new_ok _ _ _ _ _ (get_tensor_ext _ _ _ _ Gsb)
                 (get_tensor_ext _ _ _ _ Gob) Sb). simpl.
      unfold Kron_init, alloc.
      set (Ta := OTensor (tzip Rplus ta ua)).
      set (Tb := OTensor (tzip Rplus tb ub)).
      set (K := OKron _).
      exists [Ta; Tb; K], (length ((h ++ [Ta]) ++ [Tb])).
      replace (h ++ [Ta; Tb; K]) with (((h ++ [Ta]) ++ [Tb]) ++ [K])
        by (rewrite <- !app_assoc; reflexivity).
      split; [reflexivity|].
      unfold kron_obj_val, get_kron. rewrite nth_error_alloc. subst K. simpl.
      unfold get_tensor.
      rewrite (nth_error_ext _ [_] _ _ (nth_error_ext _ [Tb] _ _ (nth_error_alloc h Ta))).
      subst Ta. simpl.
      rewrite (nth_error_ext _ [_] _ _ (nth_error_alloc (h ++ [_]) Tb)).
      subst Tb. reflexivity.
    + inversion Hv; subst; clear Hv.
      unfold Kron_init, alloc.
      exists [OKron (mkKron (Kron_A ko) (Kron_B ko) None None None None)], (length h).
      split; [reflexivity|].
      unfold kron_obj_val, get_kron. rewrite nth_error_alloc. simpl.
      rewrite (tensor_val_ext _ _ _ _ Eoa). simpl.
      rewrite (tensor_val_ext _ _ _ _ Eob). reflexivity.
  - inversion Hv; subst; clear Hv.
    exists [], s. rewrite app_nil_r. split; [reflexivity|].
    unfold kron_obj_val. rewrite Eks. simpl. rewrite Esa. simpl. rewrite Esb.
    reflexivity.
Qed.

Lemma Diag_add_refines : refines diag_obj_val Diag_add diag_add_val.
Proof.
  intros h s o [sw sb] [ow ob] v Hs Ho Hv.
  unfold diag_obj_val in Hs, Ho.
  apply bind_ok_inv in Hs as [ds [Eds Hs]].
  apply bind_ok_inv in Hs as [sw' [Esw Hs]].
  apply bind_ok_inv in Hs as [sb' [Esb Hs]]. inversion Hs; subst; clear Hs.
  apply bind_ok_inv in Ho as [dt [Edt Ho]].
  apply bind_ok_inv in Ho as [ow' [Eow Ho]].
  apply bind_ok_inv in Ho as [ob' [Eob Ho]]. inversion Ho; subst; clear Ho.
  unfold diag_add_val in Hv. simpl in Hv.
  apply bind_ok_inv in Hv as [w [Ew Hv]].
  apply bind_ok_inv in Hv as [b [Eb Hv]]. inversion Hv; subst; clear Hv.
  destruct (opt_combine_refines _ _ _ tensor_add_new_refines
              h _ _ _ _ _ Esw Eow Ew) as (e1 & rw & H1 & V1).
  destruct (opt_combine_refines _ _ _ tensor_add_new_refines
              (h ++ e1) _ _ _ _ _ (tensor_val_ext _ e1 _ _ Esb)
              (tensor_val_ext _ e1 _ _ Eob) Eb) as (e2 & rb & H2 & V2).
  unfold Diag_add, opt_add_new. rewrite Edt. simpl. rewrite Eds. simpl.
  rewrite H1. simpl. rewrite H2. simpl.
  unfold Diag_init, alloc.
  set (D := ODiag _).
  exists (e1 ++ e2 ++ [D]), (length ((h ++ e1) ++ e2)).
  replace (h ++ e1 ++ e2 ++ [D]) with (((h ++ e1) ++ e2) ++ [D])
    by (rewrite <- !app_assoc; reflexivity).
  split; [reflexivity|].
  unfold diag_obj_val, get_diag. rewrite nth_error_alloc. subst D. simpl.
  fold tensor_val in V1, V2.
  rewrite (tensor_val_ext _ [_] _ _ (tensor_val_ext _ e2 _ _ V1)). simpl.
  rewrite (tensor_val_ext _ [_] _ _ V2). reflexivity.
Qed.

Lemma UnitWise_add_refines : refines unit_obj_val UnitWise_add topt_add.
Proof.
  intros h s o vs vo v Hs Ho Hv.
  unfold unit_obj_val in Hs, Ho.
  apply bind_ok_inv in Hs as [us [Eus Hs]].
  apply bind_ok_inv in Ho as [uo [Euo Ho]].
  unfold UnitWise_add. rewrite Euo. simpl.
  destruct vo as [uo_t|].
  - apply tensor_val_some_inv in Ho as (lo & Elo & Glo). rewrite Elo.
    rewrite Eus. simpl.
    destruct vs as [us_t|]; simpl in Hv.
    + apply tensor_val_some_inv in Hs as (ls & Els & Gls). rewrite Els.
      apply bind_ok_inv in Hv as [t [Et Hv]]. inversion Hv; subst; clear Hv.
      apply tensor_add_ok_inv in Et as [Sh ->].
      rewrite (tensor_add_new_ok _ _ _ _ _ Gls Glo Sh). simpl.
      unfold UnitWise_init, alloc.
      set (T := OTensor _). set (U := OUnit _).
      exists [T; U], (length (h ++ [T])).
      replace (h ++ [T; U]) with ((h ++ [T]) ++ [U])
        by (rewrite <- !app_assoc; reflexivity).
      split; [reflexivity|].
      unfold unit_obj_val, get_unit. rewrite nth_error_alloc. subst U. simpl.
      unfold get_tensor.
      rewrite (nth_error_ext _ [_] _ _ (nth_error_alloc h T)). reflexivity.
    + inversion Hv; subst; clear Hv.
      assert (Eno : UnitWise_data us = None).
      { destruct (UnitWise_data us) as [l|]; [|reflexivity].
        simpl in Hs. apply bind_ok_inv in Hs as [x [_ Hs]]. discriminate. }
      rewrite Eno. unfold UnitWise_init, alloc.
      exists [OUnit (mkUnitWise (Some lo) None)], (length h).
      split; [reflexivity|].
      unfold unit_obj_val, get_unit. rewrite nth_error_alloc. simpl.
      rewrite (get_tensor_ext _ _ _ _ Glo). reflexivity.
  - assert (Eno : UnitWise_data uo = None).
    { destruct (UnitWise_data uo) as [l|]; [|reflexivity].
      simpl in Ho. apply bind_ok_inv in Ho as [x [_ Ho]]. discriminate. }
    rewrite Eno. simpl in Hv. inversion Hv; subst; clear Hv.
    exists [], s. rewrite app_nil_r. split; [reflexivity|].
    unfold unit_obj_val. rewrite Eus. exact Hs.
Qed.

Lemma kron_opt_val_ext (h e : heap) (o : option loc) (v : option pair_val) :
  opt_val kron_obj_val h o = Ok v -> opt_val kron_obj_val (h ++ e) o = Ok v.
Proof. apply opt_val_ext. exact kron_obj_val_ext. Qed.

Lemma diag_opt_val_ext (h e : heap) (o : option loc) (v : option pair_val) :
  opt_val diag_obj_val h o = Ok v -> opt_val diag_obj_val (h ++ e) o = Ok v.
Proof. apply opt_val_ext. exact diag_obj_val_ext. Qed.

Lemma unit_opt_val_ext (h e : heap) (o : option loc) (v : option (option tensor)) :
  opt_val unit_obj_val h o = Ok v -> opt_val unit_obj_val (h ++ e) o = Ok v.
Proof. apply opt_val_ext. exact unit_obj_val_ext. Qed.

(** [SymMatrix.__add__] computes the representation-wise sum of the stored
    values, in a new object, leaving every existing object as it was. *)
Lemma SymMatrix_add_refines : refines sym_val SymMatrix_add sym_add_val.
Proof.
  intros h s o vs vo v Hs Ho Hv.
  unfold sym_val in Hs, Ho.
  apply bind_ok_inv in Hs as [ss [Ess Hs]].
  apply bind_ok_inv in Hs as [sd [Esd Hs]].
  apply bind_ok_inv in Hs as [sk [Esk Hs]].
  apply bind_ok_inv in Hs as [sg [Esg Hs]].
  apply bind_ok_inv in Hs as [su [Esu Hs]]. inversion Hs; subst; clear Hs.
  apply bind_ok_inv in Ho as [so [Eso Ho]].
  apply bind_ok_inv in Ho as [od [Eod Ho]].
  apply bind_ok_inv in Ho as [ok [Eok Ho]].
  apply bind_ok_inv in Ho as [og [Eog Ho]].
  apply bind_ok_inv in Ho as [ou [Eou Ho]]. inversion Ho; subst; clear Ho.
  unfold sym_add_val in Hv. simpl in Hv.
  apply bind_ok_inv in Hv as [d [Ed Hv]].
  apply bind_ok_inv in Hv as [k [Ek Hv]].
  apply bind_ok_inv in Hv as [g [Eg Hv]].
  apply bind_ok_inv in Hv as [u [Eu Hv]]. inversion Hv; subst; clear Hv.
  destruct (opt_combine_refines _ _ _ tensor_add_new_refines
              h _ _ _ _ _ Esd Eod Ed) as (e1 & rd & H1 & V1).
  destruct (opt_combine_refines _ _ _ Kron_add_refines
              (h ++ e1) _ _ _ _ _ (kron_opt_val_ext _ e1 _ _ Esk)
              (kron_opt_val_ext _ e1 _ _ Eok) Ek) as (e2 & rk & H2 & V2).
  destruct (opt_combine_refines _ _ _ Diag_add_refines
              ((h ++ e1) ++ e2) _ _ _ _ _
              (diag_opt_val_ext _ e2 _ _ (diag_opt_val_ext _ e1 _ _ Esg))
              (diag_opt_val_ext _ e2 _ _ (diag_opt_val_ext _ e1 _ _ Eog)) Eg)
    as (e3 & rg & H3 & V3).
  destruct (opt_combine_refines _ _ _ UnitWise_add_refines
              (((h ++ e1) ++ e2) ++ e3) _ _ _ _ _
              (unit_opt_val_ext _ e3 _ _
                 (unit_opt_val_ext _ e2 _ _ (unit_opt_val_ext _ e1 _ _ Esu)))
              (unit_opt_val_ext _ e3 _ _
                 (unit_opt_val_ext _ e2 _ _ (unit_opt_val_ext _ e1 _ _ Eou))) Eu)
    as (e4 & ru & H4 & V4).
  unfold SymMatrix_add. rewrite Ess. simpl. rewrite Eso. simpl.
  rewrite H1. simpl. rewrite H2. simpl. rewrite H3. simpl. rewrite H4. simpl.
  unfold SymMatrix_init, alloc. simpl.
  set (h4 := (((h ++ e1) ++ e2) ++ e3) ++ e4).
  set (S := OSym _).
  exists (e1 ++ e2 ++ e3 ++ e4 ++ [S]), (length h4).
  replace (h ++ e1 ++ e2 ++ e3 ++ e4 ++ [S]) with (h4 ++ [S])
    by (subst h4; rewrite <- !app_assoc; reflexivity).
  split; [reflexivity|].
  unfold sym_val, get_sym. rewrite nth_error_alloc. subst S. simpl.
  fold tensor_val in V1.
  subst h4.
  rewrite (tensor_val_ext _ [_] _ _
             (tensor_val_ext _ e4 _ _
                (tensor_val_ext _ e3 _ _ (tensor_val_ext _ e2 _ _ V1)))). simpl.
  rewrite (kron_opt_val_ext _ [_] _ _
             (kron_opt_val_ext _ e4 _ _ (kron_opt_val_ext _ e3 _ _ V2))). simpl.
  rewrite (diag_opt_val_ext _ [_] _ _ (diag_opt_val_ext _ e4 _ _ V3)). simpl.
  rewrite (unit_opt_val_ext _ [_] _ _ V4). reflexivity.
Qed.

(* ------------------------------------------------------------------ *)
(** ** Commutativity and associativity of the sum of values *)

Lemma same_shapeb_skel (a b : tensor) :
  same_shapeb a b = true <-> skel a = skel b.
Proof.
  unfold same_shapeb. destruct (skel_eq_dec (skel a) (skel b)); split;
    intros; congruence.
Qed.

Lemma tensor_add_eq (a b : tensor) :
  tensor_add a b
  = if skel_eq_dec (skel a) (skel b) then Ok (tzip Rplus a b) else Err ShapeError.
Proof.
  unfold tensor_add, tensor_zip, same_shapeb.
  destruct (skel_eq_dec (skel a) (skel b)); reflexivity.
Qed.

Lemma map_length_zipw {A B C N : Type} (f : A -> B -> C) (l1 : list A) (l2 : list B)
      (la : A -> N) (lb : B -> N) (lc : C -> N) :
  map la l1 = map lb l2 ->
  (forall x y, la x = lb y -> lc (f x y) = la x) ->
  map lc (zipw f l1 l2) = map la l1.
Proof.
  revert l2; induction l1 as [|x l1 IH]; intros [|y l2] E Hf; simpl in *;
    try discriminate; [reflexivity|].
  inversion E. rewrite Hf by assumption. f_equal. apply IH; assumption.
Qed.

Lemma skel_tzip (f : R -> R -> R) (a b : tensor) :
  skel a = skel b -> skel (tzip f a b) = skel a.
Proof.
  destruct a as [x|u|m|p], b as [y|v|n|q]; simpl; intros E; try discriminate;
    try reflexivity.
  - inversion E as [E']. rewrite length_zipw, E', Nat.min_id. reflexivity.
  - inversion E as [E']. do 2 f_equal.
    apply (map_length_zipw _ _ _ (@length R) (@length R) (@length R));
      [exact E'|].
    intros r s L. rewrite length_zipw, L, Nat.min_id. reflexivity.
  - inversion E as [E']. f_equal.
    apply (map_length_zipw _ _ _ (map (@length R)) (map (@length R))
             (map (@length R))); [exact E'|].
    intros m n L.
    apply (map_length_zipw _ _ _ (@length R) (@length R) (@length R));
      [exact L|].
    intros r s L'. rewrite length_zipw, L', Nat.min_id. reflexivity.
Qed.

Lemma zipw_comm {A B : Type} (f : A -> A -> B) (l1 l2 : list A) :
  (forall x y, f x y = f y x) -> zipw f l1 l2 = zipw f l2 l1.
Proof.
  intros E; revert l2; induction l1 as [|x l1 IH]; intros [|y l2]; simpl; auto.
  rewrite E, IH; reflexivity.
Qed.

Lemma zipw_assoc {A : Type} (f : A -> A -> A) (l1 l2 l3 : list A) :
  (forall x y z, f (f x y) z = f x (f y z)) ->
  zipw f (zipw f l1 l2) l3 = zipw f l1 (zipw f l2 l3).
Proof.
  intros E; revert l2 l3; induction l1 as [|x l1 IH]; intros [|y l2] [|z l3];
    simpl; auto.
  rewrite E, IH; reflexivity.
Qed.

Lemma tzip_plus_comm (a b : tensor) :
  skel a = skel b -> tzip Rplus a b = tzip Rplus b a.
Proof.
  destruct a as [x|u|m|p], b as [y|v|n|q]; simpl; intros E; try discriminate;
    f_equal.
  - ring.
  - apply zipw_comm; intros; ring.
  - apply zipw_comm; intros; apply zipw_comm; intros; ring.
  - apply zipw_comm; intros; apply zipw_comm; intros; apply zipw_comm; intros; ring.
Qed.

Lemma tzip_plus_assoc (a b c : tensor) :
  skel a = skel b -> skel b = skel c ->
  tzip Rplus (tzip Rplus a b) c = tzip Rplus a (tzip Rplus b c).
Proof.
  destruct a as [x|u|m|p], b as [y|v|n|q], c as [z|w|o|r]; simpl;
    intros E1 E2; try discriminate; f_equal.
  - ring.
  - apply zipw_assoc; intros; ring.
  - apply zipw_assoc; intros; apply zipw_assoc; intros; ring.
  - apply zipw_assoc; intros; apply zipw_assoc; intros; apply zipw_assoc;
      intros; ring.
Qed.

Lemma tensor_add_comm (a b : tensor) : tensor_add a b = tensor_add b a.
Proof.
  rewrite !tensor_add_eq.
  destruct (skel_eq_dec (skel a) (skel b)) as [E|N],
           (skel_eq_dec (skel b) (skel a)) as [E'|N']; try congruence.
  rewrite (tzip_plus_comm _ _ E). reflexivity.
Qed.

(** Sums of three tensors agree, also in which of them fail. *)
Lemma tensor_add_assoc (a b c : tensor) :
  (x <- tensor_add a b ;; tensor_add x c) = (y <- tensor_add b c ;; tensor_add a y).
Proof.
  rewrite (tensor_add_eq a b), (tensor_add_eq b c).
  destruct (skel_eq_dec (skel a) (skel b)) as [E1|N1],
           (skel_eq_dec (skel b) (skel c)) as [E2|N2]; simpl;
    rewrite ?tensor_add_eq.
  - rewrite (skel_tzip Rplus _ _ E1), (skel_tzip Rplus _ _ E2).
    destruct (skel_eq_dec (skel a) (skel c)), (skel_eq_dec (skel a) (skel b));
      try congruence.
    rewrite tzip_plus_assoc by assumption. reflexivity.
  - rewrite (skel_tzip Rplus _ _ E1).
    destruct (skel_eq_dec (skel a) (skel c)); congruence.
  - rewrite (skel_tzip Rplus _ _ E2).
    destruct (skel_eq_dec (skel a) (skel b)); congruence.
  - reflexivity.
Qed.

Lemma lift_add_comm {V : Type} (f : V -> V -> result V) (s o : option V) :
  (forall a b, s = Some a -> o = Some b -> f a b = f b a) ->
  lift_add f s o = lift_add f o s.
Proof.
  intros E. destruct s as [a|], o as [b|]; simpl; try reflexivity.
  rewrite (E a b eq_refl eq_refl). reflexivity.
Qed.

Lemma lift_add_assoc {V : Type} (f : V -> V -> result V) :
  (forall a b c, (x <- f a b ;; f x c) = (y <- f b c ;; f a y)) ->
  forall a b c,
    (x <- lift_add f a b ;; lift_add f x c) = (y <- lift_add f b c ;; lift_add f a y).
Proof.
  intros E [a|] [b|] [c|]; simpl; try reflexivity.
  - specialize (E a b c).
    destruct (f a b) as [ab|e1], (f b c) as [bc|e2]; simpl in *.
    + rewrite E. reflexivity.
    + rewrite E. reflexivity.
    + rewrite <- E. reflexivity.
    + congruence.
  - destruct (f a b); reflexivity.
  - destruct (f b c); reflexivity.
Qed.

(** From a parenthesisation that succeeds to the other one. *)
Lemma assoc_ok {V : Type} (f : V -> V -> result V) :
  (forall a b c, (x <- f a b ;; f x c) = (y <- f b c ;; f a y)) ->
  forall a b c ab v,
    f a b = Ok ab -> f ab c = Ok v ->
    exists bc, f b c = Ok bc /\ f a bc = Ok v.
Proof.
  intros E a b c ab v Hab Hv. specialize (E a b c).
  rewrite Hab in E. simpl in E. rewrite Hv in E.
  destruct (f b c) as [bc|e]; simpl in E; [eauto | discriminate].
Qed.

Lemma topt_add_comm (a b : option tensor) : topt_add a b = topt_add b a.
Proof. apply lift_add_comm. intros; apply tensor_add_comm. Qed.

Lemma topt_add_assoc (a b c : option tensor) :
  (x <- topt_add a b ;; topt_add x c) = (y <- topt_add b c ;; topt_add a y).
Proof. apply lift_add_assoc. exact tensor_add_assoc. Qed.

Ltac skel_norm :=
  repeat match goal with
  | E : skel ?a = skel ?b |- context [skel (tzip Rplus ?a ?b)] =>
      rewrite (skel_tzip Rplus a b E)
  end.

(** Case analysis on every shape comparison of a goal about sums of
    tensors. *)
Ltac shape_cases :=
  repeat (rewrite ?tensor_add_eq; skel_norm;
          match goal with
          | |- context [skel_eq_dec ?a ?b] => destruct (skel_eq_dec a b); simpl
          end);
  try reflexivity; try congruence;
  try (rewrite !tzip_plus_assoc by congruence; reflexivity).

Lemma kron_add_val_comm (s o : pair_val) :
  pair_full s = true -> pair_full o = true ->
  kron_add_val s o = kron_add_val o s.
Proof.
  unfold kron_add_val. intros Fs Fo. rewrite Fs, Fo. simpl.
  rewrite (topt_add_comm (fst s)), (topt_add_comm (snd s)). reflexivity.
Qed.

Lemma kron_add_val_assoc (x y z : pair_val) :
  (p <- kron_add_val x y ;; kron_add_val p z)
  = (q <- kron_add_val y z ;; kron_add_val x q).
Proof.
  destruct x as [[a1|] [b1|]], y as [[a2|] [b2|]], z as [[a3|] [b3|]];
    unfold kron_add_val, pair_full, topt_add; simpl; try reflexivity;
    shape_cases.
Qed.

Lemma diag_add_val_comm (s o : pair_val) : diag_add_val s o = diag_add_val o s.
Proof.
  unfold diag_add_val.
  rewrite (topt_add_comm (fst s)), (topt_add_comm (snd s)). reflexivity.
Qed.

Lemma diag_add_val_assoc (x y z : pair_val) :
  (p <- diag_add_val x y ;; diag_add_val p z)
  = (q <- diag_add_val y z ;; diag_add_val x q).
Proof.
  destruct x as [[a1|] [b1|]], y as [[a2|] [b2|]], z as [[a3|] [b3|]];
    unfold diag_add_val, topt_add; simpl; try reflexivity;
    shape_cases.
Qed.

(** In a stored value, a Kronecker representation that is present holds
    both factors. *)
Definition kron_ok (v : sym_value) : Prop :=
  match v_kron v with
  | Some p => pair_full p = true
  | None => True
  end.

Lemma sym_add_val_comm (x y : sym_value) :
  kron_ok x -> kron_ok y -> sym_add_val x y = sym_add_val y x.
Proof.
  unfold kron_ok, sym_add_val. intros Kx Ky.
  rewrite (topt_add_comm (v_data x)).
  rewrite (lift_add_comm kron_add_val (v_kron x) (v_kron y)).
  - rewrite (lift_add_comm diag_add_val (v_diag x) (v_diag y))
      by (intros; apply diag_add_val_comm).
    rewrite (lift_add_comm topt_add (v_unit x) (v_unit y))
      by (intros; apply topt_add_comm).
    reflexivity.
  - intros a b Ea Eb. rewrite Ea in Kx. rewrite Eb in Ky.
    apply kron_add_val_comm; assumption.
Qed.

Lemma sym_add_val_assoc_ok (x y z xy v : sym_value) :
  sym_add_val x y = Ok xy -> sym_add_val xy z = Ok v ->
  exists yz, sym_add_val y z = Ok yz /\ sym_add_val x yz = Ok v.
Proof.
  unfold sym_add_val. intros Hxy Hv.
  apply bind_ok_inv in Hxy as [d1 [Ed1 Hxy]].
  apply bind_ok_inv in Hxy as [k1 [Ek1 Hxy]].
  apply bind_ok_inv in Hxy as [g1 [Eg1 Hxy]].
  apply bind_ok_inv in Hxy as [u1 [Eu1 Hxy]]. inversion Hxy; subst; clear Hxy.
  simpl in Hv.
  apply bind_ok_inv in Hv as [d [Ed Hv]].
  apply bind_ok_inv in Hv as [k [Ek Hv]].
  apply bind_ok_inv in Hv as [g [Eg Hv]].
  apply bind_ok_inv in Hv as [u [Eu Hv]]. inversion Hv; subst; clear Hv.
  destruct (assoc_ok topt_add topt_add_assoc _ _ _ _ _ Ed1 Ed) as (d2 & Ed2 & Ed').
  destruct (assoc_ok _ (lift_add_assoc _ kron_add_val_assoc) _ _ _ _ _ Ek1 Ek)
    as (k2 & Ek2 & Ek').
  destruct (assoc_ok _ (lift_add_assoc _ diag_add_val_assoc) _ _ _ _ _ Eg1 Eg)
    as (g2 & Eg2 & Eg').
  destruct (assoc_ok _ (lift_add_assoc _ topt_add_assoc) _ _ _ _ _ Eu1 Eu)
    as (u2 & Eu2 & Eu').
  exists (mkSymValue d2 k2 g2 u2).
  rewrite Ed2, Ek2, Eg2, Eu2. simpl.
  rewrite Ed', Ek', Eg', Eu'. simpl. auto.
Qed.

Lemma sym_val_ext (h e : heap) (x : loc) (v : sym_value) :
  sym_val h x = Ok v -> sym_val (h ++ e) x = Ok v.
Proof.
  unfold sym_val. intros H.
  apply bind_ok_inv in H as [s [Es H]].
  apply bind_ok_inv in H as [d [Ed H]].
  apply bind_ok_inv in H as [k [Ek H]].
  apply bind_ok_inv in H as [g [Eg H]].
  apply bind_ok_inv in H as [u [Eu H]].
  rewrite (get_sym_ext _ e _ _ Es). simpl.
  rewrite (tensor_val_ext _ e _ _ Ed). simpl.
  rewrite (kron_opt_val_ext _ e _ _ Ek). simpl.
  rewrite (diag_opt_val_ext _ e _ _ Eg). simpl.
  rewrite (unit_opt_val_ext _ e _ _ Eu). exact H.
Qed.

(** Two optional tensors match when, both present, they have one shape. *)
Definition topt_match (a b : option tensor) : Prop :=
  match a, b with
  | Some x, Some y => skel x = skel y
  | _, _ => True
  end.

Definition pair_match (p q : option pair_val) : Prop :=
  match p, q with
  | Some (a, b), Some (a', b') => topt_match a a' /\ topt_match b b'
  | _, _ => True
  end.

(** The representations that both values populate hold tensors of the same
    shapes. *)
Definition sym_match (x y : sym_value) : Prop :=
  topt_match (v_data x) (v_data y)
  /\ pair_match (v_kron x) (v_kron y)
  /\ pair_match (v_diag x) (v_diag y)
  /\ match v_unit x, v_unit y with
     | Some a, Some b => topt_match a b
     | _, _ => True
     end.

Lemma topt_add_defined (a b : option tensor) :
  topt_match a b -> exists c, topt_add a b = Ok c.
Proof.
  destruct a as [x|], b as [y|]; simpl; intros M; eauto.
  rewrite tensor_add_eq. destruct (skel_eq_dec (skel x) (skel y)); [|contradiction].
  simpl. eauto.
Qed.

(** On matching values the representation-wise sum is defined. *)
Lemma sym_add_val_defined (x y : sym_value) :
  sym_match x y -> exists v, sym_add_val x y = Ok v.
Proof.
  intros (Md & Mk & Mg & Mu). unfold sym_add_val.
  destruct (topt_add_defined _ _ Md) as [d ->]. cbn [bind].
  assert (Hk : exists k, lift_add kron_add_val (v_kron x) (v_kron y) = Ok k).
  { destruct (v_kron x) as [[a b]|], (v_kron y) as [[a' b']|]; simpl; eauto.
    destruct Mk as [Ma Mb]. unfold kron_add_val.
    destruct (pair_full (a', b')); simpl; eauto.
    destruct (pair_full (a, b)); simpl; eauto.
    destruct (topt_add_defined _ _ Ma) as [ca ->].
    destruct (topt_add_defined _ _ Mb) as [cb ->]. simpl. eauto. }
  destruct Hk as [k ->]. cbn [bind].
  assert (Hg : exists g, lift_add diag_add_val (v_diag x) (v_diag y) = Ok g).
  { destruct (v_diag x) as [[a b]|], (v_diag y) as [[a' b']|]; simpl; eauto.
    destruct Mg as [Ma Mb]. unfold diag_add_val. simpl.
    destruct (topt_add_defined _ _ Ma) as [ca ->].
    destruct (topt_add_defined _ _ Mb) as [cb ->]. simpl. eauto. }
  destruct Hg as [g ->]. cbn [bind].
  assert (Hu : exists u, lift_add topt_add (v_unit x) (v_unit y) = Ok u).
  { destruct (v_unit x) as [a|], (v_unit y) as [b|]; simpl; eauto.
    destruct (topt_add_defined _ _ Mu) as [c ->]. simpl. eauto. }
  destruct Hu as [u ->]. cbn [bind]. eauto.
Qed.

Lemma topt_add_match (a b c z : option tensor) :
  topt_add a b = Ok c -> topt_match a z -> topt_match b z -> topt_match c z.
Proof.
  destruct a as [x|], b as [y|]; simpl; intros H Ma Mb;
    try (inversion H; subst; assumption).
  rewrite tensor_add_eq in H.
  destruct (skel_eq_dec (skel x) (skel y)) as [E|]; [|discriminate].
  inversion H; subst. destruct z as [w|]; simpl in *; [|exact I].
  rewrite (skel_tzip Rplus _ _ E). exact Ma.
Qed.

Lemma kron_lift_match (p q r z : option pair_val) :
  lift_add kron_add_val p q = Ok r ->
  pair_match p z -> pair_match q z -> pair_match r z.
Proof.
  destruct p as [[a b]|], q as [[a' b']|]; simpl; intros H Mp Mq;
    try (inversion H; subst; assumption).
  apply bind_ok_inv in H as [[ra rb] [H E]]. inversion E; subst; clear E.
  unfold kron_add_val in H.
  destruct (pair_full (a', b')); simpl in H; [|inversion H; subst; exact Mp].
  destruct (pair_full (a, b)); simpl in H; [|inversion H; subst; exact Mq].
  apply bind_ok_inv in H as [ca [Ea H]].
  apply bind_ok_inv in H as [cb [Eb H]]. inversion H; subst; clear H.
  destruct z as [[za zb]|]; simpl in *; [|exact I].
  destruct Mp, Mq. split; eapply topt_add_match; eassumption.
Qed.

Lemma diag_lift_match (p q r z : option pair_val) :
  lift_add diag_add_val p q = Ok r ->
  pair_match p z -> pair_match q z -> pair_match r z.
Proof.
  destruct p as [[a b]|], q as [[a' b']|]; simpl; intros H Mp Mq;
    try (inversion H; subst; assumption).
  apply bind_ok_inv in H as [[ra rb] [H E]]. inversion E; subst; clear E.
  unfold diag_add_val in H. simpl in H.
  apply bind_ok_inv in H as [ca [Ea H]].
  apply bind_ok_inv in H as [cb [Eb H]]. inversion H; subst; clear H.
  destruct z as [[za zb]|]; simpl in *; [|exact I].
  destruct Mp, Mq. split; eapply topt_add_match; eassumption.
Qed.

(** A sum matches whatever both of its operands match. *)
Lemma sym_add_val_match (x y xy z : sym_value) :
  sym_add_val x y = Ok xy -> sym_match x z -> sym_match y z -> sym_match xy z.
Proof.
  unfold sym_add_val. intros H (Xd & Xk & Xg & Xu) (Yd & Yk & Yg & Yu).
  apply bind_ok_inv in H as [d [Ed H]].
  apply bind_ok_inv in H as [k [Ek H]].
  apply bind_ok_inv in H as [g [Eg H]].
  apply bind_ok_inv in H as [u [Eu H]]. inversion H; subst; clear H.
  split; [|split; [|split]]; simpl.
  - eapply topt_add_match; eassumption.
  - eapply kron_lift_match; eassumption.
  - eapply diag_lift_match; eassumption.
  - destruct (v_unit x) as [a|], (v_unit y) as [b|]; simpl in Eu;
      try (inversion Eu; subst; assumption).
    apply bind_ok_inv in Eu as [c [Ec Eu]]. inversion Eu; subst; clear Eu.
    destruct (v_unit z) as [w|]; [|exact I].
    eapply topt_add_match; eassumption.
Qed.

(** Where the condition on the Kronecker representation matters: on a
    [SymMatrix] whose [Kron] holds [A] but no [B], [X += X] returns (the
    [Kron] is skipped) and [X.mul_(2)] raises. *)
Example SymMatrix_iadd_self_partial_kron :
  let h := [ OTensor (T2 [[1]]);
             OKron (mkKron (Some 0%nat) None None None None None);
             OSym (mkSymMatrix None (Some 1%nat) None None None) ] in
  SymMatrix_iadd h 2%nat 2%nat = Ok h
  /\ SymMatrix_mul_ h 2%nat 2 = Err AttributeError.
Proof. split; reflexivity. Qed.

(** C8.  On two [SymMatrix]es that match (wherever both hold a tensor, the
    shapes agree) and whose Kronecker representations, where present, hold
    both factors, [x + y] and [y + x] return, and the objects returned
    store the same values.  On three that match pairwise, [(x + y) + z] and
    [x + (y + z)] return, and the objects returned store the same values.
    And [X += X] leaves the store as [X.mul_(2)] does, representation by
    representation. *)
Theorem SymMatrix_combine_laws :
  (forall h x y vx vy,
      sym_val h x = Ok vx -> sym_val h y = Ok vy ->
      kron_ok vx -> kron_ok vy -> sym_match vx vy ->
      exists h1 r1 h2 r2 v,
        SymMatrix_add h x y = Ok (h1, r1) /\ SymMatrix_add h y x = Ok (h2, r2)
        /\ sym_val h1 r1 = Ok v /\ sym_val h2 r2 = Ok v)
  /\ (forall h x y z vx vy vz,
      sym_val h x = Ok vx -> sym_val h y = Ok vy -> sym_val h z = Ok vz ->
      sym_match vx vy -> sym_match vy vz -> sym_match vx vz ->
      exists h1 xy h2 r1 h3 yz h4 r2 v,
        SymMatrix_add h x y = Ok (h1, xy) /\ SymMatrix_add h1 xy z = Ok (h2, r1)
        /\ SymMatrix_add h y z = Ok (h3, yz) /\ SymMatrix_add h3 x yz = Ok (h4, r2)
        /\ sym_val h2 r1 = Ok v /\ sym_val h4 r2 = Ok v)
  /\ (forall h x, kron_populated h x ->
        SymMatrix_iadd h x x = SymMatrix_mul_ h x 2).
Proof.
  split; [|split].
  - intros h x y vx vy Hx Hy Kx Ky M.
    destruct (sym_add_val_defined _ _ M) as [v Hv].
    destruct (SymMatrix_add_refines h x y vx vy v Hx Hy Hv) as (e1 & r1 & A1 & V1).
    rewrite (sym_add_val_comm _ _ Kx Ky) in Hv.
    destruct (SymMatrix_add_refines h y x vy vx v Hy Hx Hv) as (e2 & r2 & A2 & V2).
    exists (h ++ e1), r1, (h ++ e2), r2, v. auto.
  - intros h x y z vx vy vz Hx Hy Hz Mxy Myz Mxz.
    destruct (sym_add_val_defined _ _ Mxy) as [vxy Hxy].
    destruct (sym_add_val_defined _ _ (sym_add_val_match _ _ _ _ Hxy Mxz Myz))
      as [v Hv].
    destruct (sym_add_val_assoc_ok _ _ _ _ _ Hxy Hv) as (vyz & Hyz & Hv').
    destruct (SymMatrix_add_refines h x y vx vy vxy Hx Hy Hxy) as (e1 & xy & A1 & V1).
    destruct (SymMatrix_add_refines (h ++ e1) xy z vxy vz v V1
                (sym_val_ext _ e1 _ _ Hz) Hv) as (e2 & r1 & A2 & V2).
    destruct (SymMatrix_add_refines h y z vy vz vyz Hy Hz Hyz) as (e3 & yz & A3 & V3).
    destruct (SymMatrix_add_refines (h ++ e3) x yz vx vyz v
                (sym_val_ext _ e3 _ _ Hx) V3 Hv') as (e4 & r2 & A4 & V4).
    exists (h ++ e1), xy, ((h ++ e1) ++ e2), r1, (h ++ e3), yz, ((h ++ e3) ++ e4), r2, v.
    repeat split; assumption.
  - exact SymMatrix_iadd_self.
Qed.

Definition heap_two : heap :=
  [ OTensor (T1 [1; 2]); OTensor (T2 [[1]]); OTensor (T2 [[2]]);
    OKron (mkKron (Some 1%nat) (Some 2%nat) None None None None);
    OSym (mkSymMatrix (Some 0%nat) (Some 3%nat) None None None);
    OTensor (T1 [3; 4]);
    OSym (mkSymMatrix (Some 5%nat) None None None None) ].

Lemma SymMatrix_combine_laws_witness :
  (exists h1 r1 h2 r2 v,
      SymMatrix_add heap_two 4%nat 6%nat = Ok (h1, r1)
      /\ SymMatrix_add heap_two 6%nat 4%nat = Ok (h2, r2)
      /\ sym_val h1 r1 = Ok v /\ sym_val h2 r2 = Ok v)
  /\ (exists h1 xy h2 r1 h3 yz h4 r2 v,
        SymMatrix_add heap_two 4%nat 6%nat = Ok (h1, xy)
        /\ SymMatrix_add h1 xy 4%nat = Ok (h2, r1)
        /\ SymMatrix_add heap_two 6%nat 4%nat = Ok (h3, yz)
        /\ SymMatrix_add h3 4%nat yz = Ok (h4, r2)
        /\ sym_val h2 r1 = Ok v /\ sym_val h4 r2 = Ok v)
  /\ SymMatrix_iadd heap_two 4%nat 4%nat = SymMatrix_mul_ heap_two 4%nat 2.
Proof.
  destruct SymMatrix_combine_laws as [Hcomm [Hassoc Hself]].
  split; [|split].
  - apply (Hcomm heap_two 4%nat 6%nat _ _ eq_refl eq_refl);
      repeat split; reflexivity.
  - apply (Hassoc heap_two 4%nat 6%nat 4%nat _ _ _ eq_refl eq_refl eq_refl);
      repeat split; reflexivity.
  - apply Hself. intros s k kr Hs Hk Hkr.
    inversion Hs; subst; clear Hs. inversion Hk; subst; clear Hk.
    inversion Hkr; subst; clear Hkr. reflexivity.
Defined.

(* ================================================================== *)
(** * Damped inverses and the Kronecker matrix-vector product *)
(* ================================================================== *)

(** Modelled from the spec: [add_value_to_diagonal] of [utils.py], which is
    not among the sources.  "Returns M with c added to every diagonal
    entry." *)
Definition add_value_to_diagonal (t : tensor) (c : R) : result tensor :=
  match t with
  | T2 m =>
      Ok (T2 (mk_mat (length m) (ncols m)
                     (fun i j => mget m i j + (if Nat.eqb i j then c else 0))))
  | _ => Err ShapeError
  end.

(** The inverse of a symmetric positive-definite matrix of size [n] by
    elimination of its leading entry: for [M = [[a, c^T], [c, C]]] with
    Schur complement [S = C - c c^T / a],
    [M^-1 = [[1/a + c^T S^-1 c / a^2, -(S^-1 c)^T / a], [-S^-1 c / a, S^-1]]].
    The pivots [a] are the squares of the diagonal of the Cholesky factor:
    one of them is not positive exactly when the factorisation fails.  Only
    the lower triangle of [M] is read, as by the factorisation. *)
Fixpoint spd_inverse (n : nat) (M : mat) : result mat :=
  match n, M with
  | O, _ => Ok []
  | S n', (a :: _) :: rest =>
      if Rltb 0 a then
        let col := map (hd 0) rest in
        let C := map (@tl R) rest in
        let S := zipw (fun ci row => zipw (fun x cj => x - ci * cj / a) row col) col C in
        Sinv <- spd_inverse n' S ;;
        let u := mv Sinv col in
        Ok ((/ a + dot col u / (a * a) :: map (fun x => - x / a) u)
              :: zipw (fun ui row => - ui / a :: row) u Sinv)
      else Err NumericalError
  | S _, _ => Err ShapeError
  end.

(** Modelled from the spec: [cholesky_inv] of [utils.py], which is not among
    the sources.  "Returns the inverse of a symmetric positive-definite
    matrix via Cholesky factorization; fails with NumericalError if M is not
    numerically positive-definite (factorization fails)." *)
Definition cholesky_inv (t : tensor) : result tensor :=
  match t with
  | T2 m =>
      if Nat.eqb (length m) (ncols m) && rowsb (ncols m) m
      then inv <- spd_inverse (length m) m ;; Ok (T2 inv)
      else Err ShapeError
  | _ => Err ShapeError
  end.

Definition _default_damping : R := 1e-5.
Definition default_eps : R := 1e-7.

(** [t.trace()]: a matrix is required. *)
Definition torch_trace (t : tensor) : result R :=
  match t with
  | T2 m => Ok (vsum (diag_of_mat m))
  | _ => Err ShapeError
  end.

(** [t.shape[0]]. *)
Definition shape0 (t : tensor) : result nat :=
  match shape t with
  | n :: _ => Ok n
  | [] => Err IndexError
  end.

(** [Kron.update_inv(self, damping, eps)].  [damping**0.5] is the square
    root of a non-negative [damping]. *)
Definition Kron_update_inv (h : heap) (self : loc) (damping eps : R) : result heap :=
  ks <- get_kron h self ;;
  _ <- assert_ (Kron_has_data ks) ;;
  a <- deref (Kron_A ks) ;;
  A <- get_tensor h a ;;
  b <- deref (Kron_B ks) ;;
  B <- get_tensor h b ;;
  trA <- torch_trace A ;;
  nA <- shape0 A ;;
  trB <- torch_trace B ;;
  nB <- shape0 B ;;
  let A_eig_mean := trA / INR nA in
  let B_eig_mean := trB / INR nB in
  let pi := sqrt (A_eig_mean / B_eig_mean) in
  let r := sqrt damping in
  dA <- add_value_to_diagonal A (py_max (r * pi) eps) ;;
  A_inv <- cholesky_inv dA ;;
  let '(h1, la) := alloc h (OTensor A_inv) in
  let h2 := store h1 self
              (OKron (mkKron (Kron_A ks) (Kron_B ks) (Some la) (Kron_B_inv ks)
                             (Kron__A_dim ks) (Kron__B_dim ks))) in
  dB <- add_value_to_diagonal B (py_max (r / pi) eps) ;;
  B_inv <- cholesky_inv dB ;;
  let '(h3, lb) := alloc h2 (OTensor B_inv) in
  Ok (store h3 self
        (OKron (mkKron (Kron_A ks) (Kron_B ks) (Some la) (Some lb)
                       (Kron__A_dim ks) (Kron__B_dim ks)))).

(** The property [Kron.A_dim]: the cached [_A_dim], computed from [A] and
    cached on first use. *)
Definition Kron_A_dim (h : heap) (self : loc) : result (heap * option nat) :=
  ks <- get_kron h self ;;
  match Kron__A_dim ks, Kron_A ks with
  | None, Some a =>
      A <- get_tensor h a ;;
      n <- shape0 A ;;
      Ok (store h self
            (OKron (mkKron (Kron_A ks) (Kron_B ks) (Kron_A_inv ks) (Kron_B_inv ks)
                           (Some n) (Kron__B_dim ks))),
          Some n)
  | d, _ => Ok (h, d)
  end.

(** The property [Kron.B_dim]: the cached [_B_dim], computed from [B] and
    cached on first use. *)
Definition Kron_B_dim (h : heap) (self : loc) : result (heap * option nat) :=
  ks <- get_kron h self ;;
  match Kron__B_dim ks, Kron_B ks with
  | None, Some b =>
      B <- get_tensor h b ;;
      n <- shape0 B ;;
      Ok (store h self
            (OKron (mkKron (Kron_A ks) (Kron_B ks) (Kron_A_inv ks) (Kron_B_inv ks)
                           (Kron__A_dim ks) (Some n))),
          Some n)
  | d, _ => Ok (h, d)
  end.

Definition flatten (t : tensor) : vec :=
  match t with
  | T0 x => [x]
  | T1 v => v
  | T2 m => concat m
  | T3 b => concat (concat b)
  end.

(** [r] consecutive rows of length [c] cut from a flat list. *)
Fixpoint chunks (c : nat) (l : vec) (r : nat) : mat :=
  match r with
  | O => []
  | S r' => firstn c l :: chunks c (skipn c l) r'
  end.

(** [t.view(r, -1)]: the entries of [t] in [r] rows.  The column count must
    be determined: [r] positive and dividing the number of entries. *)
Definition view2 (t : tensor) (r : nat) : result mat :=
  let flat := flatten t in
  if Nat.eqb r 0 then Err ShapeError
  else if Nat.eqb (length flat mod r) 0
       then Ok (chunks (length flat / r) flat r)
       else Err ShapeError.

(** [m.view_as(like)]: the entries of the matrix [m] in the shape of
    [like]. *)
Definition view_as (m : mat) (like : tensor) : result tensor :=
  let flat := concat m in
  if Nat.eqb (length flat) (numel like)
  then match like with
       | T0 _ => Ok (T0 (hd 0 flat))
       | T1 _ => Ok (T1 flat)
       | T2 l => Ok (T2 (chunks (ncols l) flat (length l)))
       | T3 b =>
           let rows := length (hd [] b) in
           let cols := ncols (hd [] b) in
           Ok (T3 (map (fun k => chunks cols (firstn (rows * cols)
                                                (skipn (k * (rows * cols)) flat)) rows)
                       (seq 0 (length b))))
       end
  else Err ShapeError.

(** [torch.cat([vec2d, vec_bias.unsqueeze(dim=1)], dim=1)]: the bias as one
    more column. *)
Definition cat_bias_column (m : mat) (bias : tensor) : result mat :=
  match bias with
  | T1 b =>
      if Nat.eqb (length b) (length m)
      then Ok (zipw (fun row x => row ++ [x]) m b)
      else Err ShapeError
  | _ => Err ShapeError
  end.

(** What a matrix-vector product hands back: the returned tensors, and the
    contents of the caller's tensors afterwards (overwritten when
    [inplace]). *)
Record mvp_result : Type := mkMvp {
  mvp_w : tensor;
  mvp_b : option tensor;
  arg_weight : tensor;
  arg_bias : option tensor
}.

Definition as_mat (t : tensor) : result mat :=
  match t with T2 m => Ok m | _ => Err ShapeError end.

(** [Kron.mvp(self, vec_weight, vec_bias, use_inv, inplace)]. *)
Definition Kron_mvp (h : heap) (self : loc) (vec_weight : tensor)
           (vec_bias : option tensor) (use_inv inplace : bool)
  : result (heap * mvp_result) :=
  ks <- get_kron h self ;;
  let mat_A := if use_inv then Kron_A_inv ks else Kron_A ks in
  let mat_B := if use_inv then Kron_B_inv ks else Kron_B ks in
  '(h1, B_dim) <- Kron_B_dim h self ;;
  n <- match B_dim with Some n => Ok n | None => Err TypeError end ;;
  vec2d <- view2 vec_weight n ;;
  vec2d <- match vec_bias with
           | Some bias => cat_bias_column vec2d bias
           | None => Ok vec2d
           end ;;
  lb <- deref mat_B ;;
  MB <- get_tensor h1 lb ;;
  BV <- torch_mm MB (T2 vec2d) ;;
  la <- deref mat_A ;;
  MA <- get_tensor h1 la ;;
  mvp2d <- torch_mm BV MA ;;
  mvp2d <- as_mat mvp2d ;;
  match vec_bias with
  | Some bias =>
      w <- view_as (map (@removelast R) mvp2d) vec_weight ;;
      let b := T1 (map (fun row => last row 0) mvp2d) in
      Ok (h1, if inplace then mkMvp w (Some b) w (Some b)
              else mkMvp w (Some b) vec_weight vec_bias)
  | None =>
      w <- view_as mvp2d vec_weight ;;
      Ok (h1, if inplace then mkMvp w None w None
              else mkMvp w None vec_weight None)
  end.

(** A check of [spd_inverse]: the inverse of [[2, 1], [1, 2]] is
    [[2/3, -1/3], [-1/3, 2/3]]. *)
Example cholesky_inv_2x2 :
  cholesky_inv (T2 [[2; 1]; [1; 2]]) = Ok (T2 [[2/3; -1/3]; [-1/3; 2/3]]).
Proof.
  unfold cholesky_inv. simpl. rltb. simpl. rltb. simpl. struct_eq.
Qed.

(* ================================================================== *)
(** * The single linear layer of the end-to-end scenario *)
(* ================================================================== *)

(** inDim = 4, outDim = 3, no bias: [A] the 4 x 4 identity, [B] the 3 x 3
    identity, held by the [Kron] at location 2. *)
Definition heap_layer : heap :=
  [ OTensor (T2 (identity 4)); OTensor (T2 (identity 3));
    OKron (mkKron (Some 0%nat) (Some 1%nat) None None None None) ].

Definition scalar_mat (n : nat) (c : R) : mat :=
  mk_mat n n (fun i j => if Nat.eqb i j then c else 0).

Definition const_mat (r c : nat) (x : R) : mat := mk_mat r c (fun _ _ => x).

(** The store after [update_inv(damping=0.01)]: the two inverses are
    allocated after the existing objects and cached in the [Kron]. *)
Definition heap_layer_inv : heap :=
  [ OTensor (T2 (identity 4)); OTensor (T2 (identity 3));
    OKron (mkKron (Some 0%nat) (Some 1%nat) (Some 3%nat) (Some 4%nat) None None);
    OTensor (T2 (scalar_mat 4 (1 / 1.1))); OTensor (T2 (scalar_mat 3 (1 / 1.1))) ].

Lemma sqrt_001 : sqrt 0.01 = 0.1.
Proof.
  replace 0.01 with (0.1 * 0.1) by lra. apply sqrt_square. lra.
Qed.

Lemma map_const_seq (a n : nat) (x : R) :
  map (fun _ => x) (seq a n) = repeat x n.
Proof. revert a; induction n as [|n IH]; intros a; simpl; [|rewrite IH]; reflexivity. Qed.

(** A scalar matrix, row by row. *)
Lemma scalar_mat_S (n : nat) (c : R) :
  scalar_mat (S n) c = (c :: repeat 0 n) :: map (cons 0) (scalar_mat n c).
Proof.
  unfold scalar_mat, mk_mat. cbn [seq map Nat.eqb].
  rewrite <- !seq_shift, !map_map. cbn [Nat.eqb].
  rewrite map_const_seq. f_equal.
  apply map_ext; intros i. cbn [seq map Nat.eqb].
  rewrite ?map_map. reflexivity.
Qed.

Lemma scalar_mat_rect (n : nat) (c : R) : is_rect n n (scalar_mat n c).
Proof. apply mk_mat_rect. Qed.

Lemma dot_zeros_r (u : vec) (n : nat) : dot u (repeat 0 n) = 0.
Proof.
  revert n; induction u as [|x u IH]; intros [|n]; simpl; try reflexivity.
  rewrite IH; ring.
Qed.

Lemma dot_zeros_l (u : vec) (n : nat) : dot (repeat 0 n) u = 0.
Proof. rewrite dot_comm. apply dot_zeros_r. Qed.

Lemma zipw_repeat_l {A B C : Type} (f : A -> B -> C) (x : A) (l : list B) (n : nat) :
  length l = n -> zipw f (repeat x n) l = map (f x) l.
Proof.
  intros <-. induction l as [|y l IH]; simpl; [|rewrite IH]; reflexivity.
Qed.

Lemma zipw_repeat_r {A B C : Type} (f : A -> B -> C) (y : B) (l : list A) (n : nat) :
  length l = n -> zipw f l (repeat y n) = map (fun x => f x y) l.
Proof.
  intros <-. induction l as [|x l IH]; simpl; [|rewrite IH]; reflexivity.
Qed.

Lemma map_id_on {A : Type} (f : A -> A) (l : list A) (P : A -> Prop) :
  Forall P l -> (forall x, P x -> f x = x) -> map f l = l.
Proof.
  intros F E. induction F as [|x l Hx F IH]; simpl; [reflexivity|].
  rewrite (E x Hx), IH. reflexivity.
Qed.

Lemma map_const_length {A B : Type} (x : B) (l : list A) :
  map (fun _ => x) l = repeat x (length l).
Proof. induction l as [|y l IH]; simpl; [|rewrite IH]; reflexivity. Qed.

(** Modelled inverse of a positive multiple of the identity: the reciprocal
    multiple, for every size. *)
Lemma spd_inverse_scalar (n : nat) (c : R) :
  0 < c -> spd_inverse n (scalar_mat n c) = Ok (scalar_mat n (/ c)).
Proof.
  intros Hc. induction n as [|n IH]; [reflexivity|].
  rewrite !scalar_mat_S. cbn [spd_inverse].
  replace (Rltb 0 c) with true by (symmetry; apply Rltb_true; exact Hc).
  rewrite !map_map. cbn [hd tl].
  destruct (scalar_mat_rect n c) as [Ln Fn].
  destruct (scalar_mat_rect n (/ c)) as [Li Fi].
  assert (Z0 : forall (M : mat), length M = n ->
                map (fun _ : list R => 0) M = repeat 0 n).
  { intros M LM. rewrite <- LM. apply map_const_length. }
  rewrite (Z0 _ Ln), map_id.
  assert (ES : zipw (fun (ci : R) (row : list R) =>
                       zipw (fun x cj : R => x - ci * cj / c) row (repeat 0 n))
                    (repeat 0 n) (scalar_mat n c) = scalar_mat n c).
  { rewrite (zipw_repeat_l _ _ _ _ Ln).
    apply (map_id_on _ _ _ Fn). intros row Lrow.
    rewrite (zipw_repeat_r _ _ _ _ Lrow).
    apply (map_id_on _ _ (fun _ => True)); [apply Forall_forall; auto|].
    intros x _. unfold Rdiv. ring. }
  rewrite ES, IH. cbn [bind].
  assert (EU : mv (scalar_mat n (/ c)) (repeat 0 n) = repeat 0 n).
  { unfold mv. rewrite <- (Z0 _ Li). apply map_ext. intros row.
    rewrite (Z0 _ Li). apply dot_zeros_r. }
  rewrite EU, dot_zeros_l, map_repeat.
  rewrite (zipw_repeat_l _ _ _ _ Li).
  replace (- 0 / c) with 0 by (unfold Rdiv; ring).
  do 3 f_equal. unfold Rdiv. ring.
Qed.

Lemma cholesky_inv_scalar (n : nat) (c : R) :
  0 < c -> cholesky_inv (T2 (scalar_mat n c)) = Ok (T2 (scalar_mat n (/ c))).
Proof.
  intros Hc. unfold cholesky_inv.
  rewrite (is_rect_ncols_sq (scalar_mat_rect n c)).
  destruct (scalar_mat_rect n c) as [L F].
  rewrite L, Nat.eqb_refl. simpl.
  replace (rowsb n (scalar_mat n c)) with true
    by (symmetry; apply rowsb_true; exact F).
  rewrite (spd_inverse_scalar n c Hc). reflexivity.
Qed.


Lemma add_value_to_diagonal_identity (n : nat) (c : R) :
  add_value_to_diagonal (T2 (identity n)) c = Ok (T2 (scalar_mat n (1 + c))).
Proof.
  unfold add_value_to_diagonal.
  pose proof (mk_mat_rect n n (fun i j => if Nat.eqb i j then 1 else 0)) as HI.
  fold (identity n) in HI.
  rewrite (is_rect_ncols_sq HI). destruct HI as [L F]. rewrite L.
  do 2 f_equal.
  apply (@mat_ext n n); [apply mk_mat_rect | apply scalar_mat_rect |].
  intros i j Hi Hj. unfold scalar_mat, identity.
  rewrite !mget_mk_mat by assumption.
  destruct (Nat.eqb i j); ring.
Qed.

Lemma torch_trace_identity_4 : torch_trace (T2 (identity 4)) = Ok 4.
Proof. unfold torch_trace. f_equal. cbv. lra. Qed.

Lemma torch_trace_identity_3 : torch_trace (T2 (identity 3)) = Ok 3.
Proof. unfold torch_trace. f_equal. cbv. lra. Qed.

(** The damping each factor receives in the scenario:
    [sqrt 0.01 * sqrt ((4/4) / (3/3)) = 0.1], and likewise for the
    quotient. *)
Lemma scenario_damping :
  py_max (sqrt 0.01 * sqrt (4 / INR 4 / (3 / INR 3))) default_eps = 0.1
  /\ py_max (sqrt 0.01 / sqrt (4 / INR 4 / (3 / INR 3))) default_eps = 0.1.
Proof.
  replace (4 / INR 4 / (3 / INR 3)) with 1 by (simpl; field).
  rewrite sqrt_1, sqrt_001. unfold py_max, default_eps.
  split; rltb; lra.
Qed.

Lemma Kron_update_inv_layer :
  Kron_update_inv heap_layer 2%nat 0.01 default_eps = Ok heap_layer_inv.
Proof.
  unfold Kron_update_inv, heap_layer.
  cbn [get_kron nth_error bind assert_ Kron_has_data Kron_A Kron_B is_some andb
       deref get_tensor].
  rewrite torch_trace_identity_4, torch_trace_identity_3.
  cbn [bind shape0 shape].
  replace (length (identity 4)) with 4%nat by reflexivity.
  replace (length (identity 3)) with 3%nat by reflexivity.
  cbn [bind].
  destruct scenario_damping as [D1 D2]. rewrite D1, D2.
  rewrite !add_value_to_diagonal_identity. cbn [bind].
  rewrite !cholesky_inv_scalar by lra. cbn [bind].
  unfold heap_layer_inv, alloc, store. simpl.
  replace (/ (1 + 0.1)) with (1 / 1.1) by lra.
  reflexivity.
Qed.

Definition heap_layer_mvp : heap :=
  [ OTensor (T2 (identity 4)); OTensor (T2 (identity 3));
    OKron (mkKron (Some 0%nat) (Some 1%nat) (Some 3%nat) (Some 4%nat) None (Some 3%nat));
    OTensor (T2 (scalar_mat 4 (1 / 1.1))); OTensor (T2 (scalar_mat 3 (1 / 1.1))) ].

Lemma Kron_mvp_layer :
  Kron_mvp heap_layer_inv 2%nat (T2 (const_mat 3 4 1)) None true false
  = Ok (heap_layer_mvp,
        mkMvp (T2 (const_mat 3 4 (1 / 1.21))) None (T2 (const_mat 3 4 1)) None).
Proof.
  unfold Kron_mvp, heap_layer_inv, heap_layer_mvp. simpl.
  unfold mget, scalar_mat, const_mat, identity, mk_mat. simpl.
  struct_eq.
Qed.

(** Agreement of two reals up to a tolerance. *)
Definition approx (tol x y : R) : Prop := Rabs (x - y) <= tol.

(** C2, as the code has it.  In the scenario (inDim = 4, outDim = 3, no
    bias, [A] and [B] identities, damping 0.01) [update_inv] gives each
    factor the damping [sqrt 0.01 = 0.1]: it returns, and caches
    [A_inv = (1/1.1) I] (4 x 4) and [B_inv = (1/1.1) I] (3 x 3); the
    matrix-vector product with the inverses on the all-ones 3 x 4 gradient
    returns the tensor whose every entry is [1/1.1^2 = 1/1.21] (and caches
    [B_dim = 3] in the [Kron]). *)
Theorem Kron_scenario_layer :
  Kron_update_inv heap_layer 2%nat 0.01 default_eps = Ok heap_layer_inv
  /\ get_kron heap_layer_inv 2%nat
     = Ok (mkKron (Some 0%nat) (Some 1%nat) (Some 3%nat) (Some 4%nat) None None)
  /\ get_tensor heap_layer_inv 3%nat = Ok (T2 (scalar_mat 4 (1 / 1.1)))
  /\ get_tensor heap_layer_inv 4%nat = Ok (T2 (scalar_mat 3 (1 / 1.1)))
  /\ Kron_mvp heap_layer_inv 2%nat (T2 (const_mat 3 4 1)) None true false
     = Ok (heap_layer_mvp,
           mkMvp (T2 (const_mat 3 4 (1 / 1.21))) None (T2 (const_mat 3 4 1)) None)
  /\ 1 / 1.21 = (1 / 1.1) * (1 / 1.1).
Proof.
  split; [exact Kron_update_inv_layer|].
  split; [reflexivity|]. split; [reflexivity|]. split; [reflexivity|].
  split; [exact Kron_mvp_layer | lra].
Qed.

(** C2, as the claim states it, fails: the cached inverses are
    [(1/1.1) I], about 0.909 on the diagonal and not within 0.05 of
    [1/1.01], about 0.990; the entries of the product are [1/1.21], about
    0.826, and not within 0.05 of [1/1.01^2], about 0.980. *)
Lemma Kron_scenario_layer_not_1_01 :
  Kron_update_inv heap_layer 2%nat 0.01 default_eps = Ok heap_layer_inv
  /\ get_tensor heap_layer_inv 3%nat = Ok (T2 (scalar_mat 4 (1 / 1.1)))
  /\ ~ approx 0.05 (mget (scalar_mat 4 (1 / 1.1)) 0 0) (1 / 1.01)
  /\ get_tensor heap_layer_inv 4%nat = Ok (T2 (scalar_mat 3 (1 / 1.1)))
  /\ ~ approx 0.05 (mget (scalar_mat 3 (1 / 1.1)) 0 0) (1 / 1.01)
  /\ Kron_mvp heap_layer_inv 2%nat (T2 (const_mat 3 4 1)) None true false
     = Ok (heap_layer_mvp,
           mkMvp (T2 (const_mat 3 4 (1 / 1.21))) None (T2 (const_mat 3 4 1)) None)
  /\ ~ approx 0.05 (mget (const_mat 3 4 (1 / 1.21)) 0 0) (1 / (1.01 * 1.01)).
Proof.
  assert (N : forall x y, x - y < - 0.05 -> ~ approx 0.05 x y).
  { intros x y H A. unfold approx in A.
    rewrite Rabs_left in A by lra. lra. }
  split; [exact Kron_update_inv_layer|].
  split; [reflexivity|]. split; [apply N; cbv [mget scalar_mat mk_mat seq map nth Nat.eqb]; lra|].
  split; [reflexivity|]. split; [apply N; cbv [mget scalar_mat mk_mat seq map nth Nat.eqb]; lra|].
  split; [exact Kron_mvp_layer|].
  apply N; cbv [mget const_mat mk_mat seq map nth]; lra.
Qed.

(* ================================================================== *)
(** * The Kronecker identity *)
(* ================================================================== *)

(** The dense Kronecker product [A (x) B] ([torch.kron]): the block matrix
    whose block [(i, j)] is [A[i][j] * B]. *)
Definition kron_prod (A B : mat) : mat :=
  mk_mat (length A * length B) (ncols A * ncols B)
         (fun r c => mget A (r / length B) (c / ncols B)
                     * mget B (r mod length B) (c mod ncols B)).

(** [vec(V)]: the columns of [V] stacked, entry [a * rows + b] being
    [V[b][a]]; and its inverse, for [r] rows and [c] columns. *)
Definition vec_cols (V : mat) : vec :=
  map (fun k => mget V (k mod length V) (k / length V))
      (seq 0 (ncols V * length V)).

Definition unvec_cols (r c : nat) (v : vec) : mat :=
  mk_mat r c (fun b a => nth (a * r + b) v 0).

Example kron_prod_2x2 :
  kron_prod [[1; 2]; [3; 4]] [[0; 5]; [6; 7]]
  = [[1 * 0; 1 * 5; 2 * 0; 2 * 5];
     [1 * 6; 1 * 7; 2 * 6; 2 * 7];
     [3 * 0; 3 * 5; 4 * 0; 4 * 5];
     [3 * 6; 3 * 7; 4 * 6; 4 * 7]].
Proof. reflexivity. Qed.

Example vec_cols_2x3 :
  vec_cols [[1; 2; 3]; [4; 5; 6]] = [1; 4; 2; 5; 3; 6].
Proof. reflexivity. Qed.

Lemma rsum_snoc (a n : nat) (f : nat -> R) :
  rsum a (S n) f = rsum a n f + f (a + n)%nat.
Proof.
  revert a; induction n as [|n IH]; intros a.
  - simpl. rewrite Nat.add_0_r. ring.
  - change (rsum a (S (S n)) f) with (f a + rsum (S a) (S n) f).
    rewrite IH. simpl. replace (S (a + n)) with (a + S n)%nat by lia. ring.
Qed.

Lemma rsum_app (a p q : nat) (f : nat -> R) :
  rsum a (p + q) f = rsum a p f + rsum (a + p) q f.
Proof.
  revert a; induction p as [|p IH]; intros a; simpl.
  - rewrite Nat.add_0_r. ring.
  - rewrite IH. replace (S a + p)%nat with (a + S p)%nat by lia. ring.
Qed.

Lemma rsum_from (a n : nat) (f : nat -> R) :
  rsum a n f = rsum 0 n (fun k => f (a + k)%nat).
Proof.
  revert a; induction n as [|n IH]; intros a; simpl.
  - reflexivity.
  - rewrite Nat.add_0_r. f_equal. rewrite IH, (rsum_shift 0).
    apply rsum_ext. intros k _. f_equal. lia.
Qed.

(** A sum over [m * n] indices as a double sum. *)
Lemma rsum_prod (m n : nat) (g : nat -> nat -> R) :
  (0 < n)%nat ->
  rsum 0 (m * n) (fun k => g (k / n)%nat (k mod n)%nat)
  = rsum 0 m (fun i => rsum 0 n (fun j => g i j)).
Proof.
  intros Hn. induction m as [|m IH]; [reflexivity|].
  rewrite rsum_snoc. simpl Nat.add.
  replace (S m * n)%nat with (m * n + n)%nat by lia.
  rewrite rsum_app, IH. f_equal. simpl.
  rewrite rsum_from. apply rsum_ext. intros j Hj.
  replace (m * n + j)%nat with (j + m * n)%nat by lia.
  rewrite Nat.div_add, Nat.Div0.mod_add by lia.
  rewrite Nat.div_small, Nat.mod_small by lia. reflexivity.
Qed.

(** The standard identity [(A (x) B) vec(V) = vec(B V A^T)]. *)
Lemma kron_identity (dA dB : nat) (A B V : mat) :
  is_rect dA dA A -> is_rect dB dB B -> is_rect dB dA V ->
  (0 < dA)%nat -> (0 < dB)%nat ->
  unvec_cols dB dA (mv (kron_prod A B) (vec_cols V)) = mm (mm B V) (transpose A).
Proof.
  intros HA HB HV PA PB.
  pose proof (transpose_rect_sq HA) as HAt.
  pose proof (mm_rect HB HV PB) as HBV.
  apply (@mat_ext dB dA).
  - apply mk_mat_rect.
  - apply (mm_rect HBV HAt PA).
  - intros b a Hb Ha.
    unfold unvec_cols. rewrite mget_mk_mat by assumption.
    rewrite (mget_mm HBV HAt PA Hb Ha).
    unfold kron_prod, vec_cols.
    rewrite (is_rect_ncols_sq HA), (is_rect_ncols_sq HB), (is_rect_ncols HV PB).
    destruct HA as [LA FA], HB as [LB FB], HV as [LV FV].
    rewrite LA, LB, LV.
    assert (HA : is_rect dA dA A) by (split; assumption).
    assert (HB : is_rect dB dB B) by (split; assumption).
    assert (HV : is_rect dB dA V) by (split; assumption).
    set (K := mk_mat (dA * dB) (dA * dB) _).
    assert (HK : is_rect (dA * dB) (dA * dB) K) by apply mk_mat_rect.
    assert (Hidx : (a * dB + b < dA * dB)%nat) by nia.
    rewrite mv_nth;
      [| destruct HK as [LK _]; rewrite LK; exact Hidx
       | rewrite (is_rect_row HK Hidx), length_map, length_seq; reflexivity ].
    rewrite length_map, length_seq.
    transitivity (rsum 0 dA (fun i => rsum 0 dB
                                (fun j => mget A a i * mget B b j * mget V j i))).
    + rewrite <- (rsum_prod dA dB
                    (fun i j => mget A a i * mget B b j * mget V j i) PB).
      apply rsum_ext. intros k Hk. subst K.
      rewrite mget_mk_mat by lia.
      rewrite (nth_map_seq _ 0 (n := dA * dB) 0) by lia.
      replace (a * dB + b)%nat with (b + a * dB)%nat by lia.
      rewrite Nat.div_add, Nat.Div0.mod_add by lia.
      rewrite Nat.div_small, Nat.mod_small by lia. simpl. reflexivity.
    + apply rsum_ext. intros i Hi.
      rewrite (mget_mm HB HV PB Hb) by lia.
      rewrite (mget_transpose HA) by lia.
      rewrite Rmult_comm, <- rsum_scale.
      apply rsum_ext. intros j Hj. ring.
Qed.

Lemma transpose_involutive (n : nat) (A : mat) :
  is_rect n n A -> transpose (transpose A) = A.
Proof.
  intros HA. pose proof (transpose_rect_sq HA) as HT.
  apply (@mat_ext n n); [apply (transpose_rect_sq HT) | exact HA |].
  intros i j Hi Hj.
  rewrite (mget_transpose HT Hi Hj), (mget_transpose HA Hj Hi). reflexivity.
Qed.

Lemma transpose_symmetric (n : nat) (A : mat) :
  is_symmetric n A -> transpose A = A.
Proof.
  intros [HA Hsym].
  apply (@mat_ext n n); [apply (transpose_rect_sq HA) | exact HA |].
  intros i j Hi Hj. rewrite (mget_transpose HA Hi Hj). apply Hsym; assumption.
Qed.

Lemma firstn_length_app {A : Type} (l1 l2 : list A) :
  firstn (length l1) (l1 ++ l2) = l1.
Proof. induction l1 as [|x l1 IH]; simpl; [|rewrite IH]; reflexivity. Qed.

Lemma skipn_length_app {A : Type} (l1 l2 : list A) :
  skipn (length l1) (l1 ++ l2) = l2.
Proof. induction l1 as [|x l1 IH]; simpl; [reflexivity | exact IH]. Qed.

Lemma chunks_concat (r c : nat) (M : mat) :
  is_rect r c M -> chunks c (concat M) r = M.
Proof.
  intros [L F]. subst r. induction F as [|row M Hrow F IH]; simpl; [reflexivity|].
  subst c. rewrite firstn_length_app, skipn_length_app, IH. reflexivity.
Qed.

Lemma length_concat_rect (r c : nat) (M : mat) :
  is_rect r c M -> length (concat M) = (r * c)%nat.
Proof.
  intros [L F]. subst r. induction F as [|row M Hrow F IH]; simpl; [reflexivity|].
  rewrite length_app, Hrow, IH. reflexivity.
Qed.

Lemma view2_rect (r c : nat) (V : mat) :
  is_rect r c V -> (0 < r)%nat -> view2 (T2 V) r = Ok V.
Proof.
  intros HV Hr. unfold view2. simpl.
  rewrite (length_concat_rect _ _ _ HV).
  replace (Nat.eqb r 0) with false by (symmetry; apply Nat.eqb_neq; lia).
  rewrite (Nat.mul_comm r c), Nat.Div0.mod_mul, Nat.div_mul by lia. simpl.
  rewrite (chunks_concat _ _ _ HV). reflexivity.
Qed.

Lemma view_as_rect (r c : nat) (M V : mat) :
  is_rect r c M -> is_rect r c V -> (0 < r)%nat -> view_as M (T2 V) = Ok (T2 M).
Proof.
  intros HM HV Hr. unfold view_as. simpl.
  rewrite (length_concat_rect _ _ _ HM), (length_concat_rect _ _ _ HV), Nat.eqb_refl.
  rewrite (is_rect_ncols HV Hr). destruct HV as [LV _]. rewrite LV.
  rewrite (chunks_concat _ _ _ HM). reflexivity.
Qed.

Lemma get_tensor_store_kron (h : heap) (self l : loc) (ks k' : Kron) :
  get_kron h self = Ok ks ->
  get_tensor (store h self (OKron k')) l = get_tensor h l.
Proof.
  unfold get_kron, get_tensor, store. intros H.
  destruct (Nat.eq_dec self l) as [->|Hne].
  - rewrite nth_error_set_nth_eq.
    destruct (nth_error h l) as [[]|]; try discriminate; reflexivity.
  - rewrite nth_error_set_nth_neq by exact Hne. reflexivity.
Qed.

Lemma mm_okb_rect (r k c : nat) (A B : mat) :
  is_rect r k A -> is_rect k c B -> (0 < k)%nat -> mm_okb A B = true.
Proof.
  intros HA HB Hk. unfold mm_okb.
  rewrite (is_rect_ncols HB Hk). destruct HB as [LB FB]. rewrite LB.
  apply andb_true_iff; split; apply rowsb_true; [destruct HA|]; assumption.
Qed.

(** What [Kron.mvp] returns on a weight gradient alone, with the factors
    themselves ([use_inv] false): [B V A]. *)
Lemma Kron_mvp_weight (h : heap) (self a b : loc) (ks : Kron)
      (dA dB : nat) (A B V : mat) (inplace : bool) :
  get_kron h self = Ok ks ->
  Kron_A ks = Some a -> Kron_B ks = Some b ->
  Kron__B_dim ks = None \/ Kron__B_dim ks = Some dB ->
  get_tensor h a = Ok (T2 A) -> get_tensor h b = Ok (T2 B) ->
  is_rect dA dA A -> is_rect dB dB B -> is_rect dB dA V ->
  (0 < dA)%nat -> (0 < dB)%nat ->
  exists h',
    Kron_mvp h self (T2 V) None false inplace
    = Ok (h', mkMvp (T2 (mm (mm B V) A)) None
                    (if inplace then T2 (mm (mm B V) A) else T2 V) None).
Proof.
  intros Ek EA EB Hdim Ea Eb HA HB HV PA PB.
  destruct ks as [kA kB kAi kBi kAd kBd]. simpl in EA, EB, Hdim. subst kA kB.
  pose proof (mm_rect HB HV PB) as HBV.
  pose proof (mm_rect HBV HA PA) as HBVA.
  assert (Hrest : forall h1,
             get_tensor h1 a = Ok (T2 A) -> get_tensor h1 b = Ok (T2 B) ->
             (vec2d <- view2 (T2 V) dB ;;
              vec2d <- Ok vec2d ;;
              lb <- deref (Some b) ;;
              MB <- get_tensor h1 lb ;;
              BV <- torch_mm MB (T2 vec2d) ;;
              la <- deref (Some a) ;;
              MA <- get_tensor h1 la ;;
              mvp2d <- torch_mm BV MA ;;
              mvp2d <- as_mat mvp2d ;;
              w <- view_as mvp2d (T2 V) ;;
              Ok (h1, if inplace then mkMvp w None w None
                      else mkMvp w None (T2 V) None))
             = Ok (h1, mkMvp (T2 (mm (mm B V) A)) None
                             (if inplace then T2 (mm (mm B V) A) else T2 V) None)).
  { intros h1 Ea1 Eb1.
    rewrite (view2_rect _ _ _ HV PB). cbn [bind deref].
    rewrite Eb1. cbn [bind torch_mm].
    rewrite (mm_okb_rect _ _ _ _ _ HB HV PB). cbn [bind].
    rewrite Ea1. cbn [bind torch_mm].
    rewrite (mm_okb_rect _ _ _ _ _ HBV HA PA). cbn [bind as_mat].
    rewrite (view_as_rect _ _ _ _ HBVA HV PB). cbn [bind].
    destruct inplace; reflexivity. }
  unfold Kron_mvp, Kron_B_dim. rewrite Ek.
  cbn [bind Kron__B_dim Kron_B Kron_A Kron_A_inv Kron_B_inv Kron__A_dim].
  destruct Hdim as [Hd|Hd]; rewrite Hd.
  - rewrite Eb. cbn [bind shape0 shape]. destruct HB as [LB FB]. rewrite LB.
    cbn [bind]. eexists.
    apply (Hrest (store h self _)).
    + rewrite (get_tensor_store_kron _ _ _ _ _ Ek). exact Ea.
    + rewrite (get_tensor_store_kron _ _ _ _ _ Ek). exact Eb.
  - cbn [bind]. exists h. apply Hrest; assumption.
Qed.

(** C6, as the code has it.  For square [A] (dA x dA) and [B] (dB x dB)
    and a weight tensor [V] of shape (dB, dA), [Kron.mvp] returns [B V A],
    computed with two matrix products.  That is the dense product
    [(A^T (x) B) vec(V)] reshaped; it is [(A (x) B) vec(V)] reshaped when
    [A] is symmetric, as the factors of a symmetric matrix are. *)
Theorem Kron_mvp_kron_product (h : heap) (self a b : loc) (ks : Kron)
        (dA dB : nat) (A B V : mat) :
  get_kron h self = Ok ks ->
  Kron_A ks = Some a -> Kron_B ks = Some b ->
  Kron__B_dim ks = None \/ Kron__B_dim ks = Some dB ->
  get_tensor h a = Ok (T2 A) -> get_tensor h b = Ok (T2 B) ->
  is_rect dA dA A -> is_rect dB dB B -> is_rect dB dA V ->
  (0 < dA)%nat -> (0 < dB)%nat ->
  exists h',
    Kron_mvp h self (T2 V) None false false
    = Ok (h', mkMvp (T2 (mm (mm B V) A)) None (T2 V) None)
    /\ mm (mm B V) A
       = unvec_cols dB dA (mv (kron_prod (transpose A) B) (vec_cols V))
    /\ (is_symmetric dA A ->
        mm (mm B V) A = unvec_cols dB dA (mv (kron_prod A B) (vec_cols V))).
Proof.
  intros Ek EA EB Hdim Ea Eb HA HB HV PA PB.
  destruct (Kron_mvp_weight h self a b ks dA dB A B V false
              Ek EA EB Hdim Ea Eb HA HB HV PA PB) as [h' Hmvp].
  exists h'. split; [exact Hmvp|]. split.
  - rewrite (kron_identity _ _ _ _ _ (transpose_rect_sq HA) HB HV PA PB).
    rewrite (transpose_involutive _ _ HA). reflexivity.
  - intros Hsym.
    rewrite (kron_identity _ _ _ _ _ HA HB HV PA PB).
    rewrite (transpose_symmetric _ _ Hsym). reflexivity.
Qed.

Definition heap_sym : heap :=
  [ OTensor (T2 [[2; 1]; [1; 3]]); OTensor (T2 [[1; 2]; [3; 4]]);
    OKron (mkKron (Some 0%nat) (Some 1%nat) None None None None) ].

Lemma Kron_mvp_kron_product_witness :
  exists h',
    Kron_mvp heap_sym 2%nat (T2 [[1; 0]; [0; 1]]) None false false
    = Ok (h', mkMvp (T2 (mm (mm [[1; 2]; [3; 4]] [[1; 0]; [0; 1]]) [[2; 1]; [1; 3]]))
                    None (T2 [[1; 0]; [0; 1]]) None)
    /\ mm (mm [[1; 2]; [3; 4]] [[1; 0]; [0; 1]]) [[2; 1]; [1; 3]]
       = unvec_cols 2 2 (mv (kron_prod [[2; 1]; [1; 3]] [[1; 2]; [3; 4]])
                            (vec_cols [[1; 0]; [0; 1]])).
Proof.
  assert (R2 : forall x1 x2 x3 x4 : R, is_rect 2 2 [[x1; x2]; [x3; x4]]).
  { intros. split; [reflexivity | repeat constructor]. }
  destruct (Kron_mvp_kron_product heap_sym 2%nat 0%nat 1%nat _ 2 2
              [[2; 1]; [1; 3]] [[1; 2]; [3; 4]] [[1; 0]; [0; 1]]
              eq_refl eq_refl eq_refl (or_introl eq_refl) eq_refl eq_refl
              (R2 _ _ _ _) (R2 _ _ _ _) (R2 _ _ _ _)
              (Nat.lt_0_succ 1) (Nat.lt_0_succ 1)) as (h' & Hmvp & _ & Hsym).
  exists h'. split; [exact Hmvp|].
  apply Hsym. split; [apply R2|].
  intros [|[|i]] [|[|j]] Hi Hj; try lia; reflexivity.
Defined.

(** A [Kron] whose input-side factor is not symmetric. *)
Definition heap_asym : heap :=
  [ OTensor (T2 [[1; 1]; [0; 1]]); OTensor (T2 [[1]]);
    OKron (mkKron (Some 0%nat) (Some 1%nat) None None None None) ].

Definition heap_asym_mvp : heap :=
  [ OTensor (T2 [[1; 1]; [0; 1]]); OTensor (T2 [[1]]);
    OKron (mkKron (Some 0%nat) (Some 1%nat) None None None (Some 1%nat)) ].

(** C6, as the claim states it, fails for a square [A] that is not
    symmetric: with [A = [[1, 1], [0, 1]]], [B = [[1]]] and [V = [[1, 0]]],
    [Kron.mvp] returns [B V A = [[1, 1]]], while [(A (x) B) vec(V)]
    reshaped is [[1, 0]]. *)
Lemma Kron_mvp_not_kron_product_asym :
  Kron_mvp heap_asym 2%nat (T2 [[1; 0]]) None false false
  = Ok (heap_asym_mvp, mkMvp (T2 [[1; 1]]) None (T2 [[1; 0]]) None)
  /\ unvec_cols 1 2 (mv (kron_prod [[1; 1]; [0; 1]] [[1]]) (vec_cols [[1; 0]]))
     = [[1; 0]]
  /\ T2 [[1; 1]] <> T2 [[1; 0]].
Proof.
  split; [|split].
  - unfold Kron_mvp, heap_asym, heap_asym_mvp. simpl.
    unfold mget. simpl. struct_eq.
  - unfold unvec_cols, kron_prod, vec_cols, mk_mat, mv, mget. simpl. struct_eq.
  - intros E. inversion E as [E1]. lra.
Qed.

(* ================================================================== *)
(** * The per-unit matrix-vector product *)
(* ================================================================== *)

(** The Python values that meet in the comparison of [UnitWise.mvp]. *)
Inductive pyval : Type :=
| PySize (s : list nat)
| PyTensor (t : tensor)
| PyNone.

(** [size == v] for a [torch.Size]: the comparison of tuples when [v] is a
    size.  Against a tensor (or [None]) neither [tuple.__eq__] nor the
    reflected [Tensor.__eq__] applies (both answer [NotImplemented]), and
    Python falls back to identity: the answer is [False]. *)
Definition size_eq (s : list nat) (v : pyval) : bool :=
  match v with
  | PySize s' => if list_eq_dec Nat.eq_dec s s' then true else false
  | PyTensor _ => false
  | PyNone => false
  end.

Definition py_of_opt_tensor (o : option tensor) : pyval :=
  match o with Some t => PyTensor t | None => PyNone end.

(** [torch.stack([a, b], dim=1)] for two vectors of one length.  (For
    higher ranks the next step, [unsqueeze(2)], would leave the ranks this
    model represents.) *)
Definition stack_dim1 (a b : tensor) : result mat :=
  match a, b with
  | T1 u, T1 v =>
      if Nat.eqb (length u) (length v)
      then Ok (zipw (fun x y => [x; y]) u v)
      else Err ShapeError
  | _, _ => Err ShapeError
  end.

(** [m.unsqueeze(2)] on a matrix and [t.squeeze(2)] on a batch of
    columns. *)
Definition unsqueeze2 (m : mat) : tensor := T3 (map (map (fun x => [x])) m).

Definition squeeze2 (t : tensor) : result mat :=
  match t with
  | T3 b => Ok (map (map (hd 0)) b)
  | _ => Err ShapeError
  end.

(** [torch.hstack([w, b.unsqueeze(dim=1)])]: a matrix [w] and a vector [b]
    with one entry per row.  A vector [w] is concatenated along dimension 0
    and cannot be joined with the rank-2 [b.unsqueeze(1)]. *)
Definition hstack_bias (w : tensor) (b : option tensor) : result mat :=
  match b with
  | None => Err AttributeError
  | Some (T1 bv) =>
      match w with
      | T2 m =>
          if Nat.eqb (length m) (length bv)
          then Ok (zipw (fun row x => row ++ [x]) m bv)
          else Err ShapeError
      | _ => Err ShapeError
      end
  | Some (T0 _) => Err IndexError
  | Some _ => Err ShapeError
  end.

Definition opt_tensor (h : heap) (o : option loc) : result tensor :=
  match o with
  | Some l => get_tensor h l
  | None => Err TypeError
  end.

(** The branch of [UnitWise.mvp] marked "for BatchNormNd". *)
Definition UnitWise_mvp_bn (mat : result tensor) (vec_weight : tensor)
           (vec_bias : option tensor) : result (tensor * tensor) :=
  b <- match vec_bias with Some b => Ok b | None => Err TypeError end ;;
  v <- stack_dim1 vec_weight b ;;
  m <- mat ;;
  p <- torch_matmul m (unsqueeze2 v) ;;
  mvp_wb <- squeeze2 p ;;
  Ok (T1 (map (fun row => nth 0 row 0) mvp_wb),
      T1 (map (fun row => nth 1 row 0) mvp_wb)).

(** The other branch: the bias as one more column. *)
Definition UnitWise_mvp_cat (mat : result tensor) (vec_weight : tensor)
           (vec_bias : option tensor) : result (tensor * tensor) :=
  v <- hstack_bias vec_weight vec_bias ;;
  m <- mat ;;
  p <- torch_matmul m (unsqueeze2 v) ;;
  mvp_wb <- squeeze2 p ;;
  Ok (T2 (map (@removelast R) mvp_wb),
      T1 (map (fun row => last row 0) mvp_wb)).

(** [vec_weight.shape[-1] == 2]. *)
Definition last_dim_is_2 (t : tensor) : result bool :=
  match shape t with
  | [] => Err IndexError
  | s => Ok (Nat.eqb (last s 0%nat) 2)
  end.

(** [UnitWise.mvp(self, vec_weight, vec_bias, use_inv, inplace)].  The
    condition is [vec_weight.shape == vec_bias and
    vec_weight.shape[-1] == 2]; [and] evaluates its second operand only
    when the first is true. *)
Definition UnitWise_mvp (h : heap) (self : loc) (vec_weight : tensor)
           (vec_bias : option tensor) (use_inv inplace : bool)
  : result mvp_result :=
  us <- get_unit h self ;;
  let mat := opt_tensor h (if use_inv then UnitWise_inv us else UnitWise_data us) in
  cond <- (if size_eq (shape vec_weight) (py_of_opt_tensor vec_bias)
           then last_dim_is_2 vec_weight
           else Ok false) ;;
  '(w, b) <- (if cond then UnitWise_mvp_bn mat vec_weight vec_bias
              else UnitWise_mvp_cat mat vec_weight vec_bias) ;;
  Ok (if inplace then mkMvp w (Some b) w (Some b)
      else mkMvp w (Some b) vec_weight vec_bias).

(** C9.  Whatever weight and bias are passed, [UnitWise.mvp] behaves as its
    concatenation branch alone: the comparison of the shape of the weight
    with the bias tensor itself is never true, so the branch for
    scale/shift pairs is never entered; the call returns what the
    concatenation branch returns, or raises as it does. *)
Theorem UnitWise_mvp_never_bn (h : heap) (self : loc) (vec_weight : tensor)
        (vec_bias : option tensor) (use_inv inplace : bool) :
  size_eq (shape vec_weight) (py_of_opt_tensor vec_bias) = false
  /\ UnitWise_mvp h self vec_weight vec_bias use_inv inplace
     = (us <- get_unit h self ;;
        let mat := opt_tensor h (if use_inv then UnitWise_inv us
                                 else UnitWise_data us) in
        '(w, b) <- UnitWise_mvp_cat mat vec_weight vec_bias ;;
        Ok (if inplace then mkMvp w (Some b) w (Some b)
            else mkMvp w (Some b) vec_weight vec_bias)).
Proof.
  assert (E : size_eq (shape vec_weight) (py_of_opt_tensor vec_bias) = false)
    by (destruct vec_bias; reflexivity).
  split; [exact E|].
  unfold UnitWise_mvp. rewrite E. reflexivity.
Qed.

(** On the inputs the scale/shift branch was written for, a weight and a
    bias vector with one entry per unit, the call raises: the
    concatenation branch cannot join a vector with a column. *)
Lemma UnitWise_mvp_scale_shift_raises (h : heap) (self : loc) (us : UnitWise)
      (w b : vec) (use_inv inplace : bool) :
  get_unit h self = Ok us ->
  UnitWise_mvp h self (T1 w) (Some (T1 b)) use_inv inplace = Err ShapeError.
Proof.
  intros Eu. unfold UnitWise_mvp. rewrite Eu. reflexivity.
Qed.

(** With per-unit 2 x 2 blocks [[2, 0], [0, 3]] and [[1, 1], [0, 1]], the
    scale/shift branch itself would map weights [[1, 1]] and biases
    [[1, 1]] to [[2, 2]] and [[3, 1]]; [UnitWise.mvp] raises on them. *)
Example UnitWise_mvp_bn_unreached :
  UnitWise_mvp_bn (Ok (T3 [[[2; 0]; [0; 3]]; [[1; 1]; [0; 1]]]))
                  (T1 [1; 1]) (Some (T1 [1; 1]))
  = Ok (T1 [2 * 1 + (0 * 1 + 0); 1 * 1 + (1 * 1 + 0)],
        T1 [0 * 1 + (3 * 1 + 0); 0 * 1 + (1 * 1 + 0)])
  /\ UnitWise_mvp
       [OTensor (T3 [[[2; 0]; [0; 3]]; [[1; 1]; [0; 1]]]);
        OUnit (mkUnitWise (Some 0%nat) None)]
       1%nat (T1 [1; 1]) (Some (T1 [1; 1])) false false
     = Err ShapeError.
Proof.
  split; [|reflexivity].
  unfold UnitWise_mvp_bn. simpl. unfold mget. simpl. reflexivity.
Qed.

(* ================================================================== *)
(** * Further properties of packing and unpacking *)
(* ================================================================== *)

Lemma NoDup_map_pair (i : nat) (l : list nat) :
  NoDup l -> NoDup (map (fun j => (i, j)) l).
Proof.
  intros H. induction H as [|x l Hx H IH]; simpl; constructor; [|exact IH].
  intros Hin. apply in_map_iff in Hin as [y [E Hy]].
  inversion E; subst. contradiction.
Qed.

Lemma NoDup_tril_indices_gen (n k : nat) :
  NoDup (flat_map (fun i => map (fun j => (i, j)) (seq 0 (Nat.min (S i) n)))
                  (seq 0 k)).
Proof.
  induction k as [|k IH]; [constructor|].
  rewrite seq_S, flat_map_app. simpl. rewrite app_nil_r.
  apply NoDup_app; [exact IH | apply NoDup_map_pair, seq_NoDup |].
  intros [i j] Hin Hin'.
  apply in_flat_map in Hin as [i' [Hi' Hin]]. apply in_seq in Hi'.
  apply in_map_iff in Hin as [j1 [E1 _]].
  apply in_map_iff in Hin' as [j2 [E2 _]].
  inversion E1; inversion E2; subst. lia.
Qed.

Lemma NoDup_tril_indices (n : nat) : NoDup (tril_indices n n).
Proof. apply NoDup_tril_indices_gen. Qed.

(** Writing one value per position at distinct positions: each position
    holds its value afterwards, every other entry is as before. *)
Lemma scatter_values (n : nat) (idx : list (nat * nat)) :
  forall (vals : vec) (Z0 : mat),
    is_rect n n Z0 ->
    (forall i j, In (i, j) idx -> (i < n /\ j < n)%nat) ->
    NoDup idx -> length vals = length idx ->
    let out := fold_left
                 (fun (m : mat) (pv : (nat * nat) * R) =>
                    mset m (fst (fst pv)) (snd (fst pv)) (snd pv))
                 (combine idx vals) Z0 in
    is_rect n n out
    /\ (forall k, (k < length idx)%nat ->
          mget out (fst (nth k idx (0, 0)%nat)) (snd (nth k idx (0, 0)%nat))
          = nth k vals 0)
    /\ (forall i j, ~ In (i, j) idx -> mget out i j = mget Z0 i j).
Proof.
  induction idx as [|[i0 j0] idx IH]; intros vals Z0 HZ Hin Hnd Hlen; cbv zeta.
  - simpl. split; [exact HZ|]. split; [intros k Hk; simpl in Hk; lia | reflexivity].
  - destruct vals as [|v0 vals]; [discriminate|]. simpl in Hlen.
    cbn [combine fold_left fst snd].
    destruct (Hin i0 j0 (or_introl eq_refl)) as [Hi0 Hj0].
    inversion Hnd as [|? ? Hnotin Hnd']; subst.
    destruct (IH vals (mset Z0 i0 j0 v0) (mset_rect i0 j0 v0 HZ)
                (fun i j H => Hin i j (or_intror H)) Hnd' ltac:(lia))
      as [Hrect [Hval Hout]].
    split; [exact Hrect|]. split.
    + intros [|k] Hk; simpl in Hk |- *.
      * rewrite (Hout i0 j0 Hnotin), (mget_mset _ _ _ HZ Hi0 Hj0), !Nat.eqb_refl.
        reflexivity.
      * apply Hval. lia.
    + intros i j Hnot.
      rewrite Hout by (intros H; apply Hnot; right; exact H).
      rewrite (mget_mset _ _ _ HZ Hi0 Hj0).
      destruct (Nat.eqb_spec i0 i) as [->|]; simpl; [|reflexivity].
      destruct (Nat.eqb_spec j0 j) as [->|]; simpl; [|reflexivity].
      exfalso; apply Hnot; left; reflexivity.
Qed.

Lemma mget_zeros_any (n i j : nat) : mget (zeros n n) i j = 0.
Proof.
  unfold zeros. destruct (Nat.lt_ge_cases i n) as [Hi|Hi];
    [destruct (Nat.lt_ge_cases j n) as [Hj|Hj]|].
  - apply mget_mk_mat; assumption.
  - unfold mget. apply nth_overflow.
    rewrite (is_rect_row (mk_mat_rect n n (fun _ _ => 0)) Hi). exact Hj.
  - unfold mget. rewrite (nth_overflow (mk_mat n n (fun _ _ => 0)) []).
    + destruct j; reflexivity.
    + destruct (mk_mat_rect n n (fun _ _ => 0)) as [L _]. rewrite L. exact Hi.
Qed.

(** X1.  [tril_to_matrix] on a packed vector of length [n (n + 1) / 2] returns
    a symmetric [n] x [n] matrix, and packing that matrix gives the vector
    back. *)
Theorem tril_unpack_pack (n : nat) (v : vec) :
  length v = tri n ->
  exists M,
    tril_to_matrix (T1 v) = Ok (T2 M)
    /\ is_symmetric n M
    /\ matrix_to_tril (T2 M) = Ok (T1 v).
Proof.
  intros Lv.
  unfold tril_to_matrix. cbn [ndim Nat.eqb assert_ bind].
  rewrite (@get_n_cols_by_tril_tri v n Lv). cbn [bind]. unfold index_put.
  rewrite length_tril_indices, Lv, Nat.eqb_refl.
  assert (HZ : is_rect n n (zeros n n)) by apply mk_mat_rect.
  rewrite (tril_indices_in_range HZ).
  destruct (scatter_values n (tril_indices n n) v (zeros n n) HZ)
    as [Hrect [Hval Hout]].
  { intros i j Hin. apply in_tril_indices in Hin. lia. }
  { apply NoDup_tril_indices. }
  { rewrite length_tril_indices. exact Lv. }
  set (rst := fold_left _ _ _) in *.
  cbn [bind].
  pose proof (transpose_rect_sq Hrect) as HT.
  pose proof (diag_of_vec_mat_rect Hrect) as HD.
  unfold tensor_add, tensor_sub_alpha, tensor_zip.
  rewrite (same_shapeb_T2 Hrect HT). cbn [bind tzip].
  rewrite (same_shapeb_T2 (zipw2_rect Rplus Hrect HT) HD).
  set (M := zipw _ _ _).
  assert (HM : is_rect n n M)
    by (apply zipw2_rect; [apply zipw2_rect|]; assumption).
  assert (EM : forall i j, (i < n)%nat -> (j < n)%nat ->
             mget M i j = mget rst i j + mget rst j i
                          - 1 * (if Nat.eqb i j then mget rst i i else 0)).
  { intros i j Hi Hj. subst M.
    rewrite (mget_zipw2 _ (zipw2_rect Rplus Hrect HT) HD Hi Hj).
    rewrite (mget_zipw2 _ Hrect HT Hi Hj).
    rewrite (mget_transpose Hrect Hi Hj).
    rewrite (mget_diag_of_vec_mat Hrect Hi Hj). reflexivity. }
  assert (Hup : forall a b, (a < b)%nat -> mget rst a b = 0).
  { intros a b Hab. rewrite Hout; [apply mget_zeros_any|].
    intros Hin. apply in_tril_indices in Hin. lia. }
  exists M. split; [reflexivity|]. split; [split; [exact HM|]|].
  - intros i j Hi Hj. rewrite !EM by assumption.
    rewrite (Nat.eqb_sym j i).
    destruct (Nat.eqb_spec i j) as [->|Hne]; ring.
  - unfold matrix_to_tril. cbn [ndim Nat.eqb assert_ bind].
    rewrite (is_rect_ncols_sq HM). destruct HM as [LM FM]. rewrite LM.
    assert (HM : is_rect n n M) by (split; assumption).
    do 2 f_equal. apply vec_ext.
    + rewrite length_map, length_tril_indices. congruence.
    + intros k Hk. rewrite length_map in Hk.
      rewrite (nth_map' _ _ (0, 0)%nat 0 Hk).
      assert (Hin : In (nth k (tril_indices n n) (0, 0)%nat) (tril_indices n n))
        by (apply nth_In; exact Hk).
      specialize (Hval k Hk).
      destruct (nth k (tril_indices n n) (0, 0)%nat) as [i j] eqn:Eij.
      apply in_tril_indices in Hin as [Hi Hj]. simpl in Hval |- *.
      rewrite EM by lia.
      destruct (Nat.eqb_spec i j) as [->|Hne].
      * rewrite Hval. ring.
      * rewrite (Hup j i) by lia. rewrite Hval. ring.
Qed.

Lemma tril_unpack_pack_witness :
  exists M,
    tril_to_matrix (T1 [1; 2; 3]) = Ok (T2 M)
    /\ is_symmetric 2 M
    /\ matrix_to_tril (T2 M) = Ok (T1 [1; 2; 3]).
Proof. apply (tril_unpack_pack 2 [1; 2; 3]). reflexivity. Defined.

(** X2.  [get_n_cols_by_tril] on any length: the largest [n] whose triangular
    number does not exceed the length. *)
Theorem get_n_cols_by_tril_floor (v : vec) :
  exists n,
    get_n_cols_by_tril (T1 v) = Ok n
    /\ (tri n <= length v < tri (S n))%nat.
Proof.
  unfold get_n_cols_by_tril. cbn [ndim Nat.eqb assert_ bind numel].
  set (L := length v).
  set (x := sqrt (2 * INR L + 0.25) - 0.5).
  assert (Hrad : 0 <= 2 * INR L + 0.25) by (pose proof (pos_INR L); lra).
  pose proof (sqrt_def _ Hrad) as Hsq.
  pose proof (sqrt_pos (2 * INR L + 0.25)) as Hs0.
  assert (Hx0 : 0 <= x).
  { unfold x.
    assert (0.5 <= sqrt (2 * INR L + 0.25)); [|lra].
    destruct (Rle_lt_dec 0.5 (sqrt (2 * INR L + 0.25))) as [H|H]; [exact H|].
    pose proof (pos_INR L). nra. }
  unfold py_int.
  replace (Rltb x 0) with false by (symmetry; apply Rltb_false; lra).
  destruct (base_Int_part x) as [B1 B2].
  assert (Hz : (0 <= Int_part x)%Z).
  { apply le_IZR. destruct (Z.le_gt_cases 0 (Int_part x)) as [H|H].
    - apply IZR_le. exact H.
    - assert (IZR (Int_part x) <= -1) by (apply IZR_le; lia). lra. }
  exists (Z.to_nat (Int_part x)). split; [reflexivity|].
  set (n := Z.to_nat (Int_part x)).
  assert (En : IZR (Int_part x) = INR n).
  { unfold n. rewrite INR_IZR_INZ, Z2Nat.id by exact Hz. reflexivity. }
  rewrite En in B1, B2. unfold x in B1, B2.
  set (s := sqrt (2 * INR L + 0.25)) in *.
  pose proof (pos_INR n) as Hn0.
  assert (T1' : INR (2 * tri n) = INR n * (INR n + 1)).
  { rewrite tri_double, mult_INR, plus_INR. simpl. reflexivity. }
  assert (T2' : INR (2 * tri (S n)) = (INR n + 1) * (INR n + 2)).
  { rewrite tri_double, mult_INR, plus_INR, S_INR. simpl. ring. }
  rewrite mult_INR in T1', T2'. simpl in T1', T2'.
  split.
  - apply INR_le. nra.
  - apply INR_lt. nra.
Qed.

(* ================================================================== *)
(** * Further properties of the Kronecker representation *)
(* ================================================================== *)

Lemma vsum_map_seq (f : nat -> R) (a n : nat) :
  vsum (map f (seq a n)) = rsum a n f.
Proof.
  revert a; induction n as [|n IH]; intros a; simpl; [reflexivity|].
  rewrite IH. reflexivity.
Qed.

Lemma trace_rsum (n : nat) (M : mat) :
  is_rect n n M -> vsum (diag_of_mat M) = rsum 0 n (fun i => mget M i i).
Proof.
  intros HM. unfold diag_of_mat. rewrite (is_rect_ncols_sq HM).
  destruct HM as [L _]. rewrite L, Nat.min_id. apply vsum_map_seq.
Qed.

Lemma rsum_scale_r (a n : nat) (c : R) (f : nat -> R) :
  rsum a n (fun k => f k * c) = rsum a n f * c.
Proof.
  revert a; induction n as [|n IH]; intros a; simpl; [ring|].
  rewrite IH; ring.
Qed.

Lemma kron_prod_rect (dA dB : nat) (A B : mat) :
  is_rect dA dA A -> is_rect dB dB B ->
  is_rect (dA * dB) (dA * dB) (kron_prod A B).
Proof.
  intros HA HB. unfold kron_prod.
  rewrite (is_rect_ncols_sq HA), (is_rect_ncols_sq HB).
  destruct HA as [LA _], HB as [LB _]. rewrite LA, LB. apply mk_mat_rect.
Qed.

Lemma mget_kron_prod (dA dB : nat) (A B : mat) (r c : nat) :
  is_rect dA dA A -> is_rect dB dB B ->
  (r < dA * dB)%nat -> (c < dA * dB)%nat ->
  mget (kron_prod A B) r c
  = mget A (r / dB) (c / dB) * mget B (r mod dB) (c mod dB).
Proof.
  intros HA HB Hr Hc. unfold kron_prod.
  rewrite (is_rect_ncols_sq HA), (is_rect_ncols_sq HB).
  destruct HA as [LA _], HB as [LB _]. rewrite LA, LB.
  rewrite mget_mk_mat by assumption. reflexivity.
Qed.

(** X3.  [Kron.trace] multiplies the traces of the two factors; this is the
    trace of the Kronecker product the pair stands for. *)
Theorem Kron_trace_kron_prod (h : heap) (self a b : loc) (ks : Kron)
        (dA dB : nat) (A B : mat) :
  get_kron h self = Ok ks ->
  Kron_A ks = Some a -> Kron_B ks = Some b ->
  get_tensor h a = Ok (T2 A) -> get_tensor h b = Ok (T2 B) ->
  is_rect dA dA A -> is_rect dB dB B ->
  Kron_trace h self = torch_trace (T2 (kron_prod A B)).
Proof.
  intros Ek EA EB Ea Eb HA HB.
  unfold Kron_trace. rewrite Ek. cbn [bind]. rewrite EA, EB. cbn [deref bind].
  rewrite Ea, Eb. cbn [bind diag_sum torch_trace]. f_equal.
  rewrite (trace_rsum _ _ HA), (trace_rsum _ _ HB),
          (trace_rsum _ _ (kron_prod_rect _ _ _ _ HA HB)).
  destruct (Nat.eq_dec dB 0) as [->|NB].
  - rewrite Nat.mul_0_r. simpl. ring.
  - transitivity (rsum 0 (dA * dB)
                    (fun k => mget A (k / dB) (k / dB)
                              * mget B (k mod dB) (k mod dB))).
    + rewrite <- rsum_scale_r.
      rewrite (rsum_prod dA dB (fun i j => mget A i i * mget B j j)) by lia.
      apply rsum_ext. intros i _. rewrite rsum_scale. reflexivity.
    + apply rsum_ext. intros k Hk. symmetry.
      apply (mget_kron_prod dA dB); (assumption || lia).
Qed.

Definition heap_kron_23 : heap :=
  [ OTensor (T2 [[1; 2]; [2; 5]]); OTensor (T2 [[3]]);
    OKron (mkKron (Some 0%nat) (Some 1%nat) None None None None) ].

Lemma Kron_trace_kron_prod_witness :
  Kron_trace heap_kron_23 2%nat
  = torch_trace (T2 (kron_prod [[1; 2]; [2; 5]] [[3]])).
Proof.
  apply (Kron_trace_kron_prod heap_kron_23 2%nat 0%nat 1%nat _ 2 1
           [[1; 2]; [2; 5]] [[3]] eq_refl eq_refl eq_refl eq_refl eq_refl).
  - split; [reflexivity | repeat constructor].
  - split; [reflexivity | repeat constructor].
Defined.

Lemma get_tensor_store_eq (h : heap) (l : loc) (t t' : tensor) :
  get_tensor h l = Ok t -> get_tensor (store h l (OTensor t')) l = Ok t'.
Proof.
  unfold get_tensor, store. rewrite nth_error_set_nth_eq.
  destruct (nth_error h l) as [[]|]; try discriminate. reflexivity.
Qed.

Lemma get_tensor_store_neq (h : heap) (l l' : loc) (o : obj) :
  l <> l' -> get_tensor (store h l o) l' = get_tensor h l'.
Proof.
  intros Hne. unfold get_tensor, store.
  rewrite nth_error_set_nth_neq by exact Hne. reflexivity.
Qed.

Lemma get_kron_store_tensor_at (h : heap) (d x : loc) (t t' : tensor) :
  get_tensor h d = Ok t ->
  get_kron (store h d (OTensor t')) x = get_kron h x.
Proof.
  unfold get_tensor, get_kron, store. intros H.
  destruct (Nat.eq_dec d x) as [->|Hne].
  - rewrite nth_error_set_nth_eq.
    destruct (nth_error h x) as [[]|]; try discriminate; reflexivity.
  - rewrite nth_error_set_nth_neq by exact Hne. reflexivity.
Qed.

Lemma mget_map_map (f : R -> R) (M : mat) (i j : nat) :
  f 0 = 0 -> mget (map (map f) M) i j = f (mget M i j).
Proof.
  intros F0. unfold mget.
  change (@nil R) with (map f []) at 1. rewrite map_nth.
  rewrite <- F0 at 1. apply map_nth.
Qed.

Lemma map_map_rect (f : R -> R) (r c : nat) (M : mat) :
  is_rect r c M -> is_rect r c (map (map f) M).
Proof.
  intros [L F]. split; [rewrite length_map; exact L|].
  apply Forall_forall. intros row Hrow.
  apply in_map_iff in Hrow as [row' [<- Hin]].
  rewrite length_map. rewrite Forall_forall in F. apply F, Hin.
Qed.

(** X4.  [Kron.mul_(c)] multiplies both factors by [c]: the Kronecker product
    the pair stands for is multiplied by [c * c], not by [c]. *)
Theorem Kron_mul__scales_square (h : heap) (self a b : loc) (ks : Kron)
        (dA dB : nat) (A B : mat) (c : R) :
  get_kron h self = Ok ks ->
  Kron_A ks = Some a -> Kron_B ks = Some b -> a <> b ->
  get_tensor h a = Ok (T2 A) -> get_tensor h b = Ok (T2 B) ->
  is_rect dA dA A -> is_rect dB dB B ->
  exists h' A' B',
    Kron_mul_ h self c = Ok h'
    /\ get_kron h' self = Ok ks
    /\ get_tensor h' a = Ok (T2 A') /\ get_tensor h' b = Ok (T2 B')
    /\ kron_prod A' B' = map (map (fun x => x * (c * c))) (kron_prod A B).
Proof.
  intros Ek EA EB Hab Ea Eb HA HB.
  set (A' := map (map (fun x => x * c)) A).
  set (B' := map (map (fun x => x * c)) B).
  set (h1 := store h a (OTensor (T2 A'))).
  assert (Eb1 : get_tensor h1 b = Ok (T2 B)).
  { unfold h1. rewrite get_tensor_store_neq by exact Hab. exact Eb. }
  exists (store h1 b (OTensor (T2 B'))), A', B'.
  split; [|split; [|split; [|split]]].
  - unfold Kron_mul_. rewrite Ek. cbn [bind]. rewrite EA, EB. cbn [deref bind].
    unfold tensor_mul_. rewrite Ea. cbn [bind tensor_mul tmap].
    fold A'. fold h1. rewrite Eb1. reflexivity.
  - rewrite (get_kron_store_tensor_at _ _ _ _ _ Eb1). unfold h1.
    rewrite (get_kron_store_tensor_at _ _ _ _ _ Ea). exact Ek.
  - rewrite get_tensor_store_neq by (intros E; apply Hab; symmetry; exact E).
    unfold h1. apply (get_tensor_store_eq _ _ _ _ Ea).
  - apply (get_tensor_store_eq _ _ _ _ Eb1).
  - assert (HA' : is_rect dA dA A') by (apply map_map_rect; exact HA).
    assert (HB' : is_rect dB dB B') by (apply map_map_rect; exact HB).
    apply (@mat_ext (dA * dB) (dA * dB)).
    + apply kron_prod_rect; assumption.
    + apply map_map_rect, kron_prod_rect; assumption.
    + intros i j Hi Hj.
      rewrite (mget_map_map (fun x => x * (c * c))) by ring.
      rewrite (mget_kron_prod dA dB A' B') by assumption.
      rewrite (mget_kron_prod dA dB A B) by assumption.
      unfold A', B'. rewrite !(mget_map_map (fun x => x * c)) by ring. ring.
Qed.

Lemma Kron_mul__scales_square_witness :
  exists h' A' B',
    Kron_mul_ heap_kron_23 2%nat 2 = Ok h'
    /\ get_kron h' 2%nat
       = Ok (mkKron (Some 0%nat) (Some 1%nat) None None None None)
    /\ get_tensor h' 0%nat = Ok (T2 A') /\ get_tensor h' 1%nat = Ok (T2 B')
    /\ kron_prod A' B'
       = map (map (fun x => x * (2 * 2))) (kron_prod [[1; 2]; [2; 5]] [[3]]).
Proof.
  apply (Kron_mul__scales_square heap_kron_23 2%nat 0%nat 1%nat _ 2 1
           [[1; 2]; [2; 5]] [[3]] 2 eq_refl eq_refl eq_refl).
  - discriminate.
  - reflexivity.
  - reflexivity.
  - split; [reflexivity | repeat constructor].
  - split; [reflexivity | repeat constructor].
Defined.

(** X5.  [Kron.mvp] with [use_inv] reads [A_inv] and [B_inv]: while one of them
    is still [None] (no [update_inv] yet) the call never returns a
    product, whatever the vectors. *)
Theorem Kron_mvp_use_inv_needs_inverses (h : heap) (self : loc) (ks : Kron)
        (vec_weight : tensor) (vec_bias : option tensor) (inplace : bool) :
  get_kron h self = Ok ks ->
  Kron_A_inv ks = None \/ Kron_B_inv ks = None ->
  is_ok (Kron_mvp h self vec_weight vec_bias true inplace) = false.
Proof.
  intros Ek Hnone. unfold Kron_mvp. rewrite Ek. cbn [bind].
  destruct (Kron_B_dim h self) as [[h1 [n|]]|e]; cbn [bind]; try reflexivity.
  destruct (view2 vec_weight n) as [vec2d|e]; cbn [bind]; [|reflexivity].
  destruct (match vec_bias with
            | Some bias => cat_bias_column vec2d bias
            | None => Ok vec2d
            end) as [v2|e]; cbn [bind]; [|reflexivity].
  destruct (Kron_B_inv ks) as [lb|] eqn:EB; cbn [deref bind]; [|reflexivity].
  destruct Hnone as [EA|EB']; [|discriminate]. rewrite EA.
  destruct (get_tensor h1 lb) as [MB|e]; cbn [bind]; [|reflexivity].
  destruct (torch_mm MB (T2 v2)) as [BV|e]; cbn [bind deref]; reflexivity.
Qed.

Lemma Kron_mvp_use_inv_needs_inverses_witness :
  is_ok (Kron_mvp heap_kron_23 2%nat (T2 [[1; 1]]) None true false) = false.
Proof.
  apply (Kron_mvp_use_inv_needs_inverses heap_kron_23 2%nat _ _ _ _ eq_refl).
  left. reflexivity.
Defined.

Lemma nth_error_store_neq (h : heap) (l l' : loc) (o : obj) :
  l <> l' -> nth_error (store h l o) l' = nth_error h l'.
Proof. intros H. unfold store. apply nth_error_set_nth_neq, H. Qed.

Lemma length_store (h : heap) (l : loc) (o : obj) :
  length (store h l o) = length h.
Proof. unfold store. apply length_set_nth. Qed.

Lemma get_kron_store_eq (h : heap) (l : loc) (k k' : Kron) :
  get_kron h l = Ok k -> get_kron (store h l (OKron k')) l = Ok k'.
Proof.
  unfold get_kron, store. rewrite nth_error_set_nth_eq.
  destruct (nth_error h l) as [[]|]; try discriminate. reflexivity.
Qed.

(** X6.  [Kron.update_inv] stops at its assertion unless both factors are
    present.  When it returns, the two inverses are new tensors, placed
    after every existing object, and the [Kron] refers to them; the factors
    [A] and [B], the cached dimensions and every other object of the store,
    among them inverses computed earlier, are as before. *)
Theorem Kron_update_inv_frame (h : heap) (self : loc) (ks : Kron)
        (damping eps : R) :
  get_kron h self = Ok ks ->
  (Kron_has_data ks = false ->
   Kron_update_inv h self damping eps = Err AssertionError)
  /\ (forall h', Kron_update_inv h self damping eps = Ok h' ->
        length h' = (length h + 2)%nat
        /\ get_kron h' self
           = Ok (mkKron (Kron_A ks) (Kron_B ks)
                        (Some (length h)) (Some (S (length h)))
                        (Kron__A_dim ks) (Kron__B_dim ks))
        /\ (exists A_inv B_inv,
              get_tensor h' (length h) = Ok A_inv
              /\ get_tensor h' (S (length h)) = Ok B_inv)
        /\ (forall l, (l < length h)%nat -> l <> self ->
              nth_error h' l = nth_error h l)).
Proof.
  intros Ek. split.
  - intros Hd. unfold Kron_update_inv. rewrite Ek. cbn [bind]. rewrite Hd.
    reflexivity.
  - intros h' H. unfold Kron_update_inv in H. rewrite Ek in H. cbn [bind] in H.
    repeat (apply bind_ok_inv in H as [? [_ H]]).
    unfold alloc in H.
    pose proof (get_kron_valid _ _ _ Ek) as Hself.
    inversion H as [E]; clear H.
    rewrite !length_store, !length_app, !length_store, !length_app. cbn [length].
    replace (length h + 1)%nat with (S (length h)) by lia.
    split; [lia|]. split; [|split].
    + apply (get_kron_store_eq _ _ (mkKron (Kron_A ks) (Kron_B ks)
               (Some (length h)) (Kron_B_inv ks) (Kron__A_dim ks) (Kron__B_dim ks))).
      apply get_kron_ext.
      apply (get_kron_store_eq _ _ ks). apply get_kron_ext. exact Ek.
    + do 2 eexists. split.
      * unfold get_tensor.
        rewrite nth_error_store_neq by lia.
        rewrite nth_error_app1 by (rewrite length_store, length_app; simpl; lia).
        rewrite nth_error_store_neq by lia.
        rewrite nth_error_app2, Nat.sub_diag by lia. reflexivity.
      * unfold get_tensor.
        rewrite nth_error_store_neq by lia.
        rewrite nth_error_app2
          by (rewrite length_store, length_app; simpl; lia).
        rewrite length_store, length_app. cbn [length].
        replace (S (length h) - (length h + 1))%nat with 0%nat by lia.
        reflexivity.
    + intros l Hl Hne.
      rewrite nth_error_store_neq by (intros E'; apply Hne; symmetry; exact E').
      rewrite nth_error_app1 by (rewrite length_store, length_app; simpl; lia).
      rewrite nth_error_store_neq by (intros E'; apply Hne; symmetry; exact E').
      apply nth_error_app1. exact Hl.
Qed.

Lemma Kron_update_inv_frame_witness :
  length heap_layer_inv = (length heap_layer + 2)%nat
  /\ get_kron heap_layer_inv 2%nat
     = Ok (mkKron (Some 0%nat) (Some 1%nat) (Some 3%nat) (Some 4%nat) None None).
Proof.
  destruct (Kron_update_inv_frame heap_layer 2%nat _ 0.01 default_eps eq_refl)
    as [_ H].
  destruct (H _ Kron_update_inv_layer) as (H1 & H2 & _).
  split; [exact H1 | exact H2].
Defined.

Lemma spd_inverse_rect (n : nat) :
  forall M inv, spd_inverse n M = Ok inv -> is_rect n n inv.
Proof.
  induction n as [|n IH]; intros M inv H.
  - inversion H. split; [reflexivity | constructor].
  - cbn [spd_inverse] in H.
    destruct M as [|[|a row] rest]; try discriminate.
    destruct (Rltb 0 a); [|discriminate].
    apply bind_ok_inv in H as [Sinv [ES H]]. inversion H; subst inv; clear H.
    specialize (IH _ _ ES). destruct IH as [L F].
    assert (Lu : length (mv Sinv (map (hd 0) rest)) = n)
      by (rewrite mv_length; exact L).
    split.
    + cbn [length]. rewrite length_zipw, Lu, L, Nat.min_id. reflexivity.
    + constructor.
      * cbn [length]. rewrite length_map, Lu. reflexivity.
      * apply Forall_forall. intros r Hr.
        destruct (In_nth _ _ [] Hr) as [k [Hk <-]].
        rewrite length_zipw, Lu, L, Nat.min_id in Hk.
        rewrite (nth_zipw _ _ _ 0 [] []) by lia.
        cbn [length]. f_equal. rewrite Forall_forall in F.
        apply F, nth_In. lia.
Qed.

Lemma cholesky_inv_rect (t t' : tensor) :
  cholesky_inv t = Ok t' ->
  exists m inv, t = T2 m /\ t' = T2 inv /\ is_rect (length m) (length m) inv.
Proof.
  unfold cholesky_inv. destruct t as [x|v|m|b]; try discriminate.
  destruct (Nat.eqb (length m) (ncols m) && rowsb (ncols m) m); [|discriminate].
  intros H. apply bind_ok_inv in H as [inv [E H]]. inversion H; subst t'.
  exists m, inv. split; [reflexivity|]. split; [reflexivity|].
  apply (spd_inverse_rect _ _ _ E).
Qed.

Lemma add_value_to_diagonal_length (t t' : tensor) (c : R) :
  add_value_to_diagonal t c = Ok t' ->
  exists m m', t = T2 m /\ t' = T2 m' /\ length m' = length m.
Proof.
  unfold add_value_to_diagonal. destruct t as [x|v|m|b]; try discriminate.
  intros H. inversion H. eexists _, _. split; [reflexivity|].
  split; [reflexivity|]. apply (proj1 (mk_mat_rect _ _ _)).
Qed.

(** What [Kron.mvp] returns on a weight gradient alone with [use_inv]:
    [B_inv V A_inv] for the stored inverses. *)
Lemma Kron_mvp_weight_inv (h : heap) (self a b : loc) (ks : Kron)
      (dA dB : nat) (A B V : mat) (inplace : bool) :
  get_kron h self = Ok ks ->
  Kron_A_inv ks = Some a -> Kron_B_inv ks = Some b ->
  Kron__B_dim ks = Some dB
  \/ (Kron__B_dim ks = None
      /\ exists b0 B0, Kron_B ks = Some b0 /\ get_tensor h b0 = Ok (T2 B0)
                       /\ length B0 = dB) ->
  get_tensor h a = Ok (T2 A) -> get_tensor h b = Ok (T2 B) ->
  is_rect dA dA A -> is_rect dB dB B -> is_rect dB dA V ->
  (0 < dA)%nat -> (0 < dB)%nat ->
  exists h',
    Kron_mvp h self (T2 V) None true inplace
    = Ok (h', mkMvp (T2 (mm (mm B V) A)) None
                    (if inplace then T2 (mm (mm B V) A) else T2 V) None).
Proof.
  intros Ek EA EB Hdim Ea Eb HA HB HV PA PB.
  destruct ks as [kA kB kAi kBi kAd kBd]. simpl in EA, EB, Hdim. subst kAi kBi.
  pose proof (mm_rect HB HV PB) as HBV.
  pose proof (mm_rect HBV HA PA) as HBVA.
  assert (Hrest : forall h1,
             get_tensor h1 a = Ok (T2 A) -> get_tensor h1 b = Ok (T2 B) ->
             (vec2d <- view2 (T2 V) dB ;;
              vec2d <- Ok vec2d ;;
              lb <- deref (Some b) ;;
              MB <- get_tensor h1 lb ;;
              BV <- torch_mm MB (T2 vec2d) ;;
              la <- deref (Some a) ;;
              MA <- get_tensor h1 la ;;
              mvp2d <- torch_mm BV MA ;;
              mvp2d <- as_mat mvp2d ;;
              w <- view_as mvp2d (T2 V) ;;
              Ok (h1, if inplace then mkMvp w None w None
                      else mkMvp w None (T2 V) None))
             = Ok (h1, mkMvp (T2 (mm (mm B V) A)) None
                             (if inplace then T2 (mm (mm B V) A) else T2 V) None)).
  { intros h1 Ea1 Eb1.
    rewrite (view2_rect _ _ _ HV PB). cbn [bind deref].
    rewrite Eb1. cbn [bind torch_mm].
    rewrite (mm_okb_rect _ _ _ _ _ HB HV PB). cbn [bind].
    rewrite Ea1. cbn [bind torch_mm].
    rewrite (mm_okb_rect _ _ _ _ _ HBV HA PA). cbn [bind as_mat].
    rewrite (view_as_rect _ _ _ _ HBVA HV PB). cbn [bind].
    destruct inplace; reflexivity. }
  unfold Kron_mvp, Kron_B_dim. rewrite Ek.
  cbn [bind Kron__B_dim Kron_B Kron_A Kron_A_inv Kron_B_inv Kron__A_dim].
  destruct Hdim as [Hd|[Hd (b0 & B0 & E0 & Eb0 & L0)]]; rewrite Hd.
  - cbn [bind]. exists h. apply Hrest; assumption.
  - rewrite E0, Eb0. cbn [bind shape0 shape]. rewrite L0.
    cbn [bind]. eexists.
    apply (Hrest (store h self _)).
    + rewrite (get_tensor_store_kron _ _ _ _ _ Ek). exact Ea.
    + rewrite (get_tensor_store_kron _ _ _ _ _ Ek). exact Eb.
Qed.

Lemma get_tensor_valid (h : heap) (l : loc) (t : tensor) :
  get_tensor h l = Ok t -> (l < length h)%nat.
Proof.
  unfold get_tensor. destruct (nth_error h l) as [o|] eqn:E; [|discriminate].
  intros _. apply nth_error_Some. congruence.
Qed.

Lemma get_tensor_not_kron (h : heap) (l l' : loc) (t : tensor) (k : Kron) :
  get_tensor h l = Ok t -> get_kron h l' = Ok k -> l <> l'.
Proof.
  unfold get_tensor, get_kron. intros Ht Hk ->.
  destruct (nth_error h l') as [[]|]; discriminate.
Qed.

(** The store [Kron.update_inv] leaves behind, object by object. *)
Lemma Kron_update_inv_inv (h h' : heap) (self a b : loc) (ks : Kron)
      (A B : mat) (damping eps : R) :
  get_kron h self = Ok ks ->
  Kron_A ks = Some a -> Kron_B ks = Some b ->
  get_tensor h a = Ok (T2 A) -> get_tensor h b = Ok (T2 B) ->
  Kron_update_inv h self damping eps = Ok h' ->
  exists A_inv B_inv,
    is_rect (length A) (length A) A_inv
    /\ is_rect (length B) (length B) B_inv
    /\ get_tensor h' (length h) = Ok (T2 A_inv)
    /\ get_tensor h' (S (length h)) = Ok (T2 B_inv)
    /\ get_kron h' self
       = Ok (mkKron (Some a) (Some b) (Some (length h)) (Some (S (length h)))
                    (Kron__A_dim ks) (Kron__B_dim ks))
    /\ get_tensor h' a = Ok (T2 A) /\ get_tensor h' b = Ok (T2 B).
Proof.
  intros Ek EA EB Ea Eb H.
  pose proof (get_kron_valid _ _ _ Ek) as Hself.
  pose proof (get_tensor_valid _ _ _ Ea) as Ha.
  pose proof (get_tensor_valid _ _ _ Eb) as Hb.
  pose proof (get_tensor_not_kron _ _ _ _ _ Ea Ek) as Nas.
  pose proof (get_tensor_not_kron _ _ _ _ _ Eb Ek) as Nbs.
  unfold Kron_update_inv in H. rewrite Ek in H. cbn [bind] in H.
  rewrite EA, EB in H.
  apply bind_ok_inv in H as [? [_ H]]. cbn [deref bind] in H.
  rewrite Ea, Eb in H. cbn [bind] in H.
  do 4 (apply bind_ok_inv in H as [? [_ H]]).
  apply bind_ok_inv in H as [dA [EdA H]].
  apply bind_ok_inv in H as [tA [EtA H]].
  unfold alloc in H.
  apply bind_ok_inv in H as [dB [EdB H]].
  apply bind_ok_inv in H as [tB [EtB H]].
  inversion H as [E]; clear H.
  destruct (cholesky_inv_rect _ _ EtA) as (mA & A_inv & -> & -> & RA).
  destruct (cholesky_inv_rect _ _ EtB) as (mB & B_inv & -> & -> & RB).
  destruct (add_value_to_diagonal_length _ _ _ EdA) as (? & ? & E1 & E2 & LA).
  destruct (add_value_to_diagonal_length _ _ _ EdB) as (? & ? & E3 & E4 & LB).
  inversion E1; inversion E2; inversion E3; inversion E4; subst.
  rewrite LA in RA. rewrite LB in RB.
  rewrite !length_store, !length_app. cbn [length].
  replace (length h + 1)%nat with (S (length h)) by lia.
  exists A_inv, B_inv. split; [exact RA|]. split; [exact RB|].
  unfold get_tensor.
  repeat split.
  - rewrite nth_error_store_neq by lia.
    rewrite nth_error_app1 by (rewrite length_store, length_app; simpl; lia).
    rewrite nth_error_store_neq by lia.
    rewrite nth_error_app2, Nat.sub_diag by lia. reflexivity.
  - rewrite nth_error_store_neq by lia.
    rewrite nth_error_app2 by (rewrite length_store, length_app; simpl; lia).
    rewrite length_store, length_app. cbn [length].
    replace (S (length h) - (length h + 1))%nat with 0%nat by lia.
    reflexivity.
  - apply (get_kron_store_eq _ _ (mkKron (Some a) (Some b)
             (Some (length h)) (Kron_B_inv ks) (Kron__A_dim ks) (Kron__B_dim ks))).
    apply get_kron_ext.
    apply (get_kron_store_eq _ _ ks). apply get_kron_ext. exact Ek.
  - rewrite nth_error_store_neq by (intros E'; apply Nas; symmetry; exact E').
    rewrite nth_error_app1 by (rewrite length_store, length_app; simpl; lia).
    rewrite nth_error_store_neq by (intros E'; apply Nas; symmetry; exact E').
    rewrite nth_error_app1 by exact Ha. exact Ea.
  - rewrite nth_error_store_neq by (intros E'; apply Nbs; symmetry; exact E').
    rewrite nth_error_app1 by (rewrite length_store, length_app; simpl; lia).
    rewrite nth_error_store_neq by (intros E'; apply Nbs; symmetry; exact E').
    rewrite nth_error_app1 by exact Hb. exact Eb.
Qed.

(** X7.  After [Kron.update_inv] has returned, [Kron.mvp] with [use_inv] returns
    on every weight gradient [V] of the layer's shape, and its result is
    [B_inv V A_inv] for the two inverses [update_inv] stored. *)
Theorem Kron_update_inv_then_mvp (h h' : heap) (self a b : loc) (ks : Kron)
        (A B V : mat) (damping eps : R) (inplace : bool) :
  get_kron h self = Ok ks ->
  Kron_A ks = Some a -> Kron_B ks = Some b ->
  Kron__B_dim ks = None \/ Kron__B_dim ks = Some (length B) ->
  get_tensor h a = Ok (T2 A) -> get_tensor h b = Ok (T2 B) ->
  Kron_update_inv h self damping eps = Ok h' ->
  is_rect (length B) (length A) V ->
  (0 < length A)%nat -> (0 < length B)%nat ->
  exists A_inv B_inv h'',
    get_tensor h' (length h) = Ok (T2 A_inv)
    /\ get_tensor h' (S (length h)) = Ok (T2 B_inv)
    /\ Kron_mvp h' self (T2 V) None true inplace
       = Ok (h'', mkMvp (T2 (mm (mm B_inv V) A_inv)) None
                        (if inplace then T2 (mm (mm B_inv V) A_inv) else T2 V)
                        None).
Proof.
  intros Ek EA EB Hdim Ea Eb Hup HV PA PB.
  destruct (Kron_update_inv_inv _ _ _ _ _ _ _ _ _ _ Ek EA EB Ea Eb Hup)
    as (A_inv & B_inv & RA & RB & Ga & Gb & Gk & Ga' & Gb').
  destruct (Kron_mvp_weight_inv h' self (length h) (S (length h)) _
              (length A) (length B) A_inv B_inv V inplace Gk eq_refl eq_refl)
    as [h'' Hmvp]; try assumption.
  - cbn [Kron__B_dim Kron_B]. destruct Hdim as [Hd|Hd]; [right|left; exact Hd].
    split; [exact Hd|]. exists b, B. auto.
  - exists A_inv, B_inv, h''. auto.
Qed.

Lemma Kron_update_inv_then_mvp_witness :
  exists A_inv B_inv h'',
    get_tensor heap_layer_inv 3%nat = Ok (T2 A_inv)
    /\ get_tensor heap_layer_inv 4%nat = Ok (T2 B_inv)
    /\ Kron_mvp heap_layer_inv 2%nat (T2 (const_mat 3 4 1)) None true false
       = Ok (h'', mkMvp (T2 (mm (mm B_inv (const_mat 3 4 1)) A_inv)) None
                        (T2 (const_mat 3 4 1)) None).
Proof.
  apply (Kron_update_inv_then_mvp heap_layer heap_layer_inv 2%nat 0%nat 1%nat _
           (identity 4) (identity 3) (const_mat 3 4 1) 0.01 default_eps false
           eq_refl eq_refl eq_refl (or_introl eq_refl) eq_refl eq_refl
           Kron_update_inv_layer).
  - split; [reflexivity | repeat constructor].
  - simpl. lia.
  - simpl. lia.
Defined.

(* ================================================================== *)
(** * What the sums create, share and keep *)
(* ================================================================== *)

(** [h'] has every object of [h] unchanged, and possibly new ones after
    them. *)
Definition extends (h h' : heap) : Prop := exists e, h' = h ++ e.

Lemma extends_refl (h : heap) : extends h h.
Proof. exists []. symmetry. apply app_nil_r. Qed.

Lemma extends_trans (h1 h2 h3 : heap) :
  extends h1 h2 -> extends h2 h3 -> extends h1 h3.
Proof. intros [e1 ->] [e2 ->]. exists (e1 ++ e2). symmetry. apply app_assoc. Qed.

Lemma extends_alloc (h : heap) (o : obj) : extends h (fst (alloc h o)).
Proof. exists [o]. reflexivity. Qed.

Lemma extends_length (h h' : heap) : extends h h' -> (length h <= length h')%nat.
Proof. intros [e ->]. rewrite length_app. lia. Qed.

Lemma tensor_add_new_extends (h : heap) (a b : loc) (h' : heap) (r : loc) :
  tensor_add_new h a b = Ok (h', r) -> extends h h'.
Proof.
  intros H. apply tensor_add_new_inv in H as (ta & tb & _ & _ & _ & -> & _).
  eexists. reflexivity.
Qed.

Lemma opt_combine_inv (add : heap -> loc -> loc -> result (heap * loc))
      (h h' : heap) (s o r : option loc) :
  (forall h s o h' r, add h s o = Ok (h', r) -> extends h h') ->
  opt_combine add h s o = Ok (h', r) ->
  extends h h' /\ (o = None -> r = s) /\ (s = None -> r = o).
Proof.
  intros Hadd H. destruct o as [o|]; [destruct s as [s|]|]; simpl in H.
  - apply bind_ok_inv in H as [[h1 r1] [E H]]. inversion H; subst; clear H.
    split; [exact (Hadd _ _ _ _ _ E)|]. split; discriminate.
  - inversion H; subst. split; [apply extends_refl|]. split; [discriminate|auto].
  - inversion H; subst. split; [apply extends_refl|]. split; [auto|].
    intros ->. reflexivity.
Qed.

Lemma Kron_add_extends (h : heap) (self other : loc) (h' : heap) (r : loc) :
  Kron_add h self other = Ok (h', r) -> extends h h'.
Proof.
  intros H. apply Kron_add_inv in H as [(ko & _ & _ & -> & _)|H].
  - apply extends_refl.
  - destruct H as (ko & ks & e & A & B & _ & _ & _ & -> & _).
    eexists. rewrite <- app_assoc. reflexivity.
Qed.

Lemma Diag_add_extends (h : heap) (self other : loc) (h' : heap) (r : loc) :
  Diag_add h self other = Ok (h', r) -> extends h h'.
Proof.
  unfold Diag_add. intros H.
  apply bind_ok_inv in H as [dt [_ H]]. apply bind_ok_inv in H as [ds [_ H]].
  apply bind_ok_inv in H as [[h1 w] [E1 H]].
  apply bind_ok_inv in H as [[h2 b] [E2 H]].
  unfold opt_add_new in E1, E2.
  apply (opt_combine_inv _ _ _ _ _ _ tensor_add_new_extends) in E1 as [X1 _].
  apply (opt_combine_inv _ _ _ _ _ _ tensor_add_new_extends) in E2 as [X2 _].
  inversion H; subst; clear H.
  apply (extends_trans _ _ _ X1), (extends_trans _ _ _ X2).
  eexists. reflexivity.
Qed.

Lemma UnitWise_add_extends (h : heap) (self other : loc) (h' : heap) (r : loc) :
  UnitWise_add h self other = Ok (h', r) -> extends h h'.
Proof.
  unfold UnitWise_add. intros H.
  apply bind_ok_inv in H as [uo [_ H]].
  destruct (UnitWise_data uo) as [od|];
    [|inversion H; subst; apply extends_refl].
  apply bind_ok_inv in H as [us [_ H]].
  destruct (UnitWise_data us) as [sd|].
  - apply bind_ok_inv in H as [[h1 d] [E1 H]]. inversion H; subst; clear H.
    apply (extends_trans _ _ _ (tensor_add_new_extends _ _ _ _ _ E1)).
    eexists. reflexivity.
  - inversion H; subst. eexists. reflexivity.
Qed.

(** X8.  [SymMatrix.__add__] never modifies an existing object.  Its result is
    a new [SymMatrix] whose [inv] is [None].  The result is not a deep
    copy: a representation that one operand lacks is the other operand's
    own object in the result, so an in-place change of the result changes
    that operand as well. *)
Theorem SymMatrix_add_creates_and_shares (h h' : heap) (x y r : loc)
        (sx sy : SymMatrix) :
  get_sym h x = Ok sx -> get_sym h y = Ok sy ->
  SymMatrix_add h x y = Ok (h', r) ->
  extends h h' /\ (length h <= r)%nat
  /\ exists s,
       get_sym h' r = Ok s /\ SymMatrix_inv s = None
       /\ (SymMatrix_data sy = None -> SymMatrix_data s = SymMatrix_data sx)
       /\ (SymMatrix_data sx = None -> SymMatrix_data s = SymMatrix_data sy)
       /\ (SymMatrix_kron sy = None -> SymMatrix_kron s = SymMatrix_kron sx)
       /\ (SymMatrix_kron sx = None -> SymMatrix_kron s = SymMatrix_kron sy)
       /\ (SymMatrix_diag sy = None -> SymMatrix_diag s = SymMatrix_diag sx)
       /\ (SymMatrix_diag sx = None -> SymMatrix_diag s = SymMatrix_diag sy)
       /\ (SymMatrix_unit sy = None -> SymMatrix_unit s = SymMatrix_unit sx)
       /\ (SymMatrix_unit sx = None -> SymMatrix_unit s = SymMatrix_unit sy).
Proof.
  intros Ex Ey H. unfold SymMatrix_add in H. rewrite Ex, Ey in H.
  cbn [bind] in H.
  apply bind_ok_inv in H as [[h1 d] [E1 H]].
  apply bind_ok_inv in H as [[h2 k] [E2 H]].
  apply bind_ok_inv in H as [[h3 g] [E3 H]].
  apply bind_ok_inv in H as [[h4 u] [E4 H]].
  apply (opt_combine_inv _ _ _ _ _ _ tensor_add_new_extends) in E1 as (X1 & D1 & D2).
  apply (opt_combine_inv _ _ _ _ _ _ Kron_add_extends) in E2 as (X2 & K1 & K2).
  apply (opt_combine_inv _ _ _ _ _ _ Diag_add_extends) in E3 as (X3 & G1 & G2).
  apply (opt_combine_inv _ _ _ _ _ _ UnitWise_add_extends) in E4 as (X4 & U1 & U2).
  unfold SymMatrix_init in H. cbn [is_some orb alloc] in H.
  inversion H; subst h' r; clear H.
  assert (X : extends h h4)
    by (eauto using extends_trans).
  split; [apply (extends_trans _ _ _ X); eexists; reflexivity|].
  split; [apply extends_length, X|].
  exists (mkSymMatrix d k g u None).
  split.
  { unfold get_sym. rewrite nth_error_app2, Nat.sub_diag by lia. reflexivity. }
  cbn [SymMatrix_inv SymMatrix_data SymMatrix_kron SymMatrix_diag SymMatrix_unit].
  repeat split; assumption.
Qed.

Lemma SymMatrix_add_creates_and_shares_witness :
  exists h' r s,
    SymMatrix_add [OTensor (T1 [1]); OSym (mkSymMatrix (Some 0%nat) None None None (Some 0%nat));
                   OSym (mkSymMatrix None None None None None)] 1%nat 2%nat
    = Ok (h', r)
    /\ get_sym h' r = Ok s /\ SymMatrix_inv s = None
    /\ SymMatrix_data s = Some 0%nat.
Proof.
  eexists _, _.
  destruct (SymMatrix_add_creates_and_shares
              [OTensor (T1 [1]);
               OSym (mkSymMatrix (Some 0%nat) None None None (Some 0%nat));
               OSym (mkSymMatrix None None None None None)]
              _ 1%nat 2%nat _ _ _ eq_refl eq_refl eq_refl)
    as (_ & _ & s & Hs & Hinv & Hd & _).
  exists s. split; [reflexivity|]. split; [exact Hs|]. split; [exact Hinv|].
  apply Hd. reflexivity.
Defined.

(** Two states of one object that agree on what the in-place operations
    are meant to keep: the class, the cached inverses and the cached
    dimensions. *)
Definition same_inv (o o' : obj) : Prop :=
  match o, o' with
  | OTensor _, OTensor _ => True
  | OKron k, OKron k' =>
      Kron_A_inv k = Kron_A_inv k' /\ Kron_B_inv k = Kron_B_inv k'
      /\ Kron__A_dim k = Kron__A_dim k' /\ Kron__B_dim k = Kron__B_dim k'
  | ODiag d, ODiag d' =>
      Diag_weight_inv d = Diag_weight_inv d' /\ Diag_bias_inv d = Diag_bias_inv d'
  | OUnit u, OUnit u' => UnitWise_inv u = UnitWise_inv u'
  | OSym s, OSym s' => SymMatrix_inv s = SymMatrix_inv s'
  | _, _ => False
  end.

(** No object is created, and every object keeps its class and its cached
    inverses. *)
Definition keeps_inv (h h' : heap) : Prop :=
  length h' = length h
  /\ forall l o, nth_error h l = Some o ->
       exists o', nth_error h' l = Some o' /\ same_inv o o'.

Lemma same_inv_refl (o : obj) : same_inv o o.
Proof. destruct o; simpl; auto. Qed.

Lemma same_inv_trans (o1 o2 o3 : obj) :
  same_inv o1 o2 -> same_inv o2 o3 -> same_inv o1 o3.
Proof.
  destruct o1, o2, o3; simpl; try tauto; try congruence.
  - intros (? & ? & ? & ?) (? & ? & ? & ?). repeat split; congruence.
  - intros (? & ?) (? & ?). split; congruence.
Qed.

Lemma keeps_inv_refl (h : heap) : keeps_inv h h.
Proof. split; [reflexivity|]. intros l o H. exists o. split; [exact H | apply same_inv_refl]. Qed.

Lemma keeps_inv_trans (h1 h2 h3 : heap) :
  keeps_inv h1 h2 -> keeps_inv h2 h3 -> keeps_inv h1 h3.
Proof.
  intros [L1 K1] [L2 K2]. split; [congruence|].
  intros l o H. destruct (K1 _ _ H) as (o2 & H2 & S2).
  destruct (K2 _ _ H2) as (o3 & H3 & S3).
  exists o3. split; [exact H3 | exact (same_inv_trans _ _ _ S2 S3)].
Qed.

Lemma keeps_inv_store (h : heap) (l : loc) (o o' : obj) :
  nth_error h l = Some o -> same_inv o o' -> keeps_inv h (store h l o').
Proof.
  intros Hl Hs. split; [apply length_store|].
  intros l' o1 H1. destruct (Nat.eq_dec l l') as [<-|Hne].
  - exists o'. unfold store. rewrite nth_error_set_nth_eq, Hl.
    split; [reflexivity|]. congruence.
  - exists o1. rewrite nth_error_store_neq by exact Hne.
    split; [exact H1 | apply same_inv_refl].
Qed.

Lemma get_tensor_nth (h : heap) (l : loc) (t : tensor) :
  get_tensor h l = Ok t -> nth_error h l = Some (OTensor t).
Proof.
  unfold get_tensor. destruct (nth_error h l) as [[]|]; intros H;
    inversion H; reflexivity.
Qed.

Lemma get_kron_nth (h : heap) (l : loc) (k : Kron) :
  get_kron h l = Ok k -> nth_error h l = Some (OKron k).
Proof.
  unfold get_kron. destruct (nth_error h l) as [[]|]; intros H;
    inversion H; reflexivity.
Qed.

Lemma get_diag_nth (h : heap) (l : loc) (d : Diag) :
  get_diag h l = Ok d -> nth_error h l = Some (ODiag d).
Proof.
  unfold get_diag. destruct (nth_error h l) as [[]|]; intros H;
    inversion H; reflexivity.
Qed.

Lemma get_unit_nth (h : heap) (l : loc) (u : UnitWise) :
  get_unit h l = Ok u -> nth_error h l = Some (OUnit u).
Proof.
  unfold get_unit. destruct (nth_error h l) as [[]|]; intros H;
    inversion H; reflexivity.
Qed.

Lemma get_sym_nth (h : heap) (l : loc) (s : SymMatrix) :
  get_sym h l = Ok s -> nth_error h l = Some (OSym s).
Proof.
  unfold get_sym. destruct (nth_error h l) as [[]|]; intros H;
    inversion H; reflexivity.
Qed.

Lemma tensor_add__keeps (h : heap) (a b : loc) (h' : heap) :
  tensor_add_ h a b = Ok h' -> keeps_inv h h'.
Proof.
  unfold tensor_add_. intros H.
  apply bind_ok_inv in H as [ta [Ea H]]. apply bind_ok_inv in H as [tb [_ H]].
  apply bind_ok_inv in H as [t [_ H]]. inversion H; subst.
  apply (keeps_inv_store _ _ _ _ (get_tensor_nth _ _ _ Ea)). exact I.
Qed.

Lemma tensor_mul__keeps (h : heap) (a : loc) (c : R) (h' : heap) :
  tensor_mul_ h a c = Ok h' -> keeps_inv h h'.
Proof.
  unfold tensor_mul_. intros H.
  apply bind_ok_inv in H as [ta [Ea H]]. inversion H; subst.
  apply (keeps_inv_store _ _ _ _ (get_tensor_nth _ _ _ Ea)). exact I.
Qed.

Lemma Kron_iadd_keeps (h : heap) (self other : loc) (h' : heap) :
  Kron_iadd h self other = Ok h' -> keeps_inv h h'.
Proof.
  unfold Kron_iadd. intros H.
  apply bind_ok_inv in H as [ko [_ H]].
  destruct (negb (Kron_has_data ko)); [inversion H; apply keeps_inv_refl|].
  apply bind_ok_inv in H as [ks [Es H]].
  destruct (Kron_has_data ks).
  - apply bind_ok_inv in H as [sa [_ H]]. apply bind_ok_inv in H as [oa [_ H]].
    apply bind_ok_inv in H as [h1 [E1 H]].
    apply bind_ok_inv in H as [sb [_ H]]. apply bind_ok_inv in H as [ob [_ H]].
    exact (keeps_inv_trans _ _ _ (tensor_add__keeps _ _ _ _ E1)
                           (tensor_add__keeps _ _ _ _ H)).
  - inversion H; subst.
    apply (keeps_inv_store _ _ _ _ (get_kron_nth _ _ _ Es)). simpl. auto.
Qed.

Lemma Kron_mul__keeps (h : heap) (self : loc) (c : R) (h' : heap) :
  Kron_mul_ h self c = Ok h' -> keeps_inv h h'.
Proof.
  unfold Kron_mul_. intros H.
  apply bind_ok_inv in H as [ks [_ H]]. apply bind_ok_inv in H as [a [_ H]].
  apply bind_ok_inv in H as [h1 [E1 H]]. apply bind_ok_inv in H as [b [_ H]].
  exact (keeps_inv_trans _ _ _ (tensor_mul__keeps _ _ _ _ E1)
                         (tensor_mul__keeps _ _ _ _ H)).
Qed.

Lemma Diag_iadd_keeps (h : heap) (self other : loc) (h' : heap) :
  Diag_iadd h self other = Ok h' -> keeps_inv h h'.
Proof.
  unfold Diag_iadd. intros H.
  apply bind_ok_inv in H as [dt [_ H]].
  apply bind_ok_inv in H as [h1 [E1 H]].
  apply bind_ok_inv in H as [dt1 [_ H]].
  assert (K1 : keeps_inv h h1).
  { destruct (Diag_weight dt) as [ow|]; [|inversion E1; apply keeps_inv_refl].
    apply bind_ok_inv in E1 as [ds [Es E1]].
    destruct (Diag_weight ds) as [sw|].
    - exact (tensor_add__keeps _ _ _ _ E1).
    - inversion E1; subst.
      apply (keeps_inv_store _ _ _ _ (get_diag_nth _ _ _ Es)). simpl. auto. }
  apply (keeps_inv_trans _ _ _ K1).
  destruct (Diag_bias dt1) as [ob|]; [|inversion H; apply keeps_inv_refl].
  apply bind_ok_inv in H as [ds [Es H]].
  destruct (Diag_bias ds) as [sb|].
  - exact (tensor_add__keeps _ _ _ _ H).
  - inversion H; subst.
    apply (keeps_inv_store _ _ _ _ (get_diag_nth _ _ _ Es)). simpl. auto.
Qed.

Lemma Diag_mul__keeps (h : heap) (self : loc) (c : R) (h' : heap) :
  Diag_mul_ h self c = Ok h' -> keeps_inv h h'.
Proof.
  unfold Diag_mul_. intros H.
  apply bind_ok_inv in H as [ds [_ H]].
  apply bind_ok_inv in H as [h1 [E1 H]].
  apply bind_ok_inv in H as [ds1 [_ H]].
  assert (K1 : keeps_inv h h1).
  { destruct (Diag_weight ds) as [w|]; [|inversion E1; apply keeps_inv_refl].
    exact (tensor_mul__keeps _ _ _ _ E1). }
  apply (keeps_inv_trans _ _ _ K1).
  destruct (Diag_bias ds1) as [b|]; [|inversion H; apply keeps_inv_refl].
  exact (tensor_mul__keeps _ _ _ _ H).
Qed.

Lemma UnitWise_iadd_keeps (h : heap) (self other : loc) (h' : heap) :
  UnitWise_iadd h self other = Ok h' -> keeps_inv h h'.
Proof.
  unfold UnitWise_iadd. intros H.
  apply bind_ok_inv in H as [uo [_ H]].
  destruct (UnitWise_data uo) as [od|]; [|inversion H; apply keeps_inv_refl].
  apply bind_ok_inv in H as [us [Es H]].
  destruct (UnitWise_data us) as [sd|].
  - exact (tensor_add__keeps _ _ _ _ H).
  - inversion H; subst.
    apply (keeps_inv_store _ _ _ _ (get_unit_nth _ _ _ Es)). simpl. auto.
Qed.

Lemma UnitWise_mul__keeps (h : heap) (self : loc) (c : R) (h' : heap) :
  UnitWise_mul_ h self c = Ok h' -> keeps_inv h h'.
Proof.
  unfold UnitWise_mul_. intros H.
  apply bind_ok_inv in H as [us [_ H]].
  destruct (UnitWise_data us) as [d|]; [|inversion H; apply keeps_inv_refl].
  exact (tensor_mul__keeps _ _ _ _ H).
Qed.

Lemma sym_iadd_attr_keeps (get : SymMatrix -> option loc)
      (set : SymMatrix -> loc -> SymMatrix)
      (iadd : heap -> loc -> loc -> result heap)
      (h : heap) (self other : loc) (h' : heap) :
  (forall s v, SymMatrix_inv (set s v) = SymMatrix_inv s) ->
  (forall h a b h', iadd h a b = Ok h' -> keeps_inv h h') ->
  sym_iadd_attr get set iadd h self other = Ok h' -> keeps_inv h h'.
Proof.
  intros Hset Hiadd H. unfold sym_iadd_attr in H.
  apply bind_ok_inv in H as [ss [Es H]]. apply bind_ok_inv in H as [so [_ H]].
  destruct (get so) as [ov|]; [|inversion H; apply keeps_inv_refl].
  destruct (get ss) as [sv|].
  - exact (Hiadd _ _ _ _ H).
  - inversion H; subst.
    apply (keeps_inv_store _ _ _ _ (get_sym_nth _ _ _ Es)). simpl.
    symmetry. apply Hset.
Qed.

Lemma sym_mul_attr_keeps (get : SymMatrix -> option loc)
      (mul : heap -> loc -> R -> result heap)
      (h : heap) (self : loc) (c : R) (h' : heap) :
  (forall h a c h', mul h a c = Ok h' -> keeps_inv h h') ->
  sym_mul_attr get mul h self c = Ok h' -> keeps_inv h h'.
Proof.
  intros Hmul H. unfold sym_mul_attr in H.
  apply bind_ok_inv in H as [ss [_ H]].
  destruct (get ss) as [v|]; [|inversion H; apply keeps_inv_refl].
  exact (Hmul _ _ _ _ H).
Qed.

Lemma SymMatrix_iadd_keeps (h : heap) (self other : loc) (h' : heap) :
  SymMatrix_iadd h self other = Ok h' -> keeps_inv h h'.
Proof.
  unfold SymMatrix_iadd. intros H.
  apply bind_ok_inv in H as [h1 [E1 H]].
  apply bind_ok_inv in H as [h2 [E2 H]].
  apply bind_ok_inv in H as [h3 [E3 H]].
  apply sym_iadd_attr_keeps in E1; [|reflexivity | exact tensor_add__keeps].
  apply sym_iadd_attr_keeps in E2; [|reflexivity | exact Kron_iadd_keeps].
  apply sym_iadd_attr_keeps in E3; [|reflexivity | exact Diag_iadd_keeps].
  apply sym_iadd_attr_keeps in H; [|reflexivity | exact UnitWise_iadd_keeps].
  eauto using keeps_inv_trans.
Qed.

Lemma SymMatrix_mul__keeps (h : heap) (self : loc) (c : R) (h' : heap) :
  SymMatrix_mul_ h self c = Ok h' -> keeps_inv h h'.
Proof.
  unfold SymMatrix_mul_. intros H.
  apply bind_ok_inv in H as [h1 [E1 H]].
  apply bind_ok_inv in H as [h2 [E2 H]].
  apply bind_ok_inv in H as [h3 [E3 H]].
  apply sym_mul_attr_keeps in E1; [|exact tensor_mul__keeps].
  apply sym_mul_attr_keeps in E2; [|exact Kron_mul__keeps].
  apply sym_mul_attr_keeps in E3; [|exact Diag_mul__keeps].
  apply sym_mul_attr_keeps in H; [|exact UnitWise_mul__keeps].
  eauto using keeps_inv_trans.
Qed.

(** X9.  [SymMatrix.__iadd__] and [SymMatrix.mul_] create no object and leave
    every object of the store in its class with its cached inverses: the
    [inv] of every [SymMatrix] and [UnitWise], [A_inv] and [B_inv] of every
    [Kron], [weight_inv] and [bias_inv] of every [Diag] refer to the same
    tensors as before.  (They are not recomputed: after the sum they are
    the inverses of the old contents.) *)
Theorem SymMatrix_inplace_keeps_inv (h h' : heap) (self other : loc) (c : R) :
  (SymMatrix_iadd h self other = Ok h' -> keeps_inv h h')
  /\ (SymMatrix_mul_ h self c = Ok h' -> keeps_inv h h').
Proof.
  split; [apply SymMatrix_iadd_keeps | apply SymMatrix_mul__keeps].
Qed.

(** A matrix with a cached inverse (location 2) and a second one to be
    added to it (location 4). *)
Definition heap_acc : heap :=
  [ OTensor (T2 [[1]]); OTensor (T2 [[5]]);
    OSym (mkSymMatrix (Some 0%nat) None None None (Some 1%nat));
    OTensor (T2 [[2]]);
    OSym (mkSymMatrix (Some 3%nat) None None None None) ].

Lemma SymMatrix_inplace_keeps_inv_witness :
  keeps_inv heap_acc
    [ OTensor (T2 [[1 + 2]]); OTensor (T2 [[5]]);
      OSym (mkSymMatrix (Some 0%nat) None None None (Some 1%nat));
      OTensor (T2 [[2]]);
      OSym (mkSymMatrix (Some 3%nat) None None None None) ].
Proof.
  apply (proj1 (SymMatrix_inplace_keeps_inv heap_acc _ 2%nat 4%nat 0)).
  reflexivity.
Defined.

(* ================================================================== *)
(** * Accumulation of curvature matrices *)
(* ================================================================== *)

(** [FisherMaker._accumulate_fisher(module, new_fisher, scale)] of
    fisher.py, for a [SymMatrix] ([fvp] false).  [dst] is the module's
    attribute [fisher_attr] before the call ([getattr(module, dst_attr,
    None)]); the second component of the result is the attribute after
    it. *)
Definition _accumulate_fisher (h : heap) (dst new_fisher : option loc) (scale : R)
  : result (heap * option loc) :=
  match new_fisher with
  | None => Ok (h, dst)
  | Some nf =>
      h1 <- (if Reqb scale 1 then Ok h else SymMatrix_mul_ h nf scale) ;;
      match dst with
      | None => Ok (h1, Some nf)
      | Some d => h2 <- SymMatrix_iadd h1 d nf ;; Ok (h2, Some d)
      end
  end.

(** X10.  [_accumulate_fisher] does nothing without a new matrix.  The first
    matrix accumulated becomes the module's matrix itself, not a copy.
    A module that has a matrix keeps that very object, and with it the
    cached inverses of every object: accumulation is in place. *)
Theorem _accumulate_fisher_in_place (h : heap) (dst new_fisher : option loc)
        (scale : R) :
  (new_fisher = None -> _accumulate_fisher h dst new_fisher scale = Ok (h, dst))
  /\ (forall h' r, _accumulate_fisher h dst new_fisher scale = Ok (h', r) ->
        keeps_inv h h'
        /\ (dst = None -> r = new_fisher)
        /\ (forall d, dst = Some d -> r = Some d)).
Proof.
  split; [intros ->; reflexivity|].
  intros h' r H. unfold _accumulate_fisher in H.
  destruct new_fisher as [nf|].
  - apply bind_ok_inv in H as [h1 [E1 H]].
    assert (K1 : keeps_inv h h1).
    { destruct (Reqb scale 1); [inversion E1; apply keeps_inv_refl|].
      exact (SymMatrix_mul__keeps _ _ _ _ E1). }
    destruct dst as [d|].
    + apply bind_ok_inv in H as [h2 [E2 H]]. inversion H; subst; clear H.
      split; [exact (keeps_inv_trans _ _ _ K1 (SymMatrix_iadd_keeps _ _ _ _ E2))|].
      split; [discriminate|]. intros d' E; exact E.
    + inversion H; subst; clear H.
      split; [exact K1|]. split; [reflexivity | discriminate].
  - inversion H; subst; clear H.
    split; [apply keeps_inv_refl|]. split; [intros ->; reflexivity|].
    intros d E; exact E.
Qed.

Lemma _accumulate_fisher_in_place_witness :
  exists h',
    _accumulate_fisher heap_acc (Some 2%nat) (Some 4%nat) 1
    = Ok (h', Some 2%nat)
    /\ keeps_inv heap_acc h'.
Proof.
  eexists. split; [unfold _accumulate_fisher; rewrite Reqb_refl; reflexivity|].
  apply (proj2 (_accumulate_fisher_in_place heap_acc (Some 2%nat) (Some 4%nat) 1)
           _ (Some 2%nat)).
  unfold _accumulate_fisher. rewrite Reqb_refl. reflexivity.
Defined.

(* ================================================================== *)
(** * How the damping is split between the two factors *)
(* ================================================================== *)

(** The damping each factor receives in [Kron.update_inv]:
    [max(r * pi, eps)] for [A] and [max(r / pi, eps)] for [B], with
    [r = damping**0.5] and [pi] the square root of the ratio of the mean
    diagonal entries. *)
Lemma Kron_update_inv_steps (h h' : heap) (self a b : loc) (ks : Kron)
      (A B : mat) (damping eps : R) :
  get_kron h self = Ok ks ->
  Kron_A ks = Some a -> Kron_B ks = Some b ->
  get_tensor h a = Ok (T2 A) -> get_tensor h b = Ok (T2 B) ->
  Kron_update_inv h self damping eps = Ok h' ->
  let pi := sqrt (vsum (diag_of_mat A) / INR (length A)
                  / (vsum (diag_of_mat B) / INR (length B))) in
  exists tA tB A_inv B_inv,
    add_value_to_diagonal (T2 A) (py_max (sqrt damping * pi) eps) = Ok tA
    /\ cholesky_inv tA = Ok A_inv
    /\ add_value_to_diagonal (T2 B) (py_max (sqrt damping / pi) eps) = Ok tB
    /\ cholesky_inv tB = Ok B_inv
    /\ get_tensor h' (length h) = Ok A_inv
    /\ get_tensor h' (S (length h)) = Ok B_inv.
Proof.
  intros Ek EA EB Ea Eb H pi.
  pose proof (get_kron_valid _ _ _ Ek) as Hself.
  unfold Kron_update_inv in H. rewrite Ek in H. cbn [bind] in H.
  rewrite EA, EB in H.
  apply bind_ok_inv in H as [? [_ H]]. cbn [deref bind] in H.
  rewrite Ea, Eb in H. cbn [bind torch_trace shape0 shape] in H.
  fold pi in H.
  apply bind_ok_inv in H as [tA [EdA H]].
  apply bind_ok_inv in H as [A_inv [EtA H]].
  unfold alloc in H.
  apply bind_ok_inv in H as [tB [EdB H]].
  apply bind_ok_inv in H as [B_inv [EtB H]].
  injection H as <-.
  exists tA, tB, A_inv, B_inv.
  repeat (split; [assumption|]).
  unfold get_tensor. split.
  - rewrite nth_error_store_neq by lia.
    rewrite nth_error_app1 by (rewrite length_store, length_app; simpl; lia).
    rewrite nth_error_store_neq by lia.
    rewrite nth_error_app2, Nat.sub_diag by lia. reflexivity.
  - rewrite nth_error_store_neq by lia.
    rewrite nth_error_app2 by (rewrite length_store, length_app; simpl; lia).
    rewrite length_store, length_app. cbn [length].
    replace (S (length h) - (length h + 1))%nat with 0%nat by lia.
    reflexivity.
Qed.

Lemma py_max_ge_r (a b : R) : b <= py_max a b.
Proof.
  unfold py_max, Rltb. destruct (Rlt_dec a b); lra.
Qed.

Lemma py_max_cases (a b : R) : py_max a b = b \/ (py_max a b = a /\ b <= a).
Proof.
  unfold py_max, Rltb. destruct (Rlt_dec a b); [left; reflexivity | right; lra].
Qed.

(** X11.  [Kron.update_inv] inverts [A + dA I] and [B + dB I].  Neither damping
    is below [eps]; and for factors with positive traces and a
    non-negative [damping], unless one of the two was raised to [eps],
    their product is the requested [damping]. *)
Theorem Kron_update_inv_damping_split (h h' : heap) (self a b : loc)
        (ks : Kron) (A B : mat) (damping eps : R) :
  get_kron h self = Ok ks ->
  Kron_A ks = Some a -> Kron_B ks = Some b ->
  get_tensor h a = Ok (T2 A) -> get_tensor h b = Ok (T2 B) ->
  Kron_update_inv h self damping eps = Ok h' ->
  0 <= damping ->
  0 < vsum (diag_of_mat A) -> 0 < vsum (diag_of_mat B) ->
  (0 < length A)%nat -> (0 < length B)%nat ->
  exists dA dB tA tB,
    eps <= dA /\ eps <= dB
    /\ (dA = eps \/ dB = eps \/ dA * dB = damping)
    /\ add_value_to_diagonal (T2 A) dA = Ok tA
    /\ cholesky_inv tA = get_tensor h' (length h)
    /\ add_value_to_diagonal (T2 B) dB = Ok tB
    /\ cholesky_inv tB = get_tensor h' (S (length h)).
Proof.
  intros Ek EA EB Ea Eb H Hd HtA HtB HlA HlB.
  destruct (Kron_update_inv_steps _ _ _ _ _ _ _ _ _ _ Ek EA EB Ea Eb H)
    as (tA & tB & A_inv & B_inv & E1 & E2 & E3 & E4 & E5 & E6).
  set (pi := sqrt (vsum (diag_of_mat A) / INR (length A)
                   / (vsum (diag_of_mat B) / INR (length B)))) in *.
  assert (Hpi : 0 < pi).
  { apply sqrt_lt_R0.
    assert (0 < INR (length A)) by (apply lt_0_INR; exact HlA).
    assert (0 < INR (length B)) by (apply lt_0_INR; exact HlB).
    apply Rdiv_lt_0_compat; apply Rdiv_lt_0_compat; assumption. }
  exists (py_max (sqrt damping * pi) eps), (py_max (sqrt damping / pi) eps), tA, tB.
  split; [apply py_max_ge_r|]. split; [apply py_max_ge_r|].
  split.
  - destruct (py_max_cases (sqrt damping * pi) eps) as [->|[-> _]];
      [left; reflexivity|].
    destruct (py_max_cases (sqrt damping / pi) eps) as [->|[-> _]];
      [right; left; reflexivity|].
    right; right.
    replace (sqrt damping * pi * (sqrt damping / pi))
      with (sqrt damping * sqrt damping) by (field; lra).
    apply sqrt_sqrt. exact Hd.
  - rewrite E2, E4, E5, E6. auto.
Qed.

Lemma Kron_update_inv_damping_split_witness :
  exists dA dB tA tB,
    default_eps <= dA /\ default_eps <= dB
    /\ (dA = default_eps \/ dB = default_eps \/ dA * dB = 0.01)
    /\ add_value_to_diagonal (T2 (identity 4)) dA = Ok tA
    /\ cholesky_inv tA = get_tensor heap_layer_inv 3%nat
    /\ add_value_to_diagonal (T2 (identity 3)) dB = Ok tB
    /\ cholesky_inv tB = get_tensor heap_layer_inv 4%nat.
Proof.
  apply (Kron_update_inv_damping_split heap_layer heap_layer_inv 2%nat 0%nat 1%nat
           _ (identity 4) (identity 3) 0.01 default_eps
           eq_refl eq_refl eq_refl eq_refl eq_refl Kron_update_inv_layer).
  - lra.
  - cbv. lra.
  - cbv. lra.
  - simpl. lia.
  - simpl. lia.
Defined.

(** The exceptions of Python's [math] module and of float division. *)
Inductive math_error : Type := ValueError | ZeroDivisionError.

(** [math.sqrt(x)]: a [ValueError] on a negative number. *)
Definition math_sqrt (x : R) : math_error + R :=
  if Rltb x 0 then inl ValueError else inr (sqrt x).

(** [KronBfgsGradientMaker._get_damping(cxt, module, is_A)].  [damping] is
    [config.damping], [is_conv] is [isinstance(module, nn.Conv2d)] and
    [spatial_size] is [cxt.out_spatial_size(module)]. *)
Definition _get_damping (damping : R) (is_conv : bool) (spatial_size : R)
           (is_A : bool) : math_error + R :=
  match math_sqrt damping with
  | inl e => inl e
  | inr sqrt_damping =>
      if is_conv then
        match math_sqrt spatial_size with
        | inl e => inl e
        | inr sqrt_spatial_size =>
            if is_A then inr (sqrt_damping * sqrt_spatial_size)
            else if Reqb sqrt_spatial_size 0 then inl ZeroDivisionError
                 else inr (sqrt_damping / sqrt_spatial_size)
        end
      else inr sqrt_damping
  end.

(** X12.  [_get_damping] splits [config.damping] between the two factors of a
    layer: for a non-negative damping (and, for a convolution, a positive
    spatial size) the value for [A] times the value for [B] is the
    damping.  A negative damping is refused for every module; a
    convolution of spatial size zero gets the damping 0 for [A] and a
    division by zero for [B]. *)
Theorem _get_damping_product (damping spatial_size : R) (is_conv : bool) :
  (0 <= damping -> (is_conv = true -> 0 < spatial_size) ->
   exists dA dB,
     _get_damping damping is_conv spatial_size true = inr dA
     /\ _get_damping damping is_conv spatial_size false = inr dB
     /\ 0 <= dA /\ 0 <= dB /\ dA * dB = damping)
  /\ (damping < 0 ->
      forall is_A, _get_damping damping is_conv spatial_size is_A = inl ValueError)
  /\ (0 <= damping ->
      _get_damping damping true 0 true = inr 0
      /\ _get_damping damping true 0 false = inl ZeroDivisionError).
Proof.
  split; [|split].
  - intros Hd Hs. unfold _get_damping, math_sqrt.
    replace (Rltb damping 0) with false by (symmetry; apply Rltb_false; lra).
    pose proof (sqrt_pos damping) as P. pose proof (sqrt_sqrt _ Hd) as Q.
    destruct is_conv.
    + specialize (Hs eq_refl).
      replace (Rltb spatial_size 0) with false
        by (symmetry; apply Rltb_false; lra).
      pose proof (sqrt_lt_R0 _ Hs) as Ps.
      unfold Reqb. destruct (Req_dec_T (sqrt spatial_size) 0) as [E|_]; [lra|].
      do 2 eexists. split; [reflexivity|]. split; [reflexivity|].
      split; [nra|]. split.
      * apply Rmult_le_pos; [exact P | left; apply Rinv_0_lt_compat; exact Ps].
      * transitivity (sqrt damping * sqrt damping); [field; lra | exact Q].
    + do 2 eexists. split; [reflexivity|]. split; [reflexivity|]. auto.
  - intros Hd is_A. unfold _get_damping, math_sqrt.
    replace (Rltb damping 0) with true by (symmetry; apply Rltb_true; lra).
    reflexivity.
  - intros Hd. unfold _get_damping, math_sqrt.
    replace (Rltb damping 0) with false by (symmetry; apply Rltb_false; lra).
    replace (Rltb 0 0) with false by (symmetry; apply Rltb_false; lra).
    rewrite sqrt_0, Reqb_refl. split; [f_equal; ring | reflexivity].
Qed.

Lemma _get_damping_product_witness :
  exists dA dB,
    _get_damping 0.01 true 4 true = inr dA
    /\ _get_damping 0.01 true 4 false = inr dB
    /\ 0 <= dA /\ 0 <= dB /\ dA * dB = 0.01.
Proof.
  apply (proj1 (_get_damping_product 0.01 4 true)); intros; lra.
Defined.

(* ================================================================== *)
(** * The damping kernel when the curvature condition holds *)
(* ================================================================== *)

Lemma zipw_theta_one (s v : vec) :
  length s = length v ->
  zipw (fun x z => x - (1 - 1) * z) (map (fun x => x * 1) s) v = s.
Proof.
  revert v; induction s as [|x s IH]; intros [|z v] L; simpl in *;
    try discriminate; [reflexivity|].
  rewrite IH by lia. f_equal. ring.
Qed.

Lemma dot_self_nonneg (s : vec) : 0 <= dot s s.
Proof. induction s as [|x s IH]; simpl; [lra | nra]. Qed.

(** X13.  When the pair already satisfies [s.y >= mu1 * y.Hy],
    [powell_lm_damping_] takes [theta = 1]: [s] is left as it is and [y]
    becomes [y + mu2 * s].  The inner product grows by [mu2 * s.s], so the
    curvature bound still holds for the returned pair. *)
Theorem powell_lm_damping__undamped (n : nat) (H : mat) (s y : vec) (mu1 mu2 : R) :
  Forall (fun row => length row = n) H -> length H = n ->
  length s = n -> length y = n ->
  0 < mu1 < 1 -> 0 < mu2 ->
  mu1 * dot y (mv H y) <= dot s y ->
  let y' := zipw (fun x z => x + mu2 * z) y s in
  powell_lm_damping_ (T2 H) (T1 s) (T1 y) mu1 mu2 = Ok (T1 s, T1 y')
  /\ dot s y' = dot s y + mu2 * dot s s
  /\ mu1 * dot y (mv H y) <= dot s y'.
Proof.
  intros Hrows HlenH Hs Hy0 Hmu1 Hmu2 Hle; cbv zeta.
  assert (E : dot s (zipw (fun x z => x + mu2 * z) y s)
              = dot s y + mu2 * dot s s).
  { rewrite dot_comm.
    rewrite (zipw_ext _ (fun x z => 1 * x + mu2 * z)) by (intros; ring).
    rewrite dot_zipw_lin by congruence.
    rewrite (dot_comm y s). ring. }
  split; [|split; [exact E|]].
  - rewrite (powell_lm_damping__spec (n := n)) by assumption.
    replace (Rltb (dot s y) (mu1 * dot y (mv H y))) with false
      by (symmetry; apply Rltb_false; lra).
    rewrite zipw_theta_one by (rewrite mv_length; congruence).
    reflexivity.
  - rewrite E. pose proof (dot_self_nonneg s). nra.
Qed.

Lemma powell_lm_damping__undamped_witness :
  powell_lm_damping_ (T2 [[1]]) (T1 [1]) (T1 [1]) (1/5) 1
  = Ok (T1 [1], T1 (zipw (fun x z => x + 1 * z) [1] [1])).
Proof.
  apply (powell_lm_damping__undamped 1 [[1]] [1] [1] (1/5) 1).
  - repeat constructor.
  - reflexivity.
  - reflexivity.
  - reflexivity.
  - lra.
  - lra.
  - simpl. lra.
Defined.

(* ================================================================== *)
(** * The diagonal representation *)
(* ================================================================== *)

(** The flattened tensor behind an optional attribute, as a list of zero or
    one vectors: what [eig.append(self.weight.flatten())] contributes. *)
Definition flat_of (h : heap) (o : option loc) : result (list vec) :=
  match o with
  | Some l => t <- get_tensor h l ;; Ok [flatten t]
  | None => Ok []
  end.

(** [Diag.eigenvalues(self)].  [torch.cat] refuses an empty list of
    tensors. *)
Definition Diag_eigenvalues (h : heap) (self : loc) : result vec :=
  ds <- get_diag h self ;;
  ew <- flat_of h (Diag_weight ds) ;;
  eb <- flat_of h (Diag_bias ds) ;;
  match ew ++ eb with
  | [] => Err ShapeError
  | eig => Ok (sort_desc (concat eig))
  end.

(** [Diag.top_eigenvalue(self)]: [top = -1], then
    [top = max(top, t.max().item())] for each tensor present. *)
Definition Diag_top_eigenvalue (h : heap) (self : loc) : result R :=
  ds <- get_diag h self ;;
  top <- match Diag_weight ds with
         | Some w => t <- get_tensor h w ;; m <- vmax (flatten t) ;;
                     Ok (py_max (-1) m)
         | None => Ok (-1)
         end ;;
  match Diag_bias ds with
  | Some b => t <- get_tensor h b ;; m <- vmax (flatten t) ;; Ok (py_max top m)
  | None => Ok top
  end.

(** [Diag.trace(self)]: [trace = 0], then [trace += t.sum().item()] for
    each tensor present. *)
Definition Diag_trace (h : heap) (self : loc) : result R :=
  ds <- get_diag h self ;;
  trace <- match Diag_weight ds with
           | Some w => t <- get_tensor h w ;; Ok (0 + vsum (flatten t))
           | None => Ok 0
           end ;;
  match Diag_bias ds with
  | Some b => t <- get_tensor h b ;; Ok (trace + vsum (flatten t))
  | None => Ok trace
  end.

Lemma vsum_insert_desc (x : R) (l : vec) : vsum (insert_desc x l) = x + vsum l.
Proof.
  induction l as [|y l IH]; simpl; [reflexivity|].
  destruct (Rltb x y); simpl; [rewrite IH|]; ring.
Qed.

Lemma vsum_sort_desc (l : vec) : vsum (sort_desc l) = vsum l.
Proof.
  induction l as [|x l IH]; simpl; [reflexivity|].
  rewrite vsum_insert_desc, IH. reflexivity.
Qed.

Lemma vsum_app (u v : vec) : vsum (u ++ v) = vsum u + vsum v.
Proof. induction u as [|x u IH]; simpl; [ring | rewrite IH; ring]. Qed.

Lemma in_insert_desc (x y : R) (l : vec) :
  In y (insert_desc x l) <-> y = x \/ In y l.
Proof.
  induction l as [|z l IH]; simpl; [intuition|].
  destruct (Rltb x z); simpl; rewrite ?IH; intuition.
Qed.

Lemma in_sort_desc (y : R) (l : vec) : In y (sort_desc l) <-> In y l.
Proof.
  induction l as [|x l IH]; simpl; [reflexivity|].
  rewrite in_insert_desc, IH. intuition.
Qed.

(** The largest entry, as [vmax] computes it. *)
Lemma fold_left_Rmax_spec (l : vec) (x : R) :
  let m := fold_left Rmax l x in
  x <= m /\ (forall y, In y l -> y <= m) /\ (m = x \/ In m l).
Proof.
  revert x; induction l as [|z l IH]; intros x; cbv zeta; simpl.
  - split; [lra|]. split; [intros y []|left; reflexivity].
  - destruct (IH (Rmax x z)) as (H1 & H2 & H3).
    pose proof (Rmax_l x z). pose proof (Rmax_r x z).
    split; [lra|]. split.
    + intros y [<-|Hy]; [lra | apply H2, Hy].
    + destruct H3 as [E|Hin]; [|right; right; exact Hin].
      rewrite E. unfold Rmax. destruct (Rle_dec x z);
        [right; left; reflexivity | left; reflexivity].
Qed.

Lemma vmax_spec (l : vec) (m : R) :
  vmax l = Ok m -> In m l /\ forall y, In y l -> y <= m.
Proof.
  destruct l as [|x l]; simpl; [discriminate|]. intros H. inversion H; subst.
  destruct (fold_left_Rmax_spec l x) as (H1 & H2 & H3). cbv zeta in *.
  split.
  - destruct H3 as [E|Hin]; [left; symmetry; exact E | right; exact Hin].
  - intros y [<-|Hy]; [exact H1 | apply H2, Hy].
Qed.

Lemma py_max_spec (a b : R) :
  a <= py_max a b /\ b <= py_max a b /\ (py_max a b = a \/ py_max a b = b).
Proof.
  unfold py_max, Rltb. destruct (Rlt_dec a b); repeat split; auto; lra.
Qed.

(** X14.  Whenever [Diag.eigenvalues] returns, [Diag.trace] returns the sum of
    the eigenvalues it lists. *)
Theorem Diag_trace_sums_eigenvalues (h : heap) (self : loc) (e : vec) :
  Diag_eigenvalues h self = Ok e -> Diag_trace h self = Ok (vsum e).
Proof.
  unfold Diag_eigenvalues, Diag_trace, flat_of. intros H.
  apply bind_ok_inv in H as [ds [Es H]]. rewrite Es. cbn [bind].
  apply bind_ok_inv in H as [ew [Ew H]].
  apply bind_ok_inv in H as [eb [Eb H]].
  destruct (Diag_weight ds) as [w|], (Diag_bias ds) as [b|].
  - apply bind_ok_inv in Ew as [tw [Gw Ew]]. inversion Ew; subst ew.
    apply bind_ok_inv in Eb as [tb [Gb Eb]]. inversion Eb; subst eb.
    rewrite Gw, Gb. cbn [bind app concat] in *. inversion H; subst e.
    rewrite vsum_sort_desc, !vsum_app. simpl. f_equal. ring.
  - apply bind_ok_inv in Ew as [tw [Gw Ew]]. inversion Ew; subst ew.
    inversion Eb; subst eb.
    rewrite Gw. cbn [bind app concat] in *. inversion H; subst e.
    rewrite vsum_sort_desc, !vsum_app. simpl. f_equal. ring.
  - inversion Ew; subst ew.
    apply bind_ok_inv in Eb as [tb [Gb Eb]]. inversion Eb; subst eb.
    rewrite Gb. cbn [bind app concat] in *. inversion H; subst e.
    rewrite vsum_sort_desc, !vsum_app. simpl. f_equal. ring.
  - inversion Ew; subst ew. inversion Eb; subst eb. discriminate.
Qed.

(** A diagonal matrix with a weight [[3, -1, 2]] and a bias [-5]. *)
Definition heap_diag : heap :=
  [ OTensor (T2 [[3; -1; 2]]); OTensor (T1 [-5]);
    ODiag (mkDiag (Some 0%nat) (Some 1%nat) None None) ].

Lemma Diag_eigenvalues_heap_diag :
  Diag_eigenvalues heap_diag 2%nat = Ok [3; 2; -1; -5].
Proof.
  unfold Diag_eigenvalues, heap_diag. simpl. rltb. simpl. rltb. simpl. rltb.
  reflexivity.
Qed.

Lemma Diag_trace_sums_eigenvalues_witness :
  Diag_trace heap_diag 2%nat = Ok (vsum [3; 2; -1; -5]).
Proof.
  apply (Diag_trace_sums_eigenvalues heap_diag 2%nat _ Diag_eigenvalues_heap_diag).
Defined.

(** X15.  [Diag.top_eigenvalue] starts from [-1]: what it returns is never below
    [-1].  It is an upper bound of the eigenvalues [Diag.eigenvalues]
    lists, and it is one of them or [-1]: for a matrix whose entries are
    all below [-1] the answer is [-1], which is not an eigenvalue.  For a
    [Diag] without tensors the answer is [-1] as well, while
    [Diag.eigenvalues] raises. *)
Theorem Diag_top_eigenvalue_floor (h : heap) (self : loc) (ds : Diag) :
  get_diag h self = Ok ds ->
  (forall t, Diag_top_eigenvalue h self = Ok t ->
     -1 <= t
     /\ forall e, Diag_eigenvalues h self = Ok e ->
          (forall y, In y e -> y <= t) /\ (t = -1 \/ In t e))
  /\ (Diag_weight ds = None -> Diag_bias ds = None ->
      Diag_top_eigenvalue h self = Ok (-1)
      /\ is_ok (Diag_eigenvalues h self) = false).
Proof.
  intros Es. split.
  - intros t H. unfold Diag_top_eigenvalue in H. rewrite Es in H. cbn [bind] in H.
    apply bind_ok_inv in H as [top [Et H]].
    assert (Htop : -1 <= top
                   /\ forall tw w, Diag_weight ds = Some w ->
                        get_tensor h w = Ok tw ->
                        (forall y, In y (flatten tw) -> y <= top)
                        /\ (top = -1 \/ In top (flatten tw))).
    { destruct (Diag_weight ds) as [w|].
      - apply bind_ok_inv in Et as [tw [Gw Et]].
        apply bind_ok_inv in Et as [m [Em Et]]. inversion Et; subst top.
        destruct (vmax_spec _ _ Em) as [Hin Hub].
        destruct (py_max_spec (-1) m) as (P1 & P2 & P3).
        split; [exact P1|]. intros tw' w' E G. inversion E; subst w'.
        rewrite Gw in G. inversion G; subst tw'. split.
        + intros y Hy. specialize (Hub y Hy). lra.
        + destruct P3 as [->| ->]; [left; reflexivity | right; exact Hin].
      - inversion Et; subst top. split; [lra|]. discriminate. }
    destruct Htop as [Hge Hw].
    assert (Ht : top <= t
                 /\ (forall tb b, Diag_bias ds = Some b ->
                       get_tensor h b = Ok tb ->
                       (forall y, In y (flatten tb) -> y <= t)
                       /\ (t = top \/ In t (flatten tb)))
                 /\ (Diag_bias ds = None -> t = top)).
    { destruct (Diag_bias ds) as [b|].
      - apply bind_ok_inv in H as [tb [Gb H]].
        apply bind_ok_inv in H as [m [Em H]]. inversion H; subst t.
        destruct (vmax_spec _ _ Em) as [Hin Hub].
        destruct (py_max_spec top m) as (P1 & P2 & P3).
        split; [exact P1|]. split; [|discriminate].
        intros tb' b' E G. inversion E; subst b'.
        rewrite Gb in G. inversion G; subst tb'. split.
        + intros y Hy. specialize (Hub y Hy). lra.
        + destruct P3 as [->| ->]; [left; reflexivity | right; exact Hin].
      - inversion H; subst t. split; [lra|]. split; [discriminate | reflexivity]. }
    destruct Ht as (Hle & Hb & Hnb).
    split; [lra|].
    intros e He. unfold Diag_eigenvalues, flat_of in He. rewrite Es in He.
    cbn [bind] in He.
    apply bind_ok_inv in He as [ew [Ew He]].
    apply bind_ok_inv in He as [eb [Eb He]].
    destruct (Diag_weight ds) as [w|] eqn:EW, (Diag_bias ds) as [b|] eqn:EB.
    + apply bind_ok_inv in Ew as [tw [Gw Ew]]. inversion Ew; subst ew.
      apply bind_ok_inv in Eb as [tb [Gb Eb]]. inversion Eb; subst eb.
      cbn [app concat] in He. inversion He; subst e.
      destruct (Hw _ _ eq_refl Gw) as [W1 W2].
      destruct (Hb _ _ eq_refl Gb) as [B1 B2].
      split.
      * intros y Hy. apply (proj1 (in_sort_desc _ _)) in Hy. rewrite app_nil_r in Hy.
        apply in_app_or in Hy as [Hy|Hy]; [specialize (W1 y Hy); lra | auto].
      * destruct B2 as [E|Hin].
        -- destruct W2 as [E'|Hin]; [left; lra|]. right.
           apply (proj2 (in_sort_desc _ _)), in_or_app. left. rewrite E. exact Hin.
        -- right. apply (proj2 (in_sort_desc _ _)), in_or_app. right.
           rewrite app_nil_r. exact Hin.
    + apply bind_ok_inv in Ew as [tw [Gw Ew]]. inversion Ew; subst ew.
      inversion Eb; subst eb. cbn [app concat] in He. inversion He; subst e.
      destruct (Hw _ _ eq_refl Gw) as [W1 W2]. rewrite (Hnb eq_refl).
      rewrite app_nil_r. split.
      * intros y Hy. apply (proj1 (in_sort_desc _ _)) in Hy. auto.
      * destruct W2 as [E'|Hin]; [left; exact E' | right].
        apply (proj2 (in_sort_desc _ _)). exact Hin.
    + inversion Ew; subst ew.
      apply bind_ok_inv in Eb as [tb [Gb Eb]]. inversion Eb; subst eb.
      cbn [app concat] in He. inversion He; subst e.
      destruct (Hb _ _ eq_refl Gb) as [B1 B2]. rewrite app_nil_r.
      assert (top = -1) as Etop by (inversion Et; reflexivity).
      split.
      * intros y Hy. apply (proj1 (in_sort_desc _ _)) in Hy. auto.
      * destruct B2 as [E|Hin]; [left; lra | right].
        apply (proj2 (in_sort_desc _ _)). exact Hin.
    + inversion Ew; subst ew. inversion Eb; subst eb. discriminate.
  - intros EW EB. unfold Diag_top_eigenvalue, Diag_eigenvalues, flat_of.
    rewrite Es. cbn [bind]. rewrite EW, EB. split; reflexivity.
Qed.

(** A diagonal matrix whose entries are all below [-1]. *)
Definition heap_diag_neg : heap :=
  [ OTensor (T1 [-3; -2]); ODiag (mkDiag (Some 0%nat) None None None) ].

Lemma Diag_top_eigenvalue_heap_diag_neg :
  Diag_top_eigenvalue heap_diag_neg 1%nat = Ok (-1).
Proof.
  unfold Diag_top_eigenvalue, heap_diag_neg. simpl.
  replace (Rmax (-3) (-2)) with (-2) by (symmetry; apply Rmax_right; lra).
  unfold py_max. rltb. reflexivity.
Qed.

Lemma Diag_eigenvalues_heap_diag_neg :
  Diag_eigenvalues heap_diag_neg 1%nat = Ok [-2; -3].
Proof.
  unfold Diag_eigenvalues, heap_diag_neg. simpl. rltb. reflexivity.
Qed.

Lemma Diag_top_eigenvalue_floor_witness :
  Diag_top_eigenvalue heap_diag_neg 1%nat = Ok (-1)
  /\ Diag_eigenvalues heap_diag_neg 1%nat = Ok [-2; -3]
  /\ (forall y, In y [-2; -3] -> y <= -1).
Proof.
  destruct (Diag_top_eigenvalue_floor heap_diag_neg 1%nat _ eq_refl) as [H _].
  destruct (H _ Diag_top_eigenvalue_heap_diag_neg) as [_ H2].
  destruct (H2 _ Diag_eigenvalues_heap_diag_neg) as [Hub _].
  split; [exact Diag_top_eigenvalue_heap_diag_neg|].
  split; [exact Diag_eigenvalues_heap_diag_neg | exact Hub].
Defined.

(** [Diag.update_inv(self, damping)]: [1 / (t + damping)], entry by entry,
    as a new tensor for each tensor present. *)
Definition Diag_update_inv (h : heap) (self : loc) (damping : R) : result heap :=
  ds <- get_diag h self ;;
  h1 <- match Diag_weight ds with
        | Some w =>
            t <- get_tensor h w ;;
            let '(h', l) := alloc h (OTensor (tmap (fun x => 1 / (x + damping)) t)) in
            Ok (store h' self
                  (ODiag (mkDiag (Diag_weight ds) (Diag_bias ds)
                                 (Some l) (Diag_bias_inv ds))))
        | None => Ok h
        end ;;
  ds1 <- get_diag h1 self ;;
  match Diag_bias ds1 with
  | Some b =>
      t <- get_tensor h1 b ;;
      let '(h', l) := alloc h1 (OTensor (tmap (fun x => 1 / (x + damping)) t)) in
      Ok (store h' self
            (ODiag (mkDiag (Diag_weight ds1) (Diag_bias ds1)
                           (Diag_weight_inv ds1) (Some l))))
  | None => Ok h1
  end.

(** What [Diag.mvp] hands back: the list [rst], and the contents of the
    caller's tensors afterwards (overwritten when [inplace]). *)
Record diag_mvp_result : Type := mkDiagMvp {
  dmvp_rst : list tensor;
  dmvp_weight : option tensor;
  dmvp_bias : option tensor
}.

(** One of the two conditionals of [Diag.mvp]: [vec.mul(mat)] or
    [vec.mul_(mat)] for a vector that is given. *)
Definition Diag_mvp_part (h : heap) (vec : option tensor) (mat : option loc)
           (inplace : bool) : result (list tensor * option tensor) :=
  match vec with
  | Some v =>
      m <- opt_tensor h mat ;;
      mvp <- tensor_zip Rmult v m ;;
      Ok ([mvp], Some (if inplace then mvp else v))
  | None => Ok ([], None)
  end.

(** [Diag.mvp(self, vec_weight, vec_bias, use_inv, inplace)]. *)
Definition Diag_mvp (h : heap) (self : loc) (vec_weight vec_bias : option tensor)
           (use_inv inplace : bool) : result diag_mvp_result :=
  _ <- assert_ (is_some vec_weight || is_some vec_bias) ;;
  ds <- get_diag h self ;;
  '(rw, w') <- Diag_mvp_part h vec_weight
                 (if use_inv then Diag_weight_inv ds else Diag_weight ds) inplace ;;
  '(rb, b') <- Diag_mvp_part h vec_bias
                 (if use_inv then Diag_bias_inv ds else Diag_bias ds) inplace ;;
  Ok (mkDiagMvp (rw ++ rb) w' b').

Lemma get_diag_valid (h : heap) (l : loc) (d : Diag) :
  get_diag h l = Ok d -> (l < length h)%nat.
Proof.
  unfold get_diag. destruct (nth_error h l) as [o|] eqn:E; [|discriminate].
  intros _. apply nth_error_Some. congruence.
Qed.

Lemma get_diag_store_eq (h : heap) (l : loc) (d d' : Diag) :
  get_diag h l = Ok d -> get_diag (store h l (ODiag d')) l = Ok d'.
Proof.
  unfold get_diag, store. rewrite nth_error_set_nth_eq.
  destruct (nth_error h l) as [[]|]; try discriminate. reflexivity.
Qed.

Lemma get_tensor_not_diag (h : heap) (l l' : loc) (t : tensor) (d : Diag) :
  get_tensor h l = Ok t -> get_diag h l' = Ok d -> l <> l'.
Proof.
  unfold get_tensor, get_diag. intros Ht Hd ->.
  destruct (nth_error h l') as [[]|]; discriminate.
Qed.

(** The store after [Diag.update_inv] on a [Diag] with a weight. *)
Lemma Diag_update_inv_weight (h h' : heap) (self w : loc) (ds : Diag)
      (tw : tensor) (damping : R) :
  get_diag h self = Ok ds -> Diag_weight ds = Some w ->
  get_tensor h w = Ok tw ->
  Diag_update_inv h self damping = Ok h' ->
  exists ds',
    get_diag h' self = Ok ds'
    /\ Diag_weight ds' = Some w /\ Diag_weight_inv ds' = Some (length h)
    /\ get_tensor h' w = Ok tw
    /\ get_tensor h' (length h) = Ok (tmap (fun x => 1 / (x + damping)) tw).
Proof.
  intros Es EW Gw H.
  pose proof (get_diag_valid _ _ _ Es) as Hself.
  pose proof (get_tensor_valid _ _ _ Gw) as Hw.
  pose proof (get_tensor_not_diag _ _ _ _ _ Gw Es) as Nws.
  unfold Diag_update_inv in H. rewrite Es in H. cbn [bind] in H.
  rewrite EW, Gw in H. cbn [bind alloc] in H.
  set (ti := tmap (fun x => 1 / (x + damping)) tw) in *.
  match type of H with
  | context [get_diag (store ?hh self (ODiag ?d)) self] =>
      set (d1 := d) in *; set (h1 := store hh self (ODiag d1)) in *
  end.
  assert (G1 : get_diag h1 self = Ok d1).
  { apply (get_diag_store_eq _ _ ds). apply get_diag_ext. exact Es. }
  assert (Gw1 : get_tensor h1 w = Ok tw).
  { unfold h1. rewrite get_tensor_store_neq by (intros E; apply Nws; auto).
    apply get_tensor_ext. exact Gw. }
  assert (Gi1 : get_tensor h1 (length h) = Ok ti).
  { unfold h1. rewrite get_tensor_store_neq by lia. unfold get_tensor.
    rewrite nth_error_app2, Nat.sub_diag by lia. reflexivity. }
  assert (L1 : length h1 = S (length h)).
  { unfold h1. rewrite length_store, length_app. simpl. lia. }
  rewrite G1 in H. cbn [bind] in H.
  destruct (Diag_bias d1) as [b|] eqn:EB.
  - apply bind_ok_inv in H as [tb [Gb H]]. injection H as <-.
    eexists. split.
    { apply (get_diag_store_eq _ _ d1). apply get_diag_ext. exact G1. }
    cbn [Diag_weight Diag_weight_inv]. split; [reflexivity|].
    split; [reflexivity|]. split.
    + rewrite get_tensor_store_neq by (intros E; apply Nws; auto).
      apply get_tensor_ext. exact Gw1.
    + rewrite get_tensor_store_neq by lia.
      apply get_tensor_ext. exact Gi1.
  - injection H as <-. exists d1. auto.
Qed.

Lemma zipw_map_r {A B B' C : Type} (f : A -> B -> C) (k : B' -> B)
      (v : list A) (w : list B') :
  zipw f v (map k w) = zipw (fun x y => f x (k y)) v w.
Proof.
  revert w; induction v as [|x v IH]; intros [|y w]; simpl; [reflexivity..|].
  rewrite IH. reflexivity.
Qed.

Lemma tzip_tmap_r (f : R -> R -> R) (k : R -> R) (v t : tensor) :
  skel v = skel t ->
  tzip f v (tmap k t) = tzip (fun x y => f x (k y)) v t.
Proof.
  destruct v as [x|u|m|p], t as [y|u'|m'|p']; simpl; intros E;
    try discriminate; try reflexivity; f_equal.
  - apply zipw_map_r.
  - rewrite zipw_map_r. apply zipw_ext. intros r s. apply zipw_map_r.
  - rewrite zipw_map_r. apply zipw_ext. intros r s.
    rewrite zipw_map_r. apply zipw_ext. intros r' s'. apply zipw_map_r.
Qed.

Lemma skel_tmap (k : R -> R) (t : tensor) : skel (tmap k t) = skel t.
Proof.
  destruct t as [x|u|m|p]; simpl; try reflexivity.
  - rewrite length_map. reflexivity.
  - rewrite map_map. do 2 f_equal. apply map_ext. intros r. apply length_map.
  - f_equal. rewrite map_map. apply map_ext. intros m.
    rewrite map_map. apply map_ext. intros r. apply length_map.
Qed.

Lemma zipw_cancel {A B : Type} (f g : A -> B -> A) (Rel : A -> B -> Prop) :
  (forall x w, Rel x w -> g (f x w) w = x) ->
  forall v w, Forall2 Rel v w -> zipw g (zipw f v w) w = v.
Proof.
  intros Hc v w F. induction F as [|x y v w Hxy F IH]; simpl; [reflexivity|].
  rewrite (Hc _ _ Hxy), IH. reflexivity.
Qed.

Lemma Forall2_of_lengths (P : R -> Prop) (v w : vec) :
  length v = length w -> Forall P w -> Forall2 (fun _ y => P y) v w.
Proof.
  revert w; induction v as [|x v IH]; intros [|y w] L F; simpl in L;
    try discriminate; constructor.
  - inversion F; assumption.
  - apply IH; [lia | inversion F; assumption].
Qed.

Lemma Forall2_of_rows (P : R -> Prop) (m n : mat) :
  map (@length R) m = map (@length R) n -> Forall P (concat n) ->
  Forall2 (Forall2 (fun _ y => P y)) m n.
Proof.
  revert n; induction m as [|r m IH]; intros [|s n] L F; simpl in L;
    try discriminate; constructor.
  - simpl in F. apply Forall_app in F as [F1 _].
    apply Forall2_of_lengths; [congruence | exact F1].
  - simpl in F. apply Forall_app in F as [_ F2].
    apply IH; [congruence | exact F2].
Qed.

Lemma Forall2_of_blocks (P : R -> Prop) (p q : list mat) :
  map (map (@length R)) p = map (map (@length R)) q ->
  Forall P (concat (concat q)) ->
  Forall2 (Forall2 (Forall2 (fun _ y => P y))) p q.
Proof.
  revert q; induction p as [|m p IH]; intros [|n q] L F; simpl in L;
    try discriminate; constructor.
  - simpl in F. rewrite concat_app in F. apply Forall_app in F as [F1 _].
    apply Forall2_of_rows; [congruence | exact F1].
  - simpl in F. rewrite concat_app in F. apply Forall_app in F as [_ F2].
    apply IH; [congruence | exact F2].
Qed.

(** Undoing an entrywise operation entry by entry. *)
Lemma tzip_cancel (f g : R -> R -> R) (P : R -> Prop) (v t : tensor) :
  (forall x y, P y -> g (f x y) y = x) ->
  skel v = skel t -> Forall P (flatten t) ->
  tzip g (tzip f v t) t = v.
Proof.
  intros Hc.
  destruct v as [x|u|m|p], t as [y|u'|m'|p']; simpl; intros E F;
    try discriminate; f_equal.
  - apply Hc. inversion F; assumption.
  - apply (zipw_cancel f g (fun _ y => P y)); [intros; apply Hc; assumption|].
    apply Forall2_of_lengths; [congruence | exact F].
  - apply (zipw_cancel (zipw f) (zipw g) (Forall2 (fun _ y => P y))).
    + intros r s Hrs.
      apply (zipw_cancel f g (fun _ y => P y)); [intros; apply Hc; assumption|].
      exact Hrs.
    + apply Forall2_of_rows; [congruence | exact F].
  - apply (zipw_cancel (zipw (zipw f)) (zipw (zipw g))
             (Forall2 (Forall2 (fun _ y => P y)))).
    + intros a b Hab.
      apply (zipw_cancel (zipw f) (zipw g) (Forall2 (fun _ y => P y))); [|exact Hab].
      intros r s Hrs.
      apply (zipw_cancel f g (fun _ y => P y)); [intros; apply Hc; assumption|].
      exact Hrs.
    + apply Forall2_of_blocks; [congruence | exact F].
Qed.

(** X16.  After [Diag.update_inv(damping)], [Diag.mvp] with [use_inv] divides a
    weight gradient entry by entry by [weight + damping], for a weight
    none of whose entries is [-damping].  With a zero damping the two
    products undo each other: [mvp(use_inv=False)] of [mvp(use_inv=True)]
    of [v] is [v]. *)
Theorem Diag_update_inv_then_mvp (h h' : heap) (self w : loc) (ds : Diag)
        (tw v : tensor) (damping : R) :
  get_diag h self = Ok ds -> Diag_weight ds = Some w ->
  get_tensor h w = Ok tw ->
  Diag_update_inv h self damping = Ok h' ->
  skel v = skel tw ->
  Forall (fun y => y + damping <> 0) (flatten tw) ->
  let r := tzip (fun x y => x * (1 / (y + damping))) v tw in
  Diag_mvp h' self (Some v) None true false = Ok (mkDiagMvp [r] (Some v) None)
  /\ (damping = 0 ->
      Diag_mvp h' self (Some r) None false false
      = Ok (mkDiagMvp [v] (Some r) None)).
Proof.
  intros Es EW Gw H Sk Hnz r.
  destruct (Diag_update_inv_weight _ _ _ _ _ _ _ Es EW Gw H)
    as (ds' & Gs' & EW' & EI' & Gw' & Gi').
  split.
  - unfold Diag_mvp. cbn [is_some orb assert_ bind]. rewrite Gs'. cbn [bind].
    unfold Diag_mvp_part. rewrite EI'. cbn [opt_tensor]. rewrite Gi'.
    cbn [bind]. unfold tensor_zip.
    replace (same_shapeb v (tmap (fun x => 1 / (x + damping)) tw)) with true
      by (symmetry; apply same_shapeb_skel; rewrite skel_tmap; exact Sk).
    cbn [bind app]. rewrite (tzip_tmap_r _ _ _ _ Sk). reflexivity.
  - intros Hd. unfold Diag_mvp. cbn [is_some orb assert_ bind].
    rewrite Gs'. cbn [bind]. unfold Diag_mvp_part. rewrite EW'.
    cbn [opt_tensor]. rewrite Gw'. cbn [bind]. unfold tensor_zip.
    assert (Sr : skel r = skel tw).
    { unfold r. rewrite skel_tzip by exact Sk. exact Sk. }
    replace (same_shapeb r tw) with true
      by (symmetry; apply same_shapeb_skel; exact Sr).
    cbn [bind app]. unfold r.
    rewrite (tzip_cancel _ Rmult (fun y => y + damping <> 0) v tw);
      [reflexivity | | exact Sk | exact Hnz].
    intros x y Hy. subst damping. field. lra.
Qed.

Lemma Diag_update_inv_then_mvp_witness :
  exists h',
    Diag_update_inv heap_diag_neg 1%nat 0 = Ok h'
    /\ Diag_mvp h' 1%nat
         (Some (tzip (fun x y => x * (1 / (y + 0))) (T1 [1; 1]) (T1 [-3; -2])))
         None false false
       = Ok (mkDiagMvp [T1 [1; 1]]
               (Some (tzip (fun x y => x * (1 / (y + 0))) (T1 [1; 1]) (T1 [-3; -2])))
               None).
Proof.
  eexists. split; [reflexivity|].
  apply (Diag_update_inv_then_mvp heap_diag_neg _ 1%nat 0%nat _
           (T1 [-3; -2]) (T1 [1; 1]) 0 eq_refl eq_refl eq_refl eq_refl eq_refl).
  - repeat constructor; lra.
  - reflexivity.
Defined.

(* ================================================================== *)
(** * The Kronecker product with a bias column *)
(* ================================================================== *)

Lemma cat_column_rect (r c : nat) (V : mat) (b : vec) :
  is_rect r c V -> length b = r ->
  is_rect r (S c) (zipw (fun row x => row ++ [x]) V b).
Proof.
  intros [L F] Lb. split; [rewrite length_zipw; lia|].
  apply Forall_forall. intros row Hrow.
  destruct (In_nth _ _ [] Hrow) as [k [Hk <-]].
  rewrite length_zipw in Hk.
  rewrite (nth_zipw _ _ _ [] 0 []) by lia.
  rewrite length_app. simpl. rewrite Forall_forall in F.
  rewrite (F (nth k V [])) by (apply nth_In; lia). lia.
Qed.

Lemma removelast_rect (r c : nat) (M : mat) :
  is_rect r (S c) M -> is_rect r c (map (@removelast R) M).
Proof.
  intros [L F]. split; [rewrite length_map; exact L|].
  apply Forall_forall. intros row Hrow.
  apply in_map_iff in Hrow as [row' [<- Hin]].
  rewrite Forall_forall in F. specialize (F _ Hin).
  destruct (exists_last (l := row')) as (l' & a & ->).
  { intros ->. discriminate. }
  rewrite removelast_last. rewrite length_app in F. simpl in F. lia.
Qed.

(** Cutting off the last column and putting it back. *)
Lemma split_last_column (r c : nat) (M : mat) :
  is_rect r (S c) M ->
  zipw (fun row x => row ++ [x]) (map (@removelast R) M)
       (map (fun row => last row 0) M) = M.
Proof.
  intros [_ F]. induction F as [|row M Hrow F IH]; simpl; [reflexivity|].
  rewrite IH. f_equal. symmetry. apply app_removelast_last.
  intros ->. discriminate.
Qed.

(** X17.  [Kron.mvp] with a bias gradient treats the bias as one more column of
    the weight gradient: for [A] of size [dA + 1] and [V] of shape
    [(dB, dA)] the two tensors returned are the first [dA] columns and the
    last column of [B [V | b] A]; put side by side again they are that
    product. *)
Theorem Kron_mvp_bias_column (h : heap) (self a b : loc) (ks : Kron)
        (dA dB : nat) (A B V : mat) (bias : vec) (inplace : bool) :
  get_kron h self = Ok ks ->
  Kron_A ks = Some a -> Kron_B ks = Some b ->
  Kron__B_dim ks = None \/ Kron__B_dim ks = Some dB ->
  get_tensor h a = Ok (T2 A) -> get_tensor h b = Ok (T2 B) ->
  is_rect (S dA) (S dA) A -> is_rect dB dB B -> is_rect dB dA V ->
  length bias = dB -> (0 < dB)%nat ->
  exists h' W bb,
    Kron_mvp h self (T2 V) (Some (T1 bias)) false inplace
    = Ok (h', mkMvp (T2 W) (Some (T1 bb))
                    (if inplace then T2 W else T2 V)
                    (if inplace then Some (T1 bb) else Some (T1 bias)))
    /\ is_rect dB dA W /\ length bb = dB
    /\ zipw (fun row x => row ++ [x]) W bb
       = mm (mm B (zipw (fun row x => row ++ [x]) V bias)) A.
Proof.
  intros Ek EA EB Hdim Ea Eb HA HB HV Lb PB.
  destruct ks as [kA kB kAi kBi kAd kBd]. simpl in EA, EB, Hdim. subst kA kB.
  set (Vb := zipw (fun row x => row ++ [x]) V bias).
  assert (HVb : is_rect dB (S dA) Vb) by (apply cat_column_rect; assumption).
  pose proof (mm_rect HB HVb PB) as HBV.
  pose proof (mm_rect HBV HA (Nat.lt_0_succ dA)) as HM.
  set (M := mm (mm B Vb) A) in *.
  pose proof (removelast_rect _ _ _ HM) as HW.
  assert (Hrest : forall h1,
             get_tensor h1 a = Ok (T2 A) -> get_tensor h1 b = Ok (T2 B) ->
             (vec2d <- view2 (T2 V) dB ;;
              vec2d <- cat_bias_column vec2d (T1 bias) ;;
              lb <- deref (Some b) ;;
              MB <- get_tensor h1 lb ;;
              BV <- torch_mm MB (T2 vec2d) ;;
              la <- deref (Some a) ;;
              MA <- get_tensor h1 la ;;
              mvp2d <- torch_mm BV MA ;;
              mvp2d <- as_mat mvp2d ;;
              w <- view_as (map (@removelast R) mvp2d) (T2 V) ;;
              let b0 := T1 (map (fun row => last row 0) mvp2d) in
              Ok (h1, if inplace then mkMvp w (Some b0) w (Some b0)
                      else mkMvp w (Some b0) (T2 V) (Some (T1 bias))))
             = Ok (h1, mkMvp (T2 (map (@removelast R) M))
                             (Some (T1 (map (fun row => last row 0) M)))
                             (if inplace then T2 (map (@removelast R) M) else T2 V)
                             (if inplace
                              then Some (T1 (map (fun row => last row 0) M))
                              else Some (T1 bias)))).
  { intros h1 Ea1 Eb1.
    rewrite (view2_rect _ _ _ HV PB). cbn [bind cat_bias_column].
    destruct HV as [LV FV]. rewrite Lb, LV, Nat.eqb_refl. cbn [bind deref].
    fold Vb. rewrite Eb1. cbn [bind torch_mm].
    rewrite (mm_okb_rect _ _ _ _ _ HB HVb PB). cbn [bind].
    rewrite Ea1. cbn [bind torch_mm].
    rewrite (mm_okb_rect _ _ _ _ _ HBV HA (Nat.lt_0_succ dA)). cbn [bind as_mat].
    fold M.
    rewrite (view_as_rect _ _ _ _ HW (conj LV FV) PB). cbn [bind].
    destruct inplace; reflexivity. }
  assert (Hfin : is_rect dB dA (map (@removelast R) M)
                 /\ length (map (fun row => last row 0) M) = dB
                 /\ zipw (fun row x => row ++ [x]) (map (@removelast R) M)
                         (map (fun row => last row 0) M) = M).
  { split; [exact HW|]. split; [rewrite length_map; apply (proj1 HM)|].
    apply (split_last_column _ _ _ HM). }
  unfold Kron_mvp, Kron_B_dim. rewrite Ek.
  cbn [bind Kron__B_dim Kron_B Kron_A Kron_A_inv Kron_B_inv Kron__A_dim].
  destruct Hdim as [Hd|Hd]; rewrite Hd.
  - rewrite Eb. cbn [bind shape0 shape]. destruct HB as [LB FB]. rewrite LB.
    cbn [bind]. eexists _, _, _. split; [|exact Hfin].
    apply (Hrest (store h self _)).
    + rewrite (get_tensor_store_kron _ _ _ _ _ Ek). exact Ea.
    + rewrite (get_tensor_store_kron _ _ _ _ _ Ek). exact Eb.
  - cbn [bind]. exists h. eexists _, _. split; [|exact Hfin].
    apply Hrest; assumption.
Qed.

Lemma Kron_mvp_bias_column_witness :
  exists h' W bb,
    Kron_mvp heap_kron_23 2%nat (T2 [[1]]) (Some (T1 [1])) false false
    = Ok (h', mkMvp (T2 W) (Some (T1 bb)) (T2 [[1]]) (Some (T1 [1])))
    /\ is_rect 1 1 W /\ length bb = 1%nat
    /\ zipw (fun row x => row ++ [x]) W bb
       = mm (mm [[3]] (zipw (fun row x => row ++ [x]) [[1]] [1]))
            [[1; 2]; [2; 5]].
Proof.
  apply (Kron_mvp_bias_column heap_kron_23 2%nat 0%nat 1%nat _ 1 1
           [[1; 2]; [2; 5]] [[3]] [[1]] [1] false
           eq_refl eq_refl eq_refl (or_introl eq_refl) eq_refl eq_refl).
  - split; [reflexivity | repeat constructor].
  - split; [reflexivity | repeat constructor].
  - split; [reflexivity | repeat constructor].
  - reflexivity.
  - lia.
Defined.

(* ================================================================== *)
(** * The dense matrix-vector product, layer-wise *)
(* ================================================================== *)

(** [SymMatrix.mvp(self, vectors=None, vec_weight, vec_bias, use_inv,
    inplace)], the layer-wise path.  (The path for a [ParamVector] needs
    [vectors.py], which is not among the sources.)  The result has the form
    of [Diag.mvp]'s: the tensors returned, and the caller's tensors
    afterwards.  With both a weight and a bias the bias part is returned as
    the 1-D slice [mvp1d[w_numel:]], not in the shape of [vec_bias];
    [vec_bias.copy_] then needs the shapes to agree. *)
Definition SymMatrix_mvp (h : heap) (self : loc) (vec_weight vec_bias : option tensor)
           (use_inv inplace : bool) : result diag_mvp_result :=
  ss <- get_sym h self ;;
  let mat := if use_inv then SymMatrix_inv ss else SymMatrix_data ss in
  _ <- assert_ (is_some vec_weight || is_some vec_bias) ;;
  let vec1d := match vec_weight with Some w => flatten w | None => [] end
               ++ match vec_bias with Some b => flatten b | None => [] end in
  m <- opt_tensor h mat ;;
  mvp1d <- torch_mv m (T1 vec1d) ;;
  mvp1d <- as_vec mvp1d ;;
  match vec_weight, vec_bias with
  | Some w, Some b =>
      let w_numel := numel w in
      mvp_w <- view_as [firstn w_numel mvp1d] w ;;
      let mvp_b := T1 (skipn w_numel mvp1d) in
      if inplace
      then _ <- (if same_shapeb b mvp_b then Ok tt else Err ShapeError) ;;
           Ok (mkDiagMvp [mvp_w; mvp_b] (Some mvp_w) (Some mvp_b))
      else Ok (mkDiagMvp [mvp_w; mvp_b] (Some w) (Some b))
  | Some w, None =>
      mvp_w <- view_as [mvp1d] w ;;
      Ok (mkDiagMvp [mvp_w] (Some (if inplace then mvp_w else w)) None)
  | None, Some b =>
      mvp_b <- view_as [mvp1d] b ;;
      Ok (mkDiagMvp [mvp_b] None (Some (if inplace then mvp_b else b)))
  | None, None => Err AssertionError
  end.

Lemma chunks_rect (c r : nat) :
  forall l, length l = (r * c)%nat -> is_rect r c (chunks c l r).
Proof.
  induction r as [|r IH]; intros l L; simpl.
  - split; [reflexivity | constructor].
  - simpl in L. destruct (IH (skipn c l)) as [L' F'].
    { rewrite length_skipn. lia. }
    split; [simpl; rewrite L'; reflexivity|].
    constructor; [rewrite length_firstn; lia | exact F'].
Qed.

Lemma concat_chunks (c r : nat) :
  forall l, length l = (r * c)%nat -> concat (chunks c l r) = l.
Proof.
  induction r as [|r IH]; intros l L; simpl.
  - destruct l; [reflexivity | discriminate].
  - simpl in L. rewrite IH by (rewrite length_skipn; lia).
    apply firstn_skipn.
Qed.

(** X18.  The layer-wise [SymMatrix.mvp] multiplies the dense matrix with the
    weight gradient and the bias gradient laid end to end, and cuts the
    product at the size of the weight: the weight part, in the shape of
    the weight, followed by the bias part is [M (vec(V) ++ b)]. *)
Theorem SymMatrix_mvp_splits (h : heap) (self d : loc) (ss : SymMatrix)
        (n r c : nat) (M V : mat) (b : vec) (inplace : bool) :
  get_sym h self = Ok ss -> SymMatrix_data ss = Some d ->
  get_tensor h d = Ok (T2 M) ->
  is_rect n n M -> is_rect r c V -> (0 < r)%nat ->
  n = (r * c + length b)%nat ->
  exists W bb,
    SymMatrix_mvp h self (Some (T2 V)) (Some (T1 b)) false inplace
    = Ok (mkDiagMvp [T2 W; T1 bb]
            (Some (if inplace then T2 W else T2 V))
            (Some (if inplace then T1 bb else T1 b)))
    /\ is_rect r c W /\ length bb = length b
    /\ concat W ++ bb = mv M (concat V ++ b).
Proof.
  intros Es Ed Gd HM HV Hr Hn.
  set (x := concat V ++ b).
  assert (Lx : length x = n).
  { unfold x. rewrite length_app, (length_concat_rect _ _ _ HV). lia. }
  set (y := mv M x).
  assert (Ly : length y = n) by (unfold y; rewrite mv_length; apply (proj1 HM)).
  set (W := chunks c (firstn (r * c) y) r).
  assert (Lf : length (firstn (r * c) y) = (r * c)%nat)
    by (rewrite length_firstn; lia).
  exists W, (skipn (r * c) y).
  split; [|split; [apply chunks_rect; exact Lf|split]].
  - unfold SymMatrix_mvp. rewrite Es. cbn [bind]. rewrite Ed.
    cbn [is_some orb assert_ bind opt_tensor flatten]. rewrite Gd.
    cbn [bind torch_mv]. fold x. rewrite Lx.
    rewrite (is_rect_rowsb HM). cbn [bind as_vec]. fold y.
    cbn [numel]. rewrite (length_concat_rect _ _ _ HV).
    unfold view_as. cbn [concat numel]. rewrite app_nil_r, Lf.
    rewrite (length_concat_rect _ _ _ HV), Nat.eqb_refl.
    rewrite (is_rect_ncols HV Hr). destruct HV as [LV FV]. rewrite LV.
    cbn [bind]. fold W.
    destruct inplace; [|reflexivity].
    rewrite same_shapeb_T1, length_skipn.
    replace (Nat.eqb (length b) (length y - r * c)) with true
      by (symmetry; apply Nat.eqb_eq; lia).
    reflexivity.
  - rewrite length_skipn. lia.
  - unfold W. rewrite (concat_chunks _ _ _ Lf). apply firstn_skipn.
Qed.

(** A matrix that holds the dense 3 x 3 identity only. *)
Definition heap_dense : heap :=
  [ OTensor (T2 (identity 3));
    OSym (mkSymMatrix (Some 0%nat) None None None None) ].

Lemma SymMatrix_mvp_splits_witness :
  exists W bb,
    SymMatrix_mvp heap_dense
                  1%nat (Some (T2 [[1; 2]])) (Some (T1 [3])) false false
    = Ok (mkDiagMvp [T2 W; T1 bb] (Some (T2 [[1; 2]])) (Some (T1 [3])))
    /\ is_rect 1 2 W /\ length bb = 1%nat
    /\ concat W ++ bb = mv (identity 3) (concat [[1; 2]] ++ [3]).
Proof.
  apply (SymMatrix_mvp_splits heap_dense 1%nat 0%nat _ 3 1 2 (identity 3) [[1; 2]] [3]
           false eq_refl eq_refl eq_refl).
  - apply mk_mat_rect.
  - split; [reflexivity | repeat constructor].
  - lia.
  - reflexivity.
Defined.

(* ================================================================== *)
(** * The moving average of the Kronecker factors *)
(* ================================================================== *)

(** The update of the exponential moving average in
    [KronBfgsGradientMaker._update_A_inv], for a module that already has a
    matrix [bfgs]:
    [new_bfgs.mul_(ema_decay); bfgs.mul_(1 - ema_decay); bfgs += new_bfgs]. *)
Definition ema_update (h : heap) (bfgs new_bfgs : loc) (ema_decay : R) : result heap :=
  h1 <- SymMatrix_mul_ h new_bfgs ema_decay ;;
  h2 <- SymMatrix_mul_ h1 bfgs (1 - ema_decay) ;;
  SymMatrix_iadd h2 bfgs new_bfgs.

(** Only tensors have changed: every other object is as before, and a
    tensor is still a tensor. *)
Definition tensor_frame (h h' : heap) : Prop :=
  forall l o, nth_error h l = Some o ->
    match o with
    | OTensor _ => exists t', nth_error h' l = Some (OTensor t')
    | _ => nth_error h' l = Some o
    end.

Lemma tensor_frame_refl (h : heap) : tensor_frame h h.
Proof. intros l [t| | | |] H; eauto. Qed.

Lemma tensor_frame_trans (h1 h2 h3 : heap) :
  tensor_frame h1 h2 -> tensor_frame h2 h3 -> tensor_frame h1 h3.
Proof.
  intros F1 F2 l o H. specialize (F1 l o H).
  destruct o as [t| | | |]; try (apply (F2 l _ F1)).
  destruct F1 as [t' H']. exact (F2 l _ H').
Qed.

Lemma tensor_frame_store (h : heap) (l : loc) (t t' : tensor) :
  get_tensor h l = Ok t -> tensor_frame h (store h l (OTensor t')).
Proof.
  intros G l' o H. apply get_tensor_nth in G.
  destruct (Nat.eq_dec l l') as [<-|Hne].
  - rewrite G in H. inversion H; subst o. exists t'.
    unfold store. rewrite nth_error_set_nth_eq, G. reflexivity.
  - rewrite <- (nth_error_store_neq h l l' (OTensor t') Hne) in H.
    destruct o; eauto.
Qed.

Lemma tensor_frame_sym (h h' : heap) (x : loc) (s : SymMatrix) :
  tensor_frame h h' -> get_sym h x = Ok s -> get_sym h' x = Ok s.
Proof.
  intros F G. apply get_sym_nth in G. specialize (F _ _ G).
  unfold get_sym. rewrite F. reflexivity.
Qed.

Lemma tensor_frame_kron (h h' : heap) (x : loc) (k : Kron) :
  tensor_frame h h' -> get_kron h x = Ok k -> get_kron h' x = Ok k.
Proof.
  intros F G. apply get_kron_nth in G. specialize (F _ _ G).
  unfold get_kron. rewrite F. reflexivity.
Qed.

Lemma tensor_mul__frame (h : heap) (a : loc) (c : R) (h' : heap) :
  tensor_mul_ h a c = Ok h' -> tensor_frame h h'.
Proof.
  unfold tensor_mul_. intros H.
  apply bind_ok_inv in H as [ta [Ea H]]. inversion H; subst.
  apply (tensor_frame_store _ _ _ _ Ea).
Qed.

Lemma tensor_add__frame (h : heap) (a b : loc) (h' : heap) :
  tensor_add_ h a b = Ok h' -> tensor_frame h h'.
Proof.
  unfold tensor_add_. intros H.
  apply bind_ok_inv in H as [ta [Ea H]]. apply bind_ok_inv in H as [tb [_ H]].
  apply bind_ok_inv in H as [t [_ H]]. inversion H; subst.
  apply (tensor_frame_store _ _ _ _ Ea).
Qed.

Lemma Kron_mul__frame (h : heap) (self : loc) (c : R) (h' : heap) :
  Kron_mul_ h self c = Ok h' -> tensor_frame h h'.
Proof.
  unfold Kron_mul_. intros H.
  apply bind_ok_inv in H as [ks [_ H]]. apply bind_ok_inv in H as [a [_ H]].
  apply bind_ok_inv in H as [h1 [E1 H]]. apply bind_ok_inv in H as [b [_ H]].
  exact (tensor_frame_trans _ _ _ (tensor_mul__frame _ _ _ _ E1)
                            (tensor_mul__frame _ _ _ _ H)).
Qed.

(** A matrix that holds a Kronecker pair and nothing else. *)
Definition kron_only (s : SymMatrix) (k : loc) : Prop :=
  SymMatrix_data s = None /\ SymMatrix_kron s = Some k
  /\ SymMatrix_diag s = None /\ SymMatrix_unit s = None.

Lemma SymMatrix_mul__kron_only (h : heap) (x k : loc) (s : SymMatrix) (c : R) :
  get_sym h x = Ok s -> kron_only s k ->
  SymMatrix_mul_ h x c = Kron_mul_ h k c.
Proof.
  intros G (Hd & Hk & Hg & Hu). unfold SymMatrix_mul_, sym_mul_attr.
  rewrite G. cbn [bind]. rewrite Hd. cbn [bind].
  rewrite G. cbn [bind]. rewrite Hk.
  destruct (Kron_mul_ h k c) as [h2|e] eqn:E; cbn [bind]; [|reflexivity].
  rewrite (tensor_frame_sym _ _ _ _ (Kron_mul__frame _ _ _ _ E) G).
  cbn [bind]. rewrite Hg. cbn [bind].
  rewrite (tensor_frame_sym _ _ _ _ (Kron_mul__frame _ _ _ _ E) G).
  cbn [bind]. rewrite Hu. reflexivity.
Qed.

Lemma Kron_iadd_sym (h h' : heap) (self other x : loc) (s : SymMatrix) :
  Kron_iadd h self other = Ok h' -> get_sym h x = Ok s -> get_sym h' x = Ok s.
Proof.
  unfold Kron_iadd. intros H G.
  apply bind_ok_inv in H as [ko [_ H]].
  destruct (negb (Kron_has_data ko)); [inversion H; subst; exact G|].
  apply bind_ok_inv in H as [ks [Es H]].
  destruct (Kron_has_data ks).
  - apply bind_ok_inv in H as [sa [_ H]]. apply bind_ok_inv in H as [oa [_ H]].
    apply bind_ok_inv in H as [h1 [E1 H]].
    apply bind_ok_inv in H as [sb [_ H]]. apply bind_ok_inv in H as [ob [_ H]].
    apply (tensor_frame_sym h); [|exact G].
    exact (tensor_frame_trans _ _ _ (tensor_add__frame _ _ _ _ E1)
                              (tensor_add__frame _ _ _ _ H)).
  - inversion H; subst. unfold get_sym.
    rewrite nth_error_store_neq; [exact G|].
    intros ->. apply get_kron_nth in Es. apply get_sym_nth in G. congruence.
Qed.

Lemma SymMatrix_iadd_kron_only (h : heap) (x y kx ky : loc) (sx sy : SymMatrix) :
  get_sym h x = Ok sx -> get_sym h y = Ok sy ->
  kron_only sx kx -> kron_only sy ky ->
  SymMatrix_iadd h x y = Kron_iadd h kx ky.
Proof.
  intros Gx Gy (Xd & Xk & Xg & Xu) (Yd & Yk & Yg & Yu).
  unfold SymMatrix_iadd, sym_iadd_attr.
  rewrite Gx, Gy. cbn [bind]. rewrite Yd. cbn [bind].
  rewrite Gx, Gy. cbn [bind]. rewrite Yk, Xk.
  destruct (Kron_iadd h kx ky) as [h2|e] eqn:E; cbn [bind]; [|reflexivity].
  rewrite (Kron_iadd_sym _ _ _ _ _ _ E Gx), (Kron_iadd_sym _ _ _ _ _ _ E Gy).
  cbn [bind]. rewrite Yg. cbn [bind].
  rewrite (Kron_iadd_sym _ _ _ _ _ _ E Gx), (Kron_iadd_sym _ _ _ _ _ _ E Gy).
  cbn [bind]. rewrite Yu. reflexivity.
Qed.

Lemma Kron_mul__explicit (h : heap) (k a b : loc) (K : Kron) (tA tB : tensor) (c : R) :
  get_kron h k = Ok K -> Kron_A K = Some a -> Kron_B K = Some b -> a <> b ->
  get_tensor h a = Ok tA -> get_tensor h b = Ok tB ->
  Kron_mul_ h k c
  = Ok (store (store h a (OTensor (tensor_mul tA c))) b (OTensor (tensor_mul tB c))).
Proof.
  intros Gk EA EB Hab Ga Gb. unfold Kron_mul_, tensor_mul_.
  rewrite Gk. cbn [bind]. rewrite EA, EB. cbn [deref bind]. rewrite Ga.
  cbn [bind]. rewrite get_tensor_store_neq by exact Hab. rewrite Gb. reflexivity.
Qed.

Lemma Kron_iadd_explicit (h : heap) (kx ky a b a' b' : loc) (K K' : Kron)
      (tA tB tA' tB' : tensor) :
  get_kron h kx = Ok K -> Kron_A K = Some a -> Kron_B K = Some b ->
  get_kron h ky = Ok K' -> Kron_A K' = Some a' -> Kron_B K' = Some b' ->
  a <> b -> a <> b' ->
  get_tensor h a = Ok tA -> get_tensor h b = Ok tB ->
  get_tensor h a' = Ok tA' -> get_tensor h b' = Ok tB' ->
  skel tA = skel tA' -> skel tB = skel tB' ->
  Kron_iadd h kx ky
  = Ok (store (store h a (OTensor (tzip Rplus tA tA')))
              b (OTensor (tzip Rplus tB tB'))).
Proof.
  intros Gx XA XB Gy YA YB Hab Hab' Ga Gb Ga' Gb' SA SB.
  unfold Kron_iadd, Kron_has_data, tensor_add_, tensor_add, tensor_zip.
  rewrite Gy. cbn [bind]. rewrite YA, YB. cbn [is_some andb negb].
  rewrite Gx. cbn [bind]. rewrite XA, XB. cbn [is_some andb deref bind].
  rewrite Ga, Ga'. cbn [bind].
  replace (same_shapeb tA tA') with true
    by (symmetry; apply same_shapeb_skel; exact SA).
  cbn [bind].
  rewrite !get_tensor_store_neq by assumption. rewrite Gb, Gb'. cbn [bind].
  replace (same_shapeb tB tB') with true
    by (symmetry; apply same_shapeb_skel; exact SB).
  reflexivity.
Qed.

Lemma get_tensor_store2 (h : heap) (a b l : loc) (ta tb : tensor) :
  a <> l -> b <> l ->
  get_tensor (store (store h a (OTensor ta)) b (OTensor tb)) l = get_tensor h l.
Proof.
  intros Ha Hb. rewrite !get_tensor_store_neq by assumption. reflexivity.
Qed.

Lemma get_kron_store2 (h : heap) (a b l : loc) (ta tb ta' tb' : tensor) :
  get_tensor h a = Ok ta -> get_tensor h b = Ok tb -> a <> b ->
  get_kron (store (store h a (OTensor ta')) b (OTensor tb')) l = get_kron h l.
Proof.
  intros Ga Gb Hab.
  rewrite (get_kron_store_tensor_at _ _ _ tb tb').
  - apply (get_kron_store_tensor_at _ _ _ ta ta'). exact Ga.
  - rewrite get_tensor_store_neq by exact Hab. exact Gb.
Qed.

Lemma get_sym_store2 (h : heap) (a b l : loc) (ta tb ta' tb' : tensor) (s : SymMatrix) :
  get_tensor h a = Ok ta -> get_tensor h b = Ok tb -> a <> b ->
  get_sym h l = Ok s ->
  get_sym (store (store h a (OTensor ta')) b (OTensor tb')) l = Ok s.
Proof.
  intros Ga Gb Hab G.
  apply (tensor_frame_sym h); [|exact G].
  apply (tensor_frame_trans _ (store h a (OTensor ta'))).
  - apply (tensor_frame_store _ _ _ _ Ga).
  - apply (tensor_frame_store _ _ tb).
    rewrite get_tensor_store_neq by exact Hab. exact Gb.
Qed.

Lemma get_tensor_store2_l (h : heap) (a b : loc) (ta ta' tb' : tensor) :
  get_tensor h a = Ok ta -> a <> b ->
  get_tensor (store (store h a (OTensor ta')) b (OTensor tb')) a = Ok ta'.
Proof.
  intros Ga Hab.
  rewrite get_tensor_store_neq by (intros E; apply Hab; auto).
  apply (get_tensor_store_eq _ _ _ _ Ga).
Qed.

Lemma get_tensor_store2_r (h : heap) (a b : loc) (tb ta' tb' : tensor) :
  get_tensor h b = Ok tb -> a <> b ->
  get_tensor (store (store h a (OTensor ta')) b (OTensor tb')) b = Ok tb'.
Proof.
  intros Gb Hab. apply (get_tensor_store_eq _ _ tb).
  rewrite get_tensor_store_neq by exact Hab. exact Gb.
Qed.

(** X19.  The moving average of [_update_A_inv] on matrices that hold a
    Kronecker pair each, in four distinct tensors: the factors of the
    module's matrix become [(1 - d) A + d A_new] and [(1 - d) B + d B_new],
    in place; the [Kron] and the [SymMatrix] of the module, with the
    inverses they refer to, are unchanged. *)
Theorem ema_update_kron (h : heap) (x y kx ky a b a' b' : loc)
        (sx sy : SymMatrix) (K K' : Kron) (tA tB tA' tB' : tensor) (d : R) :
  get_sym h x = Ok sx -> get_sym h y = Ok sy ->
  kron_only sx kx -> kron_only sy ky ->
  get_kron h kx = Ok K -> Kron_A K = Some a -> Kron_B K = Some b ->
  get_kron h ky = Ok K' -> Kron_A K' = Some a' -> Kron_B K' = Some b' ->
  NoDup [a; b; a'; b'] ->
  get_tensor h a = Ok tA -> get_tensor h b = Ok tB ->
  get_tensor h a' = Ok tA' -> get_tensor h b' = Ok tB' ->
  skel tA = skel tA' -> skel tB = skel tB' ->
  exists h',
    ema_update h x y d = Ok h'
    /\ get_tensor h' a
       = Ok (tzip Rplus (tensor_mul tA (1 - d)) (tensor_mul tA' d))
    /\ get_tensor h' b
       = Ok (tzip Rplus (tensor_mul tB (1 - d)) (tensor_mul tB' d))
    /\ get_kron h' kx = Ok K /\ get_sym h' x = Ok sx.
Proof.
  intros Gx Gy Hx Hy Gkx XA XB Gky YA YB Hnd Ga Gb Ga' Gb' SA SB.
  assert (Hne : a <> b /\ a <> a' /\ a <> b' /\ b <> a' /\ b <> b' /\ a' <> b').
  { inversion Hnd as [|? ? N1 Hnd1]; subst.
    inversion Hnd1 as [|? ? N2 Hnd2]; subst.
    inversion Hnd2 as [|? ? N3 Hnd3]; subst.
    simpl in N1, N2, N3. repeat split; intros E; subst; tauto. }
  destruct Hne as (Nab & Naa' & Nab' & Nba' & Nbb' & Na'b').
  unfold ema_update.
  rewrite (SymMatrix_mul__kron_only h y ky sy d Gy Hy).
  rewrite (Kron_mul__explicit h ky a' b' K' tA' tB' d Gky YA YB Na'b' Ga' Gb').
  cbn [bind].
  set (h1 := store (store h a' _) b' _).
  assert (Gx1 : get_sym h1 x = Ok sx)
    by (apply (get_sym_store2 _ _ _ _ tA' tB'); assumption).
  assert (Gy1 : get_sym h1 y = Ok sy)
    by (apply (get_sym_store2 _ _ _ _ tA' tB'); assumption).
  assert (Gkx1 : get_kron h1 kx = Ok K)
    by (unfold h1; rewrite (get_kron_store2 _ _ _ _ tA' tB'); assumption).
  assert (Gky1 : get_kron h1 ky = Ok K')
    by (unfold h1; rewrite (get_kron_store2 _ _ _ _ tA' tB'); assumption).
  assert (Ga1 : get_tensor h1 a = Ok tA)
    by (unfold h1; rewrite get_tensor_store2; auto).
  assert (Gb1 : get_tensor h1 b = Ok tB)
    by (unfold h1; rewrite get_tensor_store2; auto).
  assert (Ga'1 : get_tensor h1 a' = Ok (tensor_mul tA' d))
    by (apply (get_tensor_store2_l _ _ _ tA'); assumption).
  assert (Gb'1 : get_tensor h1 b' = Ok (tensor_mul tB' d))
    by (apply (get_tensor_store2_r _ _ _ tB'); assumption).
  rewrite (SymMatrix_mul__kron_only h1 x kx sx (1 - d) Gx1 Hx).
  rewrite (Kron_mul__explicit h1 kx a b K tA tB (1 - d) Gkx1 XA XB Nab Ga1 Gb1).
  cbn [bind].
  set (h2 := store (store h1 a _) b _).
  assert (Gx2 : get_sym h2 x = Ok sx)
    by (apply (get_sym_store2 _ _ _ _ tA tB); assumption).
  assert (Gy2 : get_sym h2 y = Ok sy)
    by (apply (get_sym_store2 _ _ _ _ tA tB); assumption).
  assert (Gkx2 : get_kron h2 kx = Ok K)
    by (unfold h2; rewrite (get_kron_store2 _ _ _ _ tA tB); assumption).
  assert (Gky2 : get_kron h2 ky = Ok K')
    by (unfold h2; rewrite (get_kron_store2 _ _ _ _ tA tB); assumption).
  assert (Ga2 : get_tensor h2 a = Ok (tensor_mul tA (1 - d)))
    by (apply (get_tensor_store2_l _ _ _ tA); assumption).
  assert (Gb2 : get_tensor h2 b = Ok (tensor_mul tB (1 - d)))
    by (apply (get_tensor_store2_r _ _ _ tB); assumption).
  assert (Ga'2 : get_tensor h2 a' = Ok (tensor_mul tA' d))
    by (unfold h2; rewrite get_tensor_store2; auto).
  assert (Gb'2 : get_tensor h2 b' = Ok (tensor_mul tB' d))
    by (unfold h2; rewrite get_tensor_store2; auto).
  rewrite (SymMatrix_iadd_kron_only h2 x y kx ky sx sy Gx2 Gy2 Hx Hy).
  rewrite (Kron_iadd_explicit h2 kx ky a b a' b' K K' _ _ _ _
             Gkx2 XA XB Gky2 YA YB Nab Nab' Ga2 Gb2 Ga'2 Gb'2)
    by (unfold tensor_mul; rewrite !skel_tmap; assumption).
  eexists. split; [reflexivity|].
  split; [apply (get_tensor_store2_l _ _ _ (tensor_mul tA (1 - d))); assumption|].
  split; [apply (get_tensor_store2_r _ _ _ (tensor_mul tB (1 - d))); assumption|].
  split.
  - rewrite (get_kron_store2 _ _ _ _ (tensor_mul tA (1 - d)) (tensor_mul tB (1 - d)));
      assumption.
  - apply (get_sym_store2 _ _ _ _ (tensor_mul tA (1 - d)) (tensor_mul tB (1 - d)));
      assumption.
Qed.

(** A module's matrix with a cached [A_inv] (location 4) and a new matrix
    (location 8), each a Kronecker pair of 1 x 1 factors. *)
Definition heap_ema : heap :=
  [ OTensor (T2 [[1]]); OTensor (T2 [[2]]); OTensor (T2 [[10]]);
    OKron (mkKron (Some 0%nat) (Some 1%nat) (Some 2%nat) None None None);
    OSym (mkSymMatrix None (Some 3%nat) None None None);
    OTensor (T2 [[3]]); OTensor (T2 [[4]]);
    OKron (mkKron (Some 5%nat) (Some 6%nat) None None None None);
    OSym (mkSymMatrix None (Some 7%nat) None None None) ].

Lemma ema_update_kron_witness :
  exists h',
    ema_update heap_ema 4%nat 8%nat 0.1 = Ok h'
    /\ get_tensor h' 0%nat
       = Ok (tzip Rplus (tensor_mul (T2 [[1]]) (1 - 0.1)) (tensor_mul (T2 [[3]]) 0.1))
    /\ get_kron h' 3%nat
       = Ok (mkKron (Some 0%nat) (Some 1%nat) (Some 2%nat) None None None).
Proof.
  destruct (ema_update_kron heap_ema 4%nat 8%nat 3%nat 7%nat 0%nat 1%nat 5%nat 6%nat
              _ _ _ _ (T2 [[1]]) (T2 [[2]]) (T2 [[3]]) (T2 [[4]]) 0.1
              eq_refl eq_refl
              (conj eq_refl (conj eq_refl (conj eq_refl eq_refl)))
              (conj eq_refl (conj eq_refl (conj eq_refl eq_refl)))
              eq_refl eq_refl eq_refl eq_refl eq_refl eq_refl)
    as (h' & H1 & H2 & _ & H3 & _); try reflexivity.
  - repeat constructor; simpl; intuition discriminate.
  - exists h'. auto.
Defined.

(* ================================================================== *)
(** * The largest eigenvalue of a Kronecker pair *)
(* ================================================================== *)

Lemma in_concat_outer (u v : vec) (z : R) :
  In z (concat (outer u v)) <-> exists x y, In x u /\ In y v /\ z = x * y.
Proof.
  unfold outer. rewrite in_concat. split.
  - intros [row [Hrow Hz]]. apply in_map_iff in Hrow as [x [<- Hx]].
    apply in_map_iff in Hz as [y [<- Hy]]. exists x, y. auto.
  - intros (x & y & Hx & Hy & ->). exists (map (fun y => x * y) v). split.
    + apply in_map_iff. exists x. auto.
    + apply in_map_iff. exists y. auto.
Qed.

(** X20.  [Kron.top_eigenvalue] multiplies the largest eigenvalue of [A] with
    the largest eigenvalue of [B].  When no eigenvalue of either factor is
    negative, as for the factors of a curvature matrix, this is the largest
    of the eigenvalues [Kron.eigenvalues] lists. *)
Theorem Kron_top_eigenvalue_is_largest (symeig : tensor -> result tensor)
        (h : heap) (self a b : loc) (ks : Kron) (A B : tensor) (eA eB e : vec) (t : R) :
  get_kron h self = Ok ks ->
  Kron_A ks = Some a -> Kron_B ks = Some b ->
  get_tensor h a = Ok A -> get_tensor h b = Ok B ->
  symeig A = Ok (T1 eA) -> symeig B = Ok (T1 eB) ->
  Forall (fun x => 0 <= x) eA -> Forall (fun x => 0 <= x) eB ->
  Kron_eigenvalues symeig h self = Ok e ->
  Kron_top_eigenvalue symeig h self = Ok t ->
  In t e /\ forall y, In y e -> y <= t.
Proof.
  intros Gk EA EB Ga Gb SA SB PA PB He Ht.
  unfold Kron_eigenvalues in He. unfold Kron_top_eigenvalue in Ht.
  rewrite Gk in He, Ht. cbn [bind] in He, Ht.
  rewrite EA, EB in He, Ht. cbn [deref bind] in He, Ht.
  rewrite Ga, Gb in He, Ht. cbn [bind] in He, Ht.
  rewrite SA, SB in He, Ht. cbn [bind as_vec] in He, Ht.
  inversion He; subst e; clear He.
  apply bind_ok_inv in Ht as [ma [Ema Ht]].
  apply bind_ok_inv in Ht as [mb [Emb Ht]]. inversion Ht; subst t; clear Ht.
  destruct (vmax_spec _ _ Ema) as [Ia Ua].
  destruct (vmax_spec _ _ Emb) as [Ib Ub].
  rewrite Forall_forall in PA, PB.
  split.
  - apply (proj2 (in_sort_desc _ _)). apply in_concat_outer.
    exists ma, mb. auto.
  - intros y Hy. apply (proj1 (in_sort_desc _ _)) in Hy.
    apply in_concat_outer in Hy as (x1 & x2 & H1 & H2 & ->).
    specialize (Ua _ H1). specialize (Ub _ H2).
    specialize (PA _ H1). specialize (PB _ H2).
    apply Rmult_le_compat; assumption.
Qed.

(** An eigen-solver that knows the two matrices of the example below. *)
Definition symeig_diag2 (t : tensor) : result tensor :=
  match t with
  | T2 [[x; _]; [_; y]] => Ok (T1 [x; y])
  | _ => Err ShapeError
  end.

Definition heap_kron_psd : heap :=
  [ OTensor (T2 [[1; 0]; [0; 2]]); OTensor (T2 [[3; 0]; [0; 1]]);
    OKron (mkKron (Some 0%nat) (Some 1%nat) None None None None) ].

Lemma Kron_top_eigenvalue_is_largest_witness :
  exists e t,
    Kron_eigenvalues symeig_diag2 heap_kron_psd 2%nat = Ok e
    /\ Kron_top_eigenvalue symeig_diag2 heap_kron_psd 2%nat = Ok t
    /\ In t e /\ forall y, In y e -> y <= t.
Proof.
  eexists _, _. split; [reflexivity|]. split; [reflexivity|].
  apply (Kron_top_eigenvalue_is_largest symeig_diag2 heap_kron_psd 2%nat
           0%nat 1%nat _ _ _ [1; 2] [3; 1] _ _
           eq_refl eq_refl eq_refl eq_refl eq_refl eq_refl eq_refl).
  - repeat constructor; lra.
  - repeat constructor; lra.
  - reflexivity.
  - reflexivity.
Defined.

(** With negative eigenvalues the product of the two maxima need not be
    the largest eigenvalue: for [A = diag(-2, -1)] and [B = diag(-3, 1)]
    the eigenvalues of the pair are [6, 3, -1, -2], and
    [Kron.top_eigenvalue] answers [-1]. *)
Example Kron_top_eigenvalue_negative :
  let h := [ OTensor (T2 [[-2; 0]; [0; -1]]); OTensor (T2 [[-3; 0]; [0; 1]]);
             OKron (mkKron (Some 0%nat) (Some 1%nat) None None None None) ] in
  Kron_eigenvalues symeig_diag2 h 2%nat = Ok [-2 * -3; -1 * -3; -1 * 1; -2 * 1]
  /\ Kron_top_eigenvalue symeig_diag2 h 2%nat = Ok (-1 * 1).
Proof.
  cbv zeta. split.
  - unfold Kron_eigenvalues. simpl. rltb. simpl. rltb. simpl. rltb. reflexivity.
  - unfold Kron_top_eigenvalue. simpl.
    replace (Rmax (-2) (-1)) with (-1) by (symmetry; apply Rmax_right; lra).
    replace (Rmax (-3) 1) with 1 by (symmetry; apply Rmax_right; lra).
    reflexivity.
Qed.

(* ================================================================== *)
(** * Preconditioning the gradients of the modules *)
(* ================================================================== *)

(** What [KronBfgsGradientMaker.precondition] reads of a module:
    [module.weight.requires_grad], [module.weight.grad], [module.bias]
    ([None], or its [requires_grad] and [grad]) and the attribute
    [config.bfgs_attr] ([None] when the module has no such attribute).
    Gradients are tensors of the store. *)
Record module : Type := mkModule {
  weight_requires_grad : bool;
  weight_grad : option loc;
  module_bias : option (bool * option loc);
  module_bfgs : option loc
}.

(** [kron.mvp(vec_weight=..., vec_bias=..., use_inv=True, inplace=True)] on
    gradients held in the store: the tensors are overwritten with what
    [Kron.mvp] leaves in them. *)
Definition Kron_mvp_inplace (h : heap) (k vw : loc) (vb : option loc) : result heap :=
  tw <- get_tensor h vw ;;
  tb <- match vb with
        | Some b => t <- get_tensor h b ;; Ok (Some t)
        | None => Ok None
        end ;;
  '(h1, r) <- Kron_mvp h k tw tb true true ;;
  let h2 := store h1 vw (OTensor (arg_weight r)) in
  Ok match vb, arg_bias r with
     | Some b, Some t => store h2 b (OTensor t)
     | _, _ => h2
     end.

(** [KronBfgsGradientMaker.precondition(self, vec_weight, vec_bias)]: the
    loop over [self.modules].  [vec_weight] and [vec_bias] are the
    function's parameters, assigned in the loop. *)
Fixpoint precondition (h : heap) (modules : list module)
         (vec_weight vec_bias : option loc) : result heap :=
  match modules with
  | [] => Ok h
  | m :: rest =>
      matrix <- deref (module_bfgs m) ;;
      let vec_weight :=
        match vec_weight with
        | None => if weight_requires_grad m then weight_grad m else None
        | Some _ => vec_weight
        end in
      _ <- assert_ (is_some vec_weight) ;;
      vec_bias <- match module_bias m with
                  | Some (true, g) => _ <- assert_ (is_some g) ;; Ok g
                  | _ => Ok vec_bias
                  end ;;
      ss <- get_sym h matrix ;;
      k <- deref (SymMatrix_kron ss) ;;
      vw <- deref vec_weight ;;
      h' <- Kron_mvp_inplace h k vw vec_bias ;;
      precondition h' rest vec_weight vec_bias
  end.

Lemma Kron_B_dim_tensors (h h1 : heap) (self : loc) (d : option nat) (l : loc) :
  Kron_B_dim h self = Ok (h1, d) -> get_tensor h1 l = get_tensor h l.
Proof.
  unfold Kron_B_dim. intros H.
  apply bind_ok_inv in H as [ks [Ek H]].
  destruct (Kron__B_dim ks) as [n|]; [inversion H; reflexivity|].
  destruct (Kron_B ks) as [b|]; [|inversion H; reflexivity].
  apply bind_ok_inv in H as [B [_ H]]. apply bind_ok_inv in H as [n [_ H]].
  inversion H; subst. apply (get_tensor_store_kron _ _ _ _ _ Ek).
Qed.

Lemma Kron_mvp_tensors (h h1 : heap) (self : loc) (w : tensor) (b : option tensor)
      (use_inv inplace : bool) (r : mvp_result) (l : loc) :
  Kron_mvp h self w b use_inv inplace = Ok (h1, r) ->
  get_tensor h1 l = get_tensor h l.
Proof.
  unfold Kron_mvp. intros H.
  apply bind_ok_inv in H as [ks [_ H]].
  apply bind_ok_inv in H as [[h2 d] [Ed H]].
  pose proof (Kron_B_dim_tensors _ _ _ _ l Ed) as E.
  repeat (apply bind_ok_inv in H as [? [_ H]]).
  destruct b as [bias|].
  - apply bind_ok_inv in H as [? [_ H]]. inversion H; subst. exact E.
  - apply bind_ok_inv in H as [? [_ H]]. inversion H; subst. exact E.
Qed.

Lemma Kron_mvp_inplace_frame (h h' : heap) (k vw : loc) (vb : option loc) (l : loc) :
  Kron_mvp_inplace h k vw vb = Ok h' ->
  l <> vw -> (forall b, vb = Some b -> l <> b) ->
  get_tensor h' l = get_tensor h l.
Proof.
  unfold Kron_mvp_inplace. intros H Hw Hb.
  apply bind_ok_inv in H as [tw [_ H]].
  apply bind_ok_inv in H as [tb [_ H]].
  apply bind_ok_inv in H as [[h1 r] [E H]].
  pose proof (Kron_mvp_tensors _ _ _ _ _ _ _ _ l E) as E1.
  inversion H; subst h'; clear H.
  destruct vb as [b|]; [destruct (arg_bias r) as [t|]|].
  - rewrite !get_tensor_store_neq; auto.
    intros E'. apply (Hb b eq_refl). auto.
  - rewrite get_tensor_store_neq; auto.
  - rewrite get_tensor_store_neq; auto.
Qed.

(** Once [vec_weight] is set, the loop passes that one tensor to every
    [Kron.mvp]: the tensors that can change are [vec_weight], the initial
    [vec_bias] and the bias gradients of the modules. *)
Lemma precondition_frame (g1 : loc) (modules : list module) :
  forall (h h' : heap) (vb : option loc) (l : loc),
    precondition h modules (Some g1) vb = Ok h' ->
    l <> g1 -> (forall b, vb = Some b -> l <> b) ->
    (forall m g, In m modules -> module_bias m = Some (true, Some g) -> l <> g) ->
    get_tensor h' l = get_tensor h l.
Proof.
  induction modules as [|m rest IH]; intros h h' vb l H Hg Hb Hm.
  - inversion H; reflexivity.
  - cbn [precondition] in H.
    apply bind_ok_inv in H as [matrix [_ H]].
    apply bind_ok_inv in H as [? [_ H]].
    apply bind_ok_inv in H as [vb' [Evb H]].
    apply bind_ok_inv in H as [ss [_ H]].
    apply bind_ok_inv in H as [k [_ H]].
    cbn [deref bind] in H.
    apply bind_ok_inv in H as [h1 [E1 H]].
    assert (Hb' : forall b, vb' = Some b -> l <> b).
    { destruct (module_bias m) as [[[|] g]|] eqn:EB.
      - apply bind_ok_inv in Evb as [? [_ Evb]]. inversion Evb; subst vb'.
        intros b ->. apply (Hm m b (or_introl eq_refl) EB).
      - inversion Evb; subst vb'. exact Hb.
      - inversion Evb; subst vb'. exact Hb. }
    rewrite (IH _ _ _ _ H Hg Hb' (fun m' g Hin => Hm m' g (or_intror Hin))).
    apply (Kron_mvp_inplace_frame _ _ _ _ _ _ E1 Hg Hb').
Qed.

(** X21.  Called without arguments, [precondition] takes the weight gradient of
    the first module and never replaces it: every module's [Kron.mvp] is
    applied to that tensor.  The weight gradient of any later module (a
    tensor that is not the first weight gradient, nor the bias gradient of
    a module) is left as it was, not preconditioned. *)
Theorem precondition_reuses_first_weight (h h' : heap) (m1 : module)
        (rest : list module) (g1 l : loc) :
  weight_requires_grad m1 = true -> weight_grad m1 = Some g1 ->
  precondition h (m1 :: rest) None None = Ok h' ->
  l <> g1 ->
  (forall m g, In m (m1 :: rest) -> module_bias m = Some (true, Some g) -> l <> g) ->
  precondition h (m1 :: rest) (Some g1) None = Ok h'
  /\ get_tensor h' l = get_tensor h l.
Proof.
  intros Hrq Hgrad H Hl Hm.
  assert (E : precondition h (m1 :: rest) (Some g1) None = Ok h').
  { rewrite <- H. cbn [precondition]. rewrite Hrq, Hgrad. reflexivity. }
  split; [exact E|].
  apply (precondition_frame g1 (m1 :: rest) h h' None l E Hl); [discriminate | exact Hm].
Qed.

(** Two modules without bias that share one matrix (location 3); their
    weight gradients are the tensors 4 and 5. *)
Definition heap_prec : heap :=
  [ OTensor (T2 [[2]]); OTensor (T2 [[3]]);
    OKron (mkKron (Some 0%nat) (Some 1%nat) (Some 0%nat) (Some 1%nat) None None);
    OSym (mkSymMatrix None (Some 2%nat) None None None);
    OTensor (T2 [[1]]); OTensor (T2 [[7]]) ].

Definition modules_prec : list module :=
  [ mkModule true (Some 4%nat) None (Some 3%nat);
    mkModule true (Some 5%nat) None (Some 3%nat) ].

Lemma precondition_heap_prec :
  exists h', precondition heap_prec modules_prec None None = Ok h'.
Proof. eexists. reflexivity. Qed.

Lemma precondition_reuses_first_weight_witness :
  exists h',
    precondition heap_prec modules_prec None None = Ok h'
    /\ get_tensor h' 5%nat = Ok (T2 [[7]]).
Proof.
  destruct precondition_heap_prec as [h' E]. exists h'. split; [exact E|].
  apply (proj2 (precondition_reuses_first_weight heap_prec h'
                  (mkModule true (Some 4%nat) None (Some 3%nat))
                  [mkModule true (Some 5%nat) None (Some 3%nat)] 4%nat 5%nat
                  eq_refl eq_refl E ltac:(discriminate)
                  ltac:(intros m g [<-|[<-|[]]]; discriminate))).
Defined.

(* ================================================================== *)
(** * Flattening a matrix into a vector and back *)
(* ================================================================== *)

Definition opt_list {A : Type} (o : option A) : list (option A) :=
  match o with Some _ => [o] | None => [] end.

(** [Kron.data]: [[self.A, self.B]], [None] included. *)
Definition Kron_data (h : heap) (k : loc) : result (list (option tensor)) :=
  ks <- get_kron h k ;;
  a <- tensor_val h (Kron_A ks) ;;
  b <- tensor_val h (Kron_B ks) ;;
  Ok [a; b].

(** [Diag.data]: [[d for d in [self.weight, self.bias] if d is not None]]. *)
Definition Diag_data (h : heap) (g : loc) : result (list (option tensor)) :=
  ds <- get_diag h g ;;
  w <- tensor_val h (Diag_weight ds) ;;
  b <- tensor_val h (Diag_bias ds) ;;
  Ok (opt_list w ++ opt_list b).

(** Iterating over a tensor, as [list.extend] does: its slices along the
    first dimension; a 0-d tensor cannot be iterated. *)
Definition tensor_items (t : tensor) : result (list tensor) :=
  match t with
  | T0 _ => Err TypeError
  | T1 v => Ok (map T0 v)
  | T2 m => Ok (map T1 m)
  | T3 b => Ok (map T2 b)
  end.

(** [vec.extend(self.unit.data)]: [None] cannot be iterated. *)
Definition UnitWise_items (h : heap) (u : loc) : result (list (option tensor)) :=
  us <- get_unit h u ;;
  d <- tensor_val h (UnitWise_data us) ;;
  match d with
  | Some t => items <- tensor_items t ;; Ok (map (@Some tensor) items)
  | None => Err TypeError
  end.

(** [[v.flatten() for v in vec]]: [None] has no [flatten]. *)
Fixpoint flatten_all (l : list (option tensor)) : result (list vec) :=
  match l with
  | [] => Ok []
  | Some t :: r => vs <- flatten_all r ;; Ok (flatten t :: vs)
  | None :: _ => Err AttributeError
  end.

(** [SymMatrix.to_vector(self)]. *)
Definition SymMatrix_to_vector (h : heap) (self : loc) : result (list vec) :=
  ss <- get_sym h self ;;
  d <- tensor_val h (SymMatrix_data ss) ;;
  k <- match SymMatrix_kron ss with Some k => Kron_data h k | None => Ok [] end ;;
  g <- match SymMatrix_diag ss with Some g => Diag_data h g | None => Ok [] end ;;
  u <- match SymMatrix_unit ss with Some u => UnitWise_items h u | None => Ok [] end ;;
  flatten_all (opt_list d ++ k ++ g ++ u).

(** The local function [unflatten(mat, p)] of [SymMatrix.to_matrices]:
    [mat.copy_(vec[p:p + numel].view_as(mat))], and the pointer moved on.
    A slice that runs past the end of [vec] is shorter, and [view_as]
    refuses it. *)
Definition unflatten (vec : vec) (h : heap) (mat : loc) (p : nat)
  : result (heap * nat) :=
  t <- get_tensor h mat ;;
  let n := numel t in
  t' <- view_as [firstn n (skipn p vec)] t ;;
  Ok (store h mat (OTensor t'), (p + n)%nat).

Definition opt_unflatten (vec : vec) (h : heap) (o : option loc) (p : nat)
  : result (heap * nat) :=
  match o with
  | Some l => unflatten vec h l p
  | None => Ok (h, p)
  end.

(** [Kron.to_matrices(self, unflatten, pointer)]. *)
Definition Kron_to_matrices (vec : vec) (h : heap) (self : loc) (p : nat)
  : result (heap * nat) :=
  ks <- get_kron h self ;;
  a <- deref (Kron_A ks) ;;
  '(h1, p1) <- unflatten vec h a p ;;
  b <- deref (Kron_B ks) ;;
  unflatten vec h1 b p1.

(** [Diag.to_matrices(self, unflatten, pointer)]. *)
Definition Diag_to_matrices (vec : vec) (h : heap) (self : loc) (p : nat)
  : result (heap * nat) :=
  ds <- get_diag h self ;;
  '(h1, p1) <- opt_unflatten vec h (Diag_weight ds) p ;;
  opt_unflatten vec h1 (Diag_bias ds) p1.

(** [UnitWise.to_matrices(self, unflatten, pointer)]. *)
Definition UnitWise_to_matrices (vec : vec) (h : heap) (self : loc) (p : nat)
  : result (heap * nat) :=
  us <- get_unit h self ;;
  opt_unflatten vec h (UnitWise_data us) p.

(** [SymMatrix.to_matrices(self, vec, pointer)] for a 1-D [vec]. *)
Definition SymMatrix_to_matrices (vec : vec) (h : heap) (self : loc) (pointer : nat)
  : result (heap * nat) :=
  ss <- get_sym h self ;;
  '(h1, p1) <- opt_unflatten vec h (SymMatrix_data ss) pointer ;;
  '(h2, p2) <- match SymMatrix_kron ss with
               | Some k => Kron_to_matrices vec h1 k p1
               | None => Ok (h1, p1)
               end ;;
  '(h3, p3) <- match SymMatrix_diag ss with
               | Some g => Diag_to_matrices vec h2 g p2
               | None => Ok (h2, p2)
               end ;;
  match SymMatrix_unit ss with
  | Some u => UnitWise_to_matrices vec h3 u p3
  | None => Ok (h3, p3)
  end.

(** Tensors as torch has them: every row of a matrix has the same length,
    every block of a batch the same shape. *)
Definition wf_tensor (t : tensor) : Prop :=
  match t with
  | T0 _ | T1 _ => True
  | T2 m => is_rect (length m) (ncols m) m
  | T3 b => Forall (is_rect (length (hd [] b)) (ncols (hd [] b))) b
  end.

Definition heap_wf (h : heap) : Prop :=
  forall l t, get_tensor h l = Ok t -> wf_tensor t.

Lemma numel_flatten (t : tensor) : numel t = length (flatten t).
Proof. destruct t; reflexivity. Qed.

Lemma skipn_add_app {A : Type} (l1 l2 : list A) (n : nat) :
  skipn (length l1 + n) (l1 ++ l2) = skipn n l2.
Proof. induction l1 as [|x l1 IH]; simpl; [reflexivity | exact IH]. Qed.

Lemma firstn_app_exact {A : Type} (l1 l2 : list A) (n : nat) :
  length l1 = n -> firstn n (l1 ++ l2) = l1.
Proof. intros <-. apply firstn_length_app. Qed.

(** Cutting the flattened batch into blocks again. *)
Lemma blocks_of_flat (r c : nat) (b : list mat) :
  Forall (is_rect r c) b ->
  map (fun k => chunks c (firstn (r * c) (skipn (k * (r * c)) (concat (concat b)))) r)
      (seq 0 (length b)) = b.
Proof.
  intros F. induction F as [|m b Hm F IH]; [reflexivity|].
  cbn [length seq map]. rewrite <- seq_shift, map_map.
  pose proof (length_concat_rect _ _ _ Hm) as Lm.
  f_equal.
  - cbn [Nat.mul skipn concat]. rewrite concat_app.
    rewrite (firstn_app_exact _ _ _ Lm). apply (chunks_concat _ _ _ Hm).
  - rewrite <- IH at 2. apply map_ext. intros k.
    cbn [concat]. rewrite concat_app.
    replace (S k * (r * c))%nat with (length (concat m) + k * (r * c))%nat
      by (rewrite Lm; simpl; lia).
    rewrite skipn_add_app. reflexivity.
Qed.

Lemma view_as_flatten (t : tensor) :
  wf_tensor t -> view_as [flatten t : list R] t = Ok t.
Proof.
  intros W. unfold view_as. cbn [concat]. rewrite app_nil_r.
  rewrite numel_flatten, Nat.eqb_refl.
  destruct t as [x|v|m|b]; cbn [flatten hd]; try reflexivity.
  - simpl in W. rewrite (chunks_concat _ _ _ W). reflexivity.
  - simpl in W. rewrite (blocks_of_flat _ _ _ W). reflexivity.
Qed.

Lemma set_nth_same {A : Type} (l : list A) (i : nat) (x : A) :
  nth_error l i = Some x -> set_nth l i x = l.
Proof.
  revert i; induction l as [|y l IH]; intros [|i] H; simpl in *;
    try discriminate.
  - inversion H; reflexivity.
  - rewrite (IH _ H). reflexivity.
Qed.

(** Writing back what was read: [unflatten] at the place of the flattened
    tensor leaves the store as it is and moves the pointer past it. *)
Lemma unflatten_id (h : heap) (l : loc) (t : tensor) (pre post : vec) :
  get_tensor h l = Ok t -> wf_tensor t ->
  unflatten (pre ++ flatten t ++ post) h l (length pre)
  = Ok (h, length (pre ++ flatten t)).
Proof.
  intros G W. unfold unflatten. rewrite G. cbn [bind].
  rewrite skipn_length_app, numel_flatten, firstn_length_app.
  rewrite (view_as_flatten _ W). cbn [bind].
  unfold store. rewrite (set_nth_same _ _ _ (get_tensor_nth _ _ _ G)).
  rewrite length_app. reflexivity.
Qed.

Lemma concat_map_singleton {A : Type} (v : list A) :
  concat (map (fun x => [x]) v) = v.
Proof. induction v as [|x v IH]; simpl; [|rewrite IH]; reflexivity. Qed.

(** The slices of a tensor, flattened one after the other, are the
    flattened tensor. *)
Lemma tensor_items_flatten (t : tensor) (items : list tensor) :
  tensor_items t = Ok items -> concat (map flatten items) = flatten t.
Proof.
  destruct t as [x|v|m|b]; simpl; intros H; inversion H; subst; clear H.
  - rewrite map_map. apply concat_map_singleton.
  - rewrite map_map. cbn [flatten]. rewrite map_id. reflexivity.
  - rewrite map_map. cbn [flatten].
    induction b as [|m b IH]; simpl; [reflexivity|].
    rewrite concat_app, IH. reflexivity.
Qed.

Lemma flatten_all_app (l1 l2 : list (option tensor)) (vs : list vec) :
  flatten_all (l1 ++ l2) = Ok vs ->
  exists v1 v2, flatten_all l1 = Ok v1 /\ flatten_all l2 = Ok v2 /\ vs = v1 ++ v2.
Proof.
  revert vs; induction l1 as [|[t|] l1 IH]; intros vs H; simpl in *.
  - exists [], vs. auto.
  - apply bind_ok_inv in H as [vs' [E H]]. inversion H; subst; clear H.
    destruct (IH _ E) as (v1 & v2 & E1 & E2 & ->).
    exists (flatten t :: v1), v2. rewrite E1. auto.
  - discriminate.
Qed.

Lemma flatten_all_map_some (items : list tensor) :
  flatten_all (map (@Some tensor) items) = Ok (map flatten items).
Proof.
  induction items as [|t items IH]; simpl; [reflexivity|].
  rewrite IH. reflexivity.
Qed.

Definition flat_opt (v : option tensor) : vec :=
  match v with Some t => flatten t | None => [] end.

Lemma flatten_all_opt_list (v : option tensor) :
  flatten_all (opt_list v) = Ok (match v with Some t => [flatten t] | None => [] end).
Proof. destruct v; reflexivity. Qed.

Lemma unflatten_at (h : heap) (l : loc) (t : tensor) (vec pre post : vec) (p : nat) :
  get_tensor h l = Ok t -> wf_tensor t ->
  vec = pre ++ flatten t ++ post -> p = length pre ->
  unflatten vec h l p = Ok (h, (p + length (flatten t))%nat).
Proof.
  intros G W -> ->. rewrite (unflatten_id _ _ _ _ _ G W), length_app. reflexivity.
Qed.

Lemma opt_unflatten_at (h : heap) (o : option loc) (v : option tensor)
      (vec pre post : vec) (p : nat) :
  heap_wf h -> tensor_val h o = Ok v ->
  vec = pre ++ flat_opt v ++ post -> p = length pre ->
  opt_unflatten vec h o p = Ok (h, (p + length (flat_opt v))%nat).
Proof.
  intros W Hv E Hp. destruct o as [l|]; simpl in Hv.
  - apply bind_ok_inv in Hv as [t [G Hv]]. inversion Hv; subst v.
    apply (unflatten_at _ _ _ _ pre post _ G (W _ _ G) E Hp).
  - inversion Hv; subst v. simpl. rewrite Nat.add_0_r. reflexivity.
Qed.

Lemma Kron_to_matrices_at (h : heap) (k : loc) (items : list (option tensor))
      (vs : list vec) (vec pre post : vec) (p : nat) :
  heap_wf h -> Kron_data h k = Ok items -> flatten_all items = Ok vs ->
  vec = pre ++ concat vs ++ post -> p = length pre ->
  Kron_to_matrices vec h k p = Ok (h, (p + length (concat vs))%nat).
Proof.
  intros W Hd Hf E Hp. unfold Kron_data in Hd.
  apply bind_ok_inv in Hd as [ks [Gk Hd]].
  apply bind_ok_inv in Hd as [a [Ga Hd]].
  apply bind_ok_inv in Hd as [b [Gb Hd]]. inversion Hd; subst items; clear Hd.
  destruct a as [tA|]; [|discriminate]. destruct b as [tB|]; [|discriminate].
  simpl in Hf. inversion Hf; subst vs; clear Hf.
  apply tensor_val_some_inv in Ga as (la & EA & GA).
  apply tensor_val_some_inv in Gb as (lb & EB & GB).
  unfold Kron_to_matrices. rewrite Gk. cbn [bind]. rewrite EA, EB.
  cbn [deref bind concat] in *. rewrite app_nil_r in *.
  rewrite (unflatten_at h la tA vec pre (flatten tB ++ post) p GA (W _ _ GA)).
  - cbn [bind].
    rewrite (unflatten_at h lb tB vec (pre ++ flatten tA) post _ GB (W _ _ GB)).
    + rewrite length_app, Nat.add_assoc. reflexivity.
    + rewrite E, <- !app_assoc. reflexivity.
    + rewrite length_app, Hp. reflexivity.
  - rewrite E, <- !app_assoc. reflexivity.
  - exact Hp.
Qed.

Lemma Diag_to_matrices_at (h : heap) (g : loc) (items : list (option tensor))
      (vs : list vec) (vec pre post : vec) (p : nat) :
  heap_wf h -> Diag_data h g = Ok items -> flatten_all items = Ok vs ->
  vec = pre ++ concat vs ++ post -> p = length pre ->
  Diag_to_matrices vec h g p = Ok (h, (p + length (concat vs))%nat).
Proof.
  intros W Hd Hf E Hp. unfold Diag_data in Hd.
  apply bind_ok_inv in Hd as [ds [Gd Hd]].
  apply bind_ok_inv in Hd as [w [Gw Hd]].
  apply bind_ok_inv in Hd as [b [Gb Hd]]. inversion Hd; subst items; clear Hd.
  assert (Ev : concat vs = flat_opt w ++ flat_opt b).
  { destruct w, b; simpl in Hf; inversion Hf; subst; simpl;
      rewrite ?app_nil_r; reflexivity. }
  rewrite Ev in *.
  unfold Diag_to_matrices. rewrite Gd. cbn [bind].
  rewrite (opt_unflatten_at h _ w vec pre (flat_opt b ++ post) p W Gw).
  - cbn [bind].
    rewrite (opt_unflatten_at h _ b vec (pre ++ flat_opt w) post _ W Gb).
    + rewrite length_app, Nat.add_assoc. reflexivity.
    + rewrite E, <- !app_assoc. reflexivity.
    + rewrite length_app, Hp. reflexivity.
  - rewrite E, <- !app_assoc. reflexivity.
  - exact Hp.
Qed.

Lemma UnitWise_to_matrices_at (h : heap) (u : loc) (items : list (option tensor))
      (vs : list vec) (vec pre post : vec) (p : nat) :
  heap_wf h -> UnitWise_items h u = Ok items -> flatten_all items = Ok vs ->
  vec = pre ++ concat vs ++ post -> p = length pre ->
  UnitWise_to_matrices vec h u p = Ok (h, (p + length (concat vs))%nat).
Proof.
  intros W Hd Hf E Hp. unfold UnitWise_items in Hd.
  apply bind_ok_inv in Hd as [us [Gu Hd]].
  apply bind_ok_inv in Hd as [d [Gd Hd]].
  destruct d as [t|]; [|discriminate].
  apply bind_ok_inv in Hd as [its [Ei Hd]]. inversion Hd; subst items; clear Hd.
  rewrite flatten_all_map_some in Hf. inversion Hf; subst vs; clear Hf.
  rewrite (tensor_items_flatten _ _ Ei) in *.
  unfold UnitWise_to_matrices. rewrite Gu. cbn [bind].
  apply (opt_unflatten_at h _ (Some t) vec pre post p W Gd E Hp).
Qed.

(** X22.  Round trip: [to_matrices] on the concatenation of what [to_vector]
    returned, read at the place where it starts in a longer vector, leaves
    every tensor of the store as it is and returns the pointer moved past
    it. *)
Theorem SymMatrix_to_vector_to_matrices (h : heap) (self : loc) (vs : list vec)
        (pre post : vec) :
  heap_wf h ->
  SymMatrix_to_vector h self = Ok vs ->
  SymMatrix_to_matrices (pre ++ concat vs ++ post) h self (length pre)
  = Ok (h, (length pre + length (concat vs))%nat).
Proof.
  intros W H. unfold SymMatrix_to_vector in H.
  apply bind_ok_inv in H as [ss [Gs H]].
  apply bind_ok_inv in H as [d [Gd H]].
  apply bind_ok_inv in H as [ik [Gk H]].
  apply bind_ok_inv in H as [ig [Gg H]].
  apply bind_ok_inv in H as [iu [Gu H]].
  apply flatten_all_app in H as (vd & v1 & Fd & H & ->).
  apply flatten_all_app in H as (vk & v2 & Fk & H & ->).
  apply flatten_all_app in H as (vg & vu & Fg & Fu & ->).
  rewrite !concat_app.
  assert (Ed : concat vd = flat_opt d).
  { rewrite flatten_all_opt_list in Fd. inversion Fd; subst vd.
    destruct d; simpl; rewrite ?app_nil_r; reflexivity. }
  rewrite Ed.
  set (D := flat_opt d). set (K := concat vk). set (G := concat vg).
  set (U := concat vu).
  set (vec := pre ++ (D ++ K ++ G ++ U) ++ post).
  unfold SymMatrix_to_matrices. rewrite Gs. cbn [bind].
  rewrite (opt_unflatten_at h _ d vec pre (K ++ G ++ U ++ post) _ W Gd);
    [| unfold vec; rewrite <- !app_assoc; reflexivity | reflexivity].
  cbn [bind]. fold D.
  assert (Sk : match SymMatrix_kron ss with
               | Some k => Kron_to_matrices vec h k (length pre + length D)
               | None => Ok (h, (length pre + length D)%nat)
               end = Ok (h, (length pre + length D + length K)%nat)).
  { destruct (SymMatrix_kron ss) as [k|].
    - apply (Kron_to_matrices_at h k ik vk vec (pre ++ D) (G ++ U ++ post) _ W Gk Fk).
      + unfold vec, K. rewrite <- !app_assoc. reflexivity.
      + rewrite length_app. reflexivity.
    - inversion Gk; subst ik. inversion Fk; subst vk.
      unfold K. simpl. rewrite Nat.add_0_r. reflexivity. }
  rewrite Sk. cbn [bind].
  assert (Sg : match SymMatrix_diag ss with
               | Some g => Diag_to_matrices vec h g (length pre + length D + length K)
               | None => Ok (h, (length pre + length D + length K)%nat)
               end = Ok (h, (length pre + length D + length K + length G)%nat)).
  { destruct (SymMatrix_diag ss) as [g|].
    - apply (Diag_to_matrices_at h g ig vg vec (pre ++ D ++ K) (U ++ post) _ W Gg Fg).
      + unfold vec, G. rewrite <- !app_assoc. reflexivity.
      + rewrite !length_app. lia.
    - inversion Gg; subst ig. inversion Fg; subst vg.
      unfold G. simpl. rewrite Nat.add_0_r. reflexivity. }
  rewrite Sg. cbn [bind].
  assert (Su : match SymMatrix_unit ss with
               | Some u => UnitWise_to_matrices vec h u
                             (length pre + length D + length K + length G)
               | None => Ok (h, (length pre + length D + length K + length G)%nat)
               end
               = Ok (h, (length pre + length D + length K + length G + length U)%nat)).
  { destruct (SymMatrix_unit ss) as [u|].
    - apply (UnitWise_to_matrices_at h u iu vu vec (pre ++ D ++ K ++ G) post _ W Gu Fu).
      + unfold vec, U. rewrite <- !app_assoc. reflexivity.
      + rewrite !length_app. lia.
    - inversion Gu; subst iu. inversion Fu; subst vu.
      unfold U. simpl. rewrite Nat.add_0_r. reflexivity. }
  rewrite Su. do 2 f_equal. rewrite !length_app. lia.
Qed.

Lemma heap_ema_wf : heap_wf heap_ema.
Proof.
  intros l t H.
  do 9 (destruct l as [|l];
        [cbv in H;
         first [ discriminate
               | inversion H; subst; split; [reflexivity | repeat constructor] ]|]).
  destruct l; discriminate.
Qed.

Lemma SymMatrix_to_vector_to_matrices_witness :
  SymMatrix_to_vector heap_ema 4%nat = Ok [[1]; [2]]
  /\ SymMatrix_to_matrices ([9] ++ concat [[1]; [2]] ++ []) heap_ema 4%nat 1
     = Ok (heap_ema, (1 + 2)%nat).
Proof.
  split; [reflexivity|].
  apply (SymMatrix_to_vector_to_matrices heap_ema 4%nat [[1]; [2]] [9] []
           heap_ema_wf).
  reflexivity.
Defined.

(* ================================================================== *)
(** * Packing a matrix that is not symmetric *)
(* ================================================================== *)

(** X23.  [matrix_to_tril] reads the lower triangle only.  For any square
    matrix, packing and unpacking returns the symmetric matrix that has
    the lower triangle of the input: what stood above the diagonal is
    replaced by the mirror image of what stands below it. *)
Theorem tril_round_trip_lower (n : nat) (M : mat) :
  is_rect n n M ->
  exists M',
    (tril <- matrix_to_tril (T2 M) ;; tril_to_matrix tril) = Ok (T2 M')
    /\ is_symmetric n M'
    /\ forall i j, (i < n)%nat -> (j <= i)%nat -> mget M' i j = mget M i j.
Proof.
  intros HM.
  unfold matrix_to_tril. cbn [ndim Nat.eqb assert_ bind].
  rewrite (is_rect_ncols_sq HM). destruct HM as [LM FM]. rewrite LM.
  assert (HM : is_rect n n M) by (split; assumption).
  set (g := fun ij : nat * nat => mget M (fst ij) (snd ij)).
  unfold tril_to_matrix. cbn [ndim Nat.eqb assert_ bind].
  rewrite (@get_n_cols_by_tril_tri _ n)
    by (rewrite length_map; apply length_tril_indices).
  cbn [bind]. unfold index_put.
  rewrite length_map, Nat.eqb_refl.
  assert (HZ : is_rect n n (zeros n n)) by apply mk_mat_rect.
  rewrite (tril_indices_in_range HZ).
  rewrite combine_map_self.
  destruct (@scatter_spec n g (tril_indices n n) (zeros n n) HZ)
    as [Hrect [Hyes Hno]].
  { intros i j Hin. apply in_tril_indices in Hin. lia. }
  set (rst := fold_left _ _ _) in *.
  cbn [bind].
  pose proof (transpose_rect_sq Hrect) as HT.
  pose proof (diag_of_vec_mat_rect Hrect) as HD.
  unfold tensor_add, tensor_sub_alpha, tensor_zip.
  rewrite (same_shapeb_T2 Hrect HT). cbn [bind tzip].
  rewrite (same_shapeb_T2 (zipw2_rect Rplus Hrect HT) HD).
  set (M' := zipw _ _ _).
  assert (HM' : is_rect n n M')
    by (apply zipw2_rect; [apply zipw2_rect|]; assumption).
  assert (EM : forall i j, (i < n)%nat -> (j < n)%nat ->
             mget M' i j = mget rst i j + mget rst j i
                           - 1 * (if Nat.eqb i j then mget rst i i else 0)).
  { intros i j Hi Hj. subst M'.
    rewrite (mget_zipw2 _ (zipw2_rect Rplus Hrect HT) HD Hi Hj).
    rewrite (mget_zipw2 _ Hrect HT Hi Hj).
    rewrite (mget_transpose Hrect Hi Hj).
    rewrite (mget_diag_of_vec_mat Hrect Hi Hj). reflexivity. }
  assert (Hlow : forall a b, (a < n)%nat -> (b <= a)%nat -> mget rst a b = mget M a b).
  { intros a b Ha Hb. rewrite Hyes; [reflexivity|]. apply in_tril_indices; lia. }
  assert (Hup : forall a b, (a < b)%nat -> mget rst a b = 0).
  { intros a b Hab. rewrite Hno; [apply mget_zeros_any|].
    intros Hin. apply in_tril_indices in Hin. lia. }
  exists M'. split; [reflexivity|]. split; [split; [exact HM'|]|].
  - intros i j Hi Hj. rewrite !EM by assumption.
    rewrite (Nat.eqb_sym j i).
    destruct (Nat.eqb_spec i j) as [->|Hne]; ring.
  - intros i j Hi Hj. rewrite EM by lia.
    destruct (Nat.eqb_spec i j) as [->|Hne].
    + rewrite Hlow by lia. ring.
    + rewrite (Hup j i) by lia. rewrite Hlow by lia. ring.
Qed.

Lemma tril_round_trip_lower_witness :
  exists M',
    (tril <- matrix_to_tril (T2 [[1; 9]; [2; 3]]) ;; tril_to_matrix tril) = Ok (T2 M')
    /\ is_symmetric 2 M'
    /\ forall i j, (i < 2)%nat -> (j <= i)%nat ->
         mget M' i j = mget [[1; 9]; [2; 3]] i j.
Proof.
  apply (tril_round_trip_lower 2 [[1; 9]; [2; 3]]).
  split; [reflexivity | repeat constructor].
Defined.

(* ================================================================== *)
(** * Which sums return an operand *)
(* ================================================================== *)

(** X24.  [Diag.__add__] always builds a new [Diag], whose cached inverses are
    [None], even when the other operand holds nothing; [UnitWise.__add__]
    (like [Kron.__add__]) returns the receiver itself in that case, cached
    inverse included. *)
Theorem Diag_add_always_new (h h' : heap) (self other r : loc) :
  (Diag_add h self other = Ok (h', r) ->
   (length h <= r)%nat
   /\ exists d, get_diag h' r = Ok d
                /\ Diag_weight_inv d = None /\ Diag_bias_inv d = None)
  /\ (forall uo, get_unit h other = Ok uo -> UnitWise_data uo = None ->
        UnitWise_add h self other = Ok (h, self)).
Proof.
  split.
  - unfold Diag_add. intros H.
    apply bind_ok_inv in H as [dt [_ H]]. apply bind_ok_inv in H as [ds [_ H]].
    apply bind_ok_inv in H as [[h1 w] [E1 H]].
    apply bind_ok_inv in H as [[h2 b] [E2 H]].
    unfold opt_add_new in E1, E2.
    apply (opt_combine_inv _ _ _ _ _ _ tensor_add_new_extends) in E1 as [X1 _].
    apply (opt_combine_inv _ _ _ _ _ _ tensor_add_new_extends) in E2 as [X2 _].
    unfold Diag_init, alloc in H. inversion H; subst h' r; clear H.
    split.
    + apply extends_length. exact (extends_trans _ _ _ X1 X2).
    + eexists. split.
      * unfold get_diag. rewrite nth_error_app2, Nat.sub_diag by lia. reflexivity.
      * auto.
  - intros uo Gu Hd. unfold UnitWise_add. rewrite Gu. cbn [bind]. rewrite Hd.
    reflexivity.
Qed.

Lemma Diag_add_always_new_witness :
  exists h' r d,
    Diag_add heap_diag 2%nat 2%nat = Ok (h', r)
    /\ (3 <= r)%nat /\ get_diag h' r = Ok d
    /\ Diag_weight_inv d = None /\ Diag_bias_inv d = None.
Proof.
  assert (E : exists h' r, Diag_add heap_diag 2%nat 2%nat = Ok (h', r))
    by (eexists _, _; reflexivity).
  destruct E as (h' & r & E).
  destruct (proj1 (Diag_add_always_new heap_diag h' 2%nat 2%nat r) E)
    as (L & d & G & W & B).
  exists h', r, d. auto.
Defined.

(* ================================================================== *)
(** * The damped inverse of the dense representation *)
(* ================================================================== *)

Section DenseInverse.

(** [torch.inverse] on a batch of square matrices.  The solver is outside
    the modelled code. *)
Variable torch_inverse : tensor -> result tensor.

(** [UnitWise.update_inv(self, damping)]:
    [dmp = torch.eye(w, h).repeat(f, 1, 1) * damping] is added to the
    data. *)
Definition UnitWise_update_inv (h : heap) (self : loc) (damping : R) : result heap :=
  us <- get_unit h self ;;
  _ <- assert_ (UnitWise_has_data us) ;;
  d <- deref (UnitWise_data us) ;;
  data <- get_tensor h d ;;
  match data with
  | T3 blocks =>
      let f := length blocks in
      let w := length (hd [] blocks) in
      let hh := ncols (hd [] blocks) in
      let eye := mk_mat w hh (fun i j => (if Nat.eqb i j then 1 else 0) * damping) in
      sum <- tensor_add data (T3 (repeat eye f)) ;;
      inv <- torch_inverse sum ;;
      let '(h1, l) := alloc h (OTensor inv) in
      Ok (store h1 self (OUnit (mkUnitWise (UnitWise_data us) (Some l))))
  | _ => Err IndexError
  end.

(** [SymMatrix.update_inv(self, damping)]. *)
Definition SymMatrix_update_inv (h : heap) (self : loc) (damping : R) : result heap :=
  ss <- get_sym h self ;;
  h1 <- match SymMatrix_data ss with
        | Some d =>
            data <- get_tensor h d ;;
            damped <- add_value_to_diagonal data damping ;;
            inv <- cholesky_inv damped ;;
            let '(h', l) := alloc h (OTensor inv) in
            Ok (store h' self
                  (OSym (mkSymMatrix (SymMatrix_data ss) (SymMatrix_kron ss)
                                     (SymMatrix_diag ss) (SymMatrix_unit ss)
                                     (Some l))))
        | None => Ok h
        end ;;
  ss1 <- get_sym h1 self ;;
  h2 <- match SymMatrix_kron ss1 with
        | Some k => Kron_update_inv h1 k damping default_eps
        | None => Ok h1
        end ;;
  ss2 <- get_sym h2 self ;;
  h3 <- match SymMatrix_diag ss2 with
        | Some g => Diag_update_inv h2 g damping
        | None => Ok h2
        end ;;
  ss3 <- get_sym h3 self ;;
  match SymMatrix_unit ss3 with
  | Some u => UnitWise_update_inv h3 u damping
  | None => Ok h3
  end.

End DenseInverse.

Lemma add_value_to_diagonal_scalar (n : nat) (c d : R) :
  add_value_to_diagonal (T2 (scalar_mat n c)) d = Ok (T2 (scalar_mat n (c + d))).
Proof.
  unfold add_value_to_diagonal.
  pose proof (scalar_mat_rect n c) as HI.
  rewrite (is_rect_ncols_sq HI). destruct HI as [L F]. rewrite L.
  do 2 f_equal.
  apply (@mat_ext n n); [apply mk_mat_rect | apply scalar_mat_rect |].
  intros i j Hi Hj. unfold scalar_mat.
  rewrite !mget_mk_mat by assumption.
  destruct (Nat.eqb i j); ring.
Qed.

Lemma mv_scalar_mat (n : nat) (k : R) (y : vec) :
  length y = n -> mv (scalar_mat n k) y = map (fun x => k * x) y.
Proof.
  intros L. pose proof (scalar_mat_rect n k) as HI. apply vec_ext.
  - rewrite mv_length, length_map. destruct HI; congruence.
  - intros i Hi. rewrite mv_length in Hi.
    assert (Hin : (i < n)%nat) by (destruct HI; lia).
    rewrite mv_nth; [| destruct HI; lia | rewrite (is_rect_row HI Hin); congruence].
    rewrite L.
    rewrite (@rsum_ext _ _ _ (fun j => if Nat.eqb i j then k * nth j y 0 else 0)).
    + rewrite rsum_delta by lia.
      rewrite (nth_map' (fun x => k * x) y 0 0) by lia. reflexivity.
    + intros j Hj. unfold scalar_mat. rewrite mget_mk_mat by lia.
      destruct (Nat.eqb i j); ring.
Qed.

Lemma get_sym_store_eq (h : heap) (l : loc) (s s' : SymMatrix) :
  get_sym h l = Ok s -> get_sym (store h l (OSym s')) l = Ok s'.
Proof.
  unfold get_sym, store. rewrite nth_error_set_nth_eq.
  destruct (nth_error h l) as [[]|]; try discriminate. reflexivity.
Qed.

Lemma get_sym_valid (h : heap) (l : loc) (s : SymMatrix) :
  get_sym h l = Ok s -> (l < length h)%nat.
Proof.
  unfold get_sym. destruct (nth_error h l) as [o|] eqn:E; [|discriminate].
  intros _. apply nth_error_Some. congruence.
Qed.

(** X25.  A dense matrix [c I] gets the whole damping: [SymMatrix.update_inv]
    stores [(c + damping)^-1 I], and the layer-wise product with
    [use_inv] divides a gradient by [c + damping].  (For a Kronecker pair
    the damping is split between the two factors instead.) *)
Theorem SymMatrix_update_inv_dense (torch_inverse : tensor -> result tensor)
        (h : heap) (self d : loc) (ss : SymMatrix) (n : nat) (c damping : R)
        (v : vec) :
  get_sym h self = Ok ss ->
  SymMatrix_data ss = Some d -> SymMatrix_kron ss = None ->
  SymMatrix_diag ss = None -> SymMatrix_unit ss = None ->
  get_tensor h d = Ok (T2 (scalar_mat n c)) ->
  0 < c + damping -> length v = n ->
  exists h',
    SymMatrix_update_inv torch_inverse h self damping = Ok h'
    /\ get_tensor h' (length h) = Ok (T2 (scalar_mat n (/ (c + damping))))
    /\ SymMatrix_mvp h' self (Some (T1 v)) None true false
       = Ok (mkDiagMvp [T1 (map (fun x => / (c + damping) * x) v)]
                       (Some (T1 v)) None).
Proof.
  intros Gs Ed Ek Eg Eu Gd Hpos Lv.
  pose proof (get_sym_valid _ _ _ Gs) as Hself.
  set (inv := scalar_mat n (/ (c + damping))).
  set (s1 := mkSymMatrix (Some d) None None None (Some (length h))).
  set (h1 := store (h ++ [OTensor (T2 inv)]) self (OSym s1)).
  assert (G1 : get_sym h1 self = Ok s1).
  { apply (get_sym_store_eq _ _ ss). apply get_sym_ext. exact Gs. }
  assert (Gi : get_tensor h1 (length h) = Ok (T2 inv)).
  { unfold h1. rewrite get_tensor_store_neq by lia. unfold get_tensor.
    rewrite nth_error_app2, Nat.sub_diag by lia. reflexivity. }
  exists h1. split; [|split; [exact Gi|]].
  - unfold SymMatrix_update_inv. rewrite Gs. cbn [bind]. rewrite Ed, Gd.
    cbn [bind]. rewrite add_value_to_diagonal_scalar. cbn [bind].
    rewrite (cholesky_inv_scalar n (c + damping) Hpos). cbn [bind alloc].
    rewrite Ek, Eg, Eu. fold inv.
    match goal with |- context [get_sym ?X self] => change X with h1 end.
    rewrite G1. cbn [bind SymMatrix_kron s1].
    rewrite G1. cbn [bind SymMatrix_diag s1].
    rewrite G1. cbn [bind SymMatrix_unit s1]. reflexivity.
  - unfold SymMatrix_mvp. rewrite G1.
    cbn [bind SymMatrix_inv s1 is_some orb assert_ opt_tensor flatten].
    rewrite Gi. cbn [bind torch_mv]. rewrite app_nil_r, Lv. unfold inv.
    rewrite (is_rect_rowsb (scalar_mat_rect n (/ (c + damping)))).
    cbn [bind as_vec]. rewrite (mv_scalar_mat _ _ _ Lv).
    unfold view_as. cbn [concat numel]. rewrite app_nil_r, length_map, Nat.eqb_refl.
    reflexivity.
Qed.

Lemma SymMatrix_update_inv_dense_witness :
  exists h',
    SymMatrix_update_inv (fun t => Ok t) heap_dense 1%nat 1 = Ok h'
    /\ get_tensor h' 2%nat = Ok (T2 (scalar_mat 3 (/ (1 + 1))))
    /\ SymMatrix_mvp h' 1%nat (Some (T1 [2; 4; 6])) None true false
       = Ok (mkDiagMvp [T1 (map (fun x => / (1 + 1) * x) [2; 4; 6])]
                       (Some (T1 [2; 4; 6])) None).
Proof.
  apply (SymMatrix_update_inv_dense (fun t => Ok t) heap_dense 1%nat 0%nat _ 3 1 1
           [2; 4; 6] eq_refl eq_refl eq_refl eq_refl eq_refl eq_refl).
  - lra.
  - reflexivity.
Defined.

(* ================================================================== *)
(** * The sum of two Kronecker pairs *)
(* ================================================================== *)

(** X26.  [Kron.__add__] adds the factors: the pair it returns stands for
    [(A + A') (x) (B + B')], which is the sum of the four products of a
    factor [A] or [A'] with a factor [B] or [B'], not the sum
    [A (x) B + A' (x) B'] of the two matrices the operands stand for. *)
Theorem Kron_add_adds_factors (h : heap) (x y a b a' b' : loc) (kx ky : Kron)
        (dA dB : nat) (A B A' B' : mat) :
  get_kron h x = Ok kx -> Kron_A kx = Some a -> Kron_B kx = Some b ->
  get_kron h y = Ok ky -> Kron_A ky = Some a' -> Kron_B ky = Some b' ->
  get_tensor h a = Ok (T2 A) -> get_tensor h b = Ok (T2 B) ->
  get_tensor h a' = Ok (T2 A') -> get_tensor h b' = Ok (T2 B') ->
  is_rect dA dA A -> is_rect dA dA A' -> is_rect dB dB B -> is_rect dB dB B' ->
  exists h' r lA lB A2 B2,
    Kron_add h x y = Ok (h', r)
    /\ get_kron h' r = Ok (mkKron (Some lA) (Some lB) None None None None)
    /\ get_tensor h' lA = Ok (T2 A2) /\ get_tensor h' lB = Ok (T2 B2)
    /\ kron_prod A2 B2
       = zipw (zipw Rplus)
              (zipw (zipw Rplus) (kron_prod A B) (kron_prod A B'))
              (zipw (zipw Rplus) (kron_prod A' B) (kron_prod A' B')).
Proof.
  intros Gx XA XB Gy YA YB Ga Gb Ga' Gb' HA HA' HB HB'.
  set (A2 := zipw (zipw Rplus) A A'). set (B2 := zipw (zipw Rplus) B B').
  set (h1 := h ++ [OTensor (T2 A2)]).
  set (h2 := h1 ++ [OTensor (T2 B2)]).
  set (K := mkKron (Some (length h)) (Some (length h1)) None None None None).
  exists (h2 ++ [OKron K]), (length h2), (length h), (length h1), A2, B2.
  assert (L1 : length h1 = S (length h))
    by (unfold h1; rewrite length_app; simpl; lia).
  assert (L2 : length h2 = S (S (length h)))
    by (unfold h2; rewrite length_app; simpl; lia).
  split; [|split; [|split; [|split]]].
  - unfold Kron_add, Kron_has_data. rewrite Gy. cbn [bind].
    rewrite YA, YB. cbn [is_some andb negb]. rewrite Gx. cbn [bind].
    rewrite XA, XB. cbn [is_some andb deref bind].
    rewrite (tensor_add_new_ok h a a' _ _ Ga Ga' (same_shapeb_T2 HA HA')).
    cbn [bind tzip]. fold A2. fold h1.
    rewrite (tensor_add_new_ok h1 b b' _ _ (get_tensor_ext _ _ _ _ Gb)
               (get_tensor_ext _ _ _ _ Gb') (same_shapeb_T2 HB HB')).
    cbn [bind tzip]. fold B2. fold h2. reflexivity.
  - unfold get_kron. rewrite nth_error_app2, Nat.sub_diag by lia. reflexivity.
  - unfold get_tensor, h2, h1.
    rewrite <- app_assoc, nth_error_app1
      by (rewrite !length_app; simpl; lia).
    rewrite nth_error_app2, Nat.sub_diag by lia. reflexivity.
  - unfold get_tensor.
    rewrite nth_error_app1 by lia. unfold h2.
    rewrite nth_error_app2, Nat.sub_diag by lia. reflexivity.
  - assert (HA2 : is_rect dA dA A2) by (apply zipw2_rect; assumption).
    assert (HB2 : is_rect dB dB B2) by (apply zipw2_rect; assumption).
    pose proof (kron_prod_rect _ _ _ _ HA HB) as R1.
    pose proof (kron_prod_rect _ _ _ _ HA HB') as R2.
    pose proof (kron_prod_rect _ _ _ _ HA' HB) as R3.
    pose proof (kron_prod_rect _ _ _ _ HA' HB') as R4.
    apply (@mat_ext (dA * dB) (dA * dB)).
    + apply kron_prod_rect; assumption.
    + apply zipw2_rect; apply zipw2_rect; assumption.
    + intros i j Hi Hj.
      assert (PB : (0 < dB)%nat) by (destruct dB; [lia | lia]).
      assert (Qi : (i / dB < dA)%nat)
        by (apply Nat.Div0.div_lt_upper_bound; lia).
      assert (Qj : (j / dB < dA)%nat)
        by (apply Nat.Div0.div_lt_upper_bound; lia).
      assert (Mi : (i mod dB < dB)%nat) by (apply Nat.mod_upper_bound; lia).
      assert (Mj : (j mod dB < dB)%nat) by (apply Nat.mod_upper_bound; lia).
      rewrite (mget_zipw2 _ (zipw2_rect Rplus R1 R2) (zipw2_rect Rplus R3 R4) Hi Hj).
      rewrite (mget_zipw2 _ R1 R2 Hi Hj), (mget_zipw2 _ R3 R4 Hi Hj).
      rewrite !(mget_kron_prod dA dB) by assumption.
      unfold A2, B2.
      rewrite (mget_zipw2 _ HA HA' Qi Qj), (mget_zipw2 _ HB HB' Mi Mj). ring.
Qed.

Lemma Kron_add_adds_factors_witness :
  exists h' r lA lB A2 B2,
    Kron_add heap_ema 3%nat 7%nat = Ok (h', r)
    /\ get_kron h' r = Ok (mkKron (Some lA) (Some lB) None None None None)
    /\ get_tensor h' lA = Ok (T2 A2) /\ get_tensor h' lB = Ok (T2 B2)
    /\ kron_prod A2 B2
       = zipw (zipw Rplus)
              (zipw (zipw Rplus) (kron_prod [[1]] [[2]]) (kron_prod [[1]] [[4]]))
              (zipw (zipw Rplus) (kron_prod [[3]] [[2]]) (kron_prod [[3]] [[4]])).
Proof.
  assert (R1 : forall x : R, is_rect 1 1 [[x]])
    by (intros; split; [reflexivity | repeat constructor]).
  apply (Kron_add_adds_factors heap_ema 3%nat 7%nat 0%nat 1%nat 5%nat 6%nat _ _ 1 1
           [[1]] [[2]] [[3]] [[4]] eq_refl eq_refl eq_refl eq_refl eq_refl eq_refl
           eq_refl eq_refl eq_refl eq_refl (R1 _) (R1 _) (R1 _) (R1 _)).
Defined.

(* ================================================================== *)
(** * What the per-unit product computes *)
(* ================================================================== *)

Lemma transpose_column (x : R) (v : vec) :
  transpose (map (fun y => [y]) (x :: v)) = [x :: v].
Proof.
  unfold transpose.
  replace (ncols (map (fun y : R => [y]) (x :: v))) with 1%nat by reflexivity.
  rewrite length_map. unfold mk_mat. cbn [seq map]. f_equal.
  apply (nth_ext _ _ 0 0); [rewrite length_map, length_seq; reflexivity|].
  intros k Hk. rewrite length_map, length_seq in Hk.
  rewrite (nth_map_seq _ 0 (n := length (x :: v)) 0 Hk). unfold mget.
  change (0 + k)%nat with k.
  change ([x] :: map (fun y : R => [y]) v) with (map (fun y : R => [y]) (x :: v)).
  rewrite (nth_map' (fun y : R => [y]) (x :: v) 0 [] Hk).
  reflexivity.
Qed.

(** A matrix times a column, with the column dimension dropped again, is
    the matrix-vector product. *)
Lemma mm_column (A : mat) (v : vec) :
  v <> [] -> map (hd 0) (mm A (map (fun y => [y]) v)) = mv A v.
Proof.
  intros Hv. destruct v as [|x v]; [contradiction|].
  unfold mm. rewrite transpose_column, map_map. reflexivity.
Qed.

Lemma zipw_ext_Forall2 {A B C : Type} (f g : A -> B -> C) (Rel : A -> B -> Prop)
      (l1 : list A) (l2 : list B) :
  Forall2 Rel l1 l2 -> (forall x y, Rel x y -> f x y = g x y) ->
  zipw f l1 l2 = zipw g l1 l2.
Proof.
  intros F E. induction F as [|x y l1 l2 Hxy F IH]; simpl; [reflexivity|].
  rewrite (E _ _ Hxy), IH. reflexivity.
Qed.

Lemma map_zipw_map_r {A B B' C D : Type} (g : C -> D) (f : A -> B -> C)
      (k : B' -> B) (l1 : list A) (l2 : list B') :
  map g (zipw f l1 (map k l2)) = zipw (fun a b => g (f a (k b))) l1 l2.
Proof.
  revert l2; induction l1 as [|x l1 IH]; intros [|y l2]; simpl; [reflexivity..|].
  rewrite IH. reflexivity.
Qed.

Lemma Forall2_blocks_rows (f c : nat) (blocks : list mat) (V : mat) :
  length blocks = f -> Forall (is_rect (S c) (S c)) blocks ->
  is_rect f (S c) V ->
  Forall2 (fun blk row => is_rect (S c) (S c) blk /\ length row = S c) blocks V.
Proof.
  intros L F [LV FV]. subst f. revert V LV FV.
  induction F as [|blk blocks Hb F IH]; intros [|row V] LV FV;
    simpl in LV; try discriminate; constructor.
  - inversion FV; auto.
  - apply IH; [lia | inversion FV; assumption].
Qed.

Lemma forallb_combine_Forall2 {A B : Type} (p : A * B -> bool) (Rel : A -> B -> Prop)
      (l1 : list A) (l2 : list B) :
  Forall2 Rel l1 l2 -> (forall x y, Rel x y -> p (x, y) = true) ->
  forallb p (combine l1 l2) = true.
Proof.
  intros F E. induction F as [|x y l1 l2 Hxy F IH]; simpl; [reflexivity|].
  rewrite (E _ _ Hxy), IH. reflexivity.
Qed.

Lemma Forall2_map_r {A B B' : Type} (Rel : A -> B -> Prop) (k : B' -> B)
      (l1 : list A) (l2 : list B') :
  Forall2 (fun a b => Rel a (k b)) l1 l2 -> Forall2 Rel l1 (map k l2).
Proof. intros F. induction F; simpl; constructor; assumption. Qed.


Lemma zipw_mv_rect (f c : nat) (blocks : list mat) (V : mat) :
  Forall2 (fun blk row => is_rect (S c) (S c) blk /\ length row = S c) blocks V ->
  length blocks = f ->
  is_rect f (S c) (zipw mv blocks V).
Proof.
  intros F L. subst f. induction F as [|blk row blocks V [Hb Hr] F IH]; simpl.
  - split; [reflexivity | constructor].
  - destruct IH as [L' F']. split; [simpl; rewrite L'; reflexivity|].
    constructor; [rewrite mv_length; apply (proj1 Hb) | exact F'].
Qed.

(** X27.  What [UnitWise.mvp] computes on a weight gradient of shape
    [(f, c)] and a bias gradient of length [f], for [f] blocks of size
    [c + 1]: unit by unit, the block times the row of the weight gradient
    with the bias entry appended; the first [c] entries of each product
    are returned as the weight part and the last one as the bias part. *)
Theorem UnitWise_mvp_per_unit (h : heap) (self d : loc) (us : UnitWise)
        (f c : nat) (blocks : list mat) (W : mat) (b : vec) (inplace : bool) :
  get_unit h self = Ok us -> UnitWise_data us = Some d ->
  get_tensor h d = Ok (T3 blocks) ->
  length blocks = f -> Forall (is_rect (S c) (S c)) blocks ->
  is_rect f c W -> length b = f ->
  exists W' b',
    UnitWise_mvp h self (T2 W) (Some (T1 b)) false inplace
    = Ok (mkMvp (T2 W') (Some (T1 b'))
                (if inplace then T2 W' else T2 W)
                (if inplace then Some (T1 b') else Some (T1 b)))
    /\ is_rect f c W' /\ length b' = f
    /\ zipw (fun row x => row ++ [x]) W' b'
       = zipw mv blocks (zipw (fun row x => row ++ [x]) W b).
Proof.
  intros Gu Ed Gd Lf Fb HW Lb.
  set (V := zipw (fun row x => row ++ [x]) W b).
  assert (HV : is_rect f (S c) V) by (apply cat_column_rect; assumption).
  pose proof (Forall2_blocks_rows f c blocks V Lf Fb HV) as F2.
  set (M := zipw mv blocks V).
  pose proof (zipw_mv_rect f c blocks V F2 Lf) as HM.
  assert (EM : map (map (hd 0)) (zipw mm blocks (map (map (fun x => [x])) V)) = M).
  { rewrite map_zipw_map_r. unfold M.
    apply (zipw_ext_Forall2 _ _ _ _ _ F2).
    intros blk row [_ Lr]. apply mm_column. intros ->. discriminate. }
  assert (Hok : forallb (fun mn : mat * mat => mm_okb (fst mn) (snd mn))
                  (combine blocks (map (map (fun x => [x])) V)) = true).
  { apply (forallb_combine_Forall2 _
             (fun blk col => is_rect (S c) (S c) blk /\ is_rect (S c) 1 col)).
    - apply Forall2_map_r.
      eapply Forall2_impl; [|exact F2].
      intros blk row [Hb Lr]. split; [exact Hb|]. split.
      + rewrite length_map. exact Lr.
      + apply Forall_forall. intros r Hr.
        apply in_map_iff in Hr as [y [<- _]]. reflexivity.
    - intros blk col [Hb Hc]. cbn [fst snd].
      apply (mm_okb_rect _ _ _ _ _ Hb Hc). lia. }
  exists (map (@removelast R) M), (map (fun row => last row 0) M).
  split; [|split; [apply (removelast_rect _ _ _ HM)|split]].
  - unfold UnitWise_mvp. rewrite Gu.
    cbn [bind shape size_eq py_of_opt_tensor].
    unfold UnitWise_mvp_cat, hstack_bias.
    destruct HW as [LW FW]. rewrite LW, Lb, Nat.eqb_refl. cbn [bind].
    fold V. rewrite Ed. cbn [opt_tensor]. rewrite Gd.
    cbn [bind unsqueeze2 torch_matmul].
    rewrite !length_map, Lf, (proj1 HV), Nat.eqb_refl.
    match goal with
    | |- context [forallb ?p ?l] =>
        replace (forallb p l) with true by (symmetry; exact Hok)
    end.
    cbn [andb bind squeeze2].
    match goal with
    | |- context [map (map (hd 0)) ?l] =>
        replace (map (map (hd 0)) l) with M by (symmetry; exact EM)
    end.
    destruct inplace; reflexivity.
  - rewrite length_map. apply (proj1 HM).
  - apply (split_last_column _ _ _ HM).
Qed.

(** Two units with 2 x 2 blocks (one weight and one bias each). *)
Definition heap_unit : heap :=
  [ OTensor (T3 [[[1; 2]; [3; 4]]; [[1; 0]; [0; 1]]]);
    OUnit (mkUnitWise (Some 0%nat) None) ].

Lemma UnitWise_mvp_per_unit_witness :
  exists W' b',
    UnitWise_mvp heap_unit 1%nat (T2 [[1]; [5]]) (Some (T1 [1; 6])) false false
    = Ok (mkMvp (T2 W') (Some (T1 b')) (T2 [[1]; [5]]) (Some (T1 [1; 6])))
    /\ is_rect 2 1 W' /\ length b' = 2%nat
    /\ zipw (fun row x => row ++ [x]) W' b'
       = zipw mv [[[1; 2]; [3; 4]]; [[1; 0]; [0; 1]]]
              (zipw (fun row x => row ++ [x]) [[1]; [5]] [1; 6]).
Proof.
  apply (UnitWise_mvp_per_unit heap_unit 1%nat 0%nat _ 2 1
           [[[1; 2]; [3; 4]]; [[1; 0]; [0; 1]]] [[1]; [5]] [1; 6] false
           eq_refl eq_refl eq_refl eq_refl).
  - repeat constructor.
  - split; [reflexivity | repeat constructor].
  - reflexivity.
Defined.
